(** * A shallow embedding of emcee's parallel-tempered sampler

    Source: [emcee/ptsampler.py] (classes [PTPost] and [PTSampler]).

    Numbers.  A Python/numpy float is modelled by [float]: the finite
    values are real numbers, and the three special values [inf], [-inf]
    and [nan] combine as IEEE 754 prescribes.  The temperature ladder,
    whose values the sampler is built on, is computed in rounded
    arithmetic ([fp_env]: rounding to nearest, the error bounds of
    [np.exp] and [np.log], underflow of [np.exp]).  Elsewhere the
    operations are written without their rounding, and the statements
    about them are statements about which operations are applied to
    which values; overflow and the sign of zero are outside the model.

    Arrays.  A numpy array is a [shape] together with the function from
    index vectors to entries; every indexing operation checks its bounds
    and raises [IndexError] as numpy does.  Assignments between arrays of
    different shapes raise [ValueError] (broadcasting is not modelled),
    and an index expression that does not fit the number of axes raises
    [IndexError].

    Objects.  Arrays handed to the sampler by its caller live in a heap
    and are named by locations, so that in-place updates are seen through
    every alias.

    Effects.  Statements run in a state-and-exception monad over a
    [world]: the heap, numpy's random generator, the sampler object and a
    ghost [trace] of the calls made. *)

From Stdlib Require Import Reals Lra Lia ZArith List Bool.
From stdpp Require Import base list.

(* ===================================================================== *)
(** * Part I: the program                                                 *)
(* ===================================================================== *)

(** ** Floating-point values *)

Inductive float : Type :=
| Fin (r : R)
| PInf
| NInf
| NaN.

Definition is_finite (x : float) : bool :=
  match x with Fin _ => true | _ => false end.

(** The product of a non-zero finite number and an infinity is an
    infinity of the product sign; zero times infinity is [nan]. *)
Definition scale_inf (a : R) (positive : bool) : float :=
  if Req_dec_T a 0 then NaN
  else if Rlt_dec 0 a then (if positive then PInf else NInf)
  else (if positive then NInf else PInf).

Definition fneg (x : float) : float :=
  match x with
  | Fin a => Fin (- a)
  | PInf => NInf
  | NInf => PInf
  | NaN => NaN
  end.

Definition fadd (x y : float) : float :=
  match x, y with
  | NaN, _ | _, NaN => NaN
  | Fin a, Fin b => Fin (a + b)
  | PInf, NInf | NInf, PInf => NaN
  | PInf, _ | _, PInf => PInf
  | NInf, _ | _, NInf => NInf
  end.

Definition fsub (x y : float) : float := fadd x (fneg y).

Definition fmul (x y : float) : float :=
  match x, y with
  | NaN, _ | _, NaN => NaN
  | Fin a, Fin b => Fin (a * b)
  | Fin a, PInf | PInf, Fin a => scale_inf a true
  | Fin a, NInf | NInf, Fin a => scale_inf a false
  | PInf, PInf | NInf, NInf => PInf
  | PInf, NInf | NInf, PInf => NInf
  end.

(** numpy division: a zero divisor gives an infinity or [nan], never an
    exception. *)
Definition fdiv (x y : float) : float :=
  match x, y with
  | NaN, _ | _, NaN => NaN
  | Fin a, Fin b =>
      if Req_dec_T b 0 then scale_inf a true else Fin (a / b)
  | Fin _, _ => Fin 0
  | PInf, Fin b => if Rlt_dec b 0 then NInf else PInf
  | NInf, Fin b => if Rlt_dec b 0 then PInf else NInf
  | _, _ => NaN
  end.

(** [x < y]; every comparison with [nan] is false. *)
Definition flt (x y : float) : bool :=
  match x, y with
  | NaN, _ | _, NaN => false
  | Fin a, Fin b => if Rlt_dec a b then true else false
  | NInf, NInf => false
  | NInf, _ => true
  | _, PInf => match x with PInf => false | _ => true end
  | _, _ => false
  end.

(** [x == y]. *)
Definition feq (x y : float) : bool :=
  match x, y with
  | Fin a, Fin b => if Req_dec_T a b then true else false
  | PInf, PInf | NInf, NInf => true
  | _, _ => false
  end.

(** [x <= y]. *)
Definition fle (x y : float) : bool := flt x y || feq x y.

(** [np.log]: [log 0 = -inf], and the logarithm of a negative number is
    [nan]. *)
Definition np_log (x : float) : float :=
  match x with
  | Fin a =>
      if Rlt_dec 0 a then Fin (ln a)
      else if Req_dec_T a 0 then NInf else NaN
  | PInf => PInf
  | NInf | NaN => NaN
  end.

Definition of_Z (z : Z) : float := Fin (IZR z).
Definition of_nat (n : nat) : float := Fin (INR n).

(** [int(x)]: truncation towards zero; [int] of an infinity or of [nan]
    raises, which [None] records. *)
Definition trunc (x : float) : option Z :=
  match x with
  | Fin a => Some (if Rle_dec 0 a then Int_part a else (- Int_part (- a))%Z)
  | _ => None
  end.

(** ** Rounded arithmetic *)

(** The unit roundoff of float64 and the bounds of its normal range. *)
Definition u64 : R := (/ 2 ^ 53)%R.
Definition normal_min : R := (/ 2 ^ 1022)%R.
Definition normal_max : R := (2 ^ 1023)%R.

(** What the statements about the ladder use of the arithmetic of the
    machine.  [rnd x] is the float64 nearest to the real [x]: [0] is a
    float, and within the normal range the relative error is at most
    [u64].  [libm_exp] and [libm_log] are what [np.exp] and [np.log]
    return at a finite float: [exp(0)] is [1]; between [-708] and [0]
    the result of [np.exp] is normal and off by a few units in the last
    place at most; below [-750] the exponential is less than a hundredth
    of the smallest float above [0], and the result is [0]. *)
Record fp_env : Type := {
  rnd : R -> R;
  libm_exp : R -> R;
  libm_log : R -> R;
  rnd_0 : rnd 0%R = 0%R;
  rnd_error : forall x,
    (normal_min <= Rabs x <= normal_max)%R ->
    (Rabs (rnd x - x) <= u64 * Rabs x)%R;
  exp_0 : libm_exp 0%R = 1%R;
  exp_error : forall x,
    (-708 <= x <= 0)%R ->
    (Rabs (libm_exp x - exp x) <= 8 * u64 * exp x)%R;
  exp_underflow : forall x, (x <= -750)%R -> libm_exp x = 0%R;
  log_2 : (Rabs (libm_log 2 - ln 2) <= 8 * u64 * ln 2)%R
}.

(** The result of an operation, rounded. *)
Definition round (fe : fp_env) (x : float) : float :=
  match x with
  | Fin a => Fin (rnd fe a)
  | _ => x
  end.

Definition radd (fe : fp_env) (x y : float) : float := round fe (fadd x y).
Definition rsub (fe : fp_env) (x y : float) : float := round fe (fsub x y).
Definition rmul (fe : fp_env) (x y : float) : float := round fe (fmul x y).
Definition rdiv (fe : fp_env) (x y : float) : float := round fe (fdiv x y).

(** [np.exp] on one value. *)
Definition fexp (fe : fp_env) (x : float) : float :=
  match x with
  | Fin a => Fin (libm_exp fe a)
  | PInf => PInf
  | NInf => Fin 0
  | NaN => NaN
  end.

(** [np.log] on one value, rounded. *)
Definition flog (fe : fp_env) (x : float) : float :=
  match x with
  | Fin a =>
      if Rlt_dec 0 a then Fin (libm_log fe a)
      else if Req_dec_T a 0 then NInf else NaN
  | PInf => PInf
  | NInf | NaN => NaN
  end.

(** ** Exceptions *)

Inductive exn : Type :=
| IndexError
| ValueError
| TypeError
| ZeroDivisionError
| AttributeError
| NameError
| UserError (code : nat).

Inductive res (A : Type) : Type :=
| Ok (a : A)
| Raise (e : exn).
Arguments Ok {A} a.
Arguments Raise {A} e.

Definition res_bind {A B : Type} (r : res A) (k : A -> res B) : res B :=
  match r with
  | Ok a => k a
  | Raise e => Raise e
  end.

(** ** numpy arrays *)

Record ndarray : Type := mkarr {
  shape : list nat;
  data : list nat -> float
}.

(** [ix] is a full index into an array of shape [sh]. *)
Fixpoint in_bounds (sh ix : list nat) : bool :=
  match sh, ix with
  | [], [] => true
  | n :: sh', i :: ix' => (i <? n) && in_bounds sh' ix'
  | _, _ => false
  end.

(** [pre] indexes the leading axes of an array of shape [sh]. *)
Fixpoint is_prefix_index (sh pre : list nat) : bool :=
  match pre, sh with
  | [], _ => true
  | i :: pre', n :: sh' => (i <? n) && is_prefix_index sh' pre'
  | _ :: _, [] => false
  end.

Fixpoint starts_with (pre ix : list nat) : bool :=
  match pre, ix with
  | [], _ => true
  | i :: pre', k :: ix' => (i =? k) && starts_with pre' ix'
  | _ :: _, [] => false
  end.

Definition shape_eqb (s1 s2 : list nat) : bool :=
  if decide (s1 = s2) then true else false.

Definition np_zeros (sh : list nat) : ndarray := mkarr sh (fun _ => Fin 0).

(** A one-dimensional array built from its entries. *)
Definition array1 (n : nat) (f : nat -> float) : ndarray :=
  mkarr [n] (fun ix => match ix with [k] => f k | _ => NaN end).

(** [a[i, j, ...]] with a full index: one entry. *)
Definition item (a : ndarray) (ix : list nat) : res float :=
  if in_bounds (shape a) ix then Ok (data a ix) else Raise IndexError.

(** [a[i, j, ...] = v] with a full index. *)
Definition set_item (a : ndarray) (ix : list nat) (v : float) : res ndarray :=
  if in_bounds (shape a) ix
  then Ok (mkarr (shape a)
             (fun k => if decide (k = ix) then v else data a k))
  else Raise IndexError.

(** [a[i, j, :, :]] and [a[i, j, ...]]: the block below the leading
    index [pre].  [colons] is the number of [:] written after it (none
    with [...]); numpy raises [IndexError] when the array has fewer axes
    than the expression has indices. *)
Definition subarray (a : ndarray) (pre : list nat) (colons : nat)
  : res ndarray :=
  if (length pre + colons <=? length (shape a))
     && is_prefix_index (shape a) pre
  then Ok (mkarr (skipn (length pre) (shape a))
             (fun k => data a (pre ++ k)))
  else Raise IndexError.

(** [a[i, j, :, :] = v] and [a[i, j, ...] = v]: the block is
    overwritten. *)
Definition set_subarray (a : ndarray) (pre : list nat) (colons : nat)
    (v : ndarray) : res ndarray :=
  if (length pre + colons <=? length (shape a))
     && is_prefix_index (shape a) pre then
    if shape_eqb (shape v) (skipn (length pre) (shape a))
    then Ok (mkarr (shape a)
               (fun k => if starts_with pre k
                         then data v (skipn (length pre) k)
                         else data a k))
    else Raise ValueError
  else Raise IndexError.

(** The index vector [k] without its entry at [axis]. *)
Definition drop_axis {A : Type} (axis : nat) (k : list A) : list A :=
  firstn axis k ++ skipn (S axis) k.

(** [a[:, ..., s, ..., :] = v], the index [s] standing at [axis]. *)
Definition set_along (axis : nat) (a : ndarray) (s : nat) (v : ndarray)
  : res ndarray :=
  match shape a !! axis with
  | None => Raise IndexError
  | Some n =>
      if s <? n then
        if shape_eqb (shape v) (drop_axis axis (shape a))
        then Ok (mkarr (shape a)
                   (fun k => if decide (k !! axis = Some s)
                             then data v (drop_axis axis k)
                             else data a k))
        else Raise ValueError
      else Raise IndexError
  end.

(** [np.concatenate((a, b), axis)]. *)
Definition np_concatenate (a b : ndarray) (axis : nat) : res ndarray :=
  match shape a !! axis, shape b !! axis with
  | Some na, Some nb =>
      if shape_eqb (drop_axis axis (shape a)) (drop_axis axis (shape b))
         && (length (shape a) =? length (shape b))
      then Ok (mkarr (<[axis := na + nb]> (shape a))
                 (fun k => match k !! axis with
                           | Some s => if s <? na then data a k
                                       else data b (<[axis := s - na]> k)
                           | None => NaN
                           end))
      else Raise ValueError
  | _, _ => Raise ValueError
  end.

(** Elementwise application, as [np.exp(a)]. *)
Definition np_map (f : float -> float) (a : ndarray) : ndarray :=
  mkarr (shape a) (fun k => f (data a k)).

Definition np_exp (fe : fp_env) : ndarray -> ndarray := np_map (fexp fe).

(** Elementwise [a / b] for arrays of one shape. *)
Definition np_divide (a b : ndarray) : res ndarray :=
  if shape_eqb (shape a) (shape b)
  then Ok (mkarr (shape a) (fun k => fdiv (data a k) (data b k)))
  else Raise ValueError.

(** [np.linspace(start, stop, num)] as numpy computes it: nothing for
    [num <= 0], [start] alone for [num = 1], and otherwise the points
    [k * step + start] with the last one overwritten by [stop].  Every
    operation rounds; the integers [k] and [num - 1] are floats as they
    are (every integer below [2^53] is). *)
Definition np_linspace (fe : fp_env) (start stop : float) (num : nat)
  : ndarray :=
  match num with
  | 0 => array1 0 (fun _ => NaN)
  | 1 => array1 1 (fun _ => start)
  | _ =>
      let step := rdiv fe (rsub fe stop start) (of_nat (num - 1)) in
      array1 num (fun k => if k =? num - 1 then stop
                           else radd fe (rmul fe (of_nat k) step) start)
  end.

(** ** The temperature ladder (ptsampler.py, line 109) *)

Definition exponential_beta_ladder (fe : fp_env) (ntemps : nat) : ndarray :=
  np_exp fe
    (np_linspace fe (Fin 0)
       (rmul fe (rmul fe (of_Z (- (Z.of_nat ntemps - 1))) (Fin (1 / 2)))
                (flog fe (Fin 2)))
       ntemps).

(** ** Python ranges *)

(** [range(n)]. *)
Definition range (n : nat) : list nat := seq 0 n.

(** [range(start, stop, step)] with Python's element count. *)
Definition range3 (start stop step : Z) : list Z :=
  let n :=
    if (0 <? step)%Z then Z.max 0 ((stop - start + step - 1) / step)
    else if (step <? 0)%Z then Z.max 0 ((start - stop - step - 1) / (- step))
    else 0%Z in
  map (fun k => (start + Z.of_nat k * step)%Z) (seq 0 (Z.to_nat n)).

(** ** The world *)

(** Locations are positions in the heap. *)
Abbreviation loc := nat (only parsing).

(** A draw of [numpy.random.rand()], which lies in [[0, 1)]. *)
Record unit_draw : Type := {
  uval : R;
  uval_range : (0 <= uval < 1)%R
}.

(** numpy's global generator, given by the values its coming calls will
    return: [randint(n)] takes the next entry of [ints] modulo [n],
    [rand()] the next entry of [unifs]. *)
Record rng_state : Type := {
  ints : nat -> nat;
  ipos : nat;
  unifs : nat -> unit_draw;
  upos : nat
}.

(** The calls a run makes, in order (ghost state). *)
Inductive event : Type :=
| EvLogp (x : ndarray)
| EvLogl (x : ndarray)
| EvAdvance (j : nat)
| EvExchange
| EvTrial (i ii jj : nat) (paccept : float) (accepted : bool)
| EvRecord (step isave : nat)
| EvYield (p lnprob logl : loc).

(** A user-supplied log-prior or log-likelihood: it returns a float or
    raises. *)
Definition callback : Type := ndarray -> res float.

(** [PTPost] (line 13). *)
Record PTPost : Type := {
  _logl : callback;
  _logp : callback;
  _beta : float
}.

(** Modelled from the spec: [emcee.EnsembleSampler], the
    single-temperature sampler each rung is advanced by (the Advancer of
    section 4.3), whose source is not at hand.  A call
    [s.sample(p, lnprob0=.., blobs0=.., storechain=False)] runs its
    default single iteration and so yields once: [es_sample] gives what
    the [n]-th call yields (positions, log-posteriors, blobs), or the
    exception it raises; [es_calls] counts the calls made so far. *)
Record EnsembleSampler : Type := {
  es_sample : nat -> ndarray -> ndarray -> ndarray
              -> res (ndarray * ndarray * ndarray);
  es_calls : nat
}.

(** The attributes of a [PTSampler] object (line 83). *)
Record PTSampler : Type := {
  logl : callback;
  logp : callback;
  ntemps : nat;
  nwalkers : nat;
  dim : nat;
  _chain : option ndarray;
  _lnprob : option ndarray;
  _lnlikelihood : option ndarray;
  _betas : ndarray;
  nswap : ndarray;
  nswap_accepted : ndarray;
  samplers : list EnsembleSampler
}.

Record world : Type := {
  heap : list ndarray;
  rng : rng_state;
  trace : list event;
  self : PTSampler
}.

Definition set_heap (h : list ndarray) (w : world) : world :=
  {| heap := h; rng := rng w; trace := trace w; self := self w |}.
Definition set_rng (g : rng_state) (w : world) : world :=
  {| heap := heap w; rng := g; trace := trace w; self := self w |}.
Definition set_trace (t : list event) (w : world) : world :=
  {| heap := heap w; rng := rng w; trace := t; self := self w |}.
Definition set_self (s : PTSampler) (w : world) : world :=
  {| heap := heap w; rng := rng w; trace := trace w; self := s |}.

Definition set_nswap (a : ndarray) (s : PTSampler) : PTSampler :=
  {| logl := logl s; logp := logp s; ntemps := ntemps s;
     nwalkers := nwalkers s; dim := dim s; _chain := _chain s;
     _lnprob := _lnprob s; _lnlikelihood := _lnlikelihood s;
     _betas := _betas s; nswap := a; nswap_accepted := nswap_accepted s;
     samplers := samplers s |}.
Definition set_nswap_accepted (a : ndarray) (s : PTSampler) : PTSampler :=
  {| logl := logl s; logp := logp s; ntemps := ntemps s;
     nwalkers := nwalkers s; dim := dim s; _chain := _chain s;
     _lnprob := _lnprob s; _lnlikelihood := _lnlikelihood s;
     _betas := _betas s; nswap := nswap s; nswap_accepted := a;
     samplers := samplers s |}.
Definition set_samplers (l : list EnsembleSampler) (s : PTSampler)
  : PTSampler :=
  {| logl := logl s; logp := logp s; ntemps := ntemps s;
     nwalkers := nwalkers s; dim := dim s; _chain := _chain s;
     _lnprob := _lnprob s; _lnlikelihood := _lnlikelihood s;
     _betas := _betas s; nswap := nswap s;
     nswap_accepted := nswap_accepted s; samplers := l |}.
Definition set_chain (c : option ndarray) (s : PTSampler) : PTSampler :=
  {| logl := logl s; logp := logp s; ntemps := ntemps s;
     nwalkers := nwalkers s; dim := dim s; _chain := c;
     _lnprob := _lnprob s; _lnlikelihood := _lnlikelihood s;
     _betas := _betas s; nswap := nswap s;
     nswap_accepted := nswap_accepted s; samplers := samplers s |}.
Definition set_lnprob (c : option ndarray) (s : PTSampler) : PTSampler :=
  {| logl := logl s; logp := logp s; ntemps := ntemps s;
     nwalkers := nwalkers s; dim := dim s; _chain := _chain s;
     _lnprob := c; _lnlikelihood := _lnlikelihood s;
     _betas := _betas s; nswap := nswap s;
     nswap_accepted := nswap_accepted s; samplers := samplers s |}.
Definition set_lnlikelihood (c : option ndarray) (s : PTSampler)
  : PTSampler :=
  {| logl := logl s; logp := logp s; ntemps := ntemps s;
     nwalkers := nwalkers s; dim := dim s; _chain := _chain s;
     _lnprob := _lnprob s; _lnlikelihood := c;
     _betas := _betas s; nswap := nswap s;
     nswap_accepted := nswap_accepted s; samplers := samplers s |}.

(** ** The monad of statements *)

Definition M (A : Type) : Type := world -> world * res A.

Definition ret {A : Type} (a : A) : M A := fun w => (w, Ok a).

Definition bind {A B : Type} (m : M A) (k : A -> M B) : M B :=
  fun w =>
    match m w with
    | (w', Ok a) => k a w'
    | (w', Raise e) => (w', Raise e)
    end.

Definition raise {A : Type} (e : exn) : M A := fun w => (w, Raise e).

Definition lift {A : Type} (r : res A) : M A := fun w => (w, r).

Notation "x <- m ;; k" := (bind m (fun x => k))
  (at level 20, m at level 99, k at level 200, only parsing).
Notation "' pat <- m ;; k" := (bind m (fun x => match x with pat => k end))
  (at level 20, pat pattern, m at level 99, k at level 200, only parsing).
Notation "m ;; k" := (bind m (fun _ => k))
  (at level 100, k at level 200, only parsing, right associativity).

(** [for x in l: body(x)]. *)
Fixpoint for_each {A : Type} (l : list A) (body : A -> M unit) : M unit :=
  match l with
  | [] => ret tt
  | x :: l' => body x ;; for_each l' body
  end.

(** A loop that carries local variables [s] from one round to the next. *)
Fixpoint for_fold {A S : Type} (l : list A) (s : S) (body : S -> A -> M S)
  : M S :=
  match l with
  | [] => ret s
  | x :: l' => s' <- body s x ;; for_fold l' s' body
  end.

(** [[f(x) for x in l]]. *)
Fixpoint for_map {A B : Type} (l : list A) (f : A -> M B) : M (list B) :=
  match l with
  | [] => ret []
  | x :: l' => y <- f x ;; ys <- for_map l' f ;; ret (y :: ys)
  end.

Definition log (e : event) : M unit :=
  fun w => (set_trace (trace w ++ [e]) w, Ok tt).

(** Reading an attribute of [self]. *)
Definition attr {A : Type} (f : PTSampler -> A) : M A :=
  fun w => (w, Ok (f (self w))).

Definition update_self (f : PTSampler -> PTSampler) : M unit :=
  fun w => (set_self (f (self w)) w, Ok tt).

(** *** Arrays in the heap *)

(** The array a location names.  Every name of a running program is
    bound; a location outside the heap is reported as [NameError]. *)
Definition deref (l : loc) : M ndarray :=
  fun w => (w, match heap w !! l with
               | Some a => Ok a
               | None => Raise NameError
               end).

(** In-place update of the array at [l]. *)
Definition assign (l : loc) (a : ndarray) : M unit :=
  fun w => (set_heap (<[l := a]> (heap w)) w, Ok tt).

(** A newly created array. *)
Definition new_array (a : ndarray) : M loc :=
  fun w => (set_heap (heap w ++ [a]) w, Ok (length (heap w))).

Definition getitem (l : loc) (ix : list nat) : M float :=
  a <- deref l ;; lift (item a ix).

Definition setitem (l : loc) (ix : list nat) (v : float) : M unit :=
  a <- deref l ;; a' <- lift (set_item a ix v) ;; assign l a'.

Definition getsub (l : loc) (pre : list nat) (colons : nat) : M ndarray :=
  a <- deref l ;; lift (subarray a pre colons).

Definition setsub (l : loc) (pre : list nat) (colons : nat) (v : ndarray)
  : M unit :=
  a <- deref l ;; a' <- lift (set_subarray a pre colons v) ;; assign l a'.

(** *** numpy.random *)

Definition nr_randint (n : nat) : M nat :=
  fun w =>
    if n =? 0 then (w, Raise ValueError)
    else
      let g := rng w in
      (set_rng {| ints := ints g; ipos := S (ipos g);
                  unifs := unifs g; upos := upos g |} w,
       Ok (ints g (ipos g) mod n)).

Definition nr_rand : M float :=
  fun w =>
    let g := rng w in
    (set_rng {| ints := ints g; ipos := ipos g;
                unifs := unifs g; upos := S (upos g) |} w,
     Ok (Fin (uval (unifs g (upos g))))).

(** ** [PTPost.__call__] (line 29) *)

Definition PTPost_call (f : PTPost) (x : ndarray) : M (float * float) :=
  log (EvLogp x) ;;
  lp <- lift (_logp f x) ;;
  if feq lp NInf then ret (lp, lp)
  else
    log (EvLogl x) ;;
    ll <- lift (_logl f x) ;;
    ret (fadd (fmul (_beta f) ll) lp, ll).

(** ** [PTSampler.__init__] (line 83) *)

(** The entries of a one-dimensional array, as [for b in a] visits them. *)
Definition elements (a : ndarray) : res (list float) :=
  match shape a with
  | [n] => Ok (map (fun k => data a [k]) (range n))
  | _ => Raise TypeError
  end.

(** [new_ensemble nwalkers dim post] stands for the constructor call
    [em.EnsembleSampler(nwalkers, dim, post, pool=self.pool)]; [fe] is
    the arithmetic of the machine the call runs on.  The sampler is
    built with the defaults [threads=1] and [pool=None], so [self.pool]
    is [None]. *)
Definition PTSampler_init (fe : fp_env) (ntemps nwalkers dim : nat)
    (logl logp : callback) (betas : option ndarray)
    (new_ensemble : nat -> nat -> PTPost -> EnsembleSampler)
  : res PTSampler :=
  let betas' := match betas with
                | None => exponential_beta_ladder fe ntemps
                | Some b => b
                end in
  res_bind (elements betas') (fun bs =>
  Ok {| logl := logl; logp := logp;
        ntemps := ntemps; nwalkers := nwalkers; dim := dim;
        _chain := None; _lnprob := None; _lnlikelihood := None;
        _betas := betas';
        nswap := np_zeros [ntemps];
        nswap_accepted := np_zeros [ntemps];
        samplers :=
          map (fun b => new_ensemble nwalkers dim
                          {| _logl := logl; _logp := logp; _beta := b |})
              bs |}).

(** ** [PTSampler._temperature_swaps] (line 215) *)

(** [a[i] += 1]. *)
Definition iadd1 (a : ndarray) (i : nat) : res ndarray :=
  res_bind (item a [i]) (fun x => set_item a [i] (fadd x (Fin 1))).

(** [self.nswap[i] += 1]. *)
Definition incr_nswap (i : nat) : M unit :=
  a <- attr nswap ;;
  a' <- lift (iadd1 a i) ;;
  update_self (set_nswap a').

(** [self.nswap_accepted[i] += 1]. *)
Definition incr_nswap_accepted (i : nat) : M unit :=
  a <- attr nswap_accepted ;;
  a' <- lift (iadd1 a i) ;;
  update_self (set_nswap_accepted a').

(** [self.betas[i]]. *)
Definition betas_item (i : nat) : M float :=
  b <- attr _betas ;; lift (item b [i]).

(** The test of line 236; [or] evaluates [nr.rand()] only when
    [paccept > 0] fails. *)
Definition accept_test (paccept : float) : M bool :=
  if flt (Fin 0) paccept then ret true
  else u <- nr_rand ;; ret (flt (np_log u) paccept).

(** Lines 240 to 250: the two walkers change places. *)
Definition swap_walkers (p lnprob logl : loc) (i ii jj : nat) (dbeta : float)
  : M unit :=
  ptemp <- getsub p [i; ii] 1 ;;
  logltemp <- getitem logl [i; ii] ;;
  lnprobtemp <- getitem lnprob [i; ii] ;;
  pj <- getsub p [i - 1; jj] 1 ;;
  setsub p [i; ii] 1 pj ;;
  lj <- getitem logl [i - 1; jj] ;;
  setitem logl [i; ii] lj ;;
  qj <- getitem lnprob [i - 1; jj] ;;
  lj' <- getitem logl [i - 1; jj] ;;
  setitem lnprob [i; ii] (fsub qj (fmul dbeta lj')) ;;
  setsub p [i - 1; jj] 1 ptemp ;;
  setitem logl [i - 1; jj] logltemp ;;
  setitem lnprob [i - 1; jj] (fadd lnprobtemp (fmul dbeta logltemp)).

(** One round of the loop of line 227. *)
Definition swap_trial (p lnprob logl : loc) (i : nat) (dbeta : float)
  : M unit :=
  incr_nswap i ;;
  incr_nswap (i - 1) ;;
  nw <- attr nwalkers ;;
  ii <- nr_randint nw ;;
  nw' <- attr nwalkers ;;
  jj <- nr_randint nw' ;;
  li <- getitem logl [i; ii] ;;
  lj <- getitem logl [i - 1; jj] ;;
  let paccept := fmul dbeta (fsub li lj) in
  accepted <- accept_test paccept ;;
  log (EvTrial i ii jj paccept accepted) ;;
  if accepted then
    incr_nswap_accepted i ;;
    incr_nswap_accepted (i - 1) ;;
    swap_walkers p lnprob logl i ii jj dbeta
  else ret tt.

(** One round of the loop of line 221. *)
Definition swap_boundary (p lnprob logl : loc) (i : nat) : M unit :=
  bi <- betas_item i ;;
  bi1 <- betas_item (i - 1) ;;
  let dbeta := fsub bi1 bi in
  nw <- attr nwalkers ;;
  for_each (range nw) (fun _ => swap_trial p lnprob logl i dbeta).

Definition _temperature_swaps (p lnprob logl : loc) : M (loc * loc * loc) :=
  log EvExchange ;;
  nt <- attr ntemps ;;
  for_each (map Z.to_nat (range3 (Z.of_nat nt - 1) 0 (-1)))
           (swap_boundary p lnprob logl) ;;
  ret (p, lnprob, logl).

(** ** [PTSampler.sample] (line 129) *)

(** The rows [a[0], a[1], ...] that iterating over [a] visits. *)
Definition rows (a : ndarray) : res (list ndarray) :=
  match shape a with
  | [] => Raise TypeError
  | n :: sh => Ok (map (fun k => mkarr sh (fun ix => data a (k :: ix)))
                       (range n))
  end.

(** [np.array(l)] for a list of floats. *)
Definition array_of_list (l : list float) : ndarray :=
  array1 (length l) (fun k => nth k l NaN).

(** Lines 166 to 180: the log-posteriors and log-likelihoods of the
    initial positions, computed unless the caller gave both.  The
    sampler has no pool ([PTSampler_init]), so line 172 is the branch
    taken: the built-in [map] calls [fn] on the walkers in their order.
    (A pool's [map] is handed the same function and the same walkers and
    returns the same values, but makes the calls in an order of its
    own.) *)
Definition sample_init (p : loc) (lnprob0 lnlike0 : option loc)
  : M (loc * loc) :=
  match lnprob0, lnlike0 with
  | Some a, Some b => ret (a, b)
  | _, _ =>
      nt <- attr ntemps ;;
      nw <- attr nwalkers ;;
      lnprob0' <- new_array (np_zeros [nt; nw]) ;;
      lnlike0' <- new_array (np_zeros [nt; nw]) ;;
      for_each (range nt) (fun i =>
        fl <- attr logl ;;
        fp <- attr logp ;;
        b <- betas_item i ;;
        let fn := {| _logl := fl; _logp := fp; _beta := b |} in
        pi <- getsub p [i] 2 ;;
        xs <- lift (rows pi) ;;
        results <- for_map xs (PTPost_call fn) ;;
        setsub lnprob0' [i] 1 (array_of_list (map fst results)) ;;
        setsub lnlike0' [i] 1 (array_of_list (map snd results))) ;;
      ret (lnprob0', lnlike0')
  end.

(** [np.concatenate((c, np.zeros(sh)), axis=2)] for an attribute that
    holds [c]; [None] is not an array. *)
Definition grow (c : option ndarray) (sh : list nat) : res (option ndarray) :=
  match c with
  | None => Raise ValueError
  | Some a => res_bind (np_concatenate a (np_zeros sh) 2)
                       (fun a' => Ok (Some a'))
  end.

(** Lines 183 to 195: room for the steps this call will record.  The
    result is [isave], the first free slot. *)
Definition sample_expand (iterations thin : nat) : M nat :=
  if thin =? 0 then raise ZeroDivisionError
  else
    let nsave := iterations / thin in
    nt <- attr ntemps ;;
    nw <- attr nwalkers ;;
    d <- attr dim ;;
    c <- attr _chain ;;
    match c with
    | None =>
        update_self (set_chain (Some (np_zeros [nt; nw; nsave; d]))) ;;
        update_self (set_lnprob (Some (np_zeros [nt; nw; nsave]))) ;;
        update_self (set_lnlikelihood (Some (np_zeros [nt; nw; nsave]))) ;;
        ret 0
    | Some ch =>
        match shape ch !! 2 with
        | None => raise IndexError
        | Some isave =>
            c' <- lift (grow (Some ch) [nt; nw; nsave; d]) ;;
            update_self (set_chain c') ;;
            lp <- attr _lnprob ;;
            lp' <- lift (grow lp [nt; nw; nsave]) ;;
            update_self (set_lnprob lp') ;;
            ll <- attr _lnlikelihood ;;
            ll' <- lift (grow ll [nt; nw; nsave]) ;;
            update_self (set_lnlikelihood ll') ;;
            ret isave
        end
    end.

(** The local variables of the generator. *)
Record locals : Type := {
  l_p : loc;
  l_lnprob : loc;
  l_logl : loc;
  l_isave : nat
}.

(** Lines 198 to 202 for one [j]: rung [j] is advanced by its ensemble
    sampler and the result written back in place. *)
Definition advance_rung (p lnprob logl : loc) (j : nat) : M unit :=
  ss <- attr samplers ;;
  match ss !! j with
  | None => raise IndexError
  | Some s =>
      pj <- getsub p [j] 0 ;;
      lpj <- getsub lnprob [j] 0 ;;
      llj <- getsub logl [j] 0 ;;
      log (EvAdvance j) ;;
      update_self (set_samplers
        (<[j := {| es_sample := es_sample s; es_calls := S (es_calls s) |}]>
           ss)) ;;
      ' (psamp, lnprobsamp, loglsamp) <-
          lift (es_sample s (es_calls s) pj lpj llj) ;;
      setsub p [j] 0 psamp ;;
      setsub lnprob [j] 0 lnprobsamp ;;
      setsub logl [j] 0 loglsamp
  end.

(** [x[:, :, isave, ...] = v] for an attribute that holds [x]. *)
Definition record_into (x : option ndarray) (isave : nat) (v : ndarray)
  : res (option ndarray) :=
  match x with
  | None => Raise TypeError
  | Some a => res_bind (set_along 2 a isave v) (fun a' => Ok (Some a'))
  end.

(** Lines 207 to 211. *)
Definition record (p lnprob logl : loc) (isave : nat) : M unit :=
  c <- attr _chain ;;
  pv <- deref p ;;
  c' <- lift (record_into c isave pv) ;;
  update_self (set_chain c') ;;
  lp <- attr _lnprob ;;
  lpv <- deref lnprob ;;
  lp' <- lift (record_into lp isave lpv) ;;
  update_self (set_lnprob lp') ;;
  ll <- attr _lnlikelihood ;;
  llv <- deref logl ;;
  ll' <- lift (record_into ll isave llv) ;;
  update_self (set_lnlikelihood ll').

(** One round of the loop of line 197, up to and including its [yield]. *)
Definition sample_step (thin : nat) (storechain : bool) (l : locals) (i : nat)
  : M locals :=
  ss <- attr samplers ;;
  for_each (range (length ss))
           (advance_rung (l_p l) (l_lnprob l) (l_logl l)) ;;
  ' (p, lnprob, logl) <- _temperature_swaps (l_p l) (l_lnprob l) (l_logl l) ;;
  (if thin =? 0 then raise ZeroDivisionError else ret tt) ;;
  isave <- (if (i + 1) mod thin =? 0 then
              if storechain then
                log (EvRecord (i + 1) (l_isave l)) ;;
                record p lnprob logl (l_isave l) ;;
                ret (l_isave l + 1)
              else ret (l_isave l)
            else ret (l_isave l)) ;;
  log (EvYield p lnprob logl) ;;
  ret {| l_p := p; l_lnprob := lnprob; l_logl := logl; l_isave := isave |}.

(** Lines 163 to 195: what runs before the loop. *)
Definition sample_prologue (p0 : loc) (lnprob0 lnlike0 : option loc)
    (iterations thin : nat) (storechain : bool) : M locals :=
  ' (lnprob, logl) <- sample_init p0 lnprob0 lnlike0 ;;
  isave <- (if storechain then sample_expand iterations thin else ret 0) ;;
  ret {| l_p := p0; l_lnprob := lnprob; l_logl := logl; l_isave := isave |}.

(** The generator [sample(...)] driven through its first [k] yields: the
    prologue and the first [k] rounds of the loop over
    [range(iterations)].  A generator runs nothing before its first
    [next()], which runs the prologue and the first round; so
    [sample_upto 0] is not a state a caller can stop the generator in,
    but the state in which the first [next()] enters the loop. *)
Definition sample_upto (k : nat) (p0 : loc) (lnprob0 lnlike0 : option loc)
    (iterations thin : nat) (storechain : bool) : M locals :=
  l <- sample_prologue p0 lnprob0 lnlike0 iterations thin storechain ;;
  for_fold (firstn k (range iterations)) l (sample_step thin storechain).

(** The generator run to exhaustion, as [for _ in sampler.sample(...)]. *)
Definition sample (p0 : loc) (lnprob0 lnlike0 : option loc)
    (iterations thin : nat) (storechain : bool) : M locals :=
  sample_upto iterations p0 lnprob0 lnlike0 iterations thin storechain.

(** ** [PTSampler.tswap_acceptance_fraction] (line 279) *)

Definition tswap_acceptance_fraction : M ndarray :=
  a <- attr nswap_accepted ;;
  n <- attr nswap ;;
  lift (np_divide a n).

(** ** [PTSampler.thermodynamic_integration_log_evidence] (line 306) *)

(** The index vector [k] with [s] put in at [axis]. *)
Definition put_axis (axis s : nat) (k : list nat) : list nat :=
  firstn axis k ++ s :: skipn axis k.

Definition fsum (l : list float) : float := fold_left fadd l (Fin 0).

(** [np.mean(a, axis)]. *)
Definition np_mean (a : ndarray) (axis : nat) : res ndarray :=
  match shape a !! axis with
  | None => Raise ValueError
  | Some n =>
      Ok (mkarr (drop_axis axis (shape a))
            (fun k => fdiv (fsum (map (fun s => data a (put_axis axis s k))
                                      (range n)))
                           (of_nat n)))
  end.

(** Where the slice [start:] of an axis of length [n] begins. *)
Definition slice_start (start : Z) (n : nat) : nat :=
  if (start <? 0)%Z then Z.to_nat (Z.max 0 (Z.of_nat n + start))
  else Nat.min (Z.to_nat start) n.

(** [a[:, start:]]. *)
Definition slice_from (a : ndarray) (start : Z) : res ndarray :=
  match shape a with
  | r :: n :: sh =>
      let b := slice_start start n in
      Ok (mkarr (r :: (n - b) :: sh)
            (fun k => match k with
                      | i :: s :: k' => data a (i :: (s + b) :: k')
                      | _ => NaN
                      end))
  | _ => Raise IndexError
  end.

(** [np.concatenate(a, 0)] with an array in the place of the sequence of
    arrays: the arrays joined are the rows of [a].  numpy refuses an
    empty sequence and refuses to join zero-dimensional arrays. *)
Definition np_concatenate_rows (a : ndarray) : res ndarray :=
  res_bind (rows a) (fun l =>
    match l with
    | [] => Raise ValueError
    | x :: l' =>
        match shape x with
        | [] => Raise ValueError
        | _ :: _ =>
            fold_left
              (fun acc y => res_bind acc (fun z => np_concatenate z y 0))
              l' (Ok x)
        end
    end).

(** [int(n * fburnin) + 1] of line 328. *)
Definition burnin_start (n : nat) (fburnin : float) : res Z :=
  match trunc (fmul (of_nat n) fburnin) with
  | Some z => Ok (z + 1)%Z
  | None => Raise ValueError
  end.

(** Lines 326 to 330: what follows the first statement.  The body ends
    with the assignment to [mean_logls]; there is no [return], so the
    call evaluates to Python's [None]. *)
Definition evidence_tail (fburnin : float) : M (option float) :=
  logls <- attr _lnlikelihood ;;
  match logls with
  | None => raise AttributeError
  | Some a =>
      match shape a !! 2 with
      | None => raise IndexError
      | Some n =>
          istart <- lift (burnin_start n fburnin) ;;
          m <- lift (np_mean a 1) ;;
          m' <- lift (slice_from m istart) ;;
          mean_logls <- lift (np_mean m' 1) ;;
          ret None
      end
  end.

Definition thermodynamic_integration_log_evidence (fburnin : float)
  : M (option float) :=
  b <- attr _betas ;;
  betas <- lift (np_concatenate_rows b) ;;
  evidence_tail fburnin.

(** ** Specifications *)

(** [wp m Q E w]: run from [w], the statement [m] either returns a value
    and a world that satisfy [Q], or raises in a world that satisfies
    [E]. *)
Definition wp {A : Type} (m : M A) (Q : A -> world -> Prop)
    (E : world -> Prop) (w : world) : Prop :=
  match m w with
  | (w', Ok a) => Q a w'
  | (w', Raise _) => E w'
  end.

(** The statement [m] returns normally from [w]. *)
Definition returns {A : Type} (m : M A) (w : world) (a : A) (w' : world)
  : Prop := m w = (w', Ok a).

(** The heap [h] holds at [l] an array of shape [sh]. *)
Definition has_shape (h : list ndarray) (l : loc) (sh : list nat) : Prop :=
  exists a, h !! l = Some a /\ shape a = sh.

(** The ladder and the swap counters have one entry per rung. *)
Definition sampler_wf (s : PTSampler) : Prop :=
  shape (_betas s) = [ntemps s]
  /\ shape (nswap s) = [ntemps s]
  /\ shape (nswap_accepted s) = [ntemps s].

(** The three arrays of the joint state have the documented shapes
    [(ntemps, nwalkers, dim)], [(ntemps, nwalkers)] and
    [(ntemps, nwalkers)], and the last two are different objects. *)
Definition state_wf (w : world) (p lnprob logl : loc) : Prop :=
  sampler_wf (self w)
  /\ lnprob <> logl
  /\ has_shape (heap w) p
       [ntemps (self w); nwalkers (self w); dim (self w)]
  /\ has_shape (heap w) lnprob [ntemps (self w); nwalkers (self w)]
  /\ has_shape (heap w) logl [ntemps (self w); nwalkers (self w)].

(** What an accepted trial leaves in the three arrays [P'], [Q'], [L']
    (positions, log-posteriors, log-likelihoods), given what they held
    before. *)
Definition swapped (i ii jj : nat) (dbeta : float)
    (P Q L P' Q' L' : ndarray) : Prop :=
  shape P' = shape P /\ shape Q' = shape Q /\ shape L' = shape L
  /\ (forall k, data P' k =
        if starts_with [i - 1; jj] k then data P ([i; ii] ++ skipn 2 k)
        else if starts_with [i; ii] k then data P ([i - 1; jj] ++ skipn 2 k)
        else data P k)
  /\ (forall k, data L' k =
        if decide (k = [i - 1; jj]) then data L [i; ii]
        else if decide (k = [i; ii]) then data L [i - 1; jj]
        else data L k)
  /\ (forall k, data Q' k =
        if decide (k = [i - 1; jj])
        then fadd (data Q [i; ii]) (fmul dbeta (data L [i; ii]))
        else if decide (k = [i; ii])
        then fsub (data Q [i - 1; jj]) (fmul dbeta (data L [i - 1; jj]))
        else data Q k).

(** [s'] is [s] up to the values of the swap counters. *)
Definition same_but_counters (s s' : PTSampler) : Prop :=
  logl s' = logl s /\ logp s' = logp s
  /\ ntemps s' = ntemps s /\ nwalkers s' = nwalkers s /\ dim s' = dim s
  /\ _chain s' = _chain s /\ _lnprob s' = _lnprob s
  /\ _lnlikelihood s' = _lnlikelihood s
  /\ _betas s' = _betas s /\ samplers s' = samplers s
  /\ shape (nswap s') = shape (nswap s)
  /\ shape (nswap_accepted s') = shape (nswap_accepted s).

(** The outcome of one trial, read off the world it starts from. *)
Definition trial_ii (w : world) : nat :=
  ints (rng w) (ipos (rng w)) mod nwalkers (self w).
Definition trial_jj (w : world) : nat :=
  ints (rng w) (S (ipos (rng w))) mod nwalkers (self w).
Definition trial_paccept (i : nat) (dbeta : float) (L : ndarray) (w : world)
  : float :=
  fmul dbeta (fsub (data L [i; trial_ii w]) (data L [i - 1; trial_jj w])).
Definition trial_accepted (i : nat) (dbeta : float) (L : ndarray) (w : world)
  : bool :=
  flt (Fin 0) (trial_paccept i dbeta L w)
  || flt (np_log (Fin (uval (unifs (rng w) (upos (rng w))))))
         (trial_paccept i dbeta L w).

(** The statement [m] leaves the sampler object as it is, whether it
    returns or raises. *)
Definition keeps_self {A : Type} (m : M A) : Prop :=
  forall w, self (fst (m w)) = self w.

(** Every accepted count, with [d i] added, is at most the attempted
    count. *)
Definition counters_slack (d : nat -> nat) (s : PTSampler) : Prop :=
  forall i, exists a n : nat,
    data (nswap_accepted s) [i] = of_nat a
    /\ data (nswap s) [i] = of_nat n
    /\ a + d i <= n.

(** Every accepted count is at most the attempted count, and both are
    natural numbers. *)
Definition counters_ok (s : PTSampler) : Prop :=
  counters_slack (fun _ => 0) s.

(** [d] with one more at [i]. *)
Definition bump (i : nat) (d : nat -> nat) : nat -> nat :=
  fun k => if decide (k = i) then S (d k) else d k.

(** The counters after a trial, however it ends. *)
Definition counters_kept (s : PTSampler) (w' : world) : Prop :=
  counters_ok (self w') /\ same_but_counters s (self w').

(** The sampler objects that construction followed by exchange calls can
    produce; between the calls anything may happen to the object that
    leaves its counters alone. *)
Inductive exchanged : PTSampler -> Prop :=
| exchanged_init fe nt nw d fl fp betas mk s :
    PTSampler_init fe nt nw d fl fp betas mk = Ok s -> exchanged s
| exchanged_swaps w p lnprob logl :
    exchanged (self w) ->
    exchanged (self (fst (_temperature_swaps p lnprob logl w)))
| exchanged_other s s' :
    exchanged s ->
    ntemps s' = ntemps s -> nswap s' = nswap s ->
    nswap_accepted s' = nswap_accepted s ->
    exchanged s'.

(** The boundary a trial event belongs to. *)
Definition event_boundary (e : event) : option nat :=
  match e with
  | EvTrial i _ _ _ _ => Some i
  | _ => None
  end.

(** The boundaries of one exchange call, one entry per trial. *)
Definition swap_schedule (nt nw : nat) : list nat :=
  flat_map (fun i => repeat i nw) (rev (seq 1 (nt - 1))).

(** [h'] comes from [h] by in-place updates of the arrays at [touched]
    and by allocation: shapes are kept and the other arrays are
    unchanged. *)
Definition heap_evolves (touched : list loc) (h h' : list ndarray) : Prop :=
  length h <= length h'
  /\ (forall l a, h !! l = Some a ->
        exists a', h' !! l = Some a' /\ shape a' = shape a)
  /\ (forall l, l < length h -> ~ In l touched -> h' !! l = h !! l).

(** [dbeta_at s i] is [betas[i-1] - betas[i]]. *)
Definition dbeta_at (s : PTSampler) (i : nat) : float :=
  fsub (data (_betas s) [i - 1]) (data (_betas s) [i]).

(** The statement [m] changes the sampler object in the values of its
    counters at most, whether it returns or raises. *)
Definition keeps_static {A : Type} (m : M A) : Prop :=
  forall w, same_but_counters (self w) (self (fst (m w))).

(** ** Concrete worlds *)

(** An arithmetic that commits no rounding error: every real is a
    float, [np.log] is the logarithm, and [np.exp] the exponential where
    it does not underflow. *)
Definition fp_ideal : fp_env.
Proof.
  refine {| rnd := fun x => x;
            libm_exp := fun x => if Rle_dec x (-750) then 0%R else exp x;
            libm_log := ln |}.
  - reflexivity.
  - intros x _. unfold u64. rewrite Rminus_diag, Rabs_R0.
    apply Rmult_le_pos; [| apply Rabs_pos].
    left. apply Rinv_0_lt_compat. lra.
  - destruct (Rle_dec 0 (-750)); [lra | apply Rtrigo_def.exp_0].
  - intros x Hx. destruct (Rle_dec x (-750)); [lra |].
    rewrite Rminus_diag, Rabs_R0. unfold u64.
    apply Rmult_le_pos; [| left; apply exp_pos].
    apply Rmult_le_pos; [lra |]. left. apply Rinv_0_lt_compat. lra.
  - intros x Hx. destruct (Rle_dec x (-750)); [reflexivity | lra].
  - rewrite Rminus_diag, Rabs_R0. unfold u64.
    apply Rmult_le_pos.
    + apply Rmult_le_pos; [lra |]. left. apply Rinv_0_lt_compat. lra.
    + left. rewrite <- ln_1. apply ln_increasing; lra.
Defined.

(** A two-rung, one-walker, one-dimensional joint state: the array whose
    entry on rung [0] is [x0] and on rung [1] is [x1]. *)
Definition two_rungs (sh : list nat) (x0 x1 : float) : ndarray :=
  mkarr sh (fun k => match k with
                     | 0 :: _ => x0
                     | _ => x1
                     end).

Definition half : unit_draw.
Proof. refine {| uval := 1 / 2 |}. lra. Defined.

Definition rng0 : rng_state :=
  {| ints := fun _ => 0; ipos := 0; unifs := fun _ => half; upos := 0 |}.

(** An ensemble sampler that leaves its rung where it is. *)
Definition idle : EnsembleSampler :=
  {| es_sample := fun _ p lnprob blobs => Ok (p, lnprob, blobs);
     es_calls := 0 |}.

(** A sampler with two rungs and one walker: flat prior, likelihood
    constant on each call. *)
Definition sampler0 (betas : ndarray) : PTSampler :=
  {| logl := fun _ => Ok (Fin 0); logp := fun _ => Ok (Fin 0);
     ntemps := 2; nwalkers := 1; dim := 1;
     _chain := None; _lnprob := None; _lnlikelihood := None;
     _betas := betas;
     nswap := np_zeros [2]; nswap_accepted := np_zeros [2];
     samplers := [idle; idle] |}.

(** The world in which positions, log-posteriors and log-likelihoods are
    the arrays at locations [0], [1] and [2]. *)
Definition world0 (betas P Q L : ndarray) : world :=
  {| heap := [P; Q; L]; rng := rng0; trace := []; self := sampler0 betas |}.

(** Ladder [1, 1/2]; the walker of rung [0] sits at [0] with
    log-likelihood [0], the walker of rung [1] at [3] with log-likelihood
    [2]; the prior is flat, so the log-posteriors are [1 * 0] and
    [1/2 * 2]. *)
Definition positions_swap : ndarray := two_rungs [2; 1; 1] (Fin 0) (Fin 3).
Definition lnprob_swap : ndarray := two_rungs [2; 1] (Fin 0) (Fin 1).
Definition lnlike_swap : ndarray := two_rungs [2; 1] (Fin 0) (Fin 2).
Definition ladder_swap : ndarray := array_of_list [Fin 1; Fin (1 / 2)].

Definition world_swap : world :=
  world0 ladder_swap positions_swap lnprob_swap lnlike_swap.

(** Two rungs at the same temperature; the walker of rung [1] lies
    outside the support of the prior, where [PTPost] reports [-inf] for
    both log-posterior and log-likelihood. *)
Definition lnlike_tie : ndarray := two_rungs [2; 1] (Fin 0) NInf.

Definition world_tie : world :=
  world0 (array_of_list [Fin 1; Fin 1]) positions_swap lnlike_tie lnlike_tie.

(** A prior that puts every position outside its support, and one that
    is flat. *)
Definition post_outside : PTPost :=
  {| _logl := fun _ => Ok (Fin 5); _logp := fun _ => Ok NInf;
     _beta := Fin 1 |}.
Definition post_flat : PTPost :=
  {| _logl := fun _ => Ok (Fin 5); _logp := fun _ => Ok (Fin 0);
     _beta := Fin (1 / 2) |}.

(** ** Specifications for [sample] *)

(** The contract of an ensemble sampler (spec, section 4.3): given the
    state of its rung it returns, without raising, a new state of the
    same shapes. *)
Definition advancer_ok (nw d : nat) (s : EnsembleSampler) : Prop :=
  forall n p lp ll,
    shape p = [nw; d] -> shape lp = [nw] -> shape ll = [nw] ->
    exists p' lp' ll',
      es_sample s n p lp ll = Ok (p', lp', ll')
      /\ shape p' = [nw; d] /\ shape lp' = [nw] /\ shape ll' = [nw].

(** The sampler after one more call. *)
Definition called (s : EnsembleSampler) : EnsembleSampler :=
  {| es_sample := es_sample s; es_calls := S (es_calls s) |}.

(** The prior and the likelihood return a value at every position. *)
Definition callbacks_total (s : PTSampler) : Prop :=
  (forall x, exists v, logp s x = Ok v)
  /\ (forall x, exists v, logl s x = Ok v).

(** A sampler as [__init__] builds it from a ladder of [ntemps] entries
    and well-behaved ensemble samplers. *)
Definition sampler_ready (s : PTSampler) : Prop :=
  sampler_wf s
  /\ length (samplers s) = ntemps s
  /\ Forall (advancer_ok (nwalkers s) (dim s)) (samplers s).

(** [s'] is [s] but for the counters, the ensemble samplers and the
    chain buffers. *)
Definition same_static (s s' : PTSampler) : Prop :=
  logl s' = logl s /\ logp s' = logp s
  /\ ntemps s' = ntemps s /\ nwalkers s' = nwalkers s /\ dim s' = dim s
  /\ _betas s' = _betas s
  /\ shape (nswap s') = shape (nswap s)
  /\ shape (nswap_accepted s') = shape (nswap_accepted s).

(** The chain buffers hold [n] stored steps. *)
Definition chain_shape (s : PTSampler) (n : nat) : Prop :=
  exists c lp ll,
    _chain s = Some c /\ _lnprob s = Some lp /\ _lnlikelihood s = Some ll
    /\ shape c = [ntemps s; nwalkers s; n; dim s]
    /\ shape lp = [ntemps s; nwalkers s; n]
    /\ shape ll = [ntemps s; nwalkers s; n].

(** No chain buffer has been allocated. *)
Definition chain_empty (s : PTSampler) : Prop :=
  _chain s = None /\ _lnprob s = None /\ _lnlikelihood s = None.

(** The buffer [c'] holds what [c] held at every step before [n]. *)
Definition keeps_steps (n : nat) (c c' : option ndarray) : Prop :=
  forall a, c = Some a ->
    exists a', c' = Some a'
      /\ forall k s, k !! 2 = Some s -> s < n -> data a' k = data a k.

(** The three chain buffers of [s'] hold what those of [s] held at every
    step before [n]. *)
Definition keeps_chain (n : nat) (s s' : PTSampler) : Prop :=
  keeps_steps n (_chain s) (_chain s')
  /\ keeps_steps n (_lnprob s) (_lnprob s')
  /\ keeps_steps n (_lnlikelihood s) (_lnlikelihood s').

Definition is_callback (e : event) : Prop :=
  match e with
  | EvLogp _ | EvLogl _ => True
  | _ => False
  end.

(** The steps recorded, with their slots. *)
Fixpoint records (t : list event) : list (nat * nat) :=
  match t with
  | [] => []
  | EvRecord step isave :: t' => (step, isave) :: records t'
  | _ :: t' => records t'
  end.

(** The triples yielded. *)
Fixpoint yields (t : list event) : list (loc * loc * loc) :=
  match t with
  | [] => []
  | EvYield p lnprob logl :: t' => (p, lnprob, logl) :: yields t'
  | _ :: t' => yields t'
  end.

(** [s'] is [s] but for the chain buffers. *)
Definition same_but_chain (s s' : PTSampler) : Prop :=
  same_static s s'
  /\ samplers s' = samplers s
  /\ nswap s' = nswap s
  /\ nswap_accepted s' = nswap_accepted s.

(** The chain holds [n] stored steps: either nothing was ever allocated
    and [n = 0], or the buffers have [n] steps. *)
Definition chain_state (s : PTSampler) (n : nat) : Prop :=
  (chain_empty s /\ n = 0) \/ chain_shape s n.

(** The slice written at step [isave]: [c'] is [c] with the entries of
    [v] at step [isave]. *)
Definition recorded (isave : nat) (v : ndarray) (c c' : option ndarray)
  : Prop :=
  exists a a', c = Some a /\ c' = Some a' /\ shape a' = shape a
    /\ forall k, data a' k = if decide (k !! 2 = Some isave)
                             then data v (drop_axis 2 k)
                             else data a k.

(** What [sample] needs of its arguments: positions of shape
    [(ntemps, nwalkers, dim)]; log-posteriors and log-likelihoods, when
    both are given, two different arrays of shape [(ntemps, nwalkers)];
    otherwise a prior and a likelihood that do not raise. *)
Definition args_ok (w : world) (p0 : loc) (lnprob0 lnlike0 : option loc)
  : Prop :=
  has_shape (heap w) p0
    [ntemps (self w); nwalkers (self w); dim (self w)]
  /\ match lnprob0, lnlike0 with
     | Some a, Some b =>
         a <> b
         /\ has_shape (heap w) a [ntemps (self w); nwalkers (self w)]
         /\ has_shape (heap w) b [ntemps (self w); nwalkers (self w)]
     | _, _ => callbacks_total (self w)
     end.

(** The arrays [sample] works on: the caller's when both were given,
    two new ones otherwise. *)
Definition working_arrays (w : world) (lnprob0 lnlike0 : option loc)
  : loc * loc :=
  match lnprob0, lnlike0 with
  | Some a, Some b => (a, b)
  | _, _ => (length (heap w), S (length (heap w)))
  end.

(** The world while the initial values are being computed: two new
    arrays of shape [(ntemps, nwalkers)] behind the caller's heap. *)
Definition init_progress (w w' : world) : Prop :=
  self w' = self w /\ rng w' = rng w
  /\ (exists Q L, heap w' = heap w ++ [Q; L]
        /\ shape Q = [ntemps (self w); nwalkers (self w)]
        /\ shape L = [ntemps (self w); nwalkers (self w)])
  /\ exists evs, trace w' = trace w ++ evs /\ Forall is_callback evs.

(** Whether round [i] records: storage is on and [i + 1] is a multiple
    of [thin]. *)
Definition records_at (thin : nat) (storechain : bool) (i : nat) : bool :=
  storechain && ((i + 1) mod thin =? 0).

(** What the chain holds after round [i], given what it held before. *)
Definition chain_after (rec : bool) (isave n : nat) (p lnprob logl : loc)
    (s : PTSampler) (w' : world) : Prop :=
  if rec then
    chain_shape (self w') n
    /\ exists P Q L,
         heap w' !! p = Some P /\ heap w' !! lnprob = Some Q
         /\ heap w' !! logl = Some L
         /\ recorded isave P (_chain s) (_chain (self w'))
         /\ recorded isave Q (_lnprob s) (_lnprob (self w'))
         /\ recorded isave L (_lnlikelihood s) (_lnlikelihood (self w'))
  else
    _chain (self w') = _chain s /\ _lnprob (self w') = _lnprob s
    /\ _lnlikelihood (self w') = _lnlikelihood s.

(** The slots of the steps a call records: step [thin * (m + 1)] goes to
    slot [n0 + m]. *)
Definition recorded_steps (thin n0 count : nat) : list (nat * nat) :=
  map (fun m => (thin * (m + 1), n0 + m)) (seq 0 count).

(** The generator after [j] rounds, seen from the world [w0] that the
    prologue left. *)
Definition loop_progress (thin : nat) (storechain : bool)
    (iterations n0 : nat) (l0 : locals) (w0 : world)
    (j : nat) (l : locals) (w : world) : Prop :=
  l = {| l_p := l_p l0; l_lnprob := l_lnprob l0; l_logl := l_logl l0;
         l_isave := if storechain then n0 + j / thin else l_isave l0 |}
  /\ same_static (self w0) (self w)
  /\ sampler_ready (self w)
  /\ heap_evolves [l_p l0; l_lnprob l0; l_logl l0] (heap w0) (heap w)
  /\ (exists evs,
        trace w = trace w0 ++ evs
        /\ yields evs = repeat (l_p l0, l_lnprob l0, l_logl l0) j
        /\ records evs = if storechain then recorded_steps thin n0 (j / thin)
                         else [])
  /\ if storechain then
       chain_shape (self w) (n0 + iterations / thin)
       /\ keeps_chain n0 (self w0) (self w)
     else
       _chain (self w) = _chain (self w0)
       /\ _lnprob (self w) = _lnprob (self w0)
       /\ _lnlikelihood (self w) = _lnlikelihood (self w0).

(** What holds once the generator has yielded [k] times. *)
Definition sample_progress (p0 : loc) (lnprob0 lnlike0 : option loc)
    (iterations thin : nat) (storechain : bool) (n0 k : nat)
    (w : world) (l : locals) (w' : world) : Prop :=
  let lp := fst (working_arrays w lnprob0 lnlike0) in
  let ll := snd (working_arrays w lnprob0 lnlike0) in
  l = {| l_p := p0; l_lnprob := lp; l_logl := ll;
         l_isave := if storechain then n0 + k / thin else 0 |}
  /\ same_static (self w) (self w')
  /\ sampler_ready (self w')
  /\ state_wf w' p0 lp ll
  /\ heap_evolves [p0; lp; ll] (heap w) (heap w')
  /\ (exists evs,
        trace w' = trace w ++ evs
        /\ yields evs = repeat (p0, lp, ll) k
        /\ records evs = if storechain then recorded_steps thin n0 (k / thin)
                         else [])
  /\ if storechain then
       chain_shape (self w') (n0 + iterations / thin)
       /\ keeps_chain n0 (self w) (self w')
     else
       _chain (self w') = _chain (self w)
       /\ _lnprob (self w') = _lnprob (self w)
       /\ _lnlikelihood (self w') = _lnlikelihood (self w).

(** ** Successive calls *)

(** The arguments of one call [sample(p0, lnprob0, lnlike0, iterations,
    thin, storechain=True)]. *)
Record call : Type := {
  c_p0 : loc;
  c_lnprob0 : option loc;
  c_lnlike0 : option loc;
  c_iterations : nat;
  c_thin : nat
}.

(** The call, its generator run to exhaustion. *)
Definition run_call (c : call) : M locals :=
  sample (c_p0 c) (c_lnprob0 c) (c_lnlike0 c) (c_iterations c) (c_thin c)
         true.

Definition call_ok (w : world) (c : call) : Prop :=
  0 < c_thin c /\ args_ok w (c_p0 c) (c_lnprob0 c) (c_lnlike0 c).

(** The worlds reached from [w0] by calls made one after the other, each
    with arguments that are well-formed when it is made. *)
Inductive after_calls (w0 : world) : list call -> world -> Prop :=
| after_none : after_calls w0 [] w0
| after_call cs w c :
    after_calls w0 cs w -> call_ok w c ->
    after_calls w0 (cs ++ [c]) (fst (run_call c w)).

(** The sum of [iterations / thin] over the calls. *)
Definition stored (cs : list call) : nat :=
  list_sum (map (fun c => c_iterations c / c_thin c) cs).

(** A single rung with a single walker, and an ensemble sampler that
    moves the walker to position [7]. *)
Definition mover : EnsembleSampler :=
  {| es_sample := fun _ p lnprob blobs =>
                    Ok (mkarr (shape p) (fun _ => Fin 7), lnprob, blobs);
     es_calls := 0 |}.

Definition sampler1 : PTSampler :=
  {| logl := fun _ => Ok (Fin 0); logp := fun _ => Ok (Fin 0);
     ntemps := 1; nwalkers := 1; dim := 1;
     _chain := None; _lnprob := None; _lnlikelihood := None;
     _betas := array_of_list [Fin 1];
     nswap := np_zeros [1]; nswap_accepted := np_zeros [1];
     samplers := [mover] |}.

(** The caller's heap holds the initial positions (all zero) at location
    [0] and nothing else. *)
Definition world1 : world :=
  {| heap := [np_zeros [1; 1; 1]]; rng := rng0; trace := [];
     self := sampler1 |}.

(** The entry [ix] of the array at [l], once [m] has run. *)
Definition entry_after {A : Type} (m : M A) (w : world) (l : loc)
    (ix : list nat) : res float :=
  match heap (fst (m w)) !! l with
  | Some a => item a ix
  | None => Raise NameError
  end.

(** The one-rung sampler after four steps have been stored. *)
Definition sampler_stored : PTSampler :=
  {| logl := fun _ => Ok (Fin 0); logp := fun _ => Ok (Fin 0);
     ntemps := 1; nwalkers := 1; dim := 1;
     _chain := Some (np_zeros [1; 1; 4; 1]);
     _lnprob := Some (np_zeros [1; 1; 4]);
     _lnlikelihood := Some (np_zeros [1; 1; 4]);
     _betas := array_of_list [Fin 1];
     nswap := np_zeros [1]; nswap_accepted := np_zeros [1];
     samplers := [mover] |}.

Definition world_stored : world :=
  {| heap := [np_zeros [1; 1; 1]]; rng := rng0; trace := [];
     self := sampler_stored |}.

(** ** [PTSampler.reset] (line 114) *)

(** [s.reset()] for the ensemble sampler at position [j] of
    [self.samplers].  [reset_ensemble] stands for
    [EnsembleSampler.reset], which changes the sampler in place or
    raises. *)
Definition reset_sampler
    (reset_ensemble : EnsembleSampler -> res EnsembleSampler) (j : nat)
  : M unit :=
  ss <- attr samplers ;;
  match ss !! j with
  | None => raise IndexError
  | Some s =>
      s' <- lift (reset_ensemble s) ;;
      update_self (set_samplers (<[j := s']> ss))
  end.

Definition reset (reset_ensemble : EnsembleSampler -> res EnsembleSampler)
  : M unit :=
  ss <- attr samplers ;;
  for_each (range (length ss)) (reset_sampler reset_ensemble) ;;
  nt <- attr ntemps ;;
  update_self (set_nswap (np_zeros [nt])) ;;
  nt' <- attr ntemps ;;
  update_self (set_nswap_accepted (np_zeros [nt'])) ;;
  update_self (set_chain None) ;;
  update_self (set_lnprob None) ;;
  update_self (set_lnlikelihood None).

(** ** The properties [betas], [chain], [lnprobability] and
    [lnlikelihood] (lines 254 to 276) *)

Definition betas : M ndarray := attr _betas.
Definition chain : M (option ndarray) := attr _chain.
Definition lnprobability : M (option ndarray) := attr _lnprob.
Definition lnlikelihood : M (option ndarray) := attr _lnlikelihood.

(** ** [PTSampler.acor] (line 291) *)

(** [self._chain[i, :, :, j]]: indexing [None] raises [TypeError], an
    array of fewer than four axes [IndexError]. *)
Definition chain_series (c : option ndarray) (i j : nat) : res ndarray :=
  match c with
  | None => Raise TypeError
  | Some a =>
      match shape a with
      | nt :: nw :: ns :: d :: sh =>
          if (i <? nt) && (j <? d)
          then Ok (mkarr (nw :: ns :: sh)
                     (fun k => match k with
                               | x :: y :: k' => data a (i :: x :: y :: j :: k')
                               | _ => NaN
                               end))
          else Raise IndexError
      | _ => Raise IndexError
      end
  end.

(** The module [acor] when its import succeeded (lines 1 to 5):
    [acor.acor(x)] returns the triple [(tau, mean, sigma)] or raises. *)
Definition acor_module : Type := ndarray -> res (float * float * float).

(** Lines 298 to 304; the array [acors] is local to the call. *)
Definition acor_matrix (acor : acor_module) : M ndarray :=
  nt <- attr ntemps ;;
  d <- attr dim ;;
  nt' <- attr ntemps ;;
  for_fold (range nt') (np_zeros [nt; d]) (fun acors i =>
    d' <- attr dim ;;
    for_fold (range d') acors (fun acors j =>
      c <- attr _chain ;;
      x <- lift (chain_series c i j) ;;
      ' (tau, _, _) <- lift (acor x) ;;
      lift (set_item acors [i; j] tau))).

(** How a call of the property ends: with the [ImportError] of line 296,
    or as lines 298 to 304 end. *)
Inductive acor_result : Type :=
| AcorImportError
| AcorRan (r : res ndarray).

(** The property [acor]; the global [acor] is [None] when the import of
    line 2 failed. *)
Definition PTSampler_acor (acor : option acor_module)
  : world -> world * acor_result :=
  fun w =>
    match acor with
    | None => (w, AcorImportError)
    | Some f => let (w', r) := acor_matrix f w in (w', AcorRan r)
    end.

(** ** Specifications for the exchange *)

(** The number of events of a trace that satisfy [f]. *)
Fixpoint count_events (f : event -> bool) (t : list event) : nat :=
  match t with
  | [] => 0
  | e :: t' => (if f e then 1 else 0) + count_events f t'
  end.

(** A trial at boundary [i] is counted for the rungs [i] and [i - 1]
    (lines 228 and 229). *)
Definition trial_at (r : nat) (e : event) : bool :=
  match e with
  | EvTrial i _ _ _ _ => (i =? r) || (i - 1 =? r)
  | _ => false
  end.

(** An accepted trial at boundary [i] is counted for the rungs [i] and
    [i - 1] (lines 237 and 238). *)
Definition accepted_at (r : nat) (e : event) : bool :=
  match e with
  | EvTrial i _ _ _ acc => acc && ((i =? r) || (i - 1 =? r))
  | _ => false
  end.

(** The trials that reach [nr.rand()]: those whose [paccept > 0]
    fails. *)
Definition draws_uniform (e : event) : bool :=
  match e with
  | EvTrial _ _ _ paccept _ => negb (flt (Fin 0) paccept)
  | _ => false
  end.

(** The number of boundaries rung [r] of [nt] takes part in: the one
    below it unless it is rung [0], the one above it unless it is the
    last. *)
Definition boundaries_of (nt r : nat) : nat :=
  (if 1 <=? r then 1 else 0) + (if r + 1 <? nt then 1 else 0).

(** ** Specifications for the initial log-posteriors *)

(** The position of walker [k] of rung [i], as iterating over
    [p[i, :, :]] hands it to the tempered posterior. *)
Definition walker_position (P : ndarray) (i k : nat) : ndarray :=
  mkarr (skipn 2 (shape P)) (fun ix => data P (i :: k :: ix)).

(** What [PTPost(logl, logp, beta)] returns where the prior is [lp] and
    the likelihood [ll] (lines 45 to 50). *)
Definition tempered (beta lp ll : float) : float * float :=
  if feq lp NInf then (lp, lp) else (fadd (fmul beta ll) lp, ll).

(** The events of one call of the tempered posterior. *)
Definition post_events (lp : float) (x : ndarray) : list event :=
  if feq lp NInf then [EvLogp x] else [EvLogp x; EvLogl x].

(** ** A walker outside the support of the prior *)

(** Ladder [1, 1/2]; the walker of rung [0] lies outside the support of
    the prior, so that [PTPost] reported [-inf] for its log-posterior
    and its log-likelihood; the walker of rung [1] has log-posterior [1]
    and log-likelihood [2]. *)
Definition lnprob_outside : ndarray := two_rungs [2; 1] NInf (Fin 1).
Definition lnlike_outside : ndarray := two_rungs [2; 1] NInf (Fin 2).

Definition world_outside : world :=
  world0 ladder_swap positions_swap lnprob_outside lnlike_outside.

(** ** Specifications for [reset] *)

(** [s'] is [s] but for its ensemble samplers. *)
Definition same_but_samplers (s s' : PTSampler) : Prop :=
  logl s' = logl s /\ logp s' = logp s
  /\ ntemps s' = ntemps s /\ nwalkers s' = nwalkers s /\ dim s' = dim s
  /\ _chain s' = _chain s /\ _lnprob s' = _lnprob s
  /\ _lnlikelihood s' = _lnlikelihood s
  /\ _betas s' = _betas s
  /\ nswap s' = nswap s /\ nswap_accepted s' = nswap_accepted s.

(** The ensemble samplers after the first [j] of them were reset. *)
Definition reset_upto
    (reset_ensemble : EnsembleSampler -> res EnsembleSampler) (j : nat)
    (ss ss' : list EnsembleSampler) : Prop :=
  length ss' = length ss
  /\ (forall k s, k < j -> ss !! k = Some s ->
        exists s', reset_ensemble s = Ok s' /\ ss' !! k = Some s')
  /\ (forall k, j <= k -> ss' !! k = ss !! k).

(** An [EnsembleSampler.reset] that forgets the calls made, and one that
    fails. *)
Definition forget (s : EnsembleSampler) : res EnsembleSampler :=
  Ok {| es_sample := es_sample s; es_calls := 0 |}.
Definition refuse (s : EnsembleSampler) : res EnsembleSampler :=
  Raise (UserError 1).

(** ** Specifications for the stored chain *)

(** The buffer [c] holds zeros at every step from [n] on. *)
Definition zero_from (n : nat) (c : option ndarray) : Prop :=
  forall a, c = Some a ->
    forall k s, k !! 2 = Some s -> n <= s -> data a k = Fin 0.

(** The three chain buffers hold zeros at every step from [n] on. *)
Definition chain_zero_from (n : nat) (s : PTSampler) : Prop :=
  zero_from n (_chain s) /\ zero_from n (_lnprob s)
  /\ zero_from n (_lnlikelihood s).

(** An [acor.acor] that reports the autocorrelation length [1] for
    every series. *)
Definition acor_one : acor_module := fun _ => Ok (Fin 1, Fin 0, Fin 0).

(** ** Failing collaborators *)

(** An ensemble sampler that raises whenever it is called, and the
    one-rung world whose only sampler it is. *)
Definition broken : EnsembleSampler :=
  {| es_sample := fun _ _ _ _ => Raise (UserError 2); es_calls := 0 |}.

Definition world_broken : world :=
  set_self (set_samplers [broken] sampler1) world1.

(** The one-rung world with a prior that raises. *)
Definition world_no_prior : world :=
  {| heap := [np_zeros [1; 1; 1]]; rng := rng0; trace := [];
     self := {| logl := fun _ => Ok (Fin 0);
                logp := fun _ => Raise (UserError 3);
                ntemps := 1; nwalkers := 1; dim := 1;
                _chain := None; _lnprob := None; _lnlikelihood := None;
                _betas := array_of_list [Fin 1];
                nswap := np_zeros [1]; nswap_accepted := np_zeros [1];
                samplers := [mover] |} |}.

(** ** Specifications for the draws of an exchange *)

(** The generator after the draws of one trial whose log-ratio is
    [paccept]: two calls of [randint], and one of [rand] unless
    [paccept > 0]. *)
Definition after_trial (paccept : float) (g : rng_state) : rng_state :=
  {| ints := ints g; ipos := S (S (ipos g)); unifs := unifs g;
     upos := if flt (Fin 0) paccept then upos g else S (upos g) |}.

(** The generator after the draws of the trials [t]. *)
Fixpoint rng_after (g : rng_state) (t : list event) : rng_state :=
  match t with
  | [] => g
  | EvTrial _ _ _ paccept _ :: t' => rng_after (after_trial paccept g) t'
  | _ :: t' => rng_after g t'
  end.

(** The trials [t] take their draws from the generator [g] one after
    the other: [ii] and [jj] of a trial are the next two values of
    [randint(nw)], its acceptance is decided by [paccept > 0] or else by
    the next value of [rand()], and the trial after it goes on where
    this one stopped, so that no value is used twice. *)
Fixpoint draws_from (nw : nat) (g : rng_state) (t : list event) : Prop :=
  match t with
  | [] => True
  | EvTrial _ ii jj paccept acc :: t' =>
      ii = ints g (ipos g) mod nw
      /\ jj = ints g (S (ipos g)) mod nw
      /\ acc = (flt (Fin 0) paccept
                || flt (np_log (Fin (uval (unifs g (upos g))))) paccept)
      /\ draws_from nw (after_trial paccept g) t'
  | _ :: _ => False
  end.

(** ** A ladder of three rungs *)

(** Three rungs with two walkers each, in one dimension: ladder
    [1, 1/2, 1/4]; walker [j] of rung [i] sits at [10 i + j] with
    log-likelihood [i + j]; the prior is flat, so its log-posterior is
    [betas[i] * (i + j)]. *)
Definition ladder3 : ndarray := array_of_list [Fin 1; Fin (1 / 2); Fin (1 / 4)].

Definition positions3 : ndarray :=
  mkarr [3; 2; 1]
    (fun k => match k with
              | i :: j :: _ => Fin (INR (10 * i + j))
              | _ => NaN
              end).

Definition lnlike3 : ndarray :=
  mkarr [3; 2]
    (fun k => match k with
              | i :: j :: _ => Fin (INR (i + j))
              | _ => NaN
              end).

Definition lnprob3 : ndarray :=
  mkarr [3; 2]
    (fun k => match k with
              | i :: j :: _ => fmul (data ladder3 [i]) (Fin (INR (i + j)))
              | _ => NaN
              end).

Definition sampler3 : PTSampler :=
  {| logl := fun _ => Ok (Fin 0); logp := fun _ => Ok (Fin 0);
     ntemps := 3; nwalkers := 2; dim := 1;
     _chain := None; _lnprob := None; _lnlikelihood := None;
     _betas := ladder3;
     nswap := np_zeros [3]; nswap_accepted := np_zeros [3];
     samplers := [idle; idle; idle] |}.

(** A generator whose [randint] returns [0, 0, 0, 1, 1, 1, 2, 2, ...]. *)
Definition rng3 : rng_state :=
  {| ints := fun k => k / 3; ipos := 0; unifs := fun _ => half; upos := 0 |}.

Definition world3 : world :=
  {| heap := [positions3; lnprob3; lnlike3]; rng := rng3; trace := [];
     self := sampler3 |}.

(** ** Specifications for what the chain holds *)

(** Step [s] of the three chain buffers of the sampler [sc] holds what
    the arrays [P], [Q] and [L] (positions, log-posteriors,
    log-likelihoods) hold. *)
Definition step_holds (sc : PTSampler) (s : nat) (P Q L : ndarray) : Prop :=
  exists C CQ CL,
    _chain sc = Some C /\ _lnprob sc = Some CQ /\ _lnlikelihood sc = Some CL
    /\ (forall i j x, data C [i; j; s; x] = data P [i; j; x])
    /\ (forall i j, data CQ [i; j; s] = data Q [i; j])
    /\ (forall i j, data CL [i; j; s] = data L [i; j]).

(** Two calls with storage: five iterations of which every second is
    recorded, then three iterations that are all recorded. *)
Definition call_5_2 : call :=
  {| c_p0 := 0; c_lnprob0 := None; c_lnlike0 := None;
     c_iterations := 5; c_thin := 2 |}.
Definition call_3_1 : call :=
  {| c_p0 := 0; c_lnprob0 := None; c_lnlike0 := None;
     c_iterations := 3; c_thin := 1 |}.

(** ** Specifications for the advance of the rungs *)

(** The array [x] holds rung [j] of the joint state [a]: [a[j, ...]]. *)
Definition holds_rung (x a : ndarray) (j : nat) : Prop :=
  shape x = skipn 1 (shape a) /\ forall k, data x k = data a (j :: k).

(** The joint state [P'], [Q'], [L'] is what the ensemble samplers [ss]
    make of [P], [Q], [L]: rung [j] of the new state is what the sampler
    of rung [j] returns when it is called on rung [j] of the old one. *)
Definition advanced (ss : list EnsembleSampler)
    (P Q L P' Q' L' : ndarray) : Prop :=
  shape P' = shape P /\ shape Q' = shape Q /\ shape L' = shape L
  /\ forall j s, ss !! j = Some s ->
       exists pin qin lin ps qs ls,
         holds_rung pin P j /\ holds_rung qin Q j /\ holds_rung lin L j
         /\ es_sample s (es_calls s) pin qin lin = Ok (ps, qs, ls)
         /\ holds_rung ps P' j /\ holds_rung qs Q' j /\ holds_rung ls L' j.

(* ===================================================================== *)
(** * Part II: verification                                               *)
(* ===================================================================== *)

(** ** Arithmetic of [float] *)

Lemma flt_fin (a b : R) : (a < b)%R -> flt (Fin a) (Fin b) = true.
Proof. intros H. simpl. destruct (Rlt_dec a b); [reflexivity | contradiction]. Qed.

Lemma flt_fin_not (a b : R) : ~ (a < b)%R -> flt (Fin a) (Fin b) = false.
Proof. intros H. simpl. destruct (Rlt_dec a b); [contradiction | reflexivity]. Qed.

Lemma fdiv_fin (a b : R) : b <> 0%R -> fdiv (Fin a) (Fin b) = Fin (a / b).
Proof. intros H. simpl. destruct (Req_dec_T b 0); [contradiction | reflexivity]. Qed.

(** ** The tempered posterior *)

Lemma feq_NInf (x : float) : feq x NInf = true <-> x = NInf.
Proof. destruct x; simpl; split; congruence. Qed.

(** C6.  [PTPost.__call__] asks the prior first.  When the prior is not
    [-inf] it calls the likelihood once and returns
    [(beta * lnlike(x) + lnprior(x), lnlike(x))]; when the prior is
    [-inf] it returns [(-inf, -inf)] and the likelihood is never called:
    the only call recorded is the one of the prior. *)
Theorem PTPost_call_spec (f : PTPost) (x : ndarray) (w : world) (lp : float) :
  _logp f x = Ok lp ->
  (lp = NInf ->
     PTPost_call f x w
     = (set_trace (trace w ++ [EvLogp x]) w, Ok (NInf, NInf)))
  /\ (lp <> NInf -> forall ll, _logl f x = Ok ll ->
     PTPost_call f x w
     = (set_trace (trace w ++ [EvLogp x; EvLogl x]) w,
        Ok (fadd (fmul (_beta f) ll) lp, ll))).
Proof.
  intros Hp. split.
  - intros ->. unfold PTPost_call, bind, log, lift, ret. simpl.
    rewrite Hp. reflexivity.
  - intros Hne ll Hl. unfold PTPost_call, bind, log, lift, ret. simpl.
    rewrite Hp.
    destruct (feq lp NInf) eqn:E; [apply feq_NInf in E; contradiction |].
    simpl. rewrite Hl. unfold set_trace. simpl.
    rewrite <- app_assoc. reflexivity.
Qed.

(** ** Rules of the weakest precondition *)

Lemma wp_ret {A} (a : A) Q E w : Q a w -> wp (ret a) Q E w.
Proof. exact (fun H => H). Qed.

Lemma wp_bind {A B} (m : M A) (k : A -> M B) Q E w :
  wp m (fun a w' => wp (k a) Q E w') E w -> wp (bind m k) Q E w.
Proof.
  unfold wp, bind. destruct (m w) as [w' [a|e]]; exact (fun H => H).
Qed.

Lemma wp_mono {A} (m : M A) (Q Q' : A -> world -> Prop) (E E' : world -> Prop) w :
  wp m Q E w ->
  (forall a w', Q a w' -> Q' a w') ->
  (forall w', E w' -> E' w') ->
  wp m Q' E' w.
Proof.
  unfold wp. destruct (m w) as [w' [a|e]]; auto.
Qed.

Lemma wp_returns {A} (m : M A) Q w :
  wp m Q (fun _ => False) w -> exists a w', returns m w a w' /\ Q a w'.
Proof.
  unfold wp, returns. destruct (m w) as [w' [a|e]]; [eauto | tauto].
Qed.

Lemma returns_wp {A} (m : M A) (Q : A -> world -> Prop) E w a w' :
  returns m w a w' -> Q a w' -> wp m Q E w.
Proof. unfold wp, returns. intros ->. auto. Qed.

Lemma wp_lift {A} (r : res A) (Q : A -> world -> Prop) (E : world -> Prop) w a :
  r = Ok a -> Q a w -> wp (lift r) Q E w.
Proof. intros -> H. exact H. Qed.

Lemma wp_attr {A} (f : PTSampler -> A) Q E w :
  Q (f (self w)) w -> wp (attr f) Q E w.
Proof. exact (fun H => H). Qed.

Lemma wp_update_self f (Q : unit -> world -> Prop) E w :
  Q tt (set_self (f (self w)) w) -> wp (update_self f) Q E w.
Proof. exact (fun H => H). Qed.

Lemma wp_log e (Q : unit -> world -> Prop) E w :
  Q tt (set_trace (trace w ++ [e]) w) -> wp (log e) Q E w.
Proof. exact (fun H => H). Qed.

Lemma wp_deref l (Q : ndarray -> world -> Prop) E w a :
  heap w !! l = Some a -> Q a w -> wp (deref l) Q E w.
Proof. unfold wp, deref. intros -> H. exact H. Qed.

Lemma wp_assign l a (Q : unit -> world -> Prop) E w :
  Q tt (set_heap (<[l := a]> (heap w)) w) -> wp (assign l a) Q E w.
Proof. exact (fun H => H). Qed.

Lemma wp_new_array a (Q : loc -> world -> Prop) E w :
  Q (length (heap w)) (set_heap (heap w ++ [a]) w) -> wp (new_array a) Q E w.
Proof. exact (fun H => H). Qed.

Lemma wp_getitem l ix (Q : float -> world -> Prop) E w a :
  heap w !! l = Some a -> in_bounds (shape a) ix = true ->
  Q (data a ix) w -> wp (getitem l ix) Q E w.
Proof.
  intros Hl Hb HQ. unfold getitem. apply wp_bind. eapply wp_deref; [exact Hl |].
  eapply wp_lift; [| exact HQ]. unfold item. rewrite Hb. reflexivity.
Qed.

Lemma wp_setitem l ix v (Q : unit -> world -> Prop) E w a :
  heap w !! l = Some a -> in_bounds (shape a) ix = true ->
  Q tt (set_heap (<[l := mkarr (shape a)
                          (fun k => if decide (k = ix) then v else data a k)]>
                    (heap w)) w) ->
  wp (setitem l ix v) Q E w.
Proof.
  intros Hl Hb HQ. unfold setitem. apply wp_bind. eapply wp_deref; [exact Hl |].
  apply wp_bind. eapply wp_lift.
  - unfold set_item. rewrite Hb. reflexivity.
  - apply wp_assign. exact HQ.
Qed.

Lemma wp_getsub l pre c (Q : ndarray -> world -> Prop) E w a :
  heap w !! l = Some a ->
  length pre + c <= length (shape a) ->
  is_prefix_index (shape a) pre = true ->
  Q (mkarr (skipn (length pre) (shape a)) (fun k => data a (pre ++ k))) w ->
  wp (getsub l pre c) Q E w.
Proof.
  intros Hl Hc Hb HQ. unfold getsub. apply wp_bind.
  eapply wp_deref; [exact Hl |].
  eapply wp_lift; [| exact HQ]. unfold subarray.
  rewrite Hb, (proj2 (Nat.leb_le _ _) Hc). reflexivity.
Qed.

Lemma wp_setsub l pre c v (Q : unit -> world -> Prop) E w a :
  heap w !! l = Some a ->
  length pre + c <= length (shape a) ->
  is_prefix_index (shape a) pre = true ->
  shape v = skipn (length pre) (shape a) ->
  Q tt (set_heap (<[l := mkarr (shape a)
                          (fun k => if starts_with pre k
                                    then data v (skipn (length pre) k)
                                    else data a k)]> (heap w)) w) ->
  wp (setsub l pre c v) Q E w.
Proof.
  intros Hl Hc Hb Hs HQ. unfold setsub. apply wp_bind.
  eapply wp_deref; [exact Hl |]. apply wp_bind. eapply wp_lift.
  - unfold set_subarray, shape_eqb.
    rewrite Hb, (proj2 (Nat.leb_le _ _) Hc). cbn [andb].
    destruct (decide (shape v = skipn (length pre) (shape a))); [reflexivity | contradiction].
  - apply wp_assign. exact HQ.
Qed.

Lemma wp_randint n (Q : nat -> world -> Prop) E w :
  n <> 0 ->
  Q (ints (rng w) (ipos (rng w)) mod n)
    (set_rng {| ints := ints (rng w); ipos := S (ipos (rng w));
                unifs := unifs (rng w); upos := upos (rng w) |} w) ->
  wp (nr_randint n) Q E w.
Proof.
  intros Hn HQ. unfold wp, nr_randint.
  destruct (Nat.eqb_spec n 0); [contradiction | exact HQ].
Qed.

Lemma wp_rand (Q : float -> world -> Prop) E w :
  Q (Fin (uval (unifs (rng w) (upos (rng w)))))
    (set_rng {| ints := ints (rng w); ipos := ipos (rng w);
                unifs := unifs (rng w); upos := S (upos (rng w)) |} w) ->
  wp nr_rand Q E w.
Proof. exact (fun H => H). Qed.

(** A loop whose rounds keep an invariant. *)
Lemma wp_for_each {A} (l : list A) (body : A -> M unit)
    (I : world -> Prop) (E : world -> Prop) w :
  I w ->
  (forall x w', In x l -> I w' -> wp (body x) (fun _ => I) E w') ->
  wp (for_each l body) (fun _ => I) E w.
Proof.
  revert w. induction l as [|x l IH]; intros w HI Hb.
  - exact HI.
  - cbn [for_each]. apply wp_bind.
    eapply wp_mono; [apply Hb; [left; reflexivity | exact HI] | | auto].
    intros u w' HI'. apply IH; [exact HI' |].
    intros y w'' Hy. apply Hb. right. exact Hy.
Qed.

Ltac solve_bounds :=
  cbn [in_bounds is_prefix_index shape length skipn Nat.add];
  repeat (rewrite (proj2 (Nat.ltb_lt _ _)) by lia);
  try reflexivity; try lia.

Ltac heap_lookup :=
  cbn [heap set_heap set_trace set_rng set_self];
  repeat first
    [ rewrite list_lookup_insert_ne by congruence
    | rewrite list_lookup_insert_eq
        by (rewrite ?length_insert; eapply lookup_lt_Some; eassumption) ];
  try eassumption; try reflexivity.

Lemma swap_walkers_wp p lnprob logl i ii jj dbeta w P Q L nt nw d E :
  heap w !! p = Some P -> heap w !! lnprob = Some Q ->
  heap w !! logl = Some L ->
  shape P = [nt; nw; d] -> shape Q = [nt; nw] -> shape L = [nt; nw] ->
  lnprob <> logl ->
  1 <= i < nt -> ii < nw -> jj < nw ->
  wp (swap_walkers p lnprob logl i ii jj dbeta)
     (fun _ w' =>
        rng w' = rng w /\ trace w' = trace w /\ self w' = self w
        /\ length (heap w') = length (heap w)
        /\ (forall l, l <> p -> l <> lnprob -> l <> logl ->
              heap w' !! l = heap w !! l)
        /\ exists P' Q' L',
             heap w' !! p = Some P' /\ heap w' !! lnprob = Some Q'
             /\ heap w' !! logl = Some L'
             /\ swapped i ii jj dbeta P Q L P' Q' L')
     E w.
Proof.
  intros HP HQ HL SP SQ SL Hne Hi Hii Hjj.
  assert (Hp1 : p <> lnprob) by (intros ->; rewrite HP in HQ; congruence).
  assert (Hp2 : p <> logl) by (intros ->; rewrite HP in HL; congruence).
  unfold swap_walkers.
  apply wp_bind. eapply wp_getsub; [exact HP | rewrite SP; solve_bounds ..|].
  apply wp_bind. eapply wp_getitem; [exact HL | rewrite SL; solve_bounds |].
  apply wp_bind. eapply wp_getitem; [exact HQ | rewrite SQ; solve_bounds |].
  apply wp_bind. eapply wp_getsub; [exact HP | rewrite SP; solve_bounds ..|].
  apply wp_bind. eapply wp_setsub; [exact HP | rewrite ?SP; solve_bounds ..|].
  apply wp_bind. eapply wp_getitem; [heap_lookup | rewrite SL; solve_bounds |].
  apply wp_bind. eapply wp_setitem; [heap_lookup | rewrite SL; solve_bounds |].
  apply wp_bind. eapply wp_getitem; [heap_lookup | rewrite SQ; solve_bounds |].
  apply wp_bind. eapply wp_getitem; [heap_lookup | cbn [shape]; rewrite SL; solve_bounds |].
  apply wp_bind. eapply wp_setitem; [heap_lookup | rewrite SQ; solve_bounds |].
  apply wp_bind. eapply wp_setsub; [heap_lookup | cbn [shape]; rewrite ?SP; solve_bounds ..|].
  apply wp_bind. eapply wp_setitem; [heap_lookup | cbn [shape]; rewrite SL; solve_bounds |].
  eapply wp_setitem; [heap_lookup | cbn [shape]; rewrite SQ; solve_bounds |].
  cbn [heap set_heap rng trace self].
  split; [reflexivity |]. split; [reflexivity |]. split; [reflexivity |].
  split; [rewrite !length_insert; reflexivity |].
  split.
  { intros l H1 H2 H3. rewrite !list_lookup_insert_ne by congruence.
    reflexivity. }
  eexists _, _, _.
  split; [heap_lookup |]. split; [heap_lookup |]. split; [heap_lookup |].
  unfold swapped. cbn [shape data length].
  repeat split; try reflexivity.
  intros k. destruct (decide (k = [i - 1; jj])); [reflexivity |].
  destruct (decide (k = [i; ii])); [| reflexivity].
  destruct (decide ([i - 1; jj] = [i; ii])) as [Heq|]; [| reflexivity].
  injection Heq as Heq _. lia.
Qed.

Lemma wp_incr_nswap i (Q : unit -> world -> Prop) E w :
  in_bounds (shape (nswap (self w))) [i] = true ->
  Q tt (set_self
          (set_nswap
             (mkarr (shape (nswap (self w)))
                (fun k => if decide (k = [i])
                          then fadd (data (nswap (self w)) [i]) (Fin 1)
                          else data (nswap (self w)) k))
             (self w)) w) ->
  wp (incr_nswap i) Q E w.
Proof.
  intros Hb HQ. unfold incr_nswap. apply wp_bind, wp_attr, wp_bind.
  eapply wp_lift.
  - unfold iadd1, item, set_item. rewrite Hb. reflexivity.
  - apply wp_update_self. exact HQ.
Qed.

Lemma wp_incr_nswap_accepted i (Q : unit -> world -> Prop) E w :
  in_bounds (shape (nswap_accepted (self w))) [i] = true ->
  Q tt (set_self
          (set_nswap_accepted
             (mkarr (shape (nswap_accepted (self w)))
                (fun k => if decide (k = [i])
                          then fadd (data (nswap_accepted (self w)) [i]) (Fin 1)
                          else data (nswap_accepted (self w)) k))
             (self w)) w) ->
  wp (incr_nswap_accepted i) Q E w.
Proof.
  intros Hb HQ. unfold incr_nswap_accepted. apply wp_bind, wp_attr, wp_bind.
  eapply wp_lift.
  - unfold iadd1, item, set_item. rewrite Hb. reflexivity.
  - apply wp_update_self. exact HQ.
Qed.

Lemma wp_accept_test pa E w :
  wp (accept_test pa)
     (fun a w' =>
        a = (flt (Fin 0) pa
             || flt (np_log (Fin (uval (unifs (rng w) (upos (rng w)))))) pa)
        /\ heap w' = heap w /\ trace w' = trace w /\ self w' = self w
        /\ ints (rng w') = ints (rng w) /\ unifs (rng w') = unifs (rng w)
        /\ ipos (rng w') = ipos (rng w))
     E w.
Proof.
  unfold accept_test. destruct (flt (Fin 0) pa).
  - apply wp_ret. repeat split; reflexivity.
  - apply wp_bind, wp_rand, wp_ret. repeat split; reflexivity.
Qed.

Lemma swap_trial_wp p lnprob logl i dbeta w P Q L E :
  sampler_wf (self w) ->
  heap w !! p = Some P -> heap w !! lnprob = Some Q ->
  heap w !! logl = Some L ->
  shape P = [ntemps (self w); nwalkers (self w); dim (self w)] ->
  shape Q = [ntemps (self w); nwalkers (self w)] ->
  shape L = [ntemps (self w); nwalkers (self w)] ->
  lnprob <> logl ->
  1 <= i < ntemps (self w) -> 0 < nwalkers (self w) ->
  wp (swap_trial p lnprob logl i dbeta)
     (fun _ w' =>
        trace w' = trace w
                   ++ [EvTrial i (trial_ii w) (trial_jj w)
                         (trial_paccept i dbeta L w)
                         (trial_accepted i dbeta L w)]
        /\ ints (rng w') = ints (rng w) /\ unifs (rng w') = unifs (rng w)
        /\ ipos (rng w') = 2 + ipos (rng w)
        /\ same_but_counters (self w) (self w')
        /\ length (heap w') = length (heap w)
        /\ (forall l, l <> p -> l <> lnprob -> l <> logl ->
              heap w' !! l = heap w !! l)
        /\ (trial_accepted i dbeta L w = false -> heap w' = heap w)
        /\ exists P' Q' L',
             heap w' !! p = Some P' /\ heap w' !! lnprob = Some Q'
             /\ heap w' !! logl = Some L'
             /\ shape P' = shape P /\ shape Q' = shape Q
             /\ shape L' = shape L
             /\ (trial_accepted i dbeta L w = true ->
                 swapped i (trial_ii w) (trial_jj w) dbeta P Q L P' Q' L'))
     E w.
Proof.
  intros (Sb & Sn & Sa) HP HQ HL SP SQ SL Hne Hi Hnw.
  assert (Hii : trial_ii w < nwalkers (self w))
    by (apply Nat.mod_upper_bound; lia).
  assert (Hjj : trial_jj w < nwalkers (self w))
    by (apply Nat.mod_upper_bound; lia).
  unfold swap_trial.
  apply wp_bind, wp_incr_nswap; [rewrite Sn; solve_bounds |].
  apply wp_bind, wp_incr_nswap; [cbn; rewrite Sn; solve_bounds |].
  apply wp_bind, wp_attr, wp_bind, wp_randint; [cbn; lia |].
  apply wp_bind, wp_attr, wp_bind, wp_randint; [cbn; lia |].
  cbn [self set_self set_rng rng set_nswap nwalkers ints ipos].
  fold (trial_ii w). fold (trial_jj w).
  apply wp_bind. eapply wp_getitem; [exact HL | rewrite SL; solve_bounds |].
  apply wp_bind. eapply wp_getitem; [exact HL | rewrite SL; solve_bounds |].
  fold (trial_paccept i dbeta L w).
  apply wp_bind.
  eapply wp_mono; [apply wp_accept_test | | exact (fun _ H => H)].
  cbn [heap trace self rng set_rng set_self set_heap set_trace
       ints ipos unifs upos].
  fold (trial_accepted i dbeta L w).
  intros acc w1 (-> & Hh1 & Ht1 & Hs1 & Hi1 & Hu1 & Hp1).
  apply wp_bind, wp_log.
  destruct (trial_accepted i dbeta L w) eqn:Eacc.
  - apply wp_bind, wp_incr_nswap_accepted;
      [cbn; rewrite Hs1; cbn; rewrite Sa; solve_bounds |].
    apply wp_bind, wp_incr_nswap_accepted;
      [cbn; rewrite Hs1; cbn; rewrite Sa; solve_bounds |].
    eapply wp_mono;
      [eapply (swap_walkers_wp p lnprob logl i _ _ dbeta _ P Q L);
       cbn [heap set_heap set_self set_trace set_rng];
       rewrite ?Hh1; eauto | | exact (fun _ H => H)].
    cbn [heap set_heap set_self set_trace set_rng rng trace self].
    intros u w' (Hr & Ht & Hs & Hlen & Hfr & P' & Q' & L'
                 & H1 & H2 & H3 & Hsw).
    rewrite Hr, Ht, Hs, Hi1, Hu1, Hp1, Ht1, Hs1, Hh1 in *.
    split; [reflexivity |]. split; [reflexivity |]. split; [reflexivity |].
    split; [reflexivity |].
    split. { repeat split; reflexivity. }
    split; [exact Hlen |]. split; [exact Hfr |].
    split; [discriminate |].
    exists P', Q', L'. pose proof Hsw as (S1 & S2 & S3 & _).
    do 6 (split; [assumption |]). intros _. exact Hsw.
  - apply wp_ret.
    cbn [heap set_heap set_self set_trace set_rng rng trace self].
    rewrite Hi1, Hu1, Hp1, Ht1, Hs1, Hh1.
    split; [reflexivity |]. split; [reflexivity |]. split; [reflexivity |].
    split; [reflexivity |].
    split. { repeat split; reflexivity. }
    split; [reflexivity |]. split; [reflexivity |].
    split; [reflexivity |].
    exists P, Q, L. do 6 (split; [assumption || reflexivity |]).
    discriminate.
Qed.

(** ** Statements that leave the sampler object alone *)

Lemma keeps_self_ret {A} (a : A) : keeps_self (ret a).
Proof. intros w. reflexivity. Qed.

Lemma keeps_self_bind {A B} (m : M A) (k : A -> M B) :
  keeps_self m -> (forall a, keeps_self (k a)) -> keeps_self (bind m k).
Proof.
  intros Hm Hk w. unfold bind. specialize (Hm w).
  destruct (m w) as [w' [a|e]]; cbn in *.
  - rewrite Hk. exact Hm.
  - exact Hm.
Qed.

Lemma keeps_self_lift {A} (r : res A) : keeps_self (lift r).
Proof. intros w. reflexivity. Qed.

Lemma keeps_self_deref l : keeps_self (deref l).
Proof. intros w. reflexivity. Qed.

Lemma keeps_self_assign l a : keeps_self (assign l a).
Proof. intros w. reflexivity. Qed.

Lemma keeps_self_log e : keeps_self (log e).
Proof. intros w. reflexivity. Qed.

Lemma keeps_self_attr {A} (f : PTSampler -> A) : keeps_self (attr f).
Proof. intros w. reflexivity. Qed.

Lemma keeps_self_randint n : keeps_self (nr_randint n).
Proof. intros w. unfold nr_randint. destruct (n =? 0); reflexivity. Qed.

Lemma keeps_self_rand : keeps_self nr_rand.
Proof. intros w. reflexivity. Qed.

Create HintDb keeps.
#[local] Hint Resolve keeps_self_ret keeps_self_lift keeps_self_deref
  keeps_self_assign keeps_self_log keeps_self_attr keeps_self_randint
  keeps_self_rand : keeps.

Lemma keeps_self_getitem l ix : keeps_self (getitem l ix).
Proof. apply keeps_self_bind; auto using keeps_self_deref, keeps_self_lift. Qed.

Lemma keeps_self_getsub l pre c : keeps_self (getsub l pre c).
Proof. apply keeps_self_bind; auto using keeps_self_deref, keeps_self_lift. Qed.

Lemma keeps_self_setitem l ix v : keeps_self (setitem l ix v).
Proof.
  repeat (apply keeps_self_bind; [| intros ?]);
    auto using keeps_self_deref, keeps_self_lift, keeps_self_assign.
Qed.

Lemma keeps_self_setsub l pre c v : keeps_self (setsub l pre c v).
Proof.
  repeat (apply keeps_self_bind; [| intros ?]);
    auto using keeps_self_deref, keeps_self_lift, keeps_self_assign.
Qed.

Lemma keeps_self_accept_test pa : keeps_self (accept_test pa).
Proof.
  unfold accept_test. destruct (flt (Fin 0) pa).
  - apply keeps_self_ret.
  - apply keeps_self_bind; [apply keeps_self_rand | intros; apply keeps_self_ret].
Qed.

Lemma keeps_self_swap_walkers p lnprob logl i ii jj dbeta :
  keeps_self (swap_walkers p lnprob logl i ii jj dbeta).
Proof.
  unfold swap_walkers.
  repeat (apply keeps_self_bind; [| intros ?]); auto with keeps.
Qed.

(** A statement that keeps the sampler object keeps whatever is known of
    it, whether it returns or raises. *)
Lemma wp_keeps_self {A} (m : M A) (I : PTSampler -> Prop) w :
  keeps_self m -> I (self w) ->
  wp m (fun _ w' => I (self w')) (fun w' => I (self w')) w.
Proof.
  intros Hm HI. unfold wp. specialize (Hm w).
  destruct (m w) as [w' [a|e]]; cbn in Hm; rewrite Hm; exact HI.
Qed.

(** ** The swap counters *)

Lemma fadd_of_nat_1 (n : nat) : fadd (of_nat n) (Fin 1) = of_nat (S n).
Proof. unfold of_nat. cbn [fadd]. rewrite S_INR. reflexivity. Qed.

Lemma counters_slack_weaken d d' s :
  (forall i, d' i <= d i) -> counters_slack d s -> counters_slack d' s.
Proof.
  intros Hd H i. destruct (H i) as (a & n & Ha & Hn & Hle).
  exists a, n. specialize (Hd i). repeat split; try assumption. lia.
Qed.

Lemma incr_nswap_counters i d w :
  counters_slack d (self w) ->
  wp (incr_nswap i)
     (fun _ w' => counters_slack (bump i d) (self w')
                  /\ same_but_counters (self w) (self w'))
     (fun w' => w' = w) w.
Proof.
  intros H. unfold incr_nswap, wp, bind, attr, lift, update_self, iadd1,
    item, set_item. cbn.
  destruct (in_bounds (shape (nswap (self w))) [i]) eqn:Hb; cbn; [| reflexivity].
  split; [| repeat split; reflexivity].
  intros k. destruct (H k) as (a & n & Ha & Hn & Hle). unfold bump.
  cbn [self set_self nswap nswap_accepted set_nswap set_nswap_accepted data].
  destruct (decide (k = i)) as [->|Hne].
  - exists a, (S n). rewrite Ha, Hn, fadd_of_nat_1.
    destruct (decide ([i] = [i])); [| congruence].
    repeat split; try reflexivity. lia.
  - exists a, n. rewrite Ha.
    destruct (decide ([k] = [i])) as [Heq|]; [congruence |].
    repeat split; try assumption.
Qed.

Lemma incr_nswap_accepted_counters i d w :
  counters_slack (bump i d) (self w) ->
  wp (incr_nswap_accepted i)
     (fun _ w' => counters_slack d (self w')
                  /\ same_but_counters (self w) (self w'))
     (fun w' => w' = w) w.
Proof.
  intros H. unfold incr_nswap_accepted, wp, bind, attr, lift, update_self,
    iadd1, item, set_item. cbn.
  destruct (in_bounds (shape (nswap_accepted (self w))) [i]) eqn:Hb; cbn;
    [| reflexivity].
  split; [| repeat split; reflexivity].
  intros k. destruct (H k) as (a & n & Ha & Hn & Hle). unfold bump in Hle.
  cbn [self set_self nswap nswap_accepted set_nswap set_nswap_accepted data].
  destruct (decide (k = i)) as [->|Hne].
  - exists (S a), n. rewrite Ha, Hn, fadd_of_nat_1.
    destruct (decide ([i] = [i])); [| congruence].
    repeat split; try reflexivity. lia.
  - exists a, n. rewrite Hn.
    destruct (decide ([k] = [i])) as [Heq|]; [congruence |].
    repeat split; try assumption.
Qed.

Lemma same_but_counters_refl s : same_but_counters s s.
Proof. repeat split; reflexivity. Qed.

Lemma same_but_counters_trans s1 s2 s3 :
  same_but_counters s1 s2 -> same_but_counters s2 s3 ->
  same_but_counters s1 s3.
Proof.
  unfold same_but_counters. intros H1 H2.
  destruct H1 as (?&?&?&?&?&?&?&?&?&?&?&?).
  destruct H2 as (?&?&?&?&?&?&?&?&?&?&?&?).
  repeat split; congruence.
Qed.

Lemma counters_kept_self {A} (m : M A) d s w :
  keeps_self m ->
  counters_slack d (self w) -> same_but_counters s (self w) ->
  wp m (fun _ w' => counters_slack d (self w')
                    /\ same_but_counters s (self w'))
       (counters_kept s) w.
Proof.
  intros Hm Hd Hs.
  eapply wp_mono;
    [apply (wp_keeps_self m (fun s' => counters_slack d s'
                                       /\ same_but_counters s s'));
     [exact Hm | split; assumption] | auto |].
  intros w' [H1 H2]. split; [| exact H2].
  eapply counters_slack_weaken; [| exact H1]. intros; cbn; lia.
Qed.

Lemma swap_trial_counters p lnprob logl i dbeta w :
  counters_ok (self w) ->
  wp (swap_trial p lnprob logl i dbeta)
     (fun _ => counters_kept (self w)) (counters_kept (self w)) w.
Proof.
  intros H0. unfold swap_trial.
  assert (Hk0 : counters_kept (self w) w)
    by (split; [exact H0 | apply same_but_counters_refl]).
  apply wp_bind.
  eapply wp_mono; [apply incr_nswap_counters, H0 | | intros w' ->; exact Hk0].
  cbn beta. intros u w1 [H1 S1]. apply wp_bind.
  eapply wp_mono; [apply incr_nswap_counters, H1 | |].
  2:{ intros w' ->. split; [| exact S1].
      eapply counters_slack_weaken; [| exact H1]. intros; cbn; lia. }
  cbn beta. intros u2 w2 [H2 S2].
  pose proof (same_but_counters_trans _ _ _ S1 S2) as S12.
  set (d2 := bump (i - 1) (bump i (fun _ => 0))) in *.
  (* the reads and draws before the test *)
  assert (Hstep : forall A B (m : M A) (k : A -> M B) w',
    keeps_self m ->
    counters_slack d2 (self w') -> same_but_counters (self w) (self w') ->
    (forall a w'', counters_slack d2 (self w'') ->
                   same_but_counters (self w) (self w'') ->
                   wp (k a) (fun _ => counters_kept (self w))
                      (counters_kept (self w)) w'') ->
    wp (bind m k) (fun _ => counters_kept (self w))
       (counters_kept (self w)) w').
  { intros A B m k w' Hm Hd Hs Hk. apply wp_bind.
    eapply wp_mono; [apply (counters_kept_self m d2 (self w)); assumption | |].
    - cbn beta. intros a w'' [? ?]. apply Hk; assumption.
    - auto. }
  apply Hstep; [apply keeps_self_attr | exact H2 | exact S12 |].
  intros nw w3 H3 S3.
  apply Hstep; [apply keeps_self_randint | exact H3 | exact S3 |].
  intros ii w4 H4 S4.
  apply Hstep; [apply keeps_self_attr | exact H4 | exact S4 |].
  intros nw' w5 H5 S5.
  apply Hstep; [apply keeps_self_randint | exact H5 | exact S5 |].
  intros jj w6 H6 S6.
  apply Hstep; [apply keeps_self_getitem | exact H6 | exact S6 |].
  intros li w7 H7 S7.
  apply Hstep; [apply keeps_self_getitem | exact H7 | exact S7 |].
  intros lj w8 H8 S8.
  apply Hstep; [apply keeps_self_accept_test | exact H8 | exact S8 |].
  intros acc w9 H9 S9.
  apply Hstep; [apply keeps_self_log | exact H9 | exact S9 |].
  intros u3 w10 H10 S10.
  destruct acc.
  - apply wp_bind.
    eapply wp_mono; [apply (incr_nswap_accepted_counters i
                              (bump (i - 1) (fun _ => 0))) | |].
    + eapply counters_slack_weaken; [| exact H10].
      intros k. unfold d2, bump.
      destruct (decide (k = i - 1)), (decide (k = i)); lia.
    + cbn beta. intros u4 w11 [H11 S11]. apply wp_bind.
      pose proof (same_but_counters_trans _ _ _ S10 S11) as S11'.
      eapply wp_mono; [apply (incr_nswap_accepted_counters (i - 1)
                                (fun _ => 0)), H11 | |].
      * cbn beta. intros u5 w12 [H12 S12'].
        pose proof (same_but_counters_trans _ _ _ S11' S12') as S12''.
        eapply wp_mono;
          [apply (counters_kept_self _ (fun _ => 0) (self w));
           [apply keeps_self_swap_walkers | exact H12 | exact S12''] | |].
        -- cbn beta. intros ? ? [? ?]. split; assumption.
        -- auto.
      * intros w' ->. split; [| exact S11'].
        eapply counters_slack_weaken; [| exact H11]. intros; cbn; lia.
    + intros w' ->. split; [| exact S10].
      eapply counters_slack_weaken; [| exact H10]. intros; cbn; lia.
  - apply wp_ret. split; [| exact S10].
    eapply counters_slack_weaken; [| exact H10]. intros; cbn; lia.
Qed.

Lemma keeps_self_betas_item i : keeps_self (betas_item i).
Proof. apply keeps_self_bind; [| intros ?]; auto with keeps. Qed.

Lemma counters_kept_trans s w1 w2 :
  counters_kept s w1 -> counters_kept (self w1) w2 -> counters_kept s w2.
Proof.
  intros [_ S1] [H2 S2]. split; [exact H2 |].
  eapply same_but_counters_trans; eassumption.
Qed.

Lemma temperature_swaps_counters p lnprob logl w :
  counters_ok (self w) ->
  wp (_temperature_swaps p lnprob logl)
     (fun _ => counters_kept (self w)) (counters_kept (self w)) w.
Proof.
  intros H0. unfold _temperature_swaps.
  assert (Hk0 : counters_kept (self w) w)
    by (split; [exact H0 | apply same_but_counters_refl]).
  apply wp_bind, wp_log, wp_bind, wp_attr, wp_bind.
  eapply wp_mono;
    [apply (wp_for_each _ _ (counters_kept (self w)) (counters_kept (self w)))
    | intros u w' H; apply wp_ret, H | auto].
  - exact Hk0.
  - intros i w1 _ K1. unfold swap_boundary.
    assert (Hrd : forall A B (m : M A) (k : A -> M B) w',
      keeps_self m -> counters_kept (self w) w' ->
      (forall a w'', counters_kept (self w) w'' ->
         wp (k a) (fun _ => counters_kept (self w))
            (counters_kept (self w)) w'') ->
      wp (bind m k) (fun _ => counters_kept (self w))
         (counters_kept (self w)) w').
    { intros A B m k w' Hm Hw Hk. apply wp_bind.
      eapply wp_mono;
        [apply (wp_keeps_self m (fun s' => counters_ok s'
                                 /\ same_but_counters (self w) s'));
         [exact Hm | exact Hw] | | auto].
      cbn beta. intros a w'' Hw''. apply Hk. exact Hw''. }
    apply Hrd; [apply keeps_self_betas_item | exact K1 |]. intros bi w2 K2.
    apply Hrd; [apply keeps_self_betas_item | exact K2 |]. intros bi1 w3 K3.
    apply Hrd; [apply keeps_self_attr | exact K3 |]. intros nw w4 K4.
    apply wp_for_each; [exact K4 |].
    intros j w5 _ K5.
    eapply wp_mono; [apply swap_trial_counters, K5 | |];
      cbn beta; intros; eapply counters_kept_trans; eassumption.
Qed.

Lemma exchanged_counters s :
  exchanged s ->
  shape (nswap s) = [ntemps s] /\ shape (nswap_accepted s) = [ntemps s]
  /\ counters_ok s.
Proof.
  induction 1 as [fe nt nw d fl fp betas mk s Hinit
                 | w p lnprob logl Hex IH
                 | s s' Hex IH Hn Ha Hb].
  - unfold PTSampler_init in Hinit.
    destruct (elements _) as [bs|e]; cbn in Hinit; [| discriminate].
    injection Hinit as <-. cbn. repeat split.
    intros i. exists 0, 0. cbn. repeat split. lia.
  - destruct IH as (S1 & S2 & Hok).
    pose proof (temperature_swaps_counters p lnprob logl w Hok) as Hwp.
    unfold wp in Hwp.
    destruct (_temperature_swaps p lnprob logl w) as [w' [a|e]]; cbn;
      destruct Hwp as [Hc Hs];
      destruct Hs as (_ & _ & Hnt & _ & _ & _ & _ & _ & _ & _ & Hs1 & Hs2);
      (repeat split; [congruence | congruence | exact Hc]).
  - destruct IH as (S1 & S2 & Hok). repeat split; try congruence.
    intros i. destruct (Hok i) as (a & n & H1 & H2 & H3).
    exists a, n. rewrite Ha, Hb. auto.
Qed.

Lemma fle_of_nat (a n : nat) : a <= n -> fle (of_nat a) (of_nat n) = true.
Proof.
  intros H. unfold fle, of_nat. cbn.
  apply le_INR in H.
  destruct (Rlt_dec (INR a) (INR n)); [reflexivity |].
  destruct (Req_dec_T (INR a) (INR n)); [reflexivity | lra].
Qed.

(** C9.  After construction and any sequence of exchange calls, every
    swap counter satisfies [0 <= accepted[i] <= attempted[i]], and
    wherever [attempted[i]] is not zero the acceptance fraction
    [accepted[i] / attempted[i]] lies in [[0, 1]]. *)
Theorem swap_counters_bounded (s : PTSampler) (i : nat) :
  exchanged s -> i < ntemps s ->
  exists a n : nat,
    item (nswap_accepted s) [i] = Ok (of_nat a)
    /\ item (nswap s) [i] = Ok (of_nat n)
    /\ fle (Fin 0) (of_nat a) = true
    /\ fle (of_nat a) (of_nat n) = true
    /\ (n <> 0 -> forall w, self w = s ->
          exists F f,
            tswap_acceptance_fraction w = (w, Ok F)
            /\ item F [i] = Ok (Fin f) /\ (0 <= f <= 1)%R).
Proof.
  intros Hex Hi. destruct (exchanged_counters s Hex) as (S1 & S2 & Hok).
  destruct (Hok i) as (a & n & Ha & Hn & Hle). cbn in Hle.
  assert (Hb : (i <? ntemps s) = true) by (apply Nat.ltb_lt; exact Hi).
  exists a, n. split; [| split; [| split; [| split]]].
  - unfold item. rewrite S2. cbn [in_bounds]. rewrite Hb. cbn [andb].
    rewrite Ha. reflexivity.
  - unfold item. rewrite S1. cbn [in_bounds]. rewrite Hb. cbn [andb].
    rewrite Hn. reflexivity.
  - apply (fle_of_nat 0 a). lia.
  - apply fle_of_nat. lia.
  - intros Hn0 w <-.
    assert (HR : (0 < INR n)%R) by (apply lt_0_INR; lia).
    eexists _, (INR a / INR n)%R. split; [| split].
    + unfold tswap_acceptance_fraction, bind, attr, lift, np_divide, shape_eqb.
      rewrite S1, S2.
      destruct (decide ([ntemps (self w)] = [ntemps (self w)]));
        [reflexivity | congruence].
    + unfold item. cbn [shape data in_bounds]. rewrite Hb. cbn [andb].
      rewrite Ha, Hn. unfold of_nat. rewrite fdiv_fin by lra. reflexivity.
    + apply le_INR in Hle. rewrite Nat.add_0_r in Hle.
      pose proof (pos_INR a). split.
      * apply Rmult_le_pos; [lra |]. apply Rlt_le, Rinv_0_lt_compat, HR.
      * apply (Rmult_le_reg_r (INR n)); [exact HR |].
        unfold Rdiv. rewrite Rmult_assoc, Rinv_l by lra. lra.
Qed.

Lemma heap_evolves_refl T h : heap_evolves T h h.
Proof. repeat split; eauto. Qed.

Lemma heap_evolves_trans T h1 h2 h3 :
  heap_evolves T h1 h2 -> heap_evolves T h2 h3 -> heap_evolves T h1 h3.
Proof.
  intros (L1 & S1 & F1) (L2 & S2 & F2). repeat split.
  - lia.
  - intros l a Ha. destruct (S1 l a Ha) as (a' & Ha' & E1).
    destruct (S2 l a' Ha') as (a'' & Ha'' & E2). exists a''.
    split; [exact Ha'' | congruence].
  - intros l Hl Hn. rewrite F2 by (auto; lia). apply F1; assumption.
Qed.

Lemma heap_evolves_mono T T' h h' :
  (forall l, In l T -> In l T') -> heap_evolves T h h' -> heap_evolves T' h h'.
Proof.
  intros HT (L1 & S1 & F1). repeat split; auto.
Qed.

Lemma rev_seq_1 (m : nat) : rev (seq 1 m) = map (fun k => m - k) (seq 0 m).
Proof.
  induction m as [|m IH]; [reflexivity |].
  rewrite seq_S, rev_app_distr. cbn [rev app Nat.add].
  rewrite IH. cbn [seq map]. f_equal.
  rewrite <- seq_shift, map_map. reflexivity.
Qed.

Lemma range3_down (n : nat) :
  map Z.to_nat (range3 (Z.of_nat n - 1) 0 (-1)) = rev (seq 1 (n - 1)).
Proof.
  unfold range3. cbn [Z.ltb Z.compare Z.opp].
  replace (Z.of_nat n - 1 - 0 - -1 - 1)%Z with (Z.of_nat n - 1)%Z by lia.
  rewrite Z.div_1_r.
  replace (Z.to_nat (Z.max 0 (Z.of_nat n - 1))) with (n - 1) by lia.
  rewrite map_map, rev_seq_1. apply map_ext_in.
  intros k Hk. apply in_seq in Hk. lia.
Qed.

Lemma wp_for_each_prefix {A} (l : list A) (body : A -> M unit)
    (I : list A -> world -> Prop) (E : world -> Prop) w :
  I [] w ->
  (forall pre x post w', l = pre ++ x :: post -> I pre w' ->
     wp (body x) (fun _ => I (pre ++ [x])) E w') ->
  wp (for_each l body) (fun _ => I l) E w.
Proof.
  intros H0 Hb.
  assert (G : forall post pre w', l = pre ++ post -> I pre w' ->
            wp (for_each post body) (fun _ => I l) E w').
  { induction post as [|x post IH]; intros pre w' Hl HI.
    - rewrite app_nil_r in Hl. subst pre. exact HI.
    - cbn [for_each]. apply wp_bind.
      eapply wp_mono; [apply (Hb pre x post); assumption | | auto].
      cbn beta. intros u w'' HI'. apply (IH (pre ++ [x])); [| exact HI'].
      rewrite <- app_assoc. exact Hl. }
  apply (G l []); [reflexivity | exact H0].
Qed.

Lemma state_wf_transfer T w w' p lnprob logl :
  state_wf w p lnprob logl ->
  same_but_counters (self w) (self w') ->
  heap_evolves T (heap w) (heap w') ->
  state_wf w' p lnprob logl.
Proof.
  intros ((Sb & Sn & Sa) & Hne & HP & HQ & HL) HS (_ & Hsh & _).
  destruct HS as (_ & _ & Ent & Enw & Ed & _ & _ & _ & Eb & _ & En & Ea).
  unfold state_wf, sampler_wf. rewrite Ent, Enw, Ed, Eb, En, Ea.
  repeat split; try assumption.
  - destruct HP as (a & Ha & Hs). destruct (Hsh _ _ Ha) as (a' & Ha' & Hs').
    exists a'. split; [exact Ha' | congruence].
  - destruct HQ as (a & Ha & Hs). destruct (Hsh _ _ Ha) as (a' & Ha' & Hs').
    exists a'. split; [exact Ha' | congruence].
  - destruct HL as (a & Ha & Hs). destruct (Hsh _ _ Ha) as (a' & Ha' & Hs').
    exists a'. split; [exact Ha' | congruence].
Qed.

Lemma swap_trial_wf p lnprob logl i dbeta w E :
  state_wf w p lnprob logl ->
  1 <= i < ntemps (self w) -> 0 < nwalkers (self w) ->
  wp (swap_trial p lnprob logl i dbeta)
     (fun _ w' =>
        same_but_counters (self w) (self w')
        /\ heap_evolves [p; lnprob; logl] (heap w) (heap w')
        /\ exists e, trace w' = trace w ++ [e] /\ event_boundary e = Some i)
     E w.
Proof.
  intros (Hs & Hne & (P & HP & SP) & (Q & HQ & SQ) & (L & HL & SL)) Hi Hnw.
  eapply wp_mono;
    [apply (swap_trial_wp p lnprob logl i dbeta w P Q L); assumption
    | | exact (fun _ H => H)].
  cbn beta.
  intros u w' (Ht & _ & _ & _ & Hsb & Hlen & Hfr & _
               & P' & Q' & L' & HP' & HQ' & HL' & SP' & SQ' & SL' & _).
  split; [exact Hsb |]. split.
  - split; [lia |]. split.
    + intros l a Ha.
      destruct (decide (l = p)) as [Heq|Np].
      { subst l. exists P'. split; [exact HP' |].
        rewrite HP in Ha. injection Ha as <-. exact SP'. }
      destruct (decide (l = lnprob)) as [Heq|Nq].
      { subst l. exists Q'. split; [exact HQ' |].
        rewrite HQ in Ha. injection Ha as <-. exact SQ'. }
      destruct (decide (l = logl)) as [Heq|Nl].
      { subst l. exists L'. split; [exact HL' |].
        rewrite HL in Ha. injection Ha as <-. exact SL'. }
      exists a. rewrite Hfr by assumption. split; [exact Ha | reflexivity].
    + intros l _ Hn. apply Hfr; intros ->; apply Hn; cbn; auto.
  - eexists. split; [exact Ht | reflexivity].
Qed.

Lemma betas_item_wp i (Q : float -> world -> Prop) E w :
  shape (_betas (self w)) = [ntemps (self w)] -> i < ntemps (self w) ->
  Q (data (_betas (self w)) [i]) w ->
  wp (betas_item i) Q E w.
Proof.
  intros Hs Hi HQ. unfold betas_item. apply wp_bind, wp_attr.
  eapply wp_lift; [| exact HQ]. unfold item. rewrite Hs. cbn [in_bounds].
  rewrite (proj2 (Nat.ltb_lt _ _) Hi). reflexivity.
Qed.

Lemma map_const_range {A} (x : A) (n : nat) :
  map (fun _ => Some x) (range n) = map Some (repeat x n).
Proof.
  unfold range. generalize 0.
  induction n as [|n IH]; intros start; [reflexivity |].
  cbn [seq map repeat]. f_equal. apply IH.
Qed.

(** The exchange under well-formed arguments. *)
Lemma temperature_swaps_wp p lnprob logl w E :
  state_wf w p lnprob logl ->
  wp (_temperature_swaps p lnprob logl)
     (fun r w' =>
        r = (p, lnprob, logl)
        /\ same_but_counters (self w) (self w')
        /\ heap_evolves [p; lnprob; logl] (heap w) (heap w')
        /\ exists trials,
             trace w' = trace w ++ EvExchange :: trials
             /\ map event_boundary trials
                = map Some (swap_schedule (ntemps (self w))
                                          (nwalkers (self w))))
     E w.
Proof.
  intros Hwf. unfold _temperature_swaps.
  apply wp_bind, wp_log, wp_bind, wp_attr.
  cbn [self set_trace]. rewrite range3_down. apply wp_bind.
  set (w0 := set_trace (trace w ++ [EvExchange]) w).
  set (nt := ntemps (self w)). set (nw := nwalkers (self w)).
  pose (I := fun (pre : list nat) (w' : world) =>
    same_but_counters (self w) (self w')
    /\ heap_evolves [p; lnprob; logl] (heap w) (heap w')
    /\ exists trials,
         trace w' = trace w ++ EvExchange :: trials
         /\ map event_boundary trials
            = map Some (flat_map (fun i => repeat i nw) pre)).
  eapply wp_mono;
    [apply (wp_for_each_prefix _ _ I E) | | exact (fun _ H => H)].
  - (* before the first boundary *)
    split; [apply same_but_counters_refl |].
    split; [apply heap_evolves_refl |].
    exists []. split; reflexivity.
  - (* one boundary *)
    intros pre i post w1 Hl (S1 & H1 & trials & T1 & B1).
    assert (Hi : 1 <= i < nt).
    { assert (In i (rev (seq 1 (nt - 1))))
        by (rewrite Hl; apply in_or_app; right; left; reflexivity).
      apply in_rev, in_seq in H. lia. }
    pose proof (state_wf_transfer _ _ _ _ _ _ Hwf S1 H1) as Hwf1.
    pose proof S1 as (_ & _ & Ent & Enw & _).
    unfold swap_boundary.
    apply wp_bind, betas_item_wp; [apply Hwf1 | lia |].
    apply wp_bind, betas_item_wp; [apply Hwf1 | lia |].
    apply wp_bind, wp_attr. rewrite Enw. fold nw.
    pose (J := fun (done : list nat) (w' : world) =>
      same_but_counters (self w) (self w')
      /\ heap_evolves [p; lnprob; logl] (heap w) (heap w')
      /\ exists trials',
           trace w' = trace w ++ EvExchange :: trials'
           /\ map event_boundary trials'
              = map Some (flat_map (fun i => repeat i nw) pre)
                ++ map (fun _ => Some i) done).
    eapply wp_mono;
      [apply (wp_for_each_prefix _ _ J E) | | exact (fun _ H => H)].
    + split; [exact S1 |]. split; [exact H1 |].
      exists trials. split; [exact T1 |]. cbn. rewrite app_nil_r. exact B1.
    + intros done j rest w2 Hr (S2 & H2 & trials2 & T2 & B2).
      pose proof (state_wf_transfer _ _ _ _ _ _ Hwf S2 H2) as Hwf2.
      pose proof S2 as (_ & _ & Ent2 & Enw2 & _).
      assert (Hnw : 0 < nw).
      { assert (Hj : In j (range nw))
          by (rewrite Hr; apply in_or_app; right; left; reflexivity).
        apply in_seq in Hj. lia. }
      eapply wp_mono;
        [apply swap_trial_wf; [exact Hwf2 | lia | lia]
        | | exact (fun _ H => H)].
      cbn beta. intros u w3 (S3 & H3 & e & T3 & B3).
      split; [eapply same_but_counters_trans; eassumption |].
      split; [eapply heap_evolves_trans; eassumption |].
      exists (trials2 ++ [e]). split.
      * rewrite T3, T2. rewrite <- app_assoc. reflexivity.
      * rewrite !map_app, B2. cbn [map]. rewrite B3, <- app_assoc.
        reflexivity.
    + cbn beta. intros u w2 (S2 & H2 & trials2 & T2 & B2).
      split; [exact S2 |]. split; [exact H2 |].
      exists trials2. split; [exact T2 |].
      rewrite B2, flat_map_app, map_app. cbn [flat_map].
      rewrite app_nil_r. f_equal. apply map_const_range.
  - cbn beta. intros u w' (S1 & H1 & trials & T1 & B1).
    apply wp_ret. split; [reflexivity |]. split; [exact S1 |].
    split; [exact H1 |]. exists trials. split; [exact T1 | exact B1].
Qed.

(** ** Statements that change the sampler object in its counters only *)

Lemma keeps_self_static {A} (m : M A) : keeps_self m -> keeps_static m.
Proof. intros H w. rewrite H. apply same_but_counters_refl. Qed.

Lemma keeps_static_bind {A B} (m : M A) (k : A -> M B) :
  keeps_static m -> (forall a, keeps_static (k a)) -> keeps_static (bind m k).
Proof.
  intros Hm Hk w. unfold bind. specialize (Hm w).
  destruct (m w) as [w' [a|e]]; cbn in *; [| exact Hm].
  eapply same_but_counters_trans; [exact Hm | apply Hk].
Qed.

Lemma keeps_static_for_each {A} (l : list A) (body : A -> M unit) :
  (forall x, keeps_static (body x)) -> keeps_static (for_each l body).
Proof.
  intros Hb. induction l as [|x l IH]; cbn [for_each].
  - apply keeps_self_static, keeps_self_ret.
  - apply keeps_static_bind; [apply Hb | intros _; exact IH].
Qed.

Lemma keeps_static_incr_nswap i : keeps_static (incr_nswap i).
Proof.
  intros w. unfold incr_nswap, bind, attr, lift, update_self. cbn.
  destruct (iadd1 (nswap (self w)) i) as [a|e] eqn:Ha; cbn.
  - unfold iadd1, item, set_item in Ha.
    destruct (in_bounds _ _); cbn in Ha; [| discriminate].
    injection Ha as <-. repeat split; reflexivity.
  - apply same_but_counters_refl.
Qed.

Lemma keeps_static_incr_nswap_accepted i :
  keeps_static (incr_nswap_accepted i).
Proof.
  intros w. unfold incr_nswap_accepted, bind, attr, lift, update_self. cbn.
  destruct (iadd1 (nswap_accepted (self w)) i) as [a|e] eqn:Ha; cbn.
  - unfold iadd1, item, set_item in Ha.
    destruct (in_bounds _ _); cbn in Ha; [| discriminate].
    injection Ha as <-. repeat split; reflexivity.
  - apply same_but_counters_refl.
Qed.

Ltac keeps_static_step :=
  lazymatch goal with
  | |- keeps_static (bind _ _) =>
      apply keeps_static_bind;
      [ first [ apply keeps_static_incr_nswap
              | apply keeps_static_incr_nswap_accepted
              | apply keeps_self_static;
                auto using keeps_self_getitem, keeps_self_accept_test,
                           keeps_self_swap_walkers with keeps ]
      | intros ? ]
  end.

Lemma keeps_static_swap_trial p lnprob logl i dbeta :
  keeps_static (swap_trial p lnprob logl i dbeta).
Proof.
  unfold swap_trial. repeat keeps_static_step.
  lazymatch goal with
  | |- keeps_static (if ?b then _ else _) => destruct b
  end.
  - repeat keeps_static_step.
    apply keeps_self_static, keeps_self_swap_walkers.
  - apply keeps_self_static, keeps_self_ret.
Qed.

(** ** The exchange as a sequence of trials *)

Lemma for_each_app {A} (l1 l2 : list A) (body : A -> M unit) w :
  for_each (l1 ++ l2) body w
  = (for_each l1 body ;; for_each l2 body) w.
Proof.
  revert w. induction l1 as [|x l1 IH]; intros w; cbn [for_each app].
  - reflexivity.
  - unfold bind. destruct (body x w) as [w' [[]|e]]; [| reflexivity].
    rewrite IH. reflexivity.
Qed.

Lemma for_each_const {A} (x : A) (n : nat) (body : A -> M unit) w :
  for_each (range n) (fun _ => body x) w = for_each (repeat x n) body w.
Proof.
  unfold range. generalize 0. revert w.
  induction n as [|n IH]; intros w start; cbn [seq repeat for_each];
    [reflexivity |].
  unfold bind. destruct (body x w) as [w' [[]|e]]; [| reflexivity].
  apply IH.
Qed.

Lemma swap_boundary_run p lnprob logl i w :
  shape (_betas (self w)) = [ntemps (self w)] -> 1 <= i < ntemps (self w) ->
  swap_boundary p lnprob logl i w
  = for_each (repeat i (nwalkers (self w)))
      (fun i => swap_trial p lnprob logl i (dbeta_at (self w) i)) w.
Proof.
  intros Hs Hi. unfold swap_boundary, betas_item, bind, attr, lift, item.
  rewrite Hs. cbn [in_bounds].
  rewrite !(proj2 (Nat.ltb_lt _ _)) by lia. cbn [andb].
  apply (for_each_const i _
           (fun i => swap_trial p lnprob logl i (dbeta_at (self w) i))).
Qed.

Lemma swap_boundaries_run p lnprob logl s (bl : list nat) :
  shape (_betas s) = [ntemps s] ->
  (forall i, In i bl -> 1 <= i < ntemps s) ->
  forall w, same_but_counters s (self w) ->
  for_each bl (swap_boundary p lnprob logl) w
  = for_each (flat_map (fun i => repeat i (nwalkers s)) bl)
      (fun i => swap_trial p lnprob logl i (dbeta_at s i)) w.
Proof.
  intros Hs. induction bl as [|i bl IH]; intros Hbl w Hw; [reflexivity |].
  cbn [for_each flat_map]. rewrite for_each_app.
  pose proof Hw as (_ & _ & Ent & Enw & _ & _ & _ & _ & Eb & _).
  unfold bind.
  rewrite swap_boundary_run;
    [| rewrite Eb, Ent; exact Hs | rewrite Ent; apply Hbl; left; reflexivity].
  rewrite Enw. unfold dbeta_at at 1. rewrite Eb. fold (dbeta_at s).
  pose proof (keeps_static_for_each (repeat i (nwalkers s))
                (fun i => swap_trial p lnprob logl i (dbeta_at s i))
                (fun x => keeps_static_swap_trial p lnprob logl x _) w) as Hk.
  destruct (for_each (repeat i (nwalkers s)) _ w) as [w' [[]|e]];
    [| reflexivity].
  cbn in Hk. apply IH.
  - intros j Hj. apply Hbl. right. exact Hj.
  - eapply same_but_counters_trans; eassumption.
Qed.

Lemma temperature_swaps_run p lnprob logl w :
  shape (_betas (self w)) = [ntemps (self w)] ->
  _temperature_swaps p lnprob logl w
  = (log EvExchange ;;
     for_each (swap_schedule (ntemps (self w)) (nwalkers (self w)))
       (fun i => swap_trial p lnprob logl i (dbeta_at (self w) i)) ;;
     ret (p, lnprob, logl)) w.
Proof.
  intros Hs. unfold _temperature_swaps, swap_schedule.
  unfold bind, log, attr. cbn [self set_trace].
  rewrite range3_down.
  rewrite (swap_boundaries_run p lnprob logl (self w)).
  - reflexivity.
  - exact Hs.
  - intros i Hi. apply in_rev, in_seq in Hi. lia.
  - apply same_but_counters_refl.
Qed.

(** ** The exchange, trial by trial *)

Lemma world0_wf betas P Q L :
  shape betas = [2] -> shape P = [2; 1; 1] -> shape Q = [2; 1] ->
  shape L = [2; 1] -> state_wf (world0 betas P Q L) 0 1 2.
Proof.
  intros Hb HP HQ HL. unfold state_wf, sampler_wf, has_shape. cbn.
  repeat split; try assumption; try lia; eauto.
Qed.

(** The trial of [swap_trial_wp], as an equation. *)
Lemma swap_trial_returns p lnprob logl i dbeta w P Q L :
  state_wf w p lnprob logl ->
  heap w !! p = Some P -> heap w !! lnprob = Some Q ->
  heap w !! logl = Some L ->
  1 <= i < ntemps (self w) -> 0 < nwalkers (self w) ->
  exists w',
    swap_trial p lnprob logl i dbeta w = (w', Ok tt)
    /\ trace w' = trace w
                  ++ [EvTrial i (trial_ii w) (trial_jj w)
                        (trial_paccept i dbeta L w)
                        (trial_accepted i dbeta L w)]
    /\ state_wf w' p lnprob logl
    /\ (trial_accepted i dbeta L w = false -> heap w' = heap w)
    /\ exists P' Q' L',
         heap w' !! p = Some P' /\ heap w' !! lnprob = Some Q'
         /\ heap w' !! logl = Some L'
         /\ (trial_accepted i dbeta L w = true ->
             swapped i (trial_ii w) (trial_jj w) dbeta P Q L P' Q' L').
Proof.
  intros Hwf HP HQ HL Hi Hnw.
  pose proof Hwf as (Hs & Hne & (P0 & HP0 & SP) & (Q0 & HQ0 & SQ)
                     & (L0 & HL0 & SL)).
  rewrite HP in HP0. injection HP0 as <-.
  rewrite HQ in HQ0. injection HQ0 as <-.
  rewrite HL in HL0. injection HL0 as <-.
  pose proof (swap_trial_wp p lnprob logl i dbeta w P Q L (fun _ => False)
                Hs HP HQ HL SP SQ SL Hne Hi Hnw) as Hwp.
  pose proof (swap_trial_wf p lnprob logl i dbeta w (fun _ => False)
                Hwf Hi Hnw) as Hwp2.
  unfold wp in Hwp, Hwp2.
  destruct (swap_trial p lnprob logl i dbeta w) as [w' [[]|e]];
    [| contradiction].
  destruct Hwp as (Ht & _ & _ & _ & _ & _ & _ & Hrej & P' & Q' & L'
                   & HP' & HQ' & HL' & _ & _ & _ & Hsw).
  destruct Hwp2 as (Hsb & Hev & _).
  exists w'. split; [reflexivity |]. split; [exact Ht |].
  split; [eapply state_wf_transfer; eassumption |].
  split; [exact Hrej |].
  exists P', Q', L'. auto.
Qed.

(** C2, as amended.  On an accepted trial at boundary [(i, i-1)] with
    walkers [ii] (rung [i]) and [jj] (rung [i-1]), log-posteriors and
    log-likelihoods being held in different arrays: positions and
    log-likelihoods of the two walkers change places unaltered; slot
    [(i-1, jj)] receives the log-posterior that walker [ii] of rung [i]
    had plus [dbeta] times that walker's log-likelihood, and slot
    [(i, ii)] the log-posterior that walker [jj] of rung [i-1] had minus
    [dbeta] times that walker's log-likelihood. *)
Theorem accepted_swap_exchanges_walkers
    (p lnprob logl : loc) (i : nat) (dbeta : float) (w : world)
    (P Q L : ndarray) :
  state_wf w p lnprob logl ->
  heap w !! p = Some P -> heap w !! lnprob = Some Q ->
  heap w !! logl = Some L ->
  1 <= i < ntemps (self w) -> 0 < nwalkers (self w) ->
  trial_accepted i dbeta L w = true ->
  let ii := trial_ii w in
  let jj := trial_jj w in
  exists w' P' Q' L',
    swap_trial p lnprob logl i dbeta w = (w', Ok tt)
    /\ heap w' !! p = Some P' /\ heap w' !! lnprob = Some Q'
    /\ heap w' !! logl = Some L'
    /\ (forall k, data P' (i :: ii :: k) = data P (i - 1 :: jj :: k))
    /\ (forall k, data P' (i - 1 :: jj :: k) = data P (i :: ii :: k))
    /\ item L' [i; ii] = item L [i - 1; jj]
    /\ item L' [i - 1; jj] = item L [i; ii]
    /\ item Q' [i - 1; jj]
       = Ok (fadd (data Q [i; ii]) (fmul dbeta (data L [i; ii])))
    /\ item Q' [i; ii]
       = Ok (fsub (data Q [i - 1; jj]) (fmul dbeta (data L [i - 1; jj]))).
Proof.
  intros Hwf HP HQ HL Hi Hnw Hacc ii jj.
  destruct (swap_trial_returns p lnprob logl i dbeta w P Q L
              Hwf HP HQ HL Hi Hnw)
    as (w' & Hrun & _ & _ & _ & P' & Q' & L' & HP' & HQ' & HL' & Hsw).
  specialize (Hsw Hacc).
  destruct Hsw as (SP' & SQ' & SL' & DP & DL & DQ).
  fold ii jj in DP, DL, DQ.
  pose proof Hwf as (_ & _ & (P0 & HP0 & SP) & (Q0 & HQ0 & SQ)
                     & (L0 & HL0 & SL)).
  rewrite HP in HP0. injection HP0 as <-.
  rewrite HQ in HQ0. injection HQ0 as <-.
  rewrite HL in HL0. injection HL0 as <-.
  assert (Hii : ii < nwalkers (self w)) by (apply Nat.mod_upper_bound; lia).
  assert (Hjj : jj < nwalkers (self w)) by (apply Nat.mod_upper_bound; lia).
  assert (Hne : [i - 1; jj] <> [i; ii]) by (intros [= H _]; lia).
  assert (B1 : in_bounds [ntemps (self w); nwalkers (self w)] [i; ii] = true).
  { cbn [in_bounds]. rewrite !(proj2 (Nat.ltb_lt _ _)) by lia. reflexivity. }
  assert (B2 : in_bounds [ntemps (self w); nwalkers (self w)] [i - 1; jj]
               = true).
  { cbn [in_bounds]. rewrite !(proj2 (Nat.ltb_lt _ _)) by lia. reflexivity. }
  exists w', P', Q', L'.
  split; [exact Hrun |]. split; [exact HP' |]. split; [exact HQ' |].
  split; [exact HL' |].
  split.
  { intros k. rewrite DP. cbn [starts_with].
    destruct (Nat.eqb_spec (i - 1) i); [lia |]. cbn [andb].
    rewrite !Nat.eqb_refl. reflexivity. }
  split.
  { intros k. rewrite DP. cbn [starts_with]. rewrite !Nat.eqb_refl.
    reflexivity. }
  unfold item. rewrite SL', SQ', SL, SQ, B1, B2, !DL, !DQ.
  destruct (decide ([i - 1; jj] = [i - 1; jj])); [| congruence].
  destruct (decide ([i; ii] = [i - 1; jj])); [congruence |].
  destruct (decide ([i; ii] = [i; ii])); [| congruence].
  repeat split; reflexivity.
Qed.

Lemma swap_accepted_here :
  trial_accepted 1 (Fin (1 / 2)) lnlike_swap world_swap = true.
Proof.
  unfold trial_accepted, trial_paccept, trial_ii, trial_jj. cbn -[flt].
  rewrite flt_fin by lra. reflexivity.
Qed.

Lemma accepted_swap_exchanges_walkers_witness :
  exists w' Q',
    swap_trial 0 1 2 1 (Fin (1 / 2)) world_swap = (w', Ok tt)
    /\ heap w' !! 1 = Some Q'
    /\ item Q' [0; 0] = Ok (fadd (Fin 1) (fmul (Fin (1 / 2)) (Fin 2))).
Proof.
  destruct (accepted_swap_exchanges_walkers 0 1 2 1 (Fin (1 / 2)) world_swap
              positions_swap lnprob_swap lnlike_swap)
    as (w' & P' & Q' & L' & Hrun & _ & HQ' & _ & _ & _ & _ & _ & HQ0 & _).
  - apply world0_wf; reflexivity.
  - reflexivity.
  - reflexivity.
  - reflexivity.
  - cbn. lia.
  - cbn. lia.
  - exact swap_accepted_here.
  - exists w', Q'. split; [exact Hrun |]. split; [exact HQ' |]. exact HQ0.
Defined.

(** C2, as stated, fails.  Ladder [1, 1/2], so [dbeta = 1/2]; walker
    [jj = 0] of rung [0] has log-posterior [0] and log-likelihood [0],
    walker [ii = 0] of rung [1] has log-posterior [1] and log-likelihood
    [2].  The trial is accepted ([paccept = 1 > 0]).  Slot [(0, 0)]
    then holds [1 + 1/2 * 2], computed from the walker that arrived from
    rung [1], and not [0 + 1/2 * 0], the value the claim computes from
    what walker [jj] of rung [0] had. *)
Lemma swap_posterior_counterexample :
  exists w' Q' pa,
    swap_trial 0 1 2 1 (Fin (1 / 2)) world_swap = (w', Ok tt)
    /\ trace w' = [EvTrial 1 0 0 pa true]
    /\ heap w' !! 1 = Some Q'
    /\ item Q' [0; 0] = Ok (Fin (1 + 1 / 2 * 2))
    /\ item Q' [0; 0]
       <> Ok (fadd (data lnprob_swap [0; 0])
                   (fmul (Fin (1 / 2)) (data lnlike_swap [0; 0]))).
Proof.
  destruct (swap_trial_returns 0 1 2 1 (Fin (1 / 2)) world_swap
              positions_swap lnprob_swap lnlike_swap)
    as (w' & Hrun & Ht & _ & _ & P' & Q' & L' & _ & HQ' & _ & Hsw);
    try reflexivity; try (cbn; lia).
  { apply world0_wf; reflexivity. }
  rewrite swap_accepted_here in Ht.
  destruct (Hsw swap_accepted_here) as (_ & SQ' & _ & _ & _ & DQ).
  assert (HQ0 : item Q' [0; 0] = Ok (Fin (1 + 1 / 2 * 2))).
  { unfold item. rewrite SQ'. cbn [lnprob_swap two_rungs shape in_bounds].
    cbn [Nat.ltb Nat.leb andb]. rewrite DQ. reflexivity. }
  exists w', Q'. eexists. split; [exact Hrun |]. split; [exact Ht |].
  split; [exact HQ' |]. split; [exact HQ0 |].
  rewrite HQ0. cbn. intros [= H]. lra.
Qed.

(** ** Equal temperatures *)

Lemma np_log_unit_negative (u : unit_draw) :
  flt (np_log (Fin (uval u))) (Fin 0) = true.
Proof.
  destruct u as [u [H0 H1]]. cbn [uval np_log].
  destruct (Rlt_dec 0 u) as [Hpos|Hn].
  - apply flt_fin. rewrite <- ln_1. apply ln_increasing; assumption.
  - destruct (Req_dec_T u 0); [reflexivity | lra].
Qed.

Lemma flt_NaN_r (x : float) : flt x NaN = false.
Proof. destruct x; reflexivity. Qed.

(** C8, as amended.  At a boundary where [dbeta = 0], a trial in which
    the difference of the two chosen log-likelihoods is finite is
    accepted whatever those values and whatever the uniform draw:
    [paccept] is [0], which fails [paccept > 0], and the logarithm of a
    draw from [[0, 1)] is below [0]. *)
Theorem equal_temperature_swap_accepted
    (p lnprob logl : loc) (i : nat) (w : world) (L : ndarray) :
  state_wf w p lnprob logl ->
  heap w !! logl = Some L ->
  1 <= i < ntemps (self w) -> 0 < nwalkers (self w) ->
  is_finite (fsub (data L [i; trial_ii w]) (data L [i - 1; trial_jj w]))
  = true ->
  trial_paccept i (Fin 0) L w = Fin 0
  /\ flt (Fin 0) (Fin 0) = false
  /\ flt (np_log (Fin (uval (unifs (rng w) (upos (rng w)))))) (Fin 0) = true
  /\ exists w',
       swap_trial p lnprob logl i (Fin 0) w = (w', Ok tt)
       /\ trace w' = trace w
            ++ [EvTrial i (trial_ii w) (trial_jj w) (Fin 0) true].
Proof.
  intros Hwf HL Hi Hnw Hfin.
  assert (Hpa : trial_paccept i (Fin 0) L w = Fin 0).
  { unfold trial_paccept.
    destruct (fsub (data L [i; trial_ii w]) (data L [i - 1; trial_jj w]))
      as [a| | |]; try discriminate.
    cbn. f_equal. ring. }
  assert (H00 : flt (Fin 0) (Fin 0) = false) by (apply flt_fin_not; lra).
  split; [exact Hpa |]. split; [exact H00 |].
  split; [apply np_log_unit_negative |].
  pose proof Hwf as (_ & _ & (P & HP & _) & (Q & HQ & _) & _).
  destruct (swap_trial_returns p lnprob logl i (Fin 0) w P Q L
              Hwf HP HQ HL Hi Hnw) as (w' & Hrun & Ht & _).
  exists w'. split; [exact Hrun |]. rewrite Ht. do 2 f_equal.
  rewrite Hpa. f_equal. unfold trial_accepted. rewrite Hpa, H00.
  cbn [orb]. apply np_log_unit_negative.
Qed.

Lemma equal_temperature_swap_accepted_witness :
  exists w',
    swap_trial 0 1 2 1 (Fin 0) world_swap = (w', Ok tt)
    /\ trace w' = [EvTrial 1 0 0 (Fin 0) true].
Proof.
  destruct (equal_temperature_swap_accepted 0 1 2 1 world_swap lnlike_swap)
    as (_ & _ & _ & H).
  - apply world0_wf; reflexivity.
  - reflexivity.
  - cbn. lia.
  - cbn. lia.
  - reflexivity.
  - exact H.
Defined.

(** C8, as stated, fails.  Both rungs have [beta = 1], so [dbeta = 0];
    the walker of rung [1] has log-likelihood [-inf], as [PTPost] reports
    outside the support of the prior.  Then
    [paccept = 0 * (-inf - 0) = nan], both comparisons with [nan] are
    false, and the trial is rejected. *)
Lemma equal_temperature_counterexample :
  exists w',
    swap_trial 0 1 2 1 (Fin 0) world_tie = (w', Ok tt)
    /\ trace w' = [EvTrial 1 0 0 NaN false]
    /\ heap w' = heap world_tie.
Proof.
  assert (Hpa : trial_paccept 1 (Fin 0) lnlike_tie world_tie = NaN).
  { unfold trial_paccept, trial_ii, trial_jj. cbn. unfold scale_inf.
    destruct (Req_dec_T 0 0); [reflexivity | lra]. }
  assert (Hacc : trial_accepted 1 (Fin 0) lnlike_tie world_tie = false).
  { unfold trial_accepted. rewrite Hpa, !flt_NaN_r. reflexivity. }
  destruct (swap_trial_returns 0 1 2 1 (Fin 0) world_tie
              positions_swap lnlike_tie lnlike_tie)
    as (w' & Hrun & Ht & _ & Hrej & _);
    try reflexivity; try (cbn; lia).
  { apply world0_wf; reflexivity. }
  exists w'. split; [exact Hrun |]. split.
  - rewrite Ht, Hpa, Hacc. reflexivity.
  - apply Hrej, Hacc.
Qed.

Lemma PTPost_call_spec_witness :
  PTPost_call post_outside (np_zeros [1]) world_swap
  = (set_trace [EvLogp (np_zeros [1])] world_swap, Ok (NInf, NInf))
  /\ PTPost_call post_flat (np_zeros [1]) world_swap
     = (set_trace [EvLogp (np_zeros [1]); EvLogl (np_zeros [1])] world_swap,
        Ok (fadd (fmul (Fin (1 / 2)) (Fin 5)) (Fin 0), Fin 5)).
Proof.
  split.
  - destruct (PTPost_call_spec post_outside (np_zeros [1]) world_swap NInf)
      as [H _]; [reflexivity |].
    apply H. reflexivity.
  - destruct (PTPost_call_spec post_flat (np_zeros [1]) world_swap (Fin 0))
      as [_ H]; [reflexivity |].
    apply H; [discriminate | reflexivity].
Defined.

(** ** Advancing the rungs *)

Lemma heap_evolves_insert T h l a a' :
  h !! l = Some a -> shape a' = shape a -> In l T ->
  heap_evolves T h (<[l := a']> h).
Proof.
  intros Hl Hs HT. split; [rewrite length_insert; lia |]. split.
  - intros l' b Hb. destruct (decide (l' = l)) as [Heq|Hne].
    + subst l'. exists a'. split.
      * apply list_lookup_insert_eq. eapply lookup_lt_Some; eassumption.
      * rewrite Hl in Hb. injection Hb as <-. exact Hs.
    + exists b. rewrite list_lookup_insert_ne by congruence. auto.
  - intros l' _ Hn. apply list_lookup_insert_ne. intros ->. contradiction.
Qed.

Lemma heap_evolves_write T h h' l a a' :
  heap_evolves T h h' -> h' !! l = Some a -> shape a' = shape a -> In l T ->
  heap_evolves T h (<[l := a']> h').
Proof.
  intros H Hl Hs HT. eapply heap_evolves_trans; [exact H |].
  eapply heap_evolves_insert; eassumption.
Qed.

Lemma wp_for_range (n : nat) (body : nat -> M unit)
    (I : nat -> world -> Prop) (E : world -> Prop) w :
  I 0 w ->
  (forall j w', j < n -> I j w' -> wp (body j) (fun _ => I (S j)) E w') ->
  wp (for_each (range n) body) (fun _ => I n) E w.
Proof.
  intros H0 Hb.
  eapply wp_mono;
    [apply (wp_for_each_prefix (range n) body
              (fun pre => I (length pre)) E w)
    | | exact (fun _ H => H)].
  - exact H0.
  - intros pre j post w' Hl HI.
    assert (Hj : j = length pre /\ j < n).
    { unfold range in Hl.
      assert (Hlen : length (seq 0 n) = length pre + S (length post))
        by (rewrite Hl, length_app; reflexivity).
      rewrite length_seq in Hlen.
      assert (Hnth : nth (length pre) (seq 0 n) 0 = j).
      { rewrite Hl, app_nth2 by lia. rewrite Nat.sub_diag. reflexivity. }
      rewrite seq_nth in Hnth by lia. lia. }
    destruct Hj as [-> Hj]. rewrite length_app. cbn [length].
    rewrite Nat.add_1_r. apply Hb; assumption.
  - cbn beta. intros u w'. unfold range. rewrite length_seq. auto.
Qed.

Lemma advance_rung_wp p lnprob logl j w s E :
  state_wf w p lnprob logl ->
  j < ntemps (self w) ->
  samplers (self w) !! j = Some s ->
  advancer_ok (nwalkers (self w)) (dim (self w)) s ->
  wp (advance_rung p lnprob logl j)
     (fun _ w' =>
        self w' = set_samplers (<[j := called s]> (samplers (self w))) (self w)
        /\ heap_evolves [p; lnprob; logl] (heap w) (heap w')
        /\ trace w' = trace w ++ [EvAdvance j]
        /\ rng w' = rng w)
     E w.
Proof.
  intros (Hs & Hne & (P & HP & SP) & (Q & HQ & SQ) & (L & HL & SL))
         Hj Hsj Hadv.
  assert (Hp1 : p <> lnprob) by (intros ->; rewrite HP in HQ; congruence).
  assert (Hp2 : p <> logl) by (intros ->; rewrite HP in HL; congruence).
  unfold advance_rung. apply wp_bind, wp_attr. rewrite Hsj.
  apply wp_bind. eapply wp_getsub; [exact HP | rewrite SP; solve_bounds ..|].
  apply wp_bind. eapply wp_getsub; [exact HQ | rewrite SQ; solve_bounds ..|].
  apply wp_bind. eapply wp_getsub; [exact HL | rewrite SL; solve_bounds ..|].
  apply wp_bind, wp_log, wp_bind, wp_update_self.
  destruct (Hadv (es_calls s)
              (mkarr (skipn (length [j]) (shape P)) (fun k => data P ([j] ++ k)))
              (mkarr (skipn (length [j]) (shape Q)) (fun k => data Q ([j] ++ k)))
              (mkarr (skipn (length [j]) (shape L)) (fun k => data L ([j] ++ k))))
    as (ps & lps & lls & Hrun & S1 & S2 & S3);
    [cbn; rewrite SP; reflexivity | cbn; rewrite SQ; reflexivity
    | cbn; rewrite SL; reflexivity |].
  apply wp_bind. eapply wp_lift; [exact Hrun |]. cbn beta iota.
  apply wp_bind.
  eapply wp_setsub; [heap_lookup | rewrite SP; solve_bounds ..
                    | rewrite SP; exact S1 |].
  apply wp_bind.
  eapply wp_setsub; [heap_lookup | rewrite SQ; solve_bounds ..
                    | rewrite SQ; exact S2 |].
  eapply wp_setsub; [heap_lookup | rewrite SL; solve_bounds ..
                    | rewrite SL; exact S3 |].
  cbn [heap set_heap set_trace set_self set_rng self trace rng].
  split; [reflexivity |]. split; [| split; reflexivity].
  eapply heap_evolves_write; [| heap_lookup | reflexivity | cbn; auto].
  eapply heap_evolves_write; [| heap_lookup | reflexivity | cbn; auto].
  eapply heap_evolves_write;
    [apply heap_evolves_refl | exact HP | reflexivity | cbn; auto].
Qed.

Lemma same_but_counters_static s s' :
  same_but_counters s s' -> same_static s s'.
Proof.
  intros (?&?&?&?&?&?&?&?&?&?&?&?). repeat split; assumption.
Qed.

Lemma same_static_refl s : same_static s s.
Proof. repeat split; reflexivity. Qed.

Lemma same_static_trans s1 s2 s3 :
  same_static s1 s2 -> same_static s2 s3 -> same_static s1 s3.
Proof.
  intros (?&?&?&?&?&?&?&?) (?&?&?&?&?&?&?&?). repeat split; congruence.
Qed.

Lemma state_wf_static T w w' p lnprob logl :
  state_wf w p lnprob logl ->
  same_static (self w) (self w') ->
  heap_evolves T (heap w) (heap w') ->
  state_wf w' p lnprob logl.
Proof.
  intros ((Sb & Sn & Sa) & Hne & HP & HQ & HL) HS (_ & Hsh & _).
  destruct HS as (_ & _ & Ent & Enw & Ed & Eb & En & Ea).
  unfold state_wf, sampler_wf. rewrite Ent, Enw, Ed, Eb, En, Ea.
  repeat split; try assumption.
  - destruct HP as (a & Ha & Hs). destruct (Hsh _ _ Ha) as (a' & Ha' & Hs').
    exists a'. split; [exact Ha' | congruence].
  - destruct HQ as (a & Ha & Hs). destruct (Hsh _ _ Ha) as (a' & Ha' & Hs').
    exists a'. split; [exact Ha' | congruence].
  - destruct HL as (a & Ha & Hs). destruct (Hsh _ _ Ha) as (a' & Ha' & Hs').
    exists a'. split; [exact Ha' | congruence].
Qed.

Lemma advancer_ok_called nw d s : advancer_ok nw d s -> advancer_ok nw d (called s).
Proof. intros H n. apply H. Qed.

Lemma advance_next (ss : list EnsembleSampler) j s :
  ss !! j = Some s ->
  <[j := called s]> (map called (firstn j ss) ++ skipn j ss)
  = map called (firstn (S j) ss) ++ skipn (S j) ss.
Proof.
  intros Hj.
  assert (Hlen : length (map called (take j ss)) = j).
  { rewrite length_map, length_take. apply lookup_lt_Some in Hj. lia. }
  rewrite insert_app_r_alt by lia. rewrite Hlen, Nat.sub_diag.
  rewrite (drop_S _ _ _ Hj). cbn [insert list_insert].
  rewrite (take_S_r _ _ _ Hj), map_app, <- app_assoc. reflexivity.
Qed.

(** Lines 198 to 202: every rung is advanced once, in the order of the
    ladder. *)
Lemma advance_all_wp p lnprob logl w E :
  state_wf w p lnprob logl ->
  sampler_ready (self w) ->
  wp (for_each (range (length (samplers (self w))))
        (advance_rung p lnprob logl))
     (fun _ w' =>
        self w' = set_samplers (map called (samplers (self w))) (self w)
        /\ heap_evolves [p; lnprob; logl] (heap w) (heap w')
        /\ trace w' = trace w ++ map EvAdvance (range (ntemps (self w)))
        /\ rng w' = rng w)
     E w.
Proof.
  intros Hwf (Hs & Hlen & Hadv).
  set (ss := samplers (self w)) in *.
  pose (I := fun (j : nat) (w' : world) =>
    self w' = set_samplers (map called (firstn j ss) ++ skipn j ss) (self w)
    /\ heap_evolves [p; lnprob; logl] (heap w) (heap w')
    /\ trace w' = trace w ++ map EvAdvance (seq 0 j)
    /\ rng w' = rng w).
  eapply wp_mono; [apply (wp_for_range _ _ I E) | | exact (fun _ H => H)].
  - unfold I. cbn [firstn skipn map app seq].
    split; [destruct w as [h g t s]; destruct s; reflexivity |].
    split; [apply heap_evolves_refl |].
    split; [rewrite app_nil_r; reflexivity | reflexivity].
  - intros j w1 Hj (S1 & H1 & T1 & R1).
    assert (Hst : same_static (self w) (self w1))
      by (rewrite S1; repeat split; reflexivity).
    pose proof (state_wf_static _ _ _ _ _ _ Hwf Hst H1) as Hwf1.
    destruct (lookup_lt_is_Some_2 ss j Hj) as [s Hsj].
    assert (Hsj1 : samplers (self w1) !! j = Some s).
    { rewrite S1. cbn [samplers set_samplers].
      rewrite lookup_app_r by (rewrite length_map, length_take; lia).
      rewrite length_map, length_take, lookup_drop.
      replace (j `min` length ss) with j by lia.
      rewrite Nat.sub_diag, Nat.add_0_r. exact Hsj. }
    eapply wp_mono;
      [apply (advance_rung_wp p lnprob logl j w1 s E Hwf1)
      | | exact (fun _ H => H)].
    + rewrite S1. cbn [ntemps set_samplers]. lia.
    + exact Hsj1.
    + rewrite S1. cbn [nwalkers dim set_samplers].
      rewrite Forall_forall in Hadv. apply Hadv.
      eapply list_elem_of_lookup_2. exact Hsj.
    + cbn beta. intros u w2 (S2 & H2 & T2 & R2). unfold I.
      split.
      { rewrite S2, S1. cbn [samplers set_samplers].
        rewrite (advance_next ss j s Hsj). reflexivity. }
      split; [eapply heap_evolves_trans; eassumption |].
      split; [| congruence].
      rewrite T2, T1, seq_S, map_app, <- app_assoc. reflexivity.
  - cbn beta. intros u w' (S1 & H1 & T1 & R1).
    split.
    { rewrite S1. rewrite firstn_all, skipn_all, app_nil_r. reflexivity. }
    split; [exact H1 |]. split; [| exact R1].
    rewrite T1, Hlen. reflexivity.
Qed.

(** ** The chain store *)

Lemma shape_eqb_refl sh : shape_eqb sh sh = true.
Proof. unfold shape_eqb. destruct (decide (sh = sh)); congruence. Qed.

Lemma record_into_ok a isave v n :
  shape a !! 2 = Some n -> isave < n ->
  shape v = drop_axis 2 (shape a) ->
  record_into (Some a) isave v
  = Ok (Some (mkarr (shape a)
                (fun k => if decide (k !! 2 = Some isave)
                          then data v (drop_axis 2 k)
                          else data a k))).
Proof.
  intros Hn Hi Hv. unfold record_into, set_along. rewrite Hn.
  rewrite (proj2 (Nat.ltb_lt _ _) Hi), Hv, shape_eqb_refl. reflexivity.
Qed.

(** Lines 207 to 211: the joint state is copied into slot [isave]. *)
Lemma record_wp p lnprob logl isave n w E :
  state_wf w p lnprob logl ->
  chain_shape (self w) n -> isave < n ->
  wp (record p lnprob logl isave)
     (fun _ w' =>
        heap w' = heap w /\ trace w' = trace w /\ rng w' = rng w
        /\ same_but_chain (self w) (self w')
        /\ chain_shape (self w') n
        /\ exists P Q L,
             heap w !! p = Some P /\ heap w !! lnprob = Some Q
             /\ heap w !! logl = Some L
             /\ recorded isave P (_chain (self w)) (_chain (self w'))
             /\ recorded isave Q (_lnprob (self w)) (_lnprob (self w'))
             /\ recorded isave L (_lnlikelihood (self w))
                  (_lnlikelihood (self w')))
     E w.
Proof.
  intros (Hs & Hne & (P & HP & SP) & (Q & HQ & SQ) & (L & HL & SL))
         (c & lp & ll & Hc & Hlp & Hll & Sc & Slp & Sll) Hi.
  unfold record.
  apply wp_bind, wp_attr. rewrite Hc.
  apply wp_bind. eapply wp_deref; [exact HP |].
  apply wp_bind. eapply wp_lift.
  { apply (record_into_ok c isave P n);
      [rewrite Sc; reflexivity | exact Hi | rewrite SP, Sc; reflexivity]. }
  apply wp_bind, wp_update_self.
  apply wp_bind, wp_attr. cbn [self set_self _lnprob set_chain]. rewrite Hlp.
  apply wp_bind. eapply wp_deref; [exact HQ |].
  apply wp_bind. eapply wp_lift.
  { apply (record_into_ok lp isave Q n);
      [rewrite Slp; reflexivity | exact Hi | rewrite SQ, Slp; reflexivity]. }
  apply wp_bind, wp_update_self.
  apply wp_bind, wp_attr.
  cbn [self set_self _lnlikelihood set_chain set_lnprob]. rewrite Hll.
  apply wp_bind. eapply wp_deref; [exact HL |].
  apply wp_bind. eapply wp_lift.
  { apply (record_into_ok ll isave L n);
      [rewrite Sll; reflexivity | exact Hi | rewrite SL, Sll; reflexivity]. }
  apply wp_update_self.
  cbn [heap trace rng self set_self set_chain set_lnprob set_lnlikelihood].
  split; [reflexivity |]. split; [reflexivity |]. split; [reflexivity |].
  split; [repeat split; reflexivity |].
  split.
  { eexists _, _, _. cbn. repeat split; assumption. }
  exists P, Q, L. split; [exact HP |]. split; [exact HQ |].
  split; [exact HL |]. cbn. rewrite ?Hc, ?Hlp, ?Hll.
  repeat split; eexists _, _; repeat split; reflexivity.
Qed.

Lemma grow_ok a sh n m :
  shape a !! 2 = Some n -> sh !! 2 = Some m ->
  drop_axis 2 (shape a) = drop_axis 2 sh ->
  length (shape a) = length sh ->
  grow (Some a) sh
  = Ok (Some (mkarr (<[2 := n + m]> (shape a))
                (fun k => match k !! 2 with
                          | Some s => if s <? n then data a k
                                      else Fin 0
                          | None => NaN
                          end))).
Proof.
  intros Hn Hm Hd Hl. unfold grow, np_concatenate.
  cbn [np_zeros shape data]. rewrite Hn, Hm, Hd, shape_eqb_refl, Hl.
  rewrite Nat.eqb_refl. reflexivity.
Qed.

(** Lines 183 to 195: the buffers get room for [iterations / thin] more
    steps; what they held is kept. *)
Lemma sample_expand_wp iterations thin n0 w E :
  0 < thin -> chain_state (self w) n0 ->
  wp (sample_expand iterations thin)
     (fun isave w' =>
        isave = n0
        /\ heap w' = heap w /\ trace w' = trace w /\ rng w' = rng w
        /\ same_but_chain (self w) (self w')
        /\ chain_shape (self w') (n0 + iterations / thin)
        /\ keeps_chain n0 (self w) (self w'))
     E w.
Proof.
  intros Hthin Hch. unfold sample_expand.
  destruct (Nat.eqb_spec thin 0) as [|_]; [lia |].
  apply wp_bind, wp_attr, wp_bind, wp_attr, wp_bind, wp_attr, wp_bind, wp_attr.
  destruct Hch as [[(Hc & Hlp & Hll) ->]
                  | (c & lp & ll & Hc & Hlp & Hll & Sc & Slp & Sll)].
  - rewrite Hc.
    apply wp_bind, wp_update_self, wp_bind, wp_update_self, wp_bind,
      wp_update_self, wp_ret.
    cbn [heap trace rng self set_self set_chain set_lnprob set_lnlikelihood].
    split; [reflexivity |].
    split; [reflexivity |]. split; [reflexivity |]. split; [reflexivity |].
    split; [repeat split; reflexivity |].
    split; [eexists _, _, _; cbn; repeat split; reflexivity |].
    unfold keeps_chain, keeps_steps. rewrite ?Hc, ?Hlp, ?Hll.
    repeat split; intros a [=].
  - rewrite Hc, Sc. cbn [lookup list_lookup].
    apply wp_bind. eapply wp_lift.
    { apply (grow_ok c _ n0 (iterations / thin));
        rewrite ?Sc; reflexivity. }
    apply wp_bind, wp_update_self, wp_bind, wp_attr.
    cbn [self set_self _lnprob set_chain]. rewrite Hlp.
    apply wp_bind. eapply wp_lift.
    { apply (grow_ok lp _ n0 (iterations / thin));
        rewrite ?Slp; reflexivity. }
    apply wp_bind, wp_update_self, wp_bind, wp_attr.
    cbn [self set_self _lnlikelihood set_chain set_lnprob]. rewrite Hll.
    apply wp_bind. eapply wp_lift.
    { apply (grow_ok ll _ n0 (iterations / thin));
        rewrite ?Sll; reflexivity. }
    apply wp_bind, wp_update_self, wp_ret.
    cbn [heap trace rng self set_self set_chain set_lnprob set_lnlikelihood].
    split; [reflexivity |].
    split; [reflexivity |]. split; [reflexivity |]. split; [reflexivity |].
    split; [repeat split; reflexivity |].
    split.
    { eexists _, _, _. cbn. rewrite Sc, Slp, Sll.
      repeat split; reflexivity. }
    unfold keeps_chain, keeps_steps. rewrite ?Hc, ?Hlp, ?Hll.
    repeat split; intros a [= <-]; eexists; (split; [reflexivity |]);
      intros k s Hk Hs; cbn [data]; rewrite Hk;
      rewrite (proj2 (Nat.ltb_lt _ _) Hs); reflexivity.
Qed.

(** ** The initial log-posteriors *)

Lemma PTPost_call_wp fn x w E :
  (exists v, _logp fn x = Ok v) -> (exists v, _logl fn x = Ok v) ->
  wp (PTPost_call fn x)
     (fun _ w' =>
        heap w' = heap w /\ self w' = self w /\ rng w' = rng w
        /\ exists evs, trace w' = trace w ++ evs /\ Forall is_callback evs)
     E w.
Proof.
  intros [lp Hp] [ll Hl]. unfold PTPost_call.
  apply wp_bind, wp_log, wp_bind. eapply wp_lift; [exact Hp |].
  destruct (feq lp NInf).
  - apply wp_ret. cbn. repeat split.
    exists [EvLogp x]. split; [reflexivity |]. repeat constructor.
  - apply wp_bind, wp_log, wp_bind. eapply wp_lift; [exact Hl |].
    apply wp_ret. cbn. repeat split.
    exists [EvLogp x; EvLogl x]. split.
    + rewrite <- app_assoc. reflexivity.
    + repeat constructor.
Qed.

Lemma wp_for_map {A B} (l : list A) (f : A -> M B)
    (I : world -> Prop) (E : world -> Prop) w :
  I w ->
  (forall x w', In x l -> I w' -> wp (f x) (fun _ => I) E w') ->
  wp (for_map l f) (fun ys w' => length ys = length l /\ I w') E w.
Proof.
  revert w. induction l as [|x l IH]; intros w HI Hb; cbn [for_map].
  - apply wp_ret. auto.
  - apply wp_bind.
    eapply wp_mono; [apply Hb; [left; reflexivity | exact HI] | | auto].
    cbn beta. intros y w1 HI1. apply wp_bind.
    eapply wp_mono; [apply IH; [exact HI1 |] | | auto].
    + intros z w2 Hz. apply Hb. right. exact Hz.
    + cbn beta. intros ys w2 [Hlen HI2]. apply wp_ret.
      split; [cbn; lia | exact HI2].
Qed.

Lemma rows_ok a n sh :
  shape a = n :: sh ->
  exists xs, rows a = Ok xs /\ length xs = n.
Proof.
  intros Hs. unfold rows. rewrite Hs. eexists. split; [reflexivity |].
  rewrite length_map. apply length_seq.
Qed.

Lemma sample_init_wp p lnprob0 lnlike0 w E :
  sampler_wf (self w) ->
  args_ok w p lnprob0 lnlike0 ->
  wp (sample_init p lnprob0 lnlike0)
     (fun r w' =>
        r = working_arrays w lnprob0 lnlike0
        /\ self w' = self w /\ rng w' = rng w
        /\ heap_evolves [] (heap w) (heap w')
        /\ fst r <> snd r
        /\ has_shape (heap w') (fst r) [ntemps (self w); nwalkers (self w)]
        /\ has_shape (heap w') (snd r) [ntemps (self w); nwalkers (self w)]
        /\ exists evs, trace w' = trace w ++ evs /\ Forall is_callback evs)
     E w.
Proof.
  intros (Sb & _ & _) [(P & HP & SP) Hargs].
  assert (Given : forall a b, lnprob0 = Some a -> lnlike0 = Some b ->
            a <> b
            /\ has_shape (heap w) a [ntemps (self w); nwalkers (self w)]
            /\ has_shape (heap w) b [ntemps (self w); nwalkers (self w)]
            -> wp (ret (a, b))
                 (fun r w' =>
                    r = working_arrays w lnprob0 lnlike0
                    /\ self w' = self w /\ rng w' = rng w
                    /\ heap_evolves [] (heap w) (heap w')
                    /\ fst r <> snd r
                    /\ has_shape (heap w') (fst r)
                         [ntemps (self w); nwalkers (self w)]
                    /\ has_shape (heap w') (snd r)
                         [ntemps (self w); nwalkers (self w)]
                    /\ exists evs, trace w' = trace w ++ evs
                                   /\ Forall is_callback evs) E w).
  { intros a b -> -> (Hne & Ha & Hb). apply wp_ret. cbn [fst snd].
    split; [reflexivity |]. split; [reflexivity |]. split; [reflexivity |].
    split; [apply heap_evolves_refl |]. split; [exact Hne |].
    split; [exact Ha |]. split; [exact Hb |].
    exists []. rewrite app_nil_r. split; [reflexivity | constructor]. }
  assert (Fresh : callbacks_total (self w) ->
            working_arrays w lnprob0 lnlike0
            = (length (heap w), S (length (heap w))) ->
            wp (nt <- attr ntemps ;;
      nw <- attr nwalkers ;;
      lnprob0' <- new_array (np_zeros [nt; nw]) ;;
      lnlike0' <- new_array (np_zeros [nt; nw]) ;;
      for_each (range nt) (fun i =>
        fl <- attr logl ;;
        fp <- attr logp ;;
        b <- betas_item i ;;
        let fn := {| _logl := fl; _logp := fp; _beta := b |} in
        pi <- getsub p [i] 2 ;;
        xs <- lift (rows pi) ;;
        results <- for_map xs (PTPost_call fn) ;;
        setsub lnprob0' [i] 1 (array_of_list (map fst results)) ;;
        setsub lnlike0' [i] 1 (array_of_list (map snd results))) ;;
      ret (lnprob0', lnlike0'))
                 (fun r w' =>
                    r = working_arrays w lnprob0 lnlike0
                    /\ self w' = self w /\ rng w' = rng w
                    /\ heap_evolves [] (heap w) (heap w')
                    /\ fst r <> snd r
                    /\ has_shape (heap w') (fst r)
                         [ntemps (self w); nwalkers (self w)]
                    /\ has_shape (heap w') (snd r)
                         [ntemps (self w); nwalkers (self w)]
                    /\ exists evs, trace w' = trace w ++ evs
                                   /\ Forall is_callback evs) E w).
  { intros [Tp Tl] ->.
    apply wp_bind, wp_attr, wp_bind, wp_attr, wp_bind, wp_new_array,
      wp_bind, wp_new_array.
    cbn [heap set_heap]. rewrite length_app. cbn [length].
    rewrite Nat.add_1_r, <- app_assoc. cbn [app].
    set (n := length (heap w)).
    apply wp_bind.
    eapply wp_mono;
      [apply (wp_for_range _ _ (fun _ => init_progress w) E)
      | | exact (fun _ H => H)].
    - (* the two arrays of zeros *)
      unfold init_progress. cbn. split; [reflexivity |].
      split; [reflexivity |]. split.
      + eexists _, _. split; [reflexivity |]. split; reflexivity.
      + exists []. rewrite app_nil_r. split; [reflexivity | constructor].
    - (* one rung *)
      intros i w1 Hi (S1 & R1 & (Q & L & H1 & SQ & SL) & evs & T1 & F1).
      apply wp_bind, wp_attr, wp_bind, wp_attr. rewrite S1.
      apply wp_bind, betas_item_wp; [rewrite S1; exact Sb | rewrite S1; exact Hi |].
      assert (HP1 : heap w1 !! p = Some P).
      { rewrite H1. rewrite lookup_app_l by (eapply lookup_lt_Some; exact HP).
        exact HP. }
      apply wp_bind.
      eapply wp_getsub; [exact HP1 | rewrite SP; solve_bounds ..|].
      rewrite SP. cbn [length skipn].
      destruct (rows_ok (mkarr [nwalkers (self w); dim (self w)]
                           (fun k => data P ([i] ++ k)))
                  (nwalkers (self w)) [dim (self w)] eq_refl)
        as (xs & Hxs & Lxs).
      apply wp_bind. eapply wp_lift; [exact Hxs |].
      apply wp_bind.
      eapply wp_mono;
        [apply (wp_for_map xs _
                  (fun w' => heap w' = heap w1 /\ self w' = self w1
                             /\ rng w' = rng w1
                             /\ exists evs', trace w' = trace w1 ++ evs'
                                  /\ Forall is_callback evs') E)
        | | exact (fun _ H => H)].
      + repeat split. exists []. rewrite app_nil_r.
        split; [reflexivity | constructor].
      + intros x w2 _ (H2 & S2 & R2 & evs2 & T2 & F2).
        eapply wp_mono;
          [apply PTPost_call_wp; [apply Tp | apply Tl] | | exact (fun _ H => H)].
        cbn beta. intros y w3 (H3 & S3 & R3 & evs3 & T3 & F3).
        split; [congruence |]. split; [congruence |]. split; [congruence |].
        exists (evs2 ++ evs3). split.
        * rewrite T3, T2, <- app_assoc. reflexivity.
        * apply Forall_app. auto.
      + cbn beta.
        intros results w2 (Lr & H2 & S2 & R2 & evs2 & T2 & F2).
        assert (HQ2 : heap w2 !! n = Some Q).
        { rewrite H2, H1. rewrite lookup_app_r by (unfold n; lia).
          unfold n. rewrite Nat.sub_diag. reflexivity. }
        apply wp_bind.
        eapply wp_setsub; [exact HQ2 | rewrite SQ; solve_bounds ..
                          | rewrite SQ; cbn; rewrite length_map; congruence |].
        assert (HL2 : (<[n := mkarr (shape Q)
                            (fun k => if starts_with [i] k
                               then data (array_of_list (map fst results))
                                      (skipn (length [i]) k)
                               else data Q k)]> (heap w2)) !! S n = Some L).
        { rewrite list_lookup_insert_ne by lia.
          rewrite H2, H1. rewrite lookup_app_r by (unfold n; lia).
          unfold n. replace (S (length (heap w)) - length (heap w)) with 1
            by lia. reflexivity. }
        eapply wp_setsub; [exact HL2 | rewrite SL; solve_bounds ..
                          | rewrite SL; cbn; rewrite length_map; congruence |].
        unfold init_progress.
        cbn [heap set_heap self set_self rng set_rng trace set_trace].
        split; [congruence |]. split; [congruence |]. split.
        * eexists _, _. split.
          -- rewrite H2, H1.
             rewrite insert_app_r_alt by (unfold n; lia).
             rewrite insert_app_r_alt by (unfold n; lia).
             unfold n. rewrite Nat.sub_diag.
             replace (S (length (heap w)) - length (heap w)) with 1 by lia.
             cbn [insert list_insert]. reflexivity.
          -- split; [exact SQ | exact SL].
        * exists (evs ++ evs2). split.
          -- rewrite T2, T1, <- app_assoc. reflexivity.
          -- apply Forall_app. auto.
    - cbn beta.
      intros u w1 (S1 & R1 & (Q & L & H1 & SQ & SL) & evs & T1 & F1).
      apply wp_ret. cbn [fst snd].
      split; [reflexivity |]. split; [exact S1 |]. split; [exact R1 |].
      split.
      { rewrite H1. split; [rewrite length_app; lia |]. split.
        - intros l a Ha. exists a.
          rewrite lookup_app_l by (eapply lookup_lt_Some; exact Ha). auto.
        - intros l Hl _. apply lookup_app_l. exact Hl. }
      split; [lia |].
      split.
      { exists Q. split; [| exact SQ]. rewrite H1.
        rewrite lookup_app_r by (unfold n; lia).
        unfold n. rewrite Nat.sub_diag. reflexivity. }
      split.
      { exists L. split; [| exact SL]. rewrite H1.
        rewrite lookup_app_r by (unfold n; lia).
        unfold n. replace (S (length (heap w)) - length (heap w)) with 1
          by lia. reflexivity. }
      exists evs. auto. }
  unfold sample_init, args_ok in *.
  destruct lnprob0 as [a|], lnlike0 as [b|].
  - apply (Given a b); auto.
  - apply Fresh; [exact Hargs | reflexivity].
  - apply Fresh; [exact Hargs | reflexivity].
  - apply Fresh; [exact Hargs | reflexivity].
Qed.

(** ** One iteration of [sample] *)

Lemma sampler_ready_step s s' :
  sampler_ready s -> same_static s s' ->
  samplers s' = map called (samplers s) ->
  sampler_ready s'.
Proof.
  intros ((Sb & Sn & Sa) & Hlen & Hadv)
         (_ & _ & Ent & Enw & Ed & Eb & En & Ea) Hss.
  unfold sampler_ready, sampler_wf.
  rewrite Ent, Enw, Ed, Eb, En, Ea, Hss, length_map.
  repeat split; try assumption.
  apply Forall_map. eapply Forall_impl; [exact Hadv |].
  intros s0 H0. apply advancer_ok_called, H0.
Qed.

Ltac norm_app :=
  repeat (first [rewrite <- app_assoc | progress cbn [app]]).

Lemma sample_step_wp thin storechain l i n w E :
  state_wf w (l_p l) (l_lnprob l) (l_logl l) ->
  sampler_ready (self w) -> 0 < thin ->
  (records_at thin storechain i = true ->
   chain_shape (self w) n /\ l_isave l < n) ->
  wp (sample_step thin storechain l i)
     (fun l' w' =>
        l' = {| l_p := l_p l; l_lnprob := l_lnprob l; l_logl := l_logl l;
                l_isave := if records_at thin storechain i
                           then l_isave l + 1 else l_isave l |}
        /\ same_static (self w) (self w')
        /\ samplers (self w') = map called (samplers (self w))
        /\ heap_evolves [l_p l; l_lnprob l; l_logl l] (heap w) (heap w')
        /\ (exists trials,
              trace w' = trace w
                ++ map EvAdvance (range (ntemps (self w)))
                ++ EvExchange :: trials
                ++ (if records_at thin storechain i
                    then [EvRecord (i + 1) (l_isave l)] else [])
                ++ [EvYield (l_p l) (l_lnprob l) (l_logl l)]
              /\ map event_boundary trials
                 = map Some (swap_schedule (ntemps (self w))
                                           (nwalkers (self w))))
        /\ chain_after (records_at thin storechain i) (l_isave l) n
             (l_p l) (l_lnprob l) (l_logl l) (self w) w')
     E w.
Proof.
  intros Hwf Hready Hthin Hrec. unfold sample_step.
  set (p := l_p l) in *. set (lnprob := l_lnprob l) in *.
  set (logl := l_logl l) in *.
  apply wp_bind, wp_attr, wp_bind.
  eapply wp_mono;
    [apply (advance_all_wp p lnprob logl w E Hwf Hready)
    | | exact (fun _ H => H)].
  cbn beta. intros u1 w1 (S1 & H1 & T1 & R1).
  assert (St1 : same_static (self w) (self w1))
    by (rewrite S1; repeat split; reflexivity).
  pose proof (state_wf_static _ _ _ _ _ _ Hwf St1 H1) as Hwf1.
  apply wp_bind.
  eapply wp_mono;
    [apply (temperature_swaps_wp p lnprob logl w1 E Hwf1)
    | | exact (fun _ H => H)].
  cbn beta. intros r w2 (-> & SB2 & H2 & trials & T2 & B2). cbn iota.
  pose proof (same_but_counters_static _ _ SB2) as St2.
  pose proof (same_static_trans _ _ _ St1 St2) as St12.
  pose proof (heap_evolves_trans _ _ _ _ H1 H2) as H12.
  pose proof (state_wf_static _ _ _ _ _ _ Hwf St12 H12) as Hwf2.
  assert (Hss2 : samplers (self w2) = map called (samplers (self w))).
  { destruct SB2 as (_&_&_&_&_&_&_&_&_& Hss &_). rewrite Hss, S1.
    reflexivity. }
  assert (Hch2 : _chain (self w2) = _chain (self w)
                 /\ _lnprob (self w2) = _lnprob (self w)
                 /\ _lnlikelihood (self w2) = _lnlikelihood (self w)).
  { destruct SB2 as (_&_&_&_&_& C1 & C2 & C3 &_). rewrite C1, C2, C3, S1.
    repeat split; reflexivity. }
  assert (HT2 : trace w2 = trace w ++ map EvAdvance (range (ntemps (self w)))
                  ++ EvExchange :: trials).
  { rewrite T2, T1, <- app_assoc. reflexivity. }
  assert (HB2 : map event_boundary trials
                = map Some (swap_schedule (ntemps (self w))
                                          (nwalkers (self w)))).
  { rewrite B2. destruct St1 as (_ & _ & -> & -> & _). reflexivity. }
  destruct (Nat.eqb_spec thin 0) as [|_]; [lia |].
  apply wp_bind, wp_ret.
  unfold records_at in *.
  destruct ((i + 1) mod thin =? 0) eqn:Emod; [destruct storechain |];
    cbn [andb] in *.
  - (* a recorded round *)
    destruct (Hrec eq_refl) as [Hcs Hisave].
    assert (Hcs2 : chain_shape (self w2) n).
    { destruct Hcs as (c & lp & ll & Hc & Hlp & Hll & Sc & Slp & Sll).
      destruct Hch2 as (C1 & C2 & C3).
      destruct St12 as (_ & _ & Ent & Enw & Ed & _).
      exists c, lp, ll. rewrite C1, C2, C3, Ent, Enw, Ed.
      repeat split; assumption. }
    apply wp_bind, wp_bind, wp_log, wp_bind.
    eapply wp_mono;
      [apply (record_wp p lnprob logl (l_isave l) n _ E);
       [exact Hwf2 | exact Hcs2 | exact Hisave]
      | | exact (fun _ H => H)].
    cbn beta.
    intros u3 w3 (H3 & T3 & R3 & (St3 & Hss3 & _ & _) & Hcs3
                  & P & Q & L & HP & HQ & HL & Rc & Rlp & Rll).
    cbn [heap trace self set_trace] in *.
    apply wp_ret, wp_bind, wp_log, wp_ret.
    cbn [heap trace self set_trace].
    split; [reflexivity |].
    split; [eapply same_static_trans; eassumption |].
    split; [congruence |].
    split; [rewrite H3; exact H12 |].
    split.
    { exists trials. split; [| exact HB2].
      rewrite T3, HT2. norm_app. reflexivity. }
    cbn [chain_after]. split; [exact Hcs3 |].
    destruct Hch2 as (C1 & C2 & C3). rewrite C1, C2, C3 in *.
    exists P, Q, L. cbn [heap self set_trace]. rewrite H3.
    repeat split; assumption.
  - (* storage is off *)
    apply wp_bind, wp_ret, wp_bind, wp_log, wp_ret.
    cbn [heap trace self set_trace].
    split; [reflexivity |]. split; [exact St12 |]. split; [exact Hss2 |].
    split; [exact H12 |]. split.
    { exists trials. split; [| exact HB2].
      rewrite HT2. norm_app. reflexivity. }
    exact Hch2.
  - (* not a multiple of [thin] *)
    rewrite andb_false_r.
    apply wp_bind, wp_ret, wp_bind, wp_log, wp_ret.
    cbn [heap trace self set_trace].
    split; [reflexivity |]. split; [exact St12 |]. split; [exact Hss2 |].
    split; [exact H12 |]. split.
    { exists trials. split; [| exact HB2].
      rewrite HT2. norm_app. reflexivity. }
    exact Hch2.
Qed.

(** ** The loop of [sample] *)

Lemma wp_for_fold_range {S} (n : nat) (s : S) (body : S -> nat -> M S)
    (I : nat -> S -> world -> Prop) (E : world -> Prop) w :
  I 0 s w ->
  (forall j s' w', j < n -> I j s' w' ->
     wp (body s' j) (fun s'' => I (Datatypes.S j) s'') E w') ->
  wp (for_fold (range n) s body) (fun s' => I n s') E w.
Proof.
  intros H0 Hb. unfold range.
  assert (G : forall len start s' w', start + len = n -> I start s' w' ->
            wp (for_fold (seq start len) s' body) (fun s'' => I n s'') E w').
  { induction len as [|len IH]; intros start s' w' Hn HI; cbn [seq for_fold].
    - apply wp_ret. replace n with start by lia. exact HI.
    - apply wp_bind.
      eapply wp_mono; [apply Hb; [lia | exact HI] | | auto].
      cbn beta. intros s'' w'' HI'. apply IH; [lia | exact HI']. }
  apply G; [lia | exact H0].
Qed.

Lemma thin_multiple (thin i : nat) :
  0 < thin -> (i + 1) mod thin = 0 ->
  (i + 1) / thin = i / thin + 1 /\ i + 1 = thin * (i / thin + 1).
Proof.
  intros Ht Hm. pose proof (Nat.div_mod_eq (i + 1) thin) as Hd.
  rewrite Hm, Nat.add_0_r in Hd.
  set (q := (i + 1) / thin) in *.
  assert (Hq : 1 <= q) by (destruct q; [lia | lia]).
  assert (Hi : i / thin = q - 1).
  { symmetry. apply (Nat.div_unique i thin (q - 1) (thin - 1)); [lia |].
    nia. }
  rewrite Hi. split; [lia |]. replace (q - 1 + 1) with q by lia. exact Hd.
Qed.

Lemma thin_between (thin i : nat) :
  0 < thin -> (i + 1) mod thin <> 0 -> (i + 1) / thin = i / thin.
Proof.
  intros Ht Hm. pose proof (Nat.div_mod_eq (i + 1) thin) as Hd.
  pose proof (Nat.mod_upper_bound (i + 1) thin ltac:(lia)) as Hr.
  set (q := (i + 1) / thin) in *. set (r := (i + 1) mod thin) in *.
  apply (Nat.div_unique i thin q (r - 1)); [lia | nia].
Qed.

Lemma thin_slot_free (thin i iterations : nat) :
  0 < thin -> i < iterations -> (i + 1) mod thin = 0 ->
  i / thin < iterations / thin.
Proof.
  intros Ht Hi Hm. destruct (thin_multiple thin i Ht Hm) as [Hq _].
  assert ((i + 1) / thin <= iterations / thin)
    by (apply Nat.Div0.div_le_mono; lia).
  lia.
Qed.

Lemma records_app t1 t2 : records (t1 ++ t2) = records t1 ++ records t2.
Proof.
  induction t1 as [|e t1 IH]; [reflexivity |].
  destruct e; cbn [app records]; rewrite ?IH; reflexivity.
Qed.

Lemma yields_app t1 t2 : yields (t1 ++ t2) = yields t1 ++ yields t2.
Proof.
  induction t1 as [|e t1 IH]; [reflexivity |].
  destruct e; cbn [app yields]; rewrite ?IH; reflexivity.
Qed.

Lemma callbacks_silent evs :
  Forall is_callback evs -> records evs = [] /\ yields evs = [].
Proof.
  induction 1 as [|e evs He _ [IH1 IH2]]; [auto |].
  destruct e; cbn in He; try contradiction; cbn; auto.
Qed.

Lemma advances_silent l :
  records (map EvAdvance l) = [] /\ yields (map EvAdvance l) = [].
Proof. induction l as [|j l [IH1 IH2]]; cbn; auto. Qed.

Lemma trials_silent trials l :
  map event_boundary trials = map Some l ->
  records trials = [] /\ yields trials = [].
Proof.
  revert l. induction trials as [|e trials IH]; intros l Hl; [auto |].
  destruct l as [|i l]; [discriminate |]. cbn [map] in Hl.
  injection Hl as He Hl. destruct (IH l Hl) as [IH1 IH2].
  destruct e; try discriminate. cbn. auto.
Qed.

Lemma round_silent nt trials l tail :
  map event_boundary trials = map Some l ->
  records (map EvAdvance (range nt) ++ EvExchange :: trials ++ tail)
  = records tail
  /\ yields (map EvAdvance (range nt) ++ EvExchange :: trials ++ tail)
     = yields tail.
Proof.
  intros Hl. rewrite records_app, yields_app.
  destruct (advances_silent (range nt)) as [-> ->].
  cbn [app records yields]. rewrite records_app, yields_app.
  destruct (trials_silent _ _ Hl) as [-> ->]. auto.
Qed.

Lemma keeps_steps_refl n c : keeps_steps n c c.
Proof. intros a ->. exists a. auto. Qed.

Lemma keeps_steps_trans n c1 c2 c3 :
  keeps_steps n c1 c2 -> keeps_steps n c2 c3 -> keeps_steps n c1 c3.
Proof.
  intros H1 H2 a Ha. destruct (H1 a Ha) as (a' & Ha' & E1).
  destruct (H2 a' Ha') as (a'' & Ha'' & E2). exists a''.
  split; [exact Ha'' |]. intros k s Hk Hs.
  rewrite (E2 k s Hk Hs). apply (E1 k s Hk Hs).
Qed.

Lemma recorded_keeps_steps n isave v c c' :
  n <= isave -> recorded isave v c c' -> keeps_steps n c c'.
Proof.
  intros Hn (a & a' & -> & -> & _ & Hd) b [= <-]. exists a'.
  split; [reflexivity |]. intros k s Hk Hs. rewrite Hd, Hk.
  destruct (decide (Some s = Some isave)) as [[= ->]|]; [lia | reflexivity].
Qed.

Lemma keeps_chain_refl n s : keeps_chain n s s.
Proof. repeat split; apply keeps_steps_refl. Qed.

Lemma keeps_chain_trans n s1 s2 s3 :
  keeps_chain n s1 s2 -> keeps_chain n s2 s3 -> keeps_chain n s1 s3.
Proof.
  intros (A1 & A2 & A3) (B1 & B2 & B3).
  repeat split; eapply keeps_steps_trans; eassumption.
Qed.

Lemma sample_loop_wp thin storechain iterations n0 l0 w0 k E :
  0 < thin -> k <= iterations ->
  state_wf w0 (l_p l0) (l_lnprob l0) (l_logl l0) ->
  sampler_ready (self w0) ->
  (storechain = true ->
   l_isave l0 = n0 /\ chain_shape (self w0) (n0 + iterations / thin)) ->
  wp (for_fold (range k) l0 (sample_step thin storechain))
     (fun l w => loop_progress thin storechain iterations n0 l0 w0 k l w)
     E w0.
Proof.
  intros Hthin Hk Hwf Hready Hch.
  apply (wp_for_fold_range k l0 _
           (loop_progress thin storechain iterations n0 l0 w0) E).
  - (* before the first round *)
    unfold loop_progress. rewrite Nat.Div0.div_0_l, Nat.add_0_r.
    split.
    { destruct l0 as [a b c d]. cbn. destruct storechain; [| reflexivity].
      destruct (Hch eq_refl) as [<- _]. reflexivity. }
    split; [apply same_static_refl |]. split; [exact Hready |].
    split; [apply heap_evolves_refl |]. split.
    { exists []. rewrite app_nil_r. destruct storechain; auto. }
    destruct storechain; [| auto].
    split; [apply Hch; reflexivity | apply keeps_chain_refl].
  - (* one round *)
    intros j l w Hj (-> & St & Hr & Hev & (evs & Ht & Hy & Hrec) & Hchain).
    cbn [l_p l_lnprob l_logl l_isave].
    pose proof (state_wf_static _ _ _ _ _ _ Hwf St Hev) as Hwf1.
    pose proof St as (_ & _ & Ent & Enw & Ed & _).
    eapply wp_mono;
      [apply (sample_step_wp thin storechain _ j (n0 + iterations / thin)
                w E)
      | | exact (fun _ H => H)];
      cbn [l_p l_lnprob l_logl l_isave]; try assumption.
    + unfold records_at. intros Hra. apply andb_true_iff in Hra.
      destruct Hra as [-> Hmod]. apply Nat.eqb_eq in Hmod.
      split; [apply Hchain |].
      pose proof (thin_slot_free thin j iterations Hthin ltac:(lia) Hmod).
      lia.
    + cbn beta.
      intros l' w' (-> & St' & Hss' & Hev' & (trials & Ht' & Hb') & Hca).
      unfold loop_progress. cbn [l_p l_lnprob l_logl l_isave].
      replace (Datatypes.S j) with (j + 1) by lia.
      destruct (round_silent (ntemps (self w)) trials _
                  ((if records_at thin storechain j
                    then [EvRecord (j + 1) (n0 + j / thin)] else [])
                   ++ [EvYield (l_p l0) (l_lnprob l0) (l_logl l0)]) Hb')
        as [Rs Ys].
      split.
      { unfold records_at. f_equal. destruct storechain; cbn [andb]; [| reflexivity].
        destruct (Nat.eqb_spec ((j + 1) mod thin) 0) as [Hm|Hm].
        - destruct (thin_multiple thin j Hthin Hm) as [-> _]. lia.
        - rewrite (thin_between thin j Hthin Hm). reflexivity. }
      split; [eapply same_static_trans; eassumption |].
      split; [eapply sampler_ready_step; eassumption |].
      split; [eapply heap_evolves_trans; eassumption |].
      split.
      { eexists. split; [rewrite Ht', Ht, <- app_assoc; reflexivity |].
        assert (Hi0 : (if storechain then n0 + j / thin else l_isave l0)
                      = n0 + j / thin \/ records_at thin storechain j = false).
        { unfold records_at. destruct storechain; auto. }
        rewrite yields_app, records_app.
        assert (Rs' : records
                  (map EvAdvance (range (ntemps (self w)))
                   ++ EvExchange :: trials
                   ++ (if records_at thin storechain j
                       then [EvRecord (j + 1)
                               (if storechain then n0 + j / thin
                                else l_isave l0)] else [])
                   ++ [EvYield (l_p l0) (l_lnprob l0) (l_logl l0)])
                = records ((if records_at thin storechain j
                    then [EvRecord (j + 1) (n0 + j / thin)] else [])
                   ++ [EvYield (l_p l0) (l_lnprob l0) (l_logl l0)])).
        { rewrite <- Rs. destruct Hi0 as [-> | ->]; reflexivity. }
        assert (Ys' : yields
                  (map EvAdvance (range (ntemps (self w)))
                   ++ EvExchange :: trials
                   ++ (if records_at thin storechain j
                       then [EvRecord (j + 1)
                               (if storechain then n0 + j / thin
                                else l_isave l0)] else [])
                   ++ [EvYield (l_p l0) (l_lnprob l0) (l_logl l0)])
                = yields ((if records_at thin storechain j
                    then [EvRecord (j + 1) (n0 + j / thin)] else [])
                   ++ [EvYield (l_p l0) (l_lnprob l0) (l_logl l0)])).
        { rewrite <- Ys. destruct Hi0 as [-> | ->]; reflexivity. }
        rewrite Rs', Ys', Hy, Hrec. unfold records_at. split.
        - replace (j + 1) with (j + 1 * 1) by lia.
          rewrite Nat.mul_1_r, repeat_app.
          destruct (storechain && _); cbn; reflexivity.
        - destruct storechain; cbn [andb].
          + destruct (Nat.eqb_spec ((j + 1) mod thin) 0) as [Hm|Hm].
            * destruct (thin_multiple thin j Hthin Hm) as [Eq Ej].
              rewrite Eq. unfold recorded_steps.
              replace (j / thin + 1) with (S (j / thin)) by lia.
              rewrite seq_S, map_app.
              cbn [map Nat.add records app].
              do 3 f_equal. lia.
            * rewrite (thin_between thin j Hthin Hm). cbn.
              rewrite app_nil_r. reflexivity.
          + cbn. reflexivity. }
      unfold records_at in *.
      destruct storechain; cbn [andb] in *.
      * destruct Hchain as [Hcs Hkc].
        destruct (Nat.eqb_spec ((j + 1) mod thin) 0) as [Hm|Hm];
          cbn [chain_after] in Hca.
        -- destruct Hca as (Hcs' & P & Q & L & _ & _ & _ & R1 & R2 & R3).
           split; [exact Hcs' | eapply keeps_chain_trans; [exact Hkc |]].
           repeat split; eapply recorded_keeps_steps; try eassumption; lia.
        -- destruct Hca as (C1 & C2 & C3). split.
           ++ destruct Hcs as (c & lp & ll & ? & ? & ? & Sc & Slp & Sll).
              destruct St' as (_ & _ & Ent' & Enw' & Ed' & _).
              exists c, lp, ll. rewrite C1, C2, C3, Ent', Enw', Ed'.
              repeat split; assumption.
           ++ eapply keeps_chain_trans; [exact Hkc |].
              unfold keeps_chain. rewrite C1, C2, C3.
              apply keeps_chain_refl.
      * cbn [chain_after] in Hca. destruct Hca as (C1 & C2 & C3).
        destruct Hchain as (D1 & D2 & D3). repeat split; congruence.
Qed.

(** ** A call of [sample] *)

Lemma sampler_ready_static s s' :
  sampler_ready s -> same_static s s' -> samplers s' = samplers s ->
  sampler_ready s'.
Proof.
  intros ((Sb & Sn & Sa) & Hlen & Hadv)
         (_ & _ & Ent & Enw & Ed & Eb & En & Ea) Hss.
  unfold sampler_ready, sampler_wf.
  rewrite Ent, Enw, Ed, Eb, En, Ea, Hss. repeat split; assumption.
Qed.

Lemma firstn_range k n : k <= n -> firstn k (range n) = range k.
Proof.
  intros Hk. unfold range. rewrite take_seq. f_equal. lia.
Qed.

Lemma sample_upto_wp k p0 lnprob0 lnlike0 iterations thin storechain n0 w E :
  sampler_ready (self w) ->
  args_ok w p0 lnprob0 lnlike0 ->
  0 < thin -> k <= iterations ->
  (storechain = true -> chain_state (self w) n0) ->
  wp (sample_upto k p0 lnprob0 lnlike0 iterations thin storechain)
     (sample_progress p0 lnprob0 lnlike0 iterations thin storechain n0 k w)
     E w.
Proof.
  intros Hready Hargs Hthin Hk Hch.
  unfold sample_upto. rewrite (firstn_range k iterations Hk).
  pose proof Hready as (Hswf & _).
  pose proof Hargs as [HP0 _].
  apply wp_bind. unfold sample_prologue. apply wp_bind.
  eapply wp_mono;
    [apply (sample_init_wp p0 lnprob0 lnlike0 w E Hswf Hargs)
    | | exact (fun _ H => H)].
  cbn beta.
  intros [lp ll] w1 (Hr & S1 & R1 & H1 & Hne & HQ1 & HL1 & evs1 & T1 & F1).
  cbn [fst snd] in Hne, HQ1, HL1.
  destruct (callbacks_silent evs1 F1) as [Rc Yc].
  (* the world after the prologue *)
  assert (Hafter : forall isave w2,
    heap w2 = heap w1 -> trace w2 = trace w1 ->
    same_static (self w1) (self w2) ->
    samplers (self w2) = samplers (self w1) ->
    (storechain = true ->
     isave = n0 /\ chain_shape (self w2) (n0 + iterations / thin)
     /\ keeps_chain n0 (self w1) (self w2)) ->
    (storechain = false ->
     isave = 0 /\ _chain (self w2) = _chain (self w1)
     /\ _lnprob (self w2) = _lnprob (self w1)
     /\ _lnlikelihood (self w2) = _lnlikelihood (self w1)) ->
    wp (for_fold (range k)
          {| l_p := p0; l_lnprob := lp; l_logl := ll; l_isave := isave |}
          (sample_step thin storechain))
       (sample_progress p0 lnprob0 lnlike0 iterations thin storechain n0 k w)
       E w2).
  { intros isave w2 H2 T2 St2 Hss2 Hon Hoff.
    assert (St02 : same_static (self w) (self w2)) by (rewrite <- S1; exact St2).
    assert (Hready2 : sampler_ready (self w2)).
    { eapply sampler_ready_static; [exact Hready | exact St02 |].
      rewrite Hss2, S1. reflexivity. }
    assert (Hev2 : heap_evolves [] (heap w) (heap w2))
      by (rewrite H2; exact H1).
    assert (Hwf2 : state_wf w2 p0 lp ll).
    { pose proof St02 as (_ & _ & Ent & Enw & Ed & _).
      unfold state_wf. rewrite Ent, Enw, Ed, H2.
      split; [apply Hready2 |]. split; [exact Hne |].
      split; [| split; assumption].
      destruct HP0 as (P & HP & SP). destruct H1 as (_ & Hsh & _).
      destruct (Hsh _ _ HP) as (P' & HP' & SP').
      exists P'. split; [exact HP' | congruence]. }
    eapply wp_mono;
      [apply (sample_loop_wp thin storechain iterations n0
                {| l_p := p0; l_lnprob := lp; l_logl := ll;
                   l_isave := isave |} w2 k E Hthin Hk Hwf2 Hready2)
      | | exact (fun _ H => H)].
    - intros Hs. destruct (Hon Hs) as (-> & Hcs & _). auto.
    - cbn beta.
      intros l w3 (-> & St3 & Hr3 & Hev3 & (evs & Ht & Hy & Hrec) & Hchain).
      cbn [l_p l_lnprob l_logl l_isave] in *.
      unfold sample_progress. rewrite <- Hr. cbn [fst snd].
      split.
      { f_equal. destruct storechain; [reflexivity |].
        destruct (Hoff eq_refl) as [-> _]. reflexivity. }
      split; [eapply same_static_trans; eassumption |].
      split; [exact Hr3 |].
      split; [eapply state_wf_static; eassumption |].
      split.
      { eapply heap_evolves_trans; [| exact Hev3].
        eapply heap_evolves_mono; [| exact Hev2]. intros l []. }
      split.
      { exists (evs1 ++ evs). split.
        - rewrite Ht, T2, T1, <- app_assoc. reflexivity.
        - rewrite yields_app, records_app, Rc, Yc. cbn [app]. auto. }
      destruct storechain.
      + destruct (Hon eq_refl) as (_ & _ & Hk12).
        destruct Hchain as [Hcs Hk23]. split; [exact Hcs |].
        rewrite <- S1. eapply keeps_chain_trans; eassumption.
      + destruct (Hoff eq_refl) as (_ & C1 & C2 & C3).
        destruct Hchain as (D1 & D2 & D3). rewrite <- S1.
        repeat split; congruence. }
  destruct storechain.
  - apply wp_bind.
    eapply wp_mono;
      [apply (sample_expand_wp iterations thin n0 w1 E Hthin)
      | | exact (fun _ H => H)].
    { rewrite S1. apply Hch. reflexivity. }
    cbn beta.
    intros isave w2 (-> & H2 & T2 & R2 & (St2 & Hss2 & _ & _) & Hcs & Hkc).
    apply wp_ret. apply Hafter; try assumption.
    + intros _. auto.
    + discriminate.
  - apply wp_bind, wp_ret, wp_ret.
    apply Hafter; try reflexivity.
    + apply same_static_refl.
    + discriminate.
    + intros _. auto.
Qed.

(** ** The order of the events of an iteration *)

(** C5.  One iteration of the generator, from a well-formed state: its
    events are, in this order, one advance of each of the [ntemps] rungs
    (rung [0] first), the exchange with its trials, the record (on a
    recording round) and the yield.  So the exchange comes after every
    rung has been advanced, exactly once each, and before the state is
    recorded or yielded. *)
Theorem exchange_between_advance_and_record
    (thin : nat) (storechain : bool) (l : locals) (i n : nat) (w : world) :
  state_wf w (l_p l) (l_lnprob l) (l_logl l) ->
  sampler_ready (self w) -> 0 < thin ->
  (records_at thin storechain i = true ->
   chain_shape (self w) n /\ l_isave l < n) ->
  exists w' l' trials,
    sample_step thin storechain l i w = (w', Ok l')
    /\ trace w' = trace w
         ++ map EvAdvance (range (ntemps (self w)))
         ++ EvExchange :: trials
         ++ (if records_at thin storechain i
             then [EvRecord (i + 1) (l_isave l)] else [])
         ++ [EvYield (l_p l) (l_lnprob l) (l_logl l)]
    /\ map event_boundary trials
       = map Some (swap_schedule (ntemps (self w)) (nwalkers (self w)))
    /\ samplers (self w') = map called (samplers (self w)).
Proof.
  intros Hwf Hready Hthin Hrec.
  pose proof (sample_step_wp thin storechain l i n w (fun _ => False)
                Hwf Hready Hthin Hrec) as Hwp.
  apply wp_returns in Hwp.
  destruct Hwp as (l' & w' & Hrun & _ & _ & Hss & _ & (trials & Ht & Hb) & _).
  exists w', l', trials. auto.
Qed.

Lemma idle_ok nw d : advancer_ok nw d idle.
Proof. intros n p lp ll Hp Hlp Hll. exists p, lp, ll. auto. Qed.

Lemma sampler0_ready betas : shape betas = [2] -> sampler_ready (sampler0 betas).
Proof.
  intros Hb. unfold sampler_ready, sampler_wf. cbn.
  repeat split; try assumption. repeat constructor; apply idle_ok.
Qed.

Lemma exchange_between_advance_and_record_witness :
  exists w' l' trials,
    sample_step 1 false
      {| l_p := 0; l_lnprob := 1; l_logl := 2; l_isave := 0 |} 0 world_swap
    = (w', Ok l')
    /\ trace w' = [EvAdvance 0; EvAdvance 1] ++ EvExchange :: trials
                  ++ [EvYield 0 1 2].
Proof.
  destruct (exchange_between_advance_and_record 1 false
              {| l_p := 0; l_lnprob := 1; l_logl := 2; l_isave := 0 |}
              0 0 world_swap)
    as (w' & l' & trials & Hrun & Ht & _).
  - apply world0_wf; reflexivity.
  - apply sampler0_ready. reflexivity.
  - lia.
  - discriminate.
  - exists w', l', trials. split; [exact Hrun | exact Ht].
Defined.

(** ** Successive calls *)

Lemma keeps_steps_weaken m n c c' :
  m <= n -> keeps_steps n c c' -> keeps_steps m c c'.
Proof.
  intros Hmn H a Ha. destruct (H a Ha) as (a' & Ha' & Hd).
  exists a'. split; [exact Ha' |]. intros k s Hk Hs. apply (Hd k s Hk). lia.
Qed.

Lemma keeps_chain_weaken m n s s' :
  m <= n -> keeps_chain n s s' -> keeps_chain m s s'.
Proof.
  intros Hmn (H1 & H2 & H3).
  repeat split; eapply keeps_steps_weaken; eassumption.
Qed.

Lemma stored_snoc cs c :
  stored (cs ++ [c]) = stored cs + c_iterations c / c_thin c.
Proof.
  unfold stored. rewrite map_app, list_sum_app. cbn. lia.
Qed.

(** One call with storage, from a chain of [n0] steps. *)
Lemma run_call_wp c n0 w E :
  sampler_ready (self w) -> chain_state (self w) n0 -> call_ok w c ->
  wp (run_call c)
     (sample_progress (c_p0 c) (c_lnprob0 c) (c_lnlike0 c)
        (c_iterations c) (c_thin c) true n0 (c_iterations c) w)
     E w.
Proof.
  intros Hready Hch [Hthin Hargs]. unfold run_call, sample.
  apply sample_upto_wp; auto.
Qed.

Lemma after_calls_invariant w0 n0 cs w :
  sampler_ready (self w0) -> chain_state (self w0) n0 ->
  after_calls w0 cs w ->
  sampler_ready (self w)
  /\ chain_state (self w) (n0 + stored cs)
  /\ (cs <> [] -> chain_shape (self w) (n0 + stored cs))
  /\ keeps_chain n0 (self w0) (self w).
Proof.
  intros Hready Hch. induction 1 as [|cs w c Hcs IH Hok].
  - unfold stored. cbn. rewrite Nat.add_0_r.
    split; [exact Hready |]. split; [exact Hch |].
    split; [congruence | apply keeps_chain_refl].
  - destruct IH as (Hr & Hc & _ & Hk).
    pose proof (run_call_wp c (n0 + stored cs) w (fun _ => False) Hr Hc Hok)
      as Hwp.
    unfold wp in Hwp. destruct (run_call c w) as [w' [l|e]];
      [| contradiction].
    destruct Hwp as (_ & _ & Hr' & _ & _ & _ & Hcs' & Hk').
    cbn [fst]. rewrite stored_snoc, Nat.add_assoc.
    split; [exact Hr' |]. split; [right; exact Hcs' |].
    split; [intros _; exact Hcs' |].
    eapply keeps_chain_trans; [exact Hk |].
    eapply keeps_chain_weaken; [| exact Hk']. lia.
Qed.

Lemma mover_ok nw d : advancer_ok nw d mover.
Proof.
  intros n p lp ll Hp Hlp Hll. eexists _, lp, ll.
  split; [reflexivity |]. auto.
Qed.

Lemma sampler1_ready : sampler_ready sampler1.
Proof.
  unfold sampler_ready, sampler_wf. cbn.
  repeat split. repeat constructor. apply mover_ok.
Qed.

Lemma world1_args_ok : args_ok world1 0 None None.
Proof.
  split.
  - exists (np_zeros [1; 1; 1]). split; reflexivity.
  - split; intros x; eexists; reflexivity.
Qed.

(** ** A round that overwrites the starting positions *)

(** The caller's array is overwritten: with an ensemble sampler that
    moves the walker to [7], the array the caller passed as [p0], which
    held [0], holds [7] after the first yield, and the chain records what
    the heap then holds. *)
Lemma sample_overwrites_p0 :
  item (np_zeros [1; 1; 1]) [0; 0; 0] = Ok (Fin 0)
  /\ entry_after (sample_upto 1 0 None None 1 1 true) world1 0 [0; 0; 0]
     = Ok (Fin 7).
Proof. split; reflexivity. Qed.

(** ** The evidence estimate *)

Lemma burnin_start_half : burnin_start 4 (Fin (1 / 2)) = Ok 3%Z.
Proof.
  unfold burnin_start, trunc, of_nat. cbn [fmul].
  assert (H : (INR 4 * (1 / 2) = 2)%R) by (simpl; lra).
  rewrite H. destruct (Rle_dec 0 2) as [_|Hn]; [| lra].
  rewrite <- (Int_part_spec 2 2) by lra. reflexivity.
Qed.

Lemma burnin_start_zero (n : nat) : burnin_start n (Fin 0) = Ok 1%Z.
Proof.
  unfold burnin_start, trunc, of_nat. cbn [fmul].
  rewrite Rmult_0_r. destruct (Rle_dec 0 0) as [_|Hn]; [| lra].
  rewrite <- (Int_part_spec 0 0) by lra. reflexivity.
Qed.

Lemma evidence_tail_no_value fburnin w r :
  snd (evidence_tail fburnin w) <> Ok (Some r).
Proof.
  unfold evidence_tail, bind, attr, lift, raise, ret. cbn.
  destruct (_lnlikelihood (self w)) as [a|]; [| discriminate].
  destruct (shape a !! 2); [| discriminate].
  destruct (burnin_start _ _); cbn; [| discriminate].
  destruct (np_mean a 1); cbn; [| discriminate].
  destruct (slice_from _ _); cbn; [| discriminate].
  destruct (np_mean _ 1); cbn; discriminate.
Qed.

Lemma concatenate_ladder_raises (b : ndarray) (n : nat) :
  shape b = [n] -> np_concatenate_rows b = Raise ValueError.
Proof.
  intros Hs. unfold np_concatenate_rows, rows. rewrite Hs. cbn [res_bind].
  unfold range. destruct n; reflexivity.
Qed.

(** C3 does not hold of the code.  (1) For every one-dimensional ladder
    the first statement, [np.concatenate(self.betas, np.array([0]))],
    raises: the ladder stands where numpy expects the sequence of arrays
    to join, and its entries have no axis.  (2) Whatever the stored
    log-likelihoods and the burn-in fraction, the statements after it
    return no number: the body stops at the assignment to [mean_logls],
    no integral is formed and nothing is returned.  (3) The first step
    kept is [int(S * fburnin) + 1]: with [S = 4] and [fburnin = 1/2] it
    is step [3], so three of the four steps are discarded and not two;
    with [fburnin = 0] one step is still discarded. *)
Theorem evidence_estimate_defects :
  (forall fburnin w,
      shape (_betas (self w)) = [ntemps (self w)] ->
      thermodynamic_integration_log_evidence fburnin w
      = (w, Raise ValueError))
  /\ (forall fburnin w r, snd (evidence_tail fburnin w) <> Ok (Some r))
  /\ thermodynamic_integration_log_evidence (Fin (1 / 2)) world_stored
     = (world_stored, Raise ValueError)
  /\ evidence_tail (Fin (1 / 2)) world_stored = (world_stored, Ok None)
  /\ burnin_start 4 (Fin (1 / 2)) = Ok 3%Z
  /\ (forall S, burnin_start S (Fin 0) = Ok 1%Z).
Proof.
  split; [| split; [| split; [| split; [| split]]]].
  - intros fburnin w Hs.
    unfold thermodynamic_integration_log_evidence, bind, attr, lift. cbn.
    rewrite (concatenate_ladder_raises _ _ Hs). reflexivity.
  - apply evidence_tail_no_value.
  - reflexivity.
  - unfold evidence_tail, bind, attr, lift, ret. cbn -[burnin_start].
    rewrite burnin_start_half. reflexivity.
  - apply burnin_start_half.
  - apply burnin_start_zero.
Qed.

(** ** Exceptions of the prior and of the likelihood *)

(** X1.  [PTPost.__call__] has no handler: an exception of the prior leaves
    the call before the likelihood is asked, an exception of the
    likelihood leaves it after both were asked; either reaches the
    caller as it is. *)
Theorem PTPost_call_propagates (f : PTPost) (x : ndarray) (w : world)
    (e : exn) :
  (_logp f x = Raise e ->
     PTPost_call f x w = (set_trace (trace w ++ [EvLogp x]) w, Raise e))
  /\ (forall lp, _logp f x = Ok lp -> lp <> NInf -> _logl f x = Raise e ->
        PTPost_call f x w
        = (set_trace (trace w ++ [EvLogp x; EvLogl x]) w, Raise e)).
Proof.
  split.
  - intros Hp. unfold PTPost_call, bind, log, lift. cbn. rewrite Hp.
    reflexivity.
  - intros lp Hp Hne Hl. unfold PTPost_call, bind, log, lift. cbn.
    rewrite Hp.
    destruct (feq lp NInf) eqn:E; [apply feq_NInf in E; contradiction |].
    cbn. rewrite Hl. unfold set_trace. cbn. rewrite <- app_assoc.
    reflexivity.
Qed.

(** ** The shape of the ladder *)

Lemma ladder_shape fe (n : nat) : shape (exponential_beta_ladder fe n) = [n].
Proof. unfold exponential_beta_ladder. destruct n as [|[|n]]; reflexivity. Qed.

(** ** Construction *)

Lemma elements_ok (a : ndarray) (n : nat) :
  shape a = [n] ->
  elements a = Ok (map (fun k => data a [k]) (range n)).
Proof. intros Hs. unfold elements. rewrite Hs. reflexivity. Qed.

Lemma lookup_map_range {A} (f : nat -> A) (n k : nat) :
  k < n -> map f (range n) !! k = Some (f k).
Proof.
  intros Hk. rewrite list_lookup_fmap. unfold range.
  rewrite lookup_seq_lt by exact Hk. reflexivity.
Qed.

(** X3.  [__init__] takes a ladder given by the caller as it is: whatever
    its length [n] and its entries, construction succeeds, the ladder is
    stored unchanged, there is one ensemble sampler per entry of the
    ladder (its posterior tempered by that entry), the swap counters
    have [ntemps] entries, all zero, and no chain is stored.  The
    ladder and the counters agree in length only when [n = ntemps]. *)
Theorem PTSampler_init_given_ladder (fe : fp_env) (nt nw d n : nat)
    (fl fp : callback) (b : ndarray)
    (mk : nat -> nat -> PTPost -> EnsembleSampler) :
  shape b = [n] ->
  exists s,
    PTSampler_init fe nt nw d fl fp (Some b) mk = Ok s
    /\ _betas s = b
    /\ ntemps s = nt /\ nwalkers s = nw /\ dim s = d
    /\ length (samplers s) = n
    /\ (forall k, k < n ->
          samplers s !! k
          = Some (mk nw d {| _logl := fl; _logp := fp;
                             _beta := data b [k] |}))
    /\ nswap s = np_zeros [nt] /\ nswap_accepted s = np_zeros [nt]
    /\ chain_empty s
    /\ (sampler_wf s <-> n = nt).
Proof.
  intros Hs. unfold PTSampler_init. rewrite (elements_ok b n Hs).
  cbn [res_bind]. eexists. split; [reflexivity |].
  cbn [_betas ntemps nwalkers dim samplers nswap nswap_accepted].
  split; [reflexivity |]. do 3 (split; [reflexivity |]).
  split. { rewrite !length_map. apply length_seq. }
  split.
  { intros k Hk. rewrite list_lookup_fmap, lookup_map_range by exact Hk.
    reflexivity. }
  do 2 (split; [reflexivity |]).
  split. { repeat split. }
  unfold sampler_wf. cbn [_betas ntemps nswap nswap_accepted np_zeros shape].
  rewrite Hs. split.
  - intros (H & _). congruence.
  - intros ->. repeat split.
Qed.

Lemma PTSampler_init_given_ladder_witness :
  exists s,
    PTSampler_init fp_ideal 3 2 1
      (fun _ => Ok (Fin 0)) (fun _ => Ok (Fin 0))
      (Some ladder_swap) (fun _ _ _ => idle) = Ok s
    /\ length (samplers s) = 2
    /\ shape (nswap s) = [3].
Proof.
  destruct (PTSampler_init_given_ladder fp_ideal 3 2 1 2
              (fun _ => Ok (Fin 0)) (fun _ => Ok (Fin 0))
              ladder_swap (fun _ _ _ => idle) eq_refl)
    as (s & Hs & _ & _ & _ & _ & Hlen & _ & Hn & _).
  exists s. split; [exact Hs |]. split; [exact Hlen |].
  rewrite Hn. reflexivity.
Defined.

(** ** The acceptance fraction of a rung without attempts *)

Lemma fraction_no_attempts (w : world) (n i : nat) :
  shape (nswap (self w)) = [n] -> shape (nswap_accepted (self w)) = [n] ->
  i < n ->
  data (nswap (self w)) [i] = Fin 0 ->
  data (nswap_accepted (self w)) [i] = Fin 0 ->
  exists F,
    tswap_acceptance_fraction w = (w, Ok F)
    /\ shape F = [n]
    /\ item F [i] = Ok NaN.
Proof.
  intros Sn Sa Hi Hn Ha.
  unfold tswap_acceptance_fraction, bind, attr, lift, np_divide, shape_eqb.
  rewrite Sa, Sn.
  destruct (decide ([n] = [n])); [| contradiction].
  eexists. split; [reflexivity |]. split; [reflexivity |].
  unfold item. cbn [shape data in_bounds].
  rewrite (proj2 (Nat.ltb_lt _ _) Hi). cbn [andb].
  rewrite Hn, Ha. cbn [fdiv].
  destruct (Req_dec_T 0 0) as [_|Hne]; [| contradiction].
  unfold scale_inf. destruct (Req_dec_T 0 0) as [_|Hne]; [| contradiction].
  reflexivity.
Qed.

(** X5.  The query never raises on a sampler whose two counters have one
    entry per rung, and a rung with no attempt and no accepted swap
    reports [0 / 0], which is [nan]. *)
Theorem tswap_acceptance_fraction_no_attempts (w : world) (i : nat) :
  sampler_wf (self w) ->
  i < ntemps (self w) ->
  data (nswap (self w)) [i] = Fin 0 ->
  data (nswap_accepted (self w)) [i] = Fin 0 ->
  exists F,
    tswap_acceptance_fraction w = (w, Ok F)
    /\ shape F = [ntemps (self w)]
    /\ item F [i] = Ok NaN.
Proof.
  intros (_ & Sn & Sa). apply fraction_no_attempts; assumption.
Qed.

Lemma tswap_acceptance_fraction_no_attempts_witness :
  exists F,
    tswap_acceptance_fraction world_swap = (world_swap, Ok F)
    /\ shape F = [2]
    /\ item F [1] = Ok NaN.
Proof.
  apply (tswap_acceptance_fraction_no_attempts world_swap 1).
  - repeat split.
  - cbn. lia.
  - reflexivity.
  - reflexivity.
Defined.

(** ** A ladder shorter than [ntemps] *)

Lemma rev_seq_head (m : nat) : rev (seq 1 (S m)) = S m :: rev (seq 1 m).
Proof. rewrite seq_S, rev_app_distr. reflexivity. Qed.

(** X6.  The ladder is not checked against [ntemps].  With at least two rungs
    and a ladder of fewer than [ntemps] entries, the exchange raises
    [IndexError] at its first statement, [self.betas[ntemps - 1]]:
    no trial is made, no random number is drawn, and counters and
    arrays are as they were. *)
Theorem temperature_swaps_short_ladder (p lnprob logl : loc) (w : world)
    (n : nat) :
  shape (_betas (self w)) = [n] ->
  n < ntemps (self w) -> 2 <= ntemps (self w) ->
  _temperature_swaps p lnprob logl w
  = (set_trace (trace w ++ [EvExchange]) w, Raise IndexError).
Proof.
  intros Hs Hn Hnt. unfold _temperature_swaps, bind, log, attr.
  cbn [self set_trace]. rewrite range3_down.
  destruct (ntemps (self w)) as [|[|m]] eqn:Ent; [lia | lia |].
  replace (S (S m) - 1) with (S m) by lia. rewrite rev_seq_head.
  cbn [for_each]. unfold swap_boundary, betas_item, bind, attr, lift, item.
  cbn [self set_trace]. rewrite Hs. cbn [in_bounds].
  rewrite (proj2 (Nat.ltb_ge _ _)) by lia. reflexivity.
Qed.

Lemma temperature_swaps_short_ladder_witness :
  _temperature_swaps 0 1 2
    (world0 (array_of_list [Fin 1]) positions_swap lnprob_swap lnlike_swap)
  = (set_trace [EvExchange]
       (world0 (array_of_list [Fin 1]) positions_swap lnprob_swap
          lnlike_swap),
     Raise IndexError).
Proof.
  apply (temperature_swaps_short_ladder 0 1 2
           (world0 (array_of_list [Fin 1]) positions_swap lnprob_swap
              lnlike_swap) 1).
  - reflexivity.
  - cbn. lia.
  - cbn. lia.
Defined.

(** ** What an exchange does to the counters and to the generator *)

Lemma wp_conj {A} (m : M A) (Q1 Q2 : A -> world -> Prop)
    (E1 E2 : world -> Prop) w :
  wp m Q1 E1 w -> wp m Q2 E2 w ->
  wp m (fun a w' => Q1 a w' /\ Q2 a w') (fun w' => E1 w' /\ E2 w') w.
Proof. unfold wp. destruct (m w) as [w' [a|e]]; auto. Qed.

Lemma fadd_0_r (x : float) : fadd x (Fin 0) = x.
Proof. destruct x; cbn; try reflexivity. f_equal. lra. Qed.

Lemma fadd_of_nat_S (x : float) (n : nat) :
  fadd (fadd x (of_nat n)) (Fin 1) = fadd x (of_nat (S n)).
Proof.
  unfold of_nat. rewrite S_INR. destruct x; cbn; try reflexivity.
  f_equal. lra.
Qed.

Lemma fadd_of_nat_add (x : float) (n m : nat) :
  fadd (fadd x (of_nat n)) (of_nat m) = fadd x (of_nat (n + m)).
Proof.
  unfold of_nat. rewrite plus_INR. destruct x; cbn; try reflexivity.
  f_equal. lra.
Qed.

Lemma accept_test_upos pa E w :
  wp (accept_test pa)
     (fun _ w' =>
        upos (rng w') = upos (rng w) + (if flt (Fin 0) pa then 0 else 1))
     E w.
Proof.
  unfold accept_test. destruct (flt (Fin 0) pa).
  - apply wp_ret. lia.
  - apply wp_bind, wp_rand, wp_ret. cbn. lia.
Qed.

(** One trial: a uniform number is drawn only when [paccept > 0] fails;
    the attempted counters of the rungs [i] and [i - 1] go up by one,
    and the accepted counters of these rungs do when the trial is
    accepted. *)
Lemma swap_trial_effect p lnprob logl i dbeta w P Q L E :
  sampler_wf (self w) ->
  heap w !! p = Some P -> heap w !! lnprob = Some Q ->
  heap w !! logl = Some L ->
  shape P = [ntemps (self w); nwalkers (self w); dim (self w)] ->
  shape Q = [ntemps (self w); nwalkers (self w)] ->
  shape L = [ntemps (self w); nwalkers (self w)] ->
  lnprob <> logl ->
  1 <= i < ntemps (self w) -> 0 < nwalkers (self w) ->
  wp (swap_trial p lnprob logl i dbeta)
     (fun _ w' =>
        upos (rng w')
        = upos (rng w)
          + (if flt (Fin 0) (trial_paccept i dbeta L w) then 0 else 1)
        /\ (forall r,
              data (nswap (self w')) [r]
              = fadd (data (nswap (self w)) [r])
                     (of_nat (if (i =? r) || (i - 1 =? r) then 1 else 0)))
        /\ (forall r,
              data (nswap_accepted (self w')) [r]
              = fadd (data (nswap_accepted (self w)) [r])
                     (of_nat (if trial_accepted i dbeta L w
                                 && ((i =? r) || (i - 1 =? r))
                              then 1 else 0))))
     E w.
Proof.
  intros (Sb & Sn & Sa) HP HQ HL SP SQ SL Hne Hi Hnw.
  assert (Hii : trial_ii w < nwalkers (self w))
    by (apply Nat.mod_upper_bound; lia).
  assert (Hjj : trial_jj w < nwalkers (self w))
    by (apply Nat.mod_upper_bound; lia).
  assert (Bump : forall (f : list nat -> float) (r : nat),
            (if decide ([r] = [i - 1])
             then fadd (if decide ([i - 1] = [i]) then fadd (f [i]) (Fin 1)
                        else f [i - 1])
                       (Fin 1)
             else if decide ([r] = [i]) then fadd (f [i]) (Fin 1) else f [r])
            = fadd (f [r])
                   (of_nat (if (i =? r) || (i - 1 =? r) then 1 else 0))).
  { intros f r.
    destruct (decide ([i - 1] = [i])) as [Heq|_]; [injection Heq; lia |].
    destruct (decide ([r] = [i - 1])) as [Heq|Hn1].
    - injection Heq as ->. rewrite Nat.eqb_refl, orb_true_r. reflexivity.
    - destruct (Nat.eqb_spec (i - 1) r) as [<-|_]; [congruence |].
      rewrite orb_false_r.
      destruct (decide ([r] = [i])) as [Heq|Hn2].
      + injection Heq as ->. rewrite Nat.eqb_refl. reflexivity.
      + destruct (Nat.eqb_spec i r) as [<-|_]; [congruence |].
        symmetry. apply fadd_0_r. }
  unfold swap_trial.
  apply wp_bind, wp_incr_nswap; [rewrite Sn; solve_bounds |].
  apply wp_bind, wp_incr_nswap; [cbn; rewrite Sn; solve_bounds |].
  apply wp_bind, wp_attr, wp_bind, wp_randint; [cbn; lia |].
  apply wp_bind, wp_attr, wp_bind, wp_randint; [cbn; lia |].
  cbn [self set_self set_rng rng set_nswap nwalkers ints ipos].
  fold (trial_ii w). fold (trial_jj w).
  apply wp_bind. eapply wp_getitem; [exact HL | rewrite SL; solve_bounds |].
  apply wp_bind. eapply wp_getitem; [exact HL | rewrite SL; solve_bounds |].
  fold (trial_paccept i dbeta L w).
  apply wp_bind.
  eapply wp_mono;
    [apply wp_conj; [apply (wp_accept_test _ E) | apply (accept_test_upos _ E)]
    | | exact (fun _ H => proj1 H)].
  cbn [heap trace self rng set_rng set_self set_heap set_trace
       ints ipos unifs upos].
  fold (trial_accepted i dbeta L w).
  intros acc w1 ((-> & Hh1 & Ht1 & Hs1 & Hi1 & Hu1 & Hp1) & Hup).
  apply wp_bind, wp_log.
  destruct (trial_accepted i dbeta L w) eqn:Eacc.
  - apply wp_bind, wp_incr_nswap_accepted;
      [cbn; rewrite Hs1; cbn; rewrite Sa; solve_bounds |].
    apply wp_bind, wp_incr_nswap_accepted;
      [cbn; rewrite Hs1; cbn; rewrite Sa; solve_bounds |].
    eapply wp_mono;
      [eapply (swap_walkers_wp p lnprob logl i _ _ dbeta _ P Q L);
       cbn [heap set_heap set_self set_trace set_rng];
       rewrite ?Hh1; eauto | | exact (fun _ H => H)].
    cbn [heap set_heap set_self set_trace set_rng rng trace self].
    intros u w' (Hr & Ht & Hs & _).
    rewrite Hr, Hs, Hs1.
    cbn [nswap nswap_accepted set_nswap set_nswap_accepted data].
    split; [exact Hup |]. split.
    + intros r. apply (Bump (data (nswap (self w)))).
    + intros r. cbn [andb]. apply (Bump (data (nswap_accepted (self w)))).
  - apply wp_ret.
    cbn [heap set_heap set_self set_trace set_rng rng trace self].
    rewrite Hs1.
    cbn [nswap nswap_accepted set_nswap set_nswap_accepted data].
    split; [exact Hup |]. split.
    + intros r. apply (Bump (data (nswap (self w)))).
    + intros r. cbn [andb]. symmetry. apply fadd_0_r.
Qed.

Lemma count_events_app f t1 t2 :
  count_events f (t1 ++ t2) = count_events f t1 + count_events f t2.
Proof.
  induction t1 as [|e t1 IH]; cbn [app count_events]; [reflexivity |].
  rewrite IH. lia.
Qed.

Lemma count_events_le f t : count_events f t <= length t.
Proof.
  induction t as [|e t IH]; cbn [count_events length]; [lia |].
  destruct (f e); lia.
Qed.

Lemma count_events_mono (f g : event -> bool) t :
  (forall e, f e = true -> g e = true) ->
  count_events f t <= count_events g t.
Proof.
  intros Hfg. induction t as [|e t IH]; cbn [count_events]; [lia |].
  destruct (f e) eqn:Ef; [rewrite (Hfg e Ef); lia |].
  destruct (g e); lia.
Qed.

(** The whole exchange, as the sum of its trials. *)
Lemma temperature_swaps_effect p lnprob logl w E :
  state_wf w p lnprob logl ->
  wp (_temperature_swaps p lnprob logl)
     (fun _ w' =>
        exists trials,
          trace w' = trace w ++ EvExchange :: trials
          /\ map event_boundary trials
             = map Some (swap_schedule (ntemps (self w)) (nwalkers (self w)))
          /\ ints (rng w') = ints (rng w) /\ unifs (rng w') = unifs (rng w)
          /\ ipos (rng w') = ipos (rng w) + 2 * length trials
          /\ upos (rng w')
             = upos (rng w) + count_events draws_uniform trials
          /\ (forall r,
                data (nswap (self w')) [r]
                = fadd (data (nswap (self w)) [r])
                       (of_nat (count_events (trial_at r) trials)))
          /\ (forall r,
                data (nswap_accepted (self w')) [r]
                = fadd (data (nswap_accepted (self w)) [r])
                       (of_nat (count_events (accepted_at r) trials))))
     E w.
Proof.
  intros Hwf.
  set (Post := fun (_ : loc * loc * loc) (w' : world) => _).
  unfold wp. rewrite temperature_swaps_run by apply Hwf.
  change (wp (log EvExchange ;;
              for_each (swap_schedule (ntemps (self w)) (nwalkers (self w)))
                (fun i => swap_trial p lnprob logl i (dbeta_at (self w) i)) ;;
              ret (p, lnprob, logl)) Post E w).
  apply wp_bind, wp_log, wp_bind.
  set (nt := ntemps (self w)). set (nw := nwalkers (self w)).
  pose (I := fun (pre : list nat) (w' : world) =>
    same_but_counters (self w) (self w')
    /\ heap_evolves [p; lnprob; logl] (heap w) (heap w')
    /\ exists trials,
         trace w' = trace w ++ EvExchange :: trials
         /\ map event_boundary trials = map Some pre
         /\ ints (rng w') = ints (rng w) /\ unifs (rng w') = unifs (rng w)
         /\ ipos (rng w') = ipos (rng w) + 2 * length trials
         /\ upos (rng w') = upos (rng w) + count_events draws_uniform trials
         /\ (forall r,
               data (nswap (self w')) [r]
               = fadd (data (nswap (self w)) [r])
                      (of_nat (count_events (trial_at r) trials)))
         /\ (forall r,
               data (nswap_accepted (self w')) [r]
               = fadd (data (nswap_accepted (self w)) [r])
                      (of_nat (count_events (accepted_at r) trials)))).
  eapply wp_mono;
    [apply (wp_for_each_prefix _ _ I E) | | exact (fun _ H => H)].
  - (* before the first trial *)
    split; [apply same_but_counters_refl |].
    split; [apply heap_evolves_refl |].
    exists []. cbn [set_trace trace rng self count_events length of_nat INR].
    split; [reflexivity |]. split; [reflexivity |].
    split; [reflexivity |]. split; [reflexivity |].
    split; [lia |]. split; [lia |].
    split; intros r; symmetry; apply fadd_0_r.
  - (* one trial *)
    intros pre i post w1 Hl
      (S1 & H1 & trials & T1 & B1 & I1 & U1 & Ip1 & Up1 & N1 & A1).
    assert (Hin : In i (swap_schedule nt nw))
      by (rewrite Hl; apply in_or_app; right; left; reflexivity).
    unfold swap_schedule in Hin. apply in_flat_map in Hin.
    destruct Hin as (b & Hb & Hrep).
    assert (Hnw : 0 < nw) by (destruct nw; [destruct Hrep | lia]).
    apply repeat_spec in Hrep. subst b.
    apply in_rev, in_seq in Hb.
    pose proof (state_wf_transfer _ _ _ _ _ _ Hwf S1 H1) as Hwf1.
    pose proof S1 as (_ & _ & Ent & Enw & _).
    pose proof Hwf1 as (Hs1 & Hne & (P & HP & SP) & (Q & HQ & SQ)
                        & (L & HL & SL)).
    eapply wp_mono;
      [apply wp_conj;
       [apply (swap_trial_wp p lnprob logl i (dbeta_at (self w) i) w1 P Q L E)
       | apply (swap_trial_effect p lnprob logl i (dbeta_at (self w) i)
                  w1 P Q L E)];
       try assumption; rewrite ?Ent, ?Enw; fold nt nw; lia
      | | exact (fun _ H => proj1 H)].
    cbn beta.
    intros u w2 ((T2 & I2 & U2 & Ip2 & S2 & Hlen & Hfr & _
                  & P' & Q' & L' & HP' & HQ' & HL' & SP' & SQ' & SL' & _)
                 & Up2 & N2 & A2).
    split; [eapply same_but_counters_trans; eassumption |].
    split.
    { eapply heap_evolves_trans; [exact H1 |].
      split; [lia |]. split.
      - intros l a Ha.
        destruct (decide (l = p)) as [->|Np].
        { exists P'. split; [exact HP' |]. congruence. }
        destruct (decide (l = lnprob)) as [->|Nq].
        { exists Q'. split; [exact HQ' |]. congruence. }
        destruct (decide (l = logl)) as [->|Nl].
        { exists L'. split; [exact HL' |]. congruence. }
        exists a. rewrite Hfr by assumption. split; [exact Ha | reflexivity].
      - intros l _ Hn. apply Hfr; intros ->; apply Hn; cbn; auto. }
    exists (trials ++ [EvTrial i (trial_ii w1) (trial_jj w1)
                         (trial_paccept i (dbeta_at (self w) i) L w1)
                         (trial_accepted i (dbeta_at (self w) i) L w1)]).
    split. { rewrite T2, T1, <- app_assoc. reflexivity. }
    split. { rewrite !map_app, B1. reflexivity. }
    split; [congruence |]. split; [congruence |].
    rewrite length_app, !count_events_app.
    cbn [length count_events trial_at accepted_at draws_uniform].
    split; [lia |].
    split.
    { rewrite Up2, Up1.
      destruct (flt (Fin 0) (trial_paccept i (dbeta_at (self w) i) L w1));
        cbn [negb]; lia. }
    split.
    + intros r. rewrite N2, N1, fadd_of_nat_add, count_events_app.
      cbn [count_events trial_at]. do 2 f_equal.
      destruct ((i =? r) || (i - 1 =? r)); lia.
    + intros r. rewrite A2, A1, fadd_of_nat_add, count_events_app.
      cbn [count_events accepted_at]. do 2 f_equal.
      destruct (trial_accepted i (dbeta_at (self w) i) L w1 &&
                ((i =? r) || (i - 1 =? r))); lia.
  - cbn beta.
    intros u w1 (S1 & H1 & trials & T1 & B1 & I1 & U1 & Ip1 & Up1 & N1 & A1).
    apply wp_ret. exists trials. auto 10.
Qed.

Lemma count_events_boundaries (g : nat -> bool) (f : event -> bool)
    (trials : list event) (l : list nat) :
  (forall i ii jj pa acc, f (EvTrial i ii jj pa acc) = g i) ->
  map event_boundary trials = map Some l ->
  count_events f trials = list_sum (map (fun i => if g i then 1 else 0) l).
Proof.
  intros Hf. revert l.
  induction trials as [|e trials IH]; intros [|i l] H; cbn in H;
    try discriminate; [reflexivity |].
  injection H as He Hl. cbn [count_events map list_sum].
  destruct e; cbn in He; try discriminate. injection He as ->.
  rewrite Hf, (IH l Hl). reflexivity.
Qed.

Lemma list_sum_repeat (c n : nat) : list_sum (repeat c n) = n * c.
Proof.
  induction n as [|n IH]; [reflexivity |].
  change (c + list_sum (repeat c n) = S n * c). rewrite IH. lia.
Qed.

Lemma list_sum_schedule (h : nat -> nat) (nw : nat) (bl : list nat) :
  list_sum (map h (flat_map (fun i => repeat i nw) bl))
  = nw * list_sum (map h bl).
Proof.
  induction bl as [|i bl IH]; [cbn; lia |].
  cbn [flat_map map].
  change (list_sum (h i :: map h bl)) with (h i + list_sum (map h bl)).
  rewrite map_app, list_sum_app, IH, map_repeat, list_sum_repeat. lia.
Qed.

Lemma list_sum_rev (l : list nat) : list_sum (rev l) = list_sum l.
Proof.
  induction l as [|x l IH]; [reflexivity |].
  cbn [rev]. rewrite list_sum_app, IH.
  change (list_sum (x :: l)) with (x + list_sum l).
  change (list_sum [x]) with (x + 0). lia.
Qed.

Lemma boundaries_count (r m : nat) :
  list_sum (map (fun i => if (i =? r) || (i - 1 =? r) then 1 else 0)
                (seq 1 m))
  = (if (1 <=? r) && (r <=? m) then 1 else 0)
    + (if r + 1 <=? m then 1 else 0).
Proof.
  induction m as [|m IH].
  - cbn [seq map list_sum]. rewrite andb_comm.
    destruct (Nat.leb_spec 1 r), (Nat.leb_spec r 0), (Nat.leb_spec (r + 1) 0);
      cbn; lia.
  - rewrite seq_S, map_app, list_sum_app, IH. cbn [map list_sum Nat.add].
    destruct (Nat.eqb_spec (S m) r), (Nat.eqb_spec (S m - 1) r),
      (Nat.leb_spec 1 r), (Nat.leb_spec r m), (Nat.leb_spec r (S m)),
      (Nat.leb_spec (r + 1) m), (Nat.leb_spec (r + 1) (S m));
      cbn; lia.
Qed.

Lemma schedule_length (nt nw : nat) :
  length (swap_schedule nt nw) = nw * (nt - 1).
Proof.
  unfold swap_schedule.
  assert (G : forall bl : list nat,
            length (flat_map (fun i => repeat i nw) bl) = nw * length bl).
  { induction bl as [|i bl IH]; cbn [flat_map length]; [lia |].
    rewrite length_app, repeat_length, IH. lia. }
  rewrite G, length_rev, length_seq. reflexivity.
Qed.

Lemma schedule_attempts (nt nw r : nat) (trials : list event) :
  r < nt ->
  map event_boundary trials = map Some (swap_schedule nt nw) ->
  count_events (trial_at r) trials = nw * boundaries_of nt r.
Proof.
  intros Hr Hb.
  rewrite (count_events_boundaries
             (fun i => (i =? r) || (i - 1 =? r)) _ _ _ (fun _ _ _ _ _ => eq_refl)
             Hb).
  unfold swap_schedule.
  rewrite (list_sum_schedule (fun i => if (i =? r) || (i - 1 =? r)
                                       then 1 else 0)).
  rewrite map_rev, list_sum_rev, boundaries_count. unfold boundaries_of.
  f_equal.
  destruct (Nat.leb_spec 1 r), (Nat.leb_spec r (nt - 1)),
    (Nat.leb_spec (r + 1) (nt - 1)), (Nat.ltb_spec (r + 1) nt); cbn; lia.
Qed.

(** X7.  One exchange call counts, for every rung, the trials of the
    boundaries the rung takes part in: [nwalkers] attempts for the two
    end rungs and [2 * nwalkers] for the rungs between them (none at
    all for a single rung), and as many accepted swaps as there were
    accepted trials at these boundaries. *)
Theorem temperature_swaps_counts (p lnprob logl : loc) (w : world) :
  state_wf w p lnprob logl ->
  exists w' trials,
    _temperature_swaps p lnprob logl w = (w', Ok (p, lnprob, logl))
    /\ trace w' = trace w ++ EvExchange :: trials
    /\ forall r, r < ntemps (self w) ->
         count_events (trial_at r) trials
         = nwalkers (self w) * boundaries_of (ntemps (self w)) r
         /\ count_events (accepted_at r) trials
            <= count_events (trial_at r) trials
         /\ item (nswap (self w')) [r]
            = Ok (fadd (data (nswap (self w)) [r])
                       (of_nat (nwalkers (self w)
                                * boundaries_of (ntemps (self w)) r)))
         /\ item (nswap_accepted (self w')) [r]
            = Ok (fadd (data (nswap_accepted (self w)) [r])
                       (of_nat (count_events (accepted_at r) trials))).
Proof.
  intros Hwf.
  pose proof (wp_conj _ _ _ _ _ _
                (temperature_swaps_wp p lnprob logl w (fun _ => False) Hwf)
                (temperature_swaps_effect p lnprob logl w (fun _ => False)
                   Hwf)) as Hwp.
  unfold wp in Hwp.
  destruct (_temperature_swaps p lnprob logl w) as [w' [r|e]];
    [| destruct Hwp; contradiction].
  destruct Hwp as ((-> & Hsb & _) & trials & Ht & Hb & _ & _ & _ & _ & Hn & Ha).
  exists w', trials. split; [reflexivity |]. split; [exact Ht |].
  intros r Hr.
  pose proof (schedule_attempts _ _ r trials Hr Hb) as Hc.
  pose proof Hwf as ((_ & Sn & Sa) & _).
  pose proof Hsb as (_ & _ & _ & _ & _ & _ & _ & _ & _ & _ & Sn' & Sa').
  split; [exact Hc |].
  split.
  { apply count_events_mono. intros [] He; try discriminate.
    cbn in *. apply andb_true_iff in He. apply He. }
  unfold item. rewrite Sn', Sa', Sn, Sa. cbn [in_bounds].
  rewrite (proj2 (Nat.ltb_lt _ _) Hr). cbn [andb].
  rewrite Hn, Ha, Hc. split; reflexivity.
Qed.

Lemma temperature_swaps_counts_witness :
  exists w',
    fst (_temperature_swaps 0 1 2 world_swap) = w'
    /\ item (nswap (self w')) [0] = Ok (fadd (Fin 0) (of_nat 1))
    /\ item (nswap (self w')) [1] = Ok (fadd (Fin 0) (of_nat 1)).
Proof.
  destruct (temperature_swaps_counts 0 1 2 world_swap)
    as (w' & trials & Hrun & _ & H).
  - apply world0_wf; reflexivity.
  - exists w'. split; [rewrite Hrun; reflexivity |].
    split.
    + apply (H 0). cbn. lia.
    + apply (H 1). cbn. lia.
Defined.

(** X8.  One exchange call makes [nwalkers * (ntemps - 1)] trials.  It calls
    [randint] exactly twice per trial, and [rand] exactly once for each
    trial whose [paccept > 0] fails and never for the others; the
    values the generator holds in store are not changed. *)
Theorem temperature_swaps_draws (p lnprob logl : loc) (w : world) :
  state_wf w p lnprob logl ->
  exists w' trials,
    _temperature_swaps p lnprob logl w = (w', Ok (p, lnprob, logl))
    /\ trace w' = trace w ++ EvExchange :: trials
    /\ length trials = nwalkers (self w) * (ntemps (self w) - 1)
    /\ ipos (rng w')
       = ipos (rng w) + 2 * (nwalkers (self w) * (ntemps (self w) - 1))
    /\ upos (rng w') = upos (rng w) + count_events draws_uniform trials
    /\ count_events draws_uniform trials <= length trials
    /\ ints (rng w') = ints (rng w) /\ unifs (rng w') = unifs (rng w).
Proof.
  intros Hwf.
  pose proof (wp_conj _ _ _ _ _ _
                (temperature_swaps_wp p lnprob logl w (fun _ => False) Hwf)
                (temperature_swaps_effect p lnprob logl w (fun _ => False)
                   Hwf)) as Hwp.
  unfold wp in Hwp.
  destruct (_temperature_swaps p lnprob logl w) as [w' [r|e]];
    [| destruct Hwp; contradiction].
  destruct Hwp as ((-> & _) & trials & Ht & Hb & Hi & Hu & Hip & Hup & _).
  assert (Hlen : length trials = nwalkers (self w) * (ntemps (self w) - 1)).
  { rewrite <- schedule_length, <- (length_map event_boundary), Hb.
    apply length_map. }
  exists w', trials. split; [reflexivity |]. split; [exact Ht |].
  split; [exact Hlen |]. split; [rewrite Hip, Hlen; reflexivity |].
  split; [exact Hup |]. split; [apply count_events_le |].
  split; assumption.
Qed.

Lemma temperature_swaps_draws_witness :
  exists w',
    fst (_temperature_swaps 0 1 2 world_swap) = w'
    /\ ipos (rng w') = 2.
Proof.
  destruct (temperature_swaps_draws 0 1 2 world_swap)
    as (w' & trials & Hrun & _ & _ & Hip & _).
  - apply world0_wf; reflexivity.
  - exists w'. split; [rewrite Hrun; reflexivity | exact Hip].
Defined.

(** ** What an accepted swap does to the log-posteriors *)

Lemma swap_walkers_returns p lnprob logl i ii jj dbeta w P Q L :
  state_wf w p lnprob logl ->
  heap w !! p = Some P -> heap w !! lnprob = Some Q ->
  heap w !! logl = Some L ->
  1 <= i < ntemps (self w) ->
  ii < nwalkers (self w) -> jj < nwalkers (self w) ->
  exists w' P' Q' L',
    swap_walkers p lnprob logl i ii jj dbeta w = (w', Ok tt)
    /\ state_wf w' p lnprob logl
    /\ self w' = self w
    /\ heap w' !! p = Some P' /\ heap w' !! lnprob = Some Q'
    /\ heap w' !! logl = Some L'
    /\ swapped i ii jj dbeta P Q L P' Q' L'.
Proof.
  intros Hwf HP HQ HL Hi Hii Hjj.
  pose proof Hwf as (Hs & Hne & (P0 & HP0 & SP) & (Q0 & HQ0 & SQ)
                     & (L0 & HL0 & SL)).
  rewrite HP in HP0. injection HP0 as <-.
  rewrite HQ in HQ0. injection HQ0 as <-.
  rewrite HL in HL0. injection HL0 as <-.
  pose proof (swap_walkers_wp p lnprob logl i ii jj dbeta w P Q L _ _ _
                (fun _ => False) HP HQ HL SP SQ SL Hne Hi Hii Hjj) as Hwp.
  apply wp_returns in Hwp.
  destruct Hwp as ([] & w' & Hrun & _ & _ & Hself & _ & _
                   & P' & Q' & L' & HP' & HQ' & HL' & Hsw).
  exists w', P', Q', L'. split; [exact Hrun |].
  pose proof Hsw as (SP' & SQ' & SL' & _).
  split.
  { unfold state_wf, has_shape. rewrite Hself.
    split; [exact Hs |]. split; [exact Hne |].
    split; [exists P'; split; [exact HP' | congruence] |].
    split; [exists Q'; split; [exact HQ' | congruence] |].
    exists L'; split; [exact HL' | congruence]. }
  auto 10.
Qed.

(** X10.  A walker outside the support of the prior carries [-inf] as
    log-posterior and as log-likelihood.  When a trial at a boundary
    with [dbeta > 0] picks such a walker on the colder rung [i - 1]
    and a walker of finite log-likelihood on rung [i], [paccept] is
    [+inf], the swap is accepted without a uniform draw, and the
    log-posterior the walker gets on rung [i] is
    [-inf - dbeta * (-inf)], which is [nan]. *)
Theorem swap_outside_support_gives_nan (p lnprob logl : loc) (i : nat)
    (d l : R) (w : world) (Q L : ndarray) :
  state_wf w p lnprob logl ->
  heap w !! lnprob = Some Q -> heap w !! logl = Some L ->
  1 <= i < ntemps (self w) -> 0 < nwalkers (self w) ->
  (0 < d)%R ->
  data L [i; trial_ii w] = Fin l ->
  data L [i - 1; trial_jj w] = NInf ->
  data Q [i - 1; trial_jj w] = NInf ->
  exists w' Q' L',
    swap_trial p lnprob logl i (Fin d) w = (w', Ok tt)
    /\ trace w' = trace w ++ [EvTrial i (trial_ii w) (trial_jj w) PInf true]
    /\ upos (rng w') = upos (rng w)
    /\ heap w' !! lnprob = Some Q' /\ heap w' !! logl = Some L'
    /\ item L' [i; trial_ii w] = Ok NInf
    /\ item Q' [i; trial_ii w] = Ok NaN.
Proof.
  intros Hwf HQ HL Hi Hnw Hd Li Lj Qj.
  pose proof Hwf as (Hs & Hne & (P & HP & SP) & (Q0 & HQ0 & SQ)
                     & (L0 & HL0 & SL)).
  rewrite HQ in HQ0. injection HQ0 as <-.
  rewrite HL in HL0. injection HL0 as <-.
  assert (Hpa : trial_paccept i (Fin d) L w = PInf).
  { unfold trial_paccept. rewrite Li, Lj. cbn. unfold scale_inf.
    destruct (Req_dec_T d 0); [lra |].
    destruct (Rlt_dec 0 d); [reflexivity | contradiction]. }
  assert (Hacc : trial_accepted i (Fin d) L w = true).
  { unfold trial_accepted. rewrite Hpa. reflexivity. }
  pose proof (wp_conj _ _ _ _ _ _
                (swap_trial_wp p lnprob logl i (Fin d) w P Q L
                   (fun _ => False) Hs HP HQ HL SP SQ SL Hne Hi Hnw)
                (swap_trial_effect p lnprob logl i (Fin d) w P Q L
                   (fun _ => False) Hs HP HQ HL SP SQ SL Hne Hi Hnw)) as Hwp.
  unfold wp in Hwp.
  destruct (swap_trial p lnprob logl i (Fin d) w) as [w' [[]|e]];
    [| destruct Hwp; contradiction].
  destruct Hwp as ((Ht & _ & _ & _ & _ & _ & _ & _ & P' & Q' & L'
                    & _ & HQ' & HL' & _ & SQ' & SL' & Hsw) & Hup & _).
  destruct (Hsw Hacc) as (_ & _ & _ & _ & DL & DQ).
  exists w', Q', L'. split; [reflexivity |].
  split; [rewrite Ht, Hpa, Hacc; reflexivity |].
  split; [rewrite Hup, Hpa; cbn; lia |].
  split; [exact HQ' |]. split; [exact HL' |].
  assert (Hii : trial_ii w < nwalkers (self w))
    by (apply Nat.mod_upper_bound; lia).
  assert (Hnq : [i; trial_ii w] <> [i - 1; trial_jj w])
    by (intros [= H _]; lia).
  unfold item. rewrite SL', SQ', SL, SQ. cbn [in_bounds].
  rewrite !(proj2 (Nat.ltb_lt _ _)) by lia. cbn [andb].
  rewrite DL, DQ.
  destruct (decide ([i; trial_ii w] = [i - 1; trial_jj w])); [contradiction |].
  destruct (decide ([i; trial_ii w] = [i; trial_ii w])); [| contradiction].
  rewrite Lj, Qj. cbn. unfold scale_inf.
  destruct (Req_dec_T d 0); [lra |].
  destruct (Rlt_dec 0 d); [| contradiction].
  split; reflexivity.
Qed.

Lemma swap_outside_support_gives_nan_witness :
  exists w' Q',
    swap_trial 0 1 2 1 (Fin (1 / 2)) world_outside = (w', Ok tt)
    /\ trace w' = [EvTrial 1 0 0 PInf true]
    /\ heap w' !! 1 = Some Q'
    /\ item Q' [1; 0] = Ok NaN.
Proof.
  destruct (swap_outside_support_gives_nan 0 1 2 1 (1 / 2) 2 world_outside
              lnprob_outside lnlike_outside)
    as (w' & Q' & L' & Hrun & Ht & _ & HQ' & _ & _ & Hnan).
  - apply world0_wf; reflexivity.
  - reflexivity.
  - reflexivity.
  - cbn. lia.
  - cbn. lia.
  - lra.
  - reflexivity.
  - reflexivity.
  - reflexivity.
  - exists w', Q'. auto.
Defined.

(** ** Indices below a prefix *)

Lemma starts_with_split (pre k : list nat) :
  starts_with pre k = true -> pre ++ skipn (length pre) k = k.
Proof.
  revert k. induction pre as [|a pre IH]; intros k H; [reflexivity |].
  destruct k as [|b k]; cbn in H; [discriminate |].
  apply andb_true_iff in H. destruct H as [Hab Hk].
  apply Nat.eqb_eq in Hab. subst b. cbn [length skipn app].
  rewrite (IH k Hk). reflexivity.
Qed.

(** ** Resetting the sampler *)

Lemma same_but_samplers_refl s : same_but_samplers s s.
Proof. repeat split; reflexivity. Qed.

(** The loop of line 119, as far as its first [j] rounds. *)
Lemma reset_loop_wp f (j : nat) (w : world) E :
  j <= length (samplers (self w)) ->
  (forall k s, k < j -> samplers (self w) !! k = Some s ->
     exists s', f s = Ok s') ->
  wp (for_each (range j) (reset_sampler f))
     (fun _ w' =>
        heap w' = heap w /\ rng w' = rng w /\ trace w' = trace w
        /\ same_but_samplers (self w) (self w')
        /\ reset_upto f j (samplers (self w)) (samplers (self w')))
     E w.
Proof.
  intros Hj Hok.
  pose (I := fun (n : nat) (w' : world) =>
    heap w' = heap w /\ rng w' = rng w /\ trace w' = trace w
    /\ same_but_samplers (self w) (self w')
    /\ reset_upto f n (samplers (self w)) (samplers (self w'))).
  apply (wp_for_range j (reset_sampler f) I E).
  - repeat split; try reflexivity.
    + intros k s Hk. lia.
  - intros n w1 Hn (H1 & R1 & T1 & S1 & Hlen & Hdone & Hrest).
    unfold reset_sampler. apply wp_bind, wp_attr.
    assert (Hlk : exists s, samplers (self w) !! n = Some s)
      by (apply lookup_lt_is_Some; lia).
    destruct Hlk as [s Hs].
    rewrite (Hrest n (Nat.le_refl n)), Hs.
    destruct (Hok n s Hn Hs) as [s' Hs'].
    apply wp_bind. eapply wp_lift; [exact Hs' |].
    apply wp_update_self. unfold I.
    cbn [heap rng trace self set_self set_samplers samplers].
    split; [exact H1 |]. split; [exact R1 |]. split; [exact T1 |].
    split. { destruct S1 as (? & ? & ? & ? & ? & ? & ? & ? & ? & ? & ?).
             repeat split; assumption. }
    split; [rewrite length_insert; exact Hlen |].
    split.
    + intros k s0 Hk Hs0. destruct (decide (k = n)) as [->|Hne].
      * exists s'. rewrite Hs in Hs0. injection Hs0 as <-.
        split; [exact Hs' |].
        apply list_lookup_insert_eq. rewrite Hlen.
        eapply lookup_lt_Some. exact Hs.
      * destruct (Hdone k s0) as (s0' & F0 & L0); [lia | exact Hs0 |].
        exists s0'. split; [exact F0 |].
        rewrite list_lookup_insert_ne by congruence. exact L0.
    + intros k Hk. rewrite list_lookup_insert_ne by lia.
      apply Hrest. lia.
Qed.

Lemma reset_runs (f : EnsembleSampler -> res EnsembleSampler) (w : world) :
  (forall s, In s (samplers (self w)) -> exists s', f s = Ok s') ->
  exists w',
    reset f w = (w', Ok tt)
    /\ chain_empty (self w')
    /\ nswap (self w') = np_zeros [ntemps (self w)]
    /\ nswap_accepted (self w') = np_zeros [ntemps (self w)]
    /\ reset_upto f (length (samplers (self w)))
         (samplers (self w)) (samplers (self w'))
    /\ logl (self w') = logl (self w) /\ logp (self w') = logp (self w)
    /\ ntemps (self w') = ntemps (self w)
    /\ nwalkers (self w') = nwalkers (self w)
    /\ dim (self w') = dim (self w)
    /\ _betas (self w') = _betas (self w)
    /\ heap w' = heap w /\ rng w' = rng w /\ trace w' = trace w.
Proof.
  intros Hok.
  assert (Hwp : wp (reset f)
    (fun _ w' =>
       chain_empty (self w')
       /\ nswap (self w') = np_zeros [ntemps (self w)]
       /\ nswap_accepted (self w') = np_zeros [ntemps (self w)]
       /\ reset_upto f (length (samplers (self w)))
            (samplers (self w)) (samplers (self w'))
       /\ logl (self w') = logl (self w) /\ logp (self w') = logp (self w)
       /\ ntemps (self w') = ntemps (self w)
       /\ nwalkers (self w') = nwalkers (self w)
       /\ dim (self w') = dim (self w)
       /\ _betas (self w') = _betas (self w)
       /\ heap w' = heap w /\ rng w' = rng w /\ trace w' = trace w)
    (fun _ => False) w).
  { unfold reset. apply wp_bind, wp_attr, wp_bind.
    eapply wp_mono;
      [apply (reset_loop_wp f _ w (fun _ => False) (Nat.le_refl _))
      | | exact (fun _ H => H)].
    - intros k s _ Hs. apply Hok. apply list_elem_of_In.
      eapply list_elem_of_lookup_2. exact Hs.
    - cbn beta.
      intros u w1 (H1 & R1 & T1
                   & (E1 & E2 & E3 & E4 & E5 & E6 & E7 & E8 & E9 & E10 & E11)
                   & Hup).
      apply wp_bind, wp_attr, wp_bind, wp_update_self, wp_bind, wp_attr,
        wp_bind, wp_update_self, wp_bind, wp_update_self, wp_bind,
        wp_update_self, wp_update_self.
      cbn. rewrite E3. split; [repeat split |].
      do 2 (split; [reflexivity |]). split; [exact Hup |].
      repeat split; try assumption; reflexivity. }
  apply wp_returns in Hwp.
  destruct Hwp as ([] & w' & Hrun & Hpost).
  exists w'. split; [exact Hrun | exact Hpost].
Qed.

(** X12.  [reset] succeeds when every ensemble sampler's own [reset] does.
    It leaves no chain (the properties [chain], [lnprobability] and
    [lnlikelihood] return [None]), counters of [ntemps] zeros (so that
    every swap acceptance fraction is [nan] again), every ensemble
    sampler reset, and ladder, callbacks, sizes, the caller's arrays
    and the random generator as they were. *)
Theorem reset_clears (f : EnsembleSampler -> res EnsembleSampler)
    (w : world) :
  (forall s, In s (samplers (self w)) -> exists s', f s = Ok s') ->
  exists w',
    reset f w = (w', Ok tt)
    /\ chain w' = (w', Ok None)
    /\ lnprobability w' = (w', Ok None)
    /\ lnlikelihood w' = (w', Ok None)
    /\ betas w' = (w', Ok (_betas (self w)))
    /\ nswap (self w') = np_zeros [ntemps (self w)]
    /\ nswap_accepted (self w') = np_zeros [ntemps (self w)]
    /\ (forall i, i < ntemps (self w) ->
          exists F, tswap_acceptance_fraction w' = (w', Ok F)
                    /\ item F [i] = Ok NaN)
    /\ Forall2 (fun s s' => f s = Ok s')
         (samplers (self w)) (samplers (self w'))
    /\ logl (self w') = logl (self w) /\ logp (self w') = logp (self w)
    /\ ntemps (self w') = ntemps (self w)
    /\ nwalkers (self w') = nwalkers (self w)
    /\ dim (self w') = dim (self w)
    /\ heap w' = heap w /\ rng w' = rng w /\ trace w' = trace w.
Proof.
  intros Hok.
  destruct (reset_runs f w Hok)
    as (w' & Hrun & (C1 & C2 & C3) & Hn & Ha
        & (Hlen & Hdone & _) & Hl & Hp & Hnt & Hnw & Hd & Hb
        & Hh & Hr & Ht).
  exists w'. split; [exact Hrun |].
  unfold chain, lnprobability, lnlikelihood, betas, attr.
  rewrite C1, C2, C3, Hb. do 4 (split; [reflexivity |]).
  split; [exact Hn |]. split; [exact Ha |].
  split.
  { intros i Hi.
    destruct (fraction_no_attempts w' (ntemps (self w)) i)
      as (F & HF & _ & HN); try (rewrite ?Hn, ?Ha; reflexivity); [exact Hi |].
    exists F. auto. }
  split.
  { apply Forall2_same_length_lookup_2; [symmetry; exact Hlen |].
    intros k s s' Hs Hs'.
    destruct (Hdone k s) as (s'' & F0 & L0);
      [eapply lookup_lt_Some; exact Hs | exact Hs |].
    congruence. }
  repeat split; assumption.
Qed.

Lemma reset_clears_witness :
  exists w',
    reset forget world_stored = (w', Ok tt)
    /\ chain w' = (w', Ok None)
    /\ nswap (self w') = np_zeros [1].
Proof.
  destruct (reset_clears forget world_stored)
    as (w' & Hrun & Hc & _ & _ & _ & Hn & _).
  - intros s _. eexists. reflexivity.
  - exists w'. auto.
Defined.

(** X13.  When the [reset] of the ensemble sampler of rung [j] raises, the
    exception leaves [PTSampler.reset] at once: the samplers of the
    rungs below [j] have been reset and the others have not, and the
    chain and the swap counters, which are cleared after the loop, are
    left as they were. *)
Theorem reset_stops_at_failure (f : EnsembleSampler -> res EnsembleSampler)
    (w : world) (j : nat) (s : EnsembleSampler) (e : exn) :
  samplers (self w) !! j = Some s -> f s = Raise e ->
  (forall k s0, k < j -> samplers (self w) !! k = Some s0 ->
     exists s', f s0 = Ok s') ->
  exists w',
    reset f w = (w', Raise e)
    /\ _chain (self w') = _chain (self w)
    /\ _lnprob (self w') = _lnprob (self w)
    /\ _lnlikelihood (self w') = _lnlikelihood (self w)
    /\ nswap (self w') = nswap (self w)
    /\ nswap_accepted (self w') = nswap_accepted (self w)
    /\ reset_upto f j (samplers (self w)) (samplers (self w')).
Proof.
  intros Hs Hf Hok.
  assert (Hj : j < length (samplers (self w)))
    by (eapply lookup_lt_Some; exact Hs).
  pose proof (reset_loop_wp f j w (fun _ => False) (Nat.lt_le_incl _ _ Hj) Hok)
    as Hwp.
  apply wp_returns in Hwp.
  destruct Hwp as ([] & w1 & Hrun & _ & _ & _
                   & (_ & _ & _ & _ & _ & C1 & C2 & C3 & _ & N1 & N2) & Hup).
  exists w1.
  split; [| repeat split; try assumption; apply Hup].
  unfold reset. unfold bind at 1. unfold attr at 1.
  unfold bind at 1.
  assert (Hsplit : range (length (samplers (self w)))
                   = range j ++ j :: seq (S j) (length (samplers (self w)) - S j)).
  { unfold range.
    replace (length (samplers (self w)))
      with (j + S (length (samplers (self w)) - S j)) at 1 by lia.
    rewrite seq_app. reflexivity. }
  rewrite Hsplit, for_each_app. unfold bind at 1.
  unfold returns in Hrun. rewrite Hrun. cbn [for_each].
  unfold bind at 1. unfold reset_sampler at 1. unfold bind at 1.
  unfold attr at 1.
  destruct Hup as (_ & _ & Hrest).
  rewrite (Hrest j (Nat.le_refl j)), Hs.
  unfold bind at 1. unfold lift at 1. rewrite Hf. reflexivity.
Qed.

Lemma reset_stops_at_failure_witness :
  exists w',
    reset refuse world_stored = (w', Raise (UserError 1))
    /\ _chain (self w') = Some (np_zeros [1; 1; 4; 1]).
Proof.
  destruct (reset_stops_at_failure refuse world_stored 0 mover (UserError 1))
    as (w' & Hrun & Hc & _).
  - reflexivity.
  - reflexivity.
  - intros k s0 Hk. lia.
  - exists w'. split; [exact Hrun | exact Hc].
Defined.

(** ** A sampler with a stored chain *)

Lemma sampler_stored_ready : sampler_ready sampler_stored.
Proof.
  unfold sampler_ready, sampler_wf. cbn.
  repeat split. repeat constructor. apply mover_ok.
Qed.

Lemma world_stored_args_ok : args_ok world_stored 0 None None.
Proof.
  split.
  - exists (np_zeros [1; 1; 1]). split; reflexivity.
  - split; intros x; eexists; reflexivity.
Qed.

(** ** [thin = 0] *)

(** The world the initial evaluation leaves. *)
Lemma sample_init_returns p0 lnprob0 lnlike0 w :
  sampler_wf (self w) -> args_ok w p0 lnprob0 lnlike0 ->
  exists w1 lp ll evs,
    sample_init p0 lnprob0 lnlike0 w = (w1, Ok (lp, ll))
    /\ (lp, ll) = working_arrays w lnprob0 lnlike0
    /\ self w1 = self w /\ rng w1 = rng w
    /\ heap_evolves [] (heap w) (heap w1)
    /\ trace w1 = trace w ++ evs /\ Forall is_callback evs
    /\ state_wf w1 p0 lp ll.
Proof.
  intros Hswf Hargs.
  pose proof (sample_init_wp p0 lnprob0 lnlike0 w (fun _ => False) Hswf Hargs)
    as Hwp.
  apply wp_returns in Hwp.
  destruct Hwp as ([lp ll] & w1 & Hrun & Hr & S1 & R1 & H1 & Hne & HQ1 & HL1
                   & evs & T1 & F1).
  cbn [fst snd] in Hne, HQ1, HL1.
  exists w1, lp, ll, evs. split; [exact Hrun |]. split; [exact Hr |].
  split; [exact S1 |]. split; [exact R1 |]. split; [exact H1 |].
  split; [exact T1 |]. split; [exact F1 |].
  unfold state_wf. rewrite S1.
  split; [exact Hswf |]. split; [exact Hne |].
  split; [| split; assumption].
  destruct Hargs as [(P & HP & SP) _]. destruct H1 as (_ & Hsh & _).
  destruct (Hsh _ _ HP) as (P' & HP' & SP').
  exists P'. split; [exact HP' | congruence].
Qed.

(** X15.  With storage and [thin = 0], [iterations / thin] raises
    [ZeroDivisionError] before the first iteration: by then the initial
    log-posteriors have been computed (when they were not given), but no
    rung has been advanced, nothing has been yielded, and the sampler
    object, its chain included, is as it was. *)
Theorem sample_thin_zero_storing (k : nat) (p0 : loc)
    (lnprob0 lnlike0 : option loc) (iterations : nat) (w : world) :
  sampler_wf (self w) -> args_ok w p0 lnprob0 lnlike0 ->
  exists w' evs,
    sample_upto k p0 lnprob0 lnlike0 iterations 0 true w
    = (w', Raise ZeroDivisionError)
    /\ self w' = self w /\ rng w' = rng w
    /\ heap_evolves [] (heap w) (heap w')
    /\ trace w' = trace w ++ evs /\ Forall is_callback evs.
Proof.
  intros Hswf Hargs.
  destruct (sample_init_returns p0 lnprob0 lnlike0 w Hswf Hargs)
    as (w1 & lp & ll & evs & Hrun & _ & S1 & R1 & H1 & T1 & F1 & _).
  exists w1, evs. split; [| auto].
  unfold sample_upto, sample_prologue, bind. rewrite Hrun.
  reflexivity.
Qed.

Lemma sample_thin_zero_storing_witness :
  exists w',
    sample_upto 1 0 None None 3 0 true world1 = (w', Raise ZeroDivisionError)
    /\ self w' = sampler1.
Proof.
  destruct (sample_thin_zero_storing 1 0 None None 3 world1)
    as (w' & evs & Hrun & Hs & _).
  - apply sampler1_ready.
  - exact world1_args_ok.
  - exists w'. split; [exact Hrun | exact Hs].
Defined.

(** X16.  Without storage and with [thin = 0], the exception comes from
    [(i + 1) % thin] in the first iteration: every rung has been
    advanced once and the exchange has run, in the caller's arrays, but
    nothing has been yielded; the chain is as it was. *)
Theorem sample_thin_zero_not_storing (k : nat) (p0 : loc)
    (lnprob0 lnlike0 : option loc) (iterations : nat) (w : world) :
  sampler_ready (self w) -> args_ok w p0 lnprob0 lnlike0 ->
  1 <= k -> 1 <= iterations ->
  exists w' evs trials,
    sample_upto k p0 lnprob0 lnlike0 iterations 0 false w
    = (w', Raise ZeroDivisionError)
    /\ trace w' = trace w ++ evs ++ map EvAdvance (range (ntemps (self w)))
                  ++ EvExchange :: trials
    /\ Forall is_callback evs
    /\ map event_boundary trials
       = map Some (swap_schedule (ntemps (self w)) (nwalkers (self w)))
    /\ yields (evs ++ map EvAdvance (range (ntemps (self w)))
                   ++ EvExchange :: trials) = []
    /\ samplers (self w') = map called (samplers (self w))
    /\ _chain (self w') = _chain (self w)
    /\ _lnprob (self w') = _lnprob (self w)
    /\ _lnlikelihood (self w') = _lnlikelihood (self w).
Proof.
  intros Hready Hargs Hk Hit.
  pose proof Hready as (Hswf & _).
  destruct (sample_init_returns p0 lnprob0 lnlike0 w Hswf Hargs)
    as (w1 & lp & ll & evs & Hrun & _ & S1 & R1 & H1 & T1 & F1 & Hwf1).
  assert (Hready1 : sampler_ready (self w1)) by (rewrite S1; exact Hready).
  pose proof (advance_all_wp p0 lp ll w1 (fun _ => False) Hwf1 Hready1) as Ha.
  apply wp_returns in Ha.
  destruct Ha as ([] & w2 & Hrun2 & S2 & H2 & T2 & R2).
  assert (St2 : same_static (self w1) (self w2)).
  { rewrite S2. repeat split. }
  pose proof (state_wf_static _ _ _ _ _ _ Hwf1 St2 H2) as Hwf2.
  pose proof (temperature_swaps_wp p0 lp ll w2 (fun _ => False) Hwf2) as Hx.
  apply wp_returns in Hx.
  destruct Hx as (r & w3 & Hrun3 & -> & S3 & H3 & trials & T3 & B3).
  assert (Ent : ntemps (self w2) = ntemps (self w)) by (rewrite S2, S1; reflexivity).
  assert (Enw : nwalkers (self w2) = nwalkers (self w)) by (rewrite S2, S1; reflexivity).
  exists w3, evs, trials. split.
  { unfold sample_upto, sample_prologue.
    destruct k as [|k]; [lia |]. destruct iterations as [|n]; [lia |].
    unfold range. cbn [seq firstn for_fold].
    unfold bind at 1. unfold bind at 1. unfold bind at 1.
    rewrite Hrun. unfold ret. unfold bind at 1. unfold sample_step.
    cbn [l_p l_lnprob l_logl l_isave].
    unfold bind at 1. unfold attr at 1. unfold bind at 1.
    unfold returns in Hrun2, Hrun3. rewrite Hrun2.
    unfold bind at 1. rewrite Hrun3. reflexivity. }
  split.
  { rewrite T3, T2, T1, S1, <- !app_assoc. reflexivity. }
  split; [exact F1 |].
  split; [rewrite <- Ent, <- Enw; exact B3 |].
  split.
  { rewrite yields_app. destruct (callbacks_silent evs F1) as [_ ->].
    cbn [app].
    destruct (round_silent (ntemps (self w)) trials _ [] B3) as [_ Hy].
    rewrite app_nil_r in Hy. exact Hy. }
  destruct S3 as (_ & _ & _ & _ & _ & C1 & C2 & C3 & _ & Hss & _).
  rewrite Hss, C1, C2, C3, S2, S1. cbn. auto.
Qed.

Lemma sample_thin_zero_not_storing_witness :
  exists w' evs trials,
    sample_upto 1 0 None None 3 0 false world1
    = (w', Raise ZeroDivisionError)
    /\ trace w' = evs ++ [EvAdvance 0] ++ EvExchange :: trials.
Proof.
  destruct (sample_thin_zero_not_storing 1 0 None None 3 world1)
    as (w' & evs & trials & Hrun & Ht & _).
  - apply sampler1_ready.
  - exact world1_args_ok.
  - lia.
  - lia.
  - exists w', evs, trials. split; [exact Hrun | exact Ht].
Defined.

(** ** Sampling without storage *)

(** X17.  With [storechain=False] the chain is never touched: however many
    iterations are run and whatever [thin >= 1] is, nothing is recorded
    and the three chain buffers are the objects they were, also when a
    chain had been stored before. *)
Theorem sample_without_storage (k : nat) (p0 : loc)
    (lnprob0 lnlike0 : option loc) (iterations thin : nat) (w : world) :
  sampler_ready (self w) -> args_ok w p0 lnprob0 lnlike0 ->
  0 < thin -> k <= iterations ->
  exists w' l evs,
    sample_upto k p0 lnprob0 lnlike0 iterations thin false w = (w', Ok l)
    /\ trace w' = trace w ++ evs
    /\ records evs = []
    /\ length (yields evs) = k
    /\ _chain (self w') = _chain (self w)
    /\ _lnprob (self w') = _lnprob (self w)
    /\ _lnlikelihood (self w') = _lnlikelihood (self w).
Proof.
  intros Hready Hargs Hthin Hk.
  pose proof (sample_upto_wp k p0 lnprob0 lnlike0 iterations thin false 0 w
                (fun _ => False) Hready Hargs Hthin Hk) as Hwp.
  apply wp_returns in Hwp; [| discriminate].
  destruct Hwp as (l & w' & Hrun & _ & _ & _ & _ & _
                   & (evs & Ht & Hy & Hrec) & C1 & C2 & C3).
  exists w', l, evs. split; [exact Hrun |]. split; [exact Ht |].
  split; [exact Hrec |]. split; [rewrite Hy; apply repeat_length |].
  auto.
Qed.

Lemma sample_without_storage_witness :
  exists w' l,
    sample_upto 3 0 None None 3 2 false world_stored = (w', Ok l)
    /\ _chain (self w') = Some (np_zeros [1; 1; 4; 1]).
Proof.
  destruct (sample_without_storage 3 0 None None 3 2 world_stored)
    as (w' & l & evs & Hrun & _ & _ & _ & Hc & _).
  - exact sampler_stored_ready.
  - exact world_stored_args_ok.
  - lia.
  - lia.
  - exists w', l. split; [exact Hrun | exact Hc].
Defined.

(** ** The generator, one yield further *)

Lemma for_fold_app {A S} (l1 l2 : list A) (s : S) (body : S -> A -> M S) w :
  for_fold (l1 ++ l2) s body w
  = (s' <- for_fold l1 s body ;; for_fold l2 s' body) w.
Proof.
  revert s w. induction l1 as [|x l1 IH]; intros s w; cbn [for_fold app].
  - reflexivity.
  - unfold bind. destruct (body s x w) as [w' [s'|e]]; [| reflexivity].
    rewrite IH. reflexivity.
Qed.

Lemma sample_upto_S k p0 lnprob0 lnlike0 iterations thin storechain w :
  k < iterations ->
  sample_upto (S k) p0 lnprob0 lnlike0 iterations thin storechain w
  = (l <- sample_upto k p0 lnprob0 lnlike0 iterations thin storechain ;;
     sample_step thin storechain l k) w.
Proof.
  intros Hk. unfold sample_upto.
  rewrite !firstn_range by lia.
  unfold range. rewrite seq_S. cbn [Nat.add].
  unfold bind.
  destruct (sample_prologue p0 lnprob0 lnlike0 iterations thin storechain w)
    as [w1 [l|e]]; [| reflexivity].
  rewrite for_fold_app. unfold bind.
  destruct (for_fold (seq 0 k) l (sample_step thin storechain) w1)
    as [w2 [l2|e]]; [| reflexivity].
  cbn [for_fold]. unfold bind, ret.
  destruct (sample_step thin storechain l2 k w2) as [w3 [l3|e]]; reflexivity.
Qed.

(** One more round of the generator, from what [k] rounds left. *)
Lemma sample_next_round k p0 lnprob0 lnlike0 iterations thin n0 w :
  sampler_ready (self w) -> args_ok w p0 lnprob0 lnlike0 ->
  0 < thin -> k < iterations -> chain_state (self w) n0 ->
  exists w1 l1 w2 l2,
    sample_upto k p0 lnprob0 lnlike0 iterations thin true w = (w1, Ok l1)
    /\ sample_upto (S k) p0 lnprob0 lnlike0 iterations thin true w
       = (w2, Ok l2)
    /\ sample_progress p0 lnprob0 lnlike0 iterations thin true n0 k w l1 w1
    /\ sample_progress p0 lnprob0 lnlike0 iterations thin true n0 (S k)
         w l2 w2
    /\ chain_after (records_at thin true k) (n0 + k / thin)
         (n0 + iterations / thin) p0 (l_lnprob l1) (l_logl l1) (self w1) w2.
Proof.
  intros Hready Hargs Hthin Hk Hch.
  pose proof (sample_upto_wp k p0 lnprob0 lnlike0 iterations thin true n0 w
                (fun _ => False) Hready Hargs Hthin (Nat.lt_le_incl _ _ Hk)
                (fun _ => Hch)) as H1.
  apply wp_returns in H1. destruct H1 as (l1 & w1 & Hrun1 & Hp1).
  pose proof (sample_upto_wp (S k) p0 lnprob0 lnlike0 iterations thin true n0
                w (fun _ => False) Hready Hargs Hthin Hk (fun _ => Hch))
    as H2.
  apply wp_returns in H2. destruct H2 as (l2 & w2 & Hrun2 & Hp2).
  exists w1, l1, w2, l2.
  split; [exact Hrun1 |]. split; [exact Hrun2 |].
  split; [exact Hp1 |]. split; [exact Hp2 |].
  pose proof Hp1 as (Hl1 & _ & Hr1 & Hwf1 & _ & _ & Hcs1 & _).
  assert (Hwf1' : state_wf w1 (l_p l1) (l_lnprob l1) (l_logl l1))
    by (rewrite Hl1; exact Hwf1).
  pose proof (sample_step_wp thin true l1 k (n0 + iterations / thin) w1
                (fun _ => False) Hwf1' Hr1 Hthin) as Hs.
  unfold returns in Hrun1, Hrun2.
  rewrite sample_upto_S in Hrun2 by exact Hk.
  unfold bind in Hrun2. rewrite Hrun1 in Hrun2.
  unfold wp in Hs. rewrite Hrun2 in Hs.
  destruct Hs as (_ & _ & _ & _ & _ & Hafter).
  { intros Hrec. split; [exact Hcs1 |]. rewrite Hl1. cbn [l_isave].
    unfold records_at in Hrec. cbn [andb] in Hrec.
    apply Nat.eqb_eq in Hrec.
    pose proof (thin_slot_free thin k iterations Hthin Hk Hrec). lia. }
  rewrite Hl1 in Hafter. cbn [l_p l_isave l_lnprob l_logl] in Hafter.
  rewrite Hl1. exact Hafter.
Qed.

(** ** What a recorded step holds *)

(** X18.  In every iteration that records (the [(k+1)]-th of a call, with
    [(k + 1) % thin = 0]), what the slot [n0 + k / thin] of the three
    chain buffers holds after the iteration's yield is exactly what the
    three yielded arrays hold at that moment.  With [k + 1 = iterations]
    this is the state the call leaves in the caller's [p0]. *)
Theorem sample_records_yielded_state (k : nat) (p0 : loc)
    (lnprob0 lnlike0 : option loc) (iterations thin n0 : nat) (w : world) :
  sampler_ready (self w) -> args_ok w p0 lnprob0 lnlike0 ->
  0 < thin -> k < iterations -> chain_state (self w) n0 ->
  (k + 1) mod thin = 0 ->
  exists w' l P Q L C CQ CL,
    sample_upto (S k) p0 lnprob0 lnlike0 iterations thin true w = (w', Ok l)
    /\ heap w' !! p0 = Some P /\ heap w' !! l_lnprob l = Some Q
    /\ heap w' !! l_logl l = Some L
    /\ _chain (self w') = Some C /\ _lnprob (self w') = Some CQ
    /\ _lnlikelihood (self w') = Some CL
    /\ (forall i j x, data C [i; j; n0 + k / thin; x] = data P [i; j; x])
    /\ (forall i j, data CQ [i; j; n0 + k / thin] = data Q [i; j])
    /\ (forall i j, data CL [i; j; n0 + k / thin] = data L [i; j]).
Proof.
  intros Hready Hargs Hthin Hk Hch Hm.
  destruct (sample_next_round k p0 lnprob0 lnlike0 iterations thin n0 w
              Hready Hargs Hthin Hk Hch)
    as (w1 & l1 & w2 & l2 & _ & Hrun2 & Hp1 & Hp2 & Hafter).
  unfold records_at in Hafter. cbn [andb] in Hafter.
  rewrite (proj2 (Nat.eqb_eq _ _) Hm) in Hafter.
  destruct Hafter as (_ & P & Q & L & HP & HQ & HL
                      & (c & C & _ & HC & _ & DC)
                      & (cq & CQ & _ & HCQ & _ & DCQ)
                      & (cl & CL & _ & HCL & _ & DCL)).
  destruct Hp1 as (Hl1 & _). destruct Hp2 as (Hl2 & _).
  assert (E1 : l_lnprob l2 = l_lnprob l1) by (rewrite Hl1, Hl2; reflexivity).
  assert (E2 : l_logl l2 = l_logl l1) by (rewrite Hl1, Hl2; reflexivity).
  exists w2, l2, P, Q, L, C, CQ, CL.
  split; [exact Hrun2 |]. split; [exact HP |].
  split; [rewrite E1; exact HQ |]. split; [rewrite E2; exact HL |].
  split; [exact HC |]. split; [exact HCQ |]. split; [exact HCL |].
  split; [| split].
  - intros i j x. rewrite DC. cbn [lookup list_lookup].
    destruct (decide (Some (n0 + k / thin) = Some (n0 + k / thin)));
      [reflexivity | contradiction].
  - intros i j. rewrite DCQ. cbn [lookup list_lookup].
    destruct (decide (Some (n0 + k / thin) = Some (n0 + k / thin)));
      [reflexivity | contradiction].
  - intros i j. rewrite DCL. cbn [lookup list_lookup].
    destruct (decide (Some (n0 + k / thin) = Some (n0 + k / thin)));
      [reflexivity | contradiction].
Qed.

Lemma sample_records_yielded_state_witness :
  exists w' l P C,
    sample_upto 2 0 None None 5 2 true world1 = (w', Ok l)
    /\ heap w' !! 0 = Some P /\ _chain (self w') = Some C
    /\ forall i j x, data C [i; j; 0; x] = data P [i; j; x].
Proof.
  destruct (sample_records_yielded_state 1 0 None None 5 2 0 world1)
    as (w' & l & P & Q & L & C & CQ & CL & Hrun & HP & _ & _ & HC & _ & _
        & HD & _).
  - exact sampler1_ready.
  - exact world1_args_ok.
  - lia.
  - lia.
  - left. split; [repeat split | reflexivity].
  - reflexivity.
  - exists w', l, P, C. auto.
Defined.

(** ** The steps a call appends before its first iteration *)

Lemma sample_expand_zero iterations thin n0 w E :
  0 < thin -> chain_state (self w) n0 ->
  wp (sample_expand iterations thin)
     (fun _ w' => chain_zero_from n0 (self w')) E w.
Proof.
  intros Hthin Hch. unfold sample_expand.
  destruct (Nat.eqb_spec thin 0) as [|_]; [lia |].
  apply wp_bind, wp_attr, wp_bind, wp_attr, wp_bind, wp_attr, wp_bind, wp_attr.
  destruct Hch as [[(Hc & Hlp & Hll) ->]
                  | (c & lp & ll & Hc & Hlp & Hll & Sc & Slp & Sll)].
  - rewrite Hc.
    apply wp_bind, wp_update_self, wp_bind, wp_update_self, wp_bind,
      wp_update_self, wp_ret.
    cbn [self set_self set_chain set_lnprob set_lnlikelihood].
    unfold chain_zero_from, zero_from.
    cbn [_chain _lnprob _lnlikelihood set_chain set_lnprob set_lnlikelihood].
    repeat split; intros a [= <-] k s _ _; reflexivity.
  - rewrite Hc, Sc. cbn [lookup list_lookup].
    apply wp_bind. eapply wp_lift.
    { apply (grow_ok c _ n0 (iterations / thin));
        rewrite ?Sc; reflexivity. }
    apply wp_bind, wp_update_self, wp_bind, wp_attr.
    cbn [self set_self _lnprob set_chain]. rewrite Hlp.
    apply wp_bind. eapply wp_lift.
    { apply (grow_ok lp _ n0 (iterations / thin));
        rewrite ?Slp; reflexivity. }
    apply wp_bind, wp_update_self, wp_bind, wp_attr.
    cbn [self set_self _lnlikelihood set_chain set_lnprob]. rewrite Hll.
    apply wp_bind. eapply wp_lift.
    { apply (grow_ok ll _ n0 (iterations / thin));
        rewrite ?Sll; reflexivity. }
    apply wp_bind, wp_update_self, wp_ret.
    cbn [self set_self set_chain set_lnprob set_lnlikelihood].
    unfold chain_zero_from, zero_from.
    cbn [_chain _lnprob _lnlikelihood set_chain set_lnprob set_lnlikelihood].
    repeat split; intros a [= <-] k s Hk Hs; cbn [data]; rewrite Hk;
      rewrite (proj2 (Nat.ltb_ge _ _) Hs); reflexivity.
Qed.

Lemma recorded_zero_from isave v c c' :
  recorded isave v c c' -> zero_from isave c -> zero_from (isave + 1) c'.
Proof.
  intros (a & a' & -> & -> & _ & Hd) Hz b [= <-] k s Hk Hs.
  rewrite Hd, Hk.
  destruct (decide (Some s = Some isave)) as [[= ->]|]; [lia |].
  apply (Hz a eq_refl k s Hk). lia.
Qed.

(** The chain after [k] yields of a call with storage: the steps not
    yet recorded hold zeros. *)
Lemma sample_upto_zero_tail k p0 lnprob0 lnlike0 iterations thin n0 w :
  sampler_ready (self w) -> args_ok w p0 lnprob0 lnlike0 ->
  0 < thin -> k <= iterations -> chain_state (self w) n0 ->
  exists w' l,
    sample_upto k p0 lnprob0 lnlike0 iterations thin true w = (w', Ok l)
    /\ chain_zero_from (n0 + k / thin) (self w').
Proof.
  intros Hready Hargs Hthin Hk Hch. induction k as [|k IH].
  - pose proof (sample_upto_wp 0 p0 lnprob0 lnlike0 iterations thin true n0 w
                  (fun _ => False) Hready Hargs Hthin Hk (fun _ => Hch)) as H1.
    assert (H2 : wp (sample_upto 0 p0 lnprob0 lnlike0 iterations thin true)
                   (fun _ w' => chain_zero_from n0 (self w'))
                   (fun _ => False) w).
    { unfold sample_upto. cbn [firstn for_fold].
      apply wp_bind. unfold sample_prologue. apply wp_bind.
      eapply wp_mono;
        [apply (sample_init_wp p0 lnprob0 lnlike0 w (fun _ => False));
         [apply Hready | exact Hargs]
        | | exact (fun _ H => H)].
      cbn beta. intros [lp ll] w1 (_ & S1 & _).
      apply wp_bind.
      eapply wp_mono;
        [apply (sample_expand_zero iterations thin n0 w1 (fun _ => False)
                  Hthin)
        | | exact (fun _ H => H)].
      - rewrite S1. exact Hch.
      - cbn beta. intros isave w2 Hz. apply wp_ret, wp_ret. exact Hz. }
    pose proof (wp_conj _ _ _ _ _ _ H1 H2) as H. unfold wp in H.
    destruct (sample_upto 0 p0 lnprob0 lnlike0 iterations thin true w)
      as [w' [l|e]]; [| destruct H; contradiction].
    exists w', l. split; [reflexivity |].
    rewrite Nat.Div0.div_0_l, Nat.add_0_r. apply H.
  - destruct (IH (Nat.lt_le_incl _ _ Hk)) as (w1' & l1' & Hrun1' & Hz1).
    destruct (sample_next_round k p0 lnprob0 lnlike0 iterations thin n0 w
                Hready Hargs Hthin Hk Hch)
      as (w1 & l1 & w2 & l2 & Hrun1 & Hrun2 & _ & _ & Hafter).
    rewrite Hrun1 in Hrun1'. injection Hrun1' as <- <-.
    exists w2, l2. split; [exact Hrun2 |].
    replace (S k) with (k + 1) by lia.
    unfold records_at in Hafter. cbn [andb] in Hafter.
    destruct (Nat.eqb_spec ((k + 1) mod thin) 0) as [Hm|Hm].
    + destruct (thin_multiple thin k Hthin Hm) as [-> _].
      destruct Hafter as (_ & P & Q & L & _ & _ & _ & R1 & R2 & R3).
      destruct Hz1 as (Z1 & Z2 & Z3). rewrite Nat.add_assoc.
      repeat split; eapply recorded_zero_from; eassumption.
    + rewrite (thin_between thin k Hthin Hm).
      destruct Hafter as (C1 & C2 & C3). unfold chain_zero_from.
      rewrite C1, C2, C3. exact Hz1.
Qed.

(** ** The tempered posterior, walker by walker *)

Lemma PTPost_call_value fn x w lp ll :
  _logp fn x = Ok lp -> _logl fn x = Ok ll ->
  PTPost_call fn x w
  = (set_trace (trace w ++ post_events lp x) w,
     Ok (tempered (_beta fn) lp ll)).
Proof.
  intros Hp Hl. unfold PTPost_call, post_events, tempered, bind, log, lift, ret.
  cbn [trace set_trace]. rewrite Hp.
  destruct (feq lp NInf); [reflexivity |].
  cbn [trace set_trace]. rewrite Hl. unfold set_trace. cbn.
  rewrite <- app_assoc. reflexivity.
Qed.

Lemma for_map_posts fn (LP LL : ndarray -> float) xs w :
  (forall x, _logp fn x = Ok (LP x)) -> (forall x, _logl fn x = Ok (LL x)) ->
  for_map xs (PTPost_call fn) w
  = (set_trace (trace w ++ flat_map (fun x => post_events (LP x) x) xs) w,
     Ok (map (fun x => tempered (_beta fn) (LP x) (LL x)) xs)).
Proof.
  intros Hp Hl. revert w. induction xs as [|x xs IH]; intros w.
  - cbn [for_map flat_map map]. unfold ret. rewrite app_nil_r.
    destruct w; reflexivity.
  - cbn [for_map flat_map map]. unfold bind.
    rewrite (PTPost_call_value fn x w _ _ (Hp x) (Hl x)), IH.
    unfold ret, set_trace. cbn. rewrite <- app_assoc. reflexivity.
Qed.

Lemma array_of_list_entry {A} (g : A -> float) (h : nat -> A) (n k : nat) :
  k < n ->
  data (array_of_list (map g (map h (range n)))) [k] = g (h k).
Proof.
  intros Hk. unfold array_of_list, array1. cbn [data].
  rewrite nth_lookup, !list_lookup_fmap. unfold range.
  rewrite lookup_seq_lt by exact Hk. reflexivity.
Qed.

Lemma flat_map_range_S {A} (f : nat -> list A) (n : nat) :
  flat_map f (range (S n)) = flat_map f (range n) ++ f n.
Proof.
  unfold range. rewrite seq_S, flat_map_app. cbn [flat_map Nat.add].
  rewrite app_nil_r. reflexivity.
Qed.

(** ** Autocorrelation lengths *)

Lemma chain_series_ok (c : ndarray) (nt nw ns d i j : nat) :
  shape c = [nt; nw; ns; d] -> i < nt -> j < d ->
  exists x,
    chain_series (Some c) i j = Ok x
    /\ shape x = [nw; ns]
    /\ forall a b, data x [a; b] = data c [i; a; b; j].
Proof.
  intros Hs Hi Hj. unfold chain_series. rewrite Hs.
  rewrite (proj2 (Nat.ltb_lt _ _) Hi), (proj2 (Nat.ltb_lt _ _) Hj).
  cbn [andb]. eexists. split; [reflexivity |]. split; reflexivity.
Qed.

(** X21.  With the module [acor] at hand and a stored chain of [ns] steps,
    the property returns a matrix of shape [(ntemps, dim)] whose entry
    [(i, j)] is the first component of what [acor.acor] returns for the
    series [chain[i, :, :, j]], of shape [(nwalkers, ns)]: coordinate
    [j] of every walker of rung [i] at every stored step.  Nothing of
    the sampler is changed. *)
Theorem PTSampler_acor_spec (f : acor_module) (w : world) (c : ndarray)
    (ns : nat) :
  _chain (self w) = Some c ->
  shape c = [ntemps (self w); nwalkers (self w); ns; dim (self w)] ->
  (forall x, exists t, f x = Ok t) ->
  exists A,
    PTSampler_acor (Some f) w = (w, AcorRan (Ok A))
    /\ shape A = [ntemps (self w); dim (self w)]
    /\ forall i j, i < ntemps (self w) -> j < dim (self w) ->
         exists x tau m sg,
           chain_series (Some c) i j = Ok x
           /\ shape x = [nwalkers (self w); ns]
           /\ (forall a b, data x [a; b] = data c [i; a; b; j])
           /\ f x = Ok (tau, m, sg)
           /\ item A [i; j] = Ok tau.
Proof.
  intros Hc Sc Hf.
  set (nt := ntemps (self w)) in *. set (d := dim (self w)) in *.
  pose (entry := fun (i j : nat) (v : float) =>
    exists x tau m sg,
      chain_series (Some c) i j = Ok x
      /\ shape x = [nwalkers (self w); ns]
      /\ (forall a b, data x [a; b] = data c [i; a; b; j])
      /\ f x = Ok (tau, m, sg) /\ v = tau).
  pose (I := fun (i : nat) (A : ndarray) (w' : world) =>
    w' = w /\ shape A = [nt; d]
    /\ forall r j, r < i -> j < d -> entry r j (data A [r; j])).
  assert (Hwp : wp (acor_matrix f) (fun A w' => I nt A w') (fun _ => False) w).
  { unfold acor_matrix.
    apply wp_bind, wp_attr, wp_bind, wp_attr, wp_bind, wp_attr.
    fold nt d.
    apply (wp_for_fold_range nt _ _ I (fun _ => False)).
    - split; [reflexivity |]. split; [reflexivity |]. intros r j Hr. lia.
    - intros i A w1 Hi (-> & SA & VA).
      apply wp_bind, wp_attr. fold d.
      pose (J := fun (j : nat) (B : ndarray) (w' : world) =>
        w' = w /\ shape B = [nt; d]
        /\ (forall r j', r < i -> j' < d -> entry r j' (data B [r; j']))
        /\ (forall j', j' < j -> entry i j' (data B [i; j']))).
      eapply wp_mono;
        [apply (wp_for_fold_range d _ _ J (fun _ => False))
        | | exact (fun _ H => H)].
      + split; [reflexivity |]. split; [exact SA |]. split; [exact VA |].
        intros j' Hj'. lia.
      + intros j B w1 Hj (-> & SB & VB & WB).
        apply wp_bind, wp_attr. rewrite Hc.
        destruct (chain_series_ok c _ _ _ _ i j Sc Hi Hj)
          as (x & Hx & Sx & Dx).
        apply wp_bind. eapply wp_lift; [exact Hx |].
        destruct (Hf x) as [[[tau m] sg] Ht].
        apply wp_bind. eapply wp_lift; [exact Ht |].
        eapply wp_lift.
        { unfold set_item. rewrite SB. cbn [in_bounds].
          rewrite (proj2 (Nat.ltb_lt _ _) Hi), (proj2 (Nat.ltb_lt _ _) Hj).
          reflexivity. }
        unfold J. cbn [shape data].
        split; [reflexivity |]. split; [reflexivity |].
        split.
        * intros r j' Hr Hj'.
          destruct (decide ([r; j'] = [i; j])) as [[= -> ->]|_]; [lia |].
          apply VB; assumption.
        * intros j' Hj'.
          destruct (decide ([i; j'] = [i; j])) as [[= ->]|Hne].
          -- exists x, tau, m, sg. auto.
          -- apply WB. assert (j' <> j) by congruence. lia.
      + cbn beta. intros B w1 (-> & SB & VB & WB).
        split; [reflexivity |]. split; [exact SB |].
        intros r j Hr Hj. destruct (decide (r = i)) as [->|Hne].
        * apply WB. exact Hj.
        * apply VB; [lia | exact Hj]. }
  unfold wp in Hwp. unfold PTSampler_acor.
  destruct (acor_matrix f w) as [w' [A|e]]; [| contradiction].
  destruct Hwp as (-> & SA & VA).
  exists A. split; [reflexivity |]. split; [exact SA |].
  intros i j Hi Hj.
  destruct (VA i j Hi Hj) as (x & tau & m & sg & Hx & Sx & Dx & Ht & Hv).
  exists x, tau, m, sg. do 4 (split; [assumption |]).
  unfold item. rewrite SA. cbn [in_bounds].
  rewrite (proj2 (Nat.ltb_lt _ _) Hi), (proj2 (Nat.ltb_lt _ _) Hj).
  cbn [andb]. rewrite Hv. reflexivity.
Qed.

Lemma PTSampler_acor_spec_witness :
  exists A,
    PTSampler_acor (Some acor_one) world_stored
    = (world_stored, AcorRan (Ok A))
    /\ shape A = [1; 1]
    /\ item A [0; 0] = Ok (Fin 1).
Proof.
  destruct (PTSampler_acor_spec acor_one world_stored
              (np_zeros [1; 1; 4; 1]) 4)
    as (A & Hrun & SA & HA).
  - reflexivity.
  - reflexivity.
  - intros x. eexists. reflexivity.
  - exists A. split; [exact Hrun |]. split; [exact SA |].
    destruct (HA 0 0) as (x & tau & m & sg & _ & _ & _ & Ht & Hi);
      [cbn; lia | cbn; lia |].
    assert (tau = Fin 1) by (unfold acor_one in Ht; congruence).
    subst tau. exact Hi.
Defined.

Lemma for_fold_idle {A S} (l : list A) (s : S) (body : S -> A -> M S) w :
  (forall s x, body s x w = (w, Ok s)) ->
  for_fold l s body w = (w, Ok s).
Proof.
  intros Hb. induction l as [|x l IH]; [reflexivity |].
  cbn [for_fold]. unfold bind. rewrite Hb. exact IH.
Qed.

(** X22.  How the property fails, and when it does not look at the chain.
    Without the module [acor] the call raises [ImportError] whatever
    the sampler holds.  With the module, a sampler that has stored no
    chain raises [TypeError] at the first entry, [None] not being
    indexable; but when [ntemps] or [dim] is [0] there is no entry, the
    chain is not looked at, and the empty matrix of zeros is
    returned. *)
Theorem PTSampler_acor_edges :
  (forall w, PTSampler_acor None w = (w, AcorImportError))
  /\ (forall f w,
        _chain (self w) = None -> 0 < ntemps (self w) -> 0 < dim (self w) ->
        PTSampler_acor (Some f) w = (w, AcorRan (Raise TypeError)))
  /\ (forall f w,
        ntemps (self w) = 0 \/ dim (self w) = 0 ->
        PTSampler_acor (Some f) w
        = (w, AcorRan (Ok (np_zeros [ntemps (self w); dim (self w)])))).
Proof.
  split; [reflexivity |]. split.
  - intros f w Hc Hnt Hd. unfold PTSampler_acor, acor_matrix.
    unfold bind at 1. unfold attr at 1. unfold bind at 1. unfold attr at 1.
    unfold bind at 1. unfold attr at 1.
    destruct (ntemps (self w)) as [|nt]; [lia |].
    unfold range at 1. cbn [seq for_fold].
    unfold bind at 1. unfold bind at 1. unfold attr at 1.
    destruct (dim (self w)) as [|d]; [lia |].
    unfold range at 1. cbn [seq for_fold].
    unfold bind at 1. unfold bind at 1. unfold attr at 1. rewrite Hc.
    reflexivity.
  - intros f w Hz. unfold PTSampler_acor, acor_matrix.
    unfold bind at 1. unfold attr at 1. unfold bind at 1. unfold attr at 1.
    unfold bind at 1. unfold attr at 1.
    destruct Hz as [Hz | Hz].
    + rewrite Hz. reflexivity.
    + rewrite for_fold_idle; [reflexivity |].
      intros A i. unfold bind, attr. rewrite Hz. reflexivity.
Qed.

(** ** Exceptions inside [sample] *)

Lemma getsub_returns l pre c w a :
  heap w !! l = Some a ->
  length pre + c <= length (shape a) ->
  is_prefix_index (shape a) pre = true ->
  getsub l pre c w
  = (w, Ok (mkarr (skipn (length pre) (shape a)) (fun k => data a (pre ++ k)))).
Proof.
  intros Hl Hc Hb. unfold getsub, bind, deref, lift, subarray.
  rewrite Hl, Hb, (proj2 (Nat.leb_le _ _) Hc). reflexivity.
Qed.

(** The ensemble sampler of rung [0] raises when it is next called. *)
Lemma advance_first_raises p lnprob logl w s e :
  state_wf w p lnprob logl -> 0 < ntemps (self w) ->
  samplers (self w) !! 0 = Some s ->
  (forall x lp ll, es_sample s (es_calls s) x lp ll = Raise e) ->
  advance_rung p lnprob logl 0 w
  = (set_self (set_samplers (<[0 := called s]> (samplers (self w))) (self w))
       (set_trace (trace w ++ [EvAdvance 0]) w),
     Raise e).
Proof.
  intros (_ & _ & (P & HP & SP) & (Q & HQ & SQ) & (L & HL & SL)) Hnt Hs He.
  unfold advance_rung. unfold bind at 1. unfold attr at 1. rewrite Hs.
  unfold bind at 1.
  rewrite (getsub_returns p [0] 0 w P HP);
    [| rewrite SP; cbn; lia | rewrite SP; solve_bounds].
  unfold bind at 1.
  rewrite (getsub_returns lnprob [0] 0 w Q HQ);
    [| rewrite SQ; cbn; lia | rewrite SQ; solve_bounds].
  unfold bind at 1.
  rewrite (getsub_returns logl [0] 0 w L HL);
    [| rewrite SL; cbn; lia | rewrite SL; solve_bounds].
  unfold bind at 1. unfold log at 1. unfold bind at 1.
  unfold update_self at 1. unfold bind at 1. unfold lift at 1.
  rewrite He. reflexivity.
Qed.

(** X23.  An exception of an ensemble sampler reaches the caller of the
    generator as it is.  When the sampler of rung [0] raises in the
    first iteration, nothing has been yielded; but with storage the
    chain has already been extended: it is left with
    [iterations / thin] more steps, all of them zeros. *)
Theorem sample_advancer_failure (k : nat) (p0 : loc)
    (lnprob0 lnlike0 : option loc) (iterations thin n0 : nat) (w : world)
    (s : EnsembleSampler) (e : exn) :
  sampler_wf (self w) -> args_ok w p0 lnprob0 lnlike0 ->
  0 < thin -> 1 <= k -> 1 <= iterations ->
  chain_state (self w) n0 -> 0 < ntemps (self w) ->
  samplers (self w) !! 0 = Some s ->
  (forall x lp ll, es_sample s (es_calls s) x lp ll = Raise e) ->
  exists w' evs,
    sample_upto k p0 lnprob0 lnlike0 iterations thin true w = (w', Raise e)
    /\ trace w' = trace w ++ evs ++ [EvAdvance 0]
    /\ Forall is_callback evs
    /\ chain_shape (self w') (n0 + iterations / thin)
    /\ chain_zero_from n0 (self w')
    /\ samplers (self w') = <[0 := called s]> (samplers (self w)).
Proof.
  intros Hswf Hargs Hthin Hk Hit Hch Hnt Hs He.
  destruct (sample_init_returns p0 lnprob0 lnlike0 w Hswf Hargs)
    as (w1 & lp & ll & evs & Hrun & _ & S1 & R1 & H1 & T1 & F1 & Hwf1).
  assert (Hch1 : chain_state (self w1) n0) by (rewrite S1; exact Hch).
  pose proof (wp_conj _ _ _ _ _ _
                (sample_expand_wp iterations thin n0 w1 (fun _ => False)
                   Hthin Hch1)
                (sample_expand_zero iterations thin n0 w1 (fun _ => False)
                   Hthin Hch1)) as Hx.
  unfold wp in Hx.
  destruct (sample_expand iterations thin w1) as [w2 [isave|e']] eqn:Hrun2;
    [| destruct Hx; contradiction].
  destruct Hx as ((-> & H2 & T2 & R2 & (St2 & Hss2 & Hn2 & Ha2) & Hcs & _) & Hz).
  assert (Hwf2 : state_wf w2 p0 lp ll).
  { apply (state_wf_static [] w1 w2); [exact Hwf1 | exact St2 |].
    rewrite H2. apply heap_evolves_refl. }
  assert (Hs2 : samplers (self w2) !! 0 = Some s)
    by (rewrite Hss2, S1; exact Hs).
  assert (Hnt2 : 0 < ntemps (self w2)).
  { destruct St2 as (_ & _ & -> & _). rewrite S1. exact Hnt. }
  exists (set_self (set_samplers (<[0 := called s]> (samplers (self w2)))
                      (self w2))
            (set_trace (trace w2 ++ [EvAdvance 0]) w2)), evs.
  split.
  { unfold sample_upto, sample_prologue.
    destruct k as [|k]; [lia |]. destruct iterations as [|n]; [lia |].
    unfold range. cbn [seq firstn for_fold].
    unfold bind at 1. unfold bind at 1. unfold bind at 1.
    rewrite Hrun. unfold bind at 1. rewrite Hrun2. unfold ret.
    unfold sample_step.
    cbn [l_p l_lnprob l_logl l_isave].
    unfold bind at 1. unfold attr at 1. unfold bind at 1.
    pose proof (lookup_lt_Some _ _ _ Hs2) as Hlen.
    destruct (length (samplers (self w2))) as [|m]; [lia |].
    unfold range. cbn [seq for_each].
    unfold bind at 1.
    rewrite (advance_first_raises p0 lp ll w2 s e Hwf2 Hnt2 Hs2 He).
    reflexivity. }
  cbn [trace self set_self set_trace samplers set_samplers].
  split; [rewrite T2, T1, <- app_assoc; reflexivity |].
  split; [exact F1 |].
  split.
  { destruct Hcs as (c & cq & cl & C1 & C2 & C3 & D1 & D2 & D3).
    exists c, cq, cl. cbn. auto 10. }
  split; [exact Hz |].
  rewrite Hss2, S1. reflexivity.
Qed.

Lemma sample_advancer_failure_witness :
  exists w',
    sample_upto 1 0 None None 4 2 true world_broken
    = (w', Raise (UserError 2))
    /\ chain_shape (self w') 2.
Proof.
  destruct (sample_advancer_failure 1 0 None None 4 2 0 world_broken broken
              (UserError 2))
    as (w' & evs & Hrun & _ & _ & Hcs & _).
  - repeat split.
  - exact world1_args_ok.
  - lia.
  - lia.
  - lia.
  - left. split; [repeat split | reflexivity].
  - cbn. lia.
  - reflexivity.
  - reflexivity.
  - exists w'. split; [exact Hrun | exact Hcs].
Defined.

(** ** The counters over a call of [sample] *)

Lemma count_events_none f t :
  (forall e, In e t -> f e = false) -> count_events f t = 0.
Proof.
  induction t as [|e t IH]; intros H; [reflexivity |].
  cbn [count_events]. rewrite (H e (or_introl eq_refl)), IH; [reflexivity |].
  intros e' He'. apply H. right. exact He'.
Qed.

Lemma count_accepted_callbacks r evs :
  Forall is_callback evs -> count_events (accepted_at r) evs = 0.
Proof.
  intros H. apply count_events_none. intros e He.
  rewrite Forall_forall in H. apply list_elem_of_In in He.
  specialize (H e He). destruct e; cbn in H; try contradiction; reflexivity.
Qed.

Lemma count_accepted_advances r l :
  count_events (accepted_at r) (map EvAdvance l) = 0.
Proof.
  apply count_events_none. intros e He. apply in_map_iff in He.
  destruct He as (j & <- & _). reflexivity.
Qed.

(** One iteration: the attempted counter of rung [r] grows by
    [nwalkers] for each boundary the rung takes part in, its accepted
    counter by the number of accepted trials at these boundaries. *)
Lemma sample_step_totals thin storechain l i n w E :
  state_wf w (l_p l) (l_lnprob l) (l_logl l) ->
  sampler_ready (self w) -> 0 < thin ->
  (records_at thin storechain i = true ->
   chain_shape (self w) n /\ l_isave l < n) ->
  wp (sample_step thin storechain l i)
     (fun _ w' =>
        exists evs,
          trace w' = trace w ++ evs
          /\ forall r, r < ntemps (self w) ->
               data (nswap (self w')) [r]
               = fadd (data (nswap (self w)) [r])
                      (of_nat (nwalkers (self w)
                               * boundaries_of (ntemps (self w)) r))
               /\ data (nswap_accepted (self w')) [r]
                  = fadd (data (nswap_accepted (self w)) [r])
                         (of_nat (count_events (accepted_at r) evs)))
     E w.
Proof.
  intros Hwf Hready Hthin Hrec. unfold sample_step.
  set (p := l_p l) in *. set (lnprob := l_lnprob l) in *.
  set (logl := l_logl l) in *.
  apply wp_bind, wp_attr, wp_bind.
  eapply wp_mono;
    [apply (advance_all_wp p lnprob logl w E Hwf Hready)
    | | exact (fun _ H => H)].
  cbn beta. intros u1 w1 (S1 & H1 & T1 & R1).
  assert (St1 : same_static (self w) (self w1))
    by (rewrite S1; repeat split; reflexivity).
  pose proof (state_wf_static _ _ _ _ _ _ Hwf St1 H1) as Hwf1.
  apply wp_bind.
  eapply wp_mono;
    [apply wp_conj;
     [apply (temperature_swaps_wp p lnprob logl w1 E Hwf1)
     | apply (temperature_swaps_effect p lnprob logl w1 E Hwf1)]
    | | exact (fun _ H => proj1 H)].
  cbn beta.
  intros r w2 ((-> & SB2 & H2 & _)
               & trials & T2 & B2 & _ & _ & _ & _ & N2 & A2).
  cbn iota.
  pose proof (same_but_counters_static _ _ SB2) as St2.
  pose proof (same_static_trans _ _ _ St1 St2) as St12.
  pose proof (heap_evolves_trans _ _ _ _ H1 H2) as H12.
  pose proof (state_wf_static _ _ _ _ _ _ Hwf St12 H12) as Hwf2.
  assert (Ent : ntemps (self w1) = ntemps (self w)) by (rewrite S1; reflexivity).
  assert (Enw : nwalkers (self w1) = nwalkers (self w))
    by (rewrite S1; reflexivity).
  assert (En1 : nswap (self w1) = nswap (self w)) by (rewrite S1; reflexivity).
  assert (Ea1 : nswap_accepted (self w1) = nswap_accepted (self w))
    by (rewrite S1; reflexivity).
  rewrite Ent, Enw in B2.
  assert (Hch2 : _chain (self w2) = _chain (self w)
                 /\ _lnprob (self w2) = _lnprob (self w)
                 /\ _lnlikelihood (self w2) = _lnlikelihood (self w)).
  { destruct SB2 as (_&_&_&_&_& C1 & C2 & C3 &_). rewrite C1, C2, C3, S1.
    repeat split; reflexivity. }
  assert (Count : forall tail,
            (forall e, In e tail -> forall r, accepted_at r e = false) ->
            forall r, r < ntemps (self w) ->
              data (nswap (self w2)) [r]
              = fadd (data (nswap (self w)) [r])
                     (of_nat (nwalkers (self w)
                              * boundaries_of (ntemps (self w)) r))
              /\ data (nswap_accepted (self w2)) [r]
                 = fadd (data (nswap_accepted (self w)) [r])
                        (of_nat (count_events (accepted_at r)
                                   (map EvAdvance (range (ntemps (self w)))
                                    ++ EvExchange :: trials ++ tail)))).
  { intros tail Htail r0 Hr0.
    rewrite N2, A2, En1, Ea1, (schedule_attempts _ _ r0 trials Hr0 B2).
    split; [reflexivity |]. do 2 f_equal.
    rewrite count_events_app, count_accepted_advances.
    cbn [count_events accepted_at Nat.add].
    rewrite count_events_app.
    rewrite (count_events_none _ tail); [lia |].
    intros e He. apply Htail, He. }
  destruct (Nat.eqb_spec thin 0) as [|_]; [lia |].
  apply wp_bind, wp_ret.
  unfold records_at in *.
  destruct ((i + 1) mod thin =? 0) eqn:Emod; [destruct storechain |];
    cbn [andb] in *.
  - destruct (Hrec eq_refl) as [Hcs Hisave].
    assert (Hcs2 : chain_shape (self w2) n).
    { destruct Hcs as (c & lp & ll & Hc & Hlp & Hll & Sc & Slp & Sll).
      destruct Hch2 as (C1 & C2 & C3).
      destruct St12 as (_ & _ & Ent' & Enw' & Ed & _).
      exists c, lp, ll. rewrite C1, C2, C3, Ent', Enw', Ed.
      repeat split; assumption. }
    apply wp_bind, wp_bind, wp_log, wp_bind.
    eapply wp_mono;
      [apply (record_wp p lnprob logl (l_isave l) n _ E);
       [exact Hwf2 | exact Hcs2 | exact Hisave]
      | | exact (fun _ H => H)].
    cbn beta.
    intros u3 w3 (H3 & T3 & R3 & (St3 & Hss3 & Hn3 & Ha3) & _).
    cbn [heap trace self set_trace] in *.
    apply wp_ret, wp_bind, wp_log, wp_ret.
    cbn [heap trace self set_trace].
    eexists. split.
    { rewrite T3, T2, T1. norm_app. reflexivity. }
    intros r0 Hr0. rewrite Hn3, Ha3.
    apply (Count [EvRecord (i + 1) (l_isave l); EvYield p lnprob logl]);
      [| exact Hr0].
    intros e [<- | [<- | []]] r1; reflexivity.
  - apply wp_bind, wp_ret, wp_bind, wp_log, wp_ret.
    cbn [heap trace self set_trace].
    eexists. split.
    { rewrite T2, T1. norm_app. reflexivity. }
    intros r0 Hr0. apply (Count [EvYield p lnprob logl]); [| exact Hr0].
    intros e [<- | []] r1; reflexivity.
  - apply wp_bind, wp_ret, wp_bind, wp_log, wp_ret.
    cbn [heap trace self set_trace].
    eexists. split.
    { rewrite T2, T1. norm_app. reflexivity. }
    intros r0 Hr0. apply (Count [EvYield p lnprob logl]); [| exact Hr0].
    intros e [<- | []] r1; reflexivity.
Qed.

(** The world from which round [k] of the generator starts meets what a
    round needs. *)
Lemma sample_round k p0 lnprob0 lnlike0 iterations thin storechain n0 w :
  sampler_ready (self w) -> args_ok w p0 lnprob0 lnlike0 ->
  0 < thin -> k < iterations ->
  (storechain = true -> chain_state (self w) n0) ->
  exists w1 l1 w2 l2,
    sample_upto k p0 lnprob0 lnlike0 iterations thin storechain w
    = (w1, Ok l1)
    /\ sample_upto (S k) p0 lnprob0 lnlike0 iterations thin storechain w
       = (w2, Ok l2)
    /\ sample_step thin storechain l1 k w1 = (w2, Ok l2)
    /\ sample_progress p0 lnprob0 lnlike0 iterations thin storechain n0 k
         w l1 w1
    /\ state_wf w1 (l_p l1) (l_lnprob l1) (l_logl l1)
    /\ sampler_ready (self w1)
    /\ (records_at thin storechain k = true ->
        chain_shape (self w1) (n0 + iterations / thin)
        /\ l_isave l1 < n0 + iterations / thin).
Proof.
  intros Hready Hargs Hthin Hk Hch.
  pose proof (sample_upto_wp k p0 lnprob0 lnlike0 iterations thin storechain
                n0 w (fun _ => False) Hready Hargs Hthin
                (Nat.lt_le_incl _ _ Hk) Hch) as H1.
  apply wp_returns in H1. destruct H1 as (l1 & w1 & Hrun1 & Hp1).
  pose proof (sample_upto_wp (S k) p0 lnprob0 lnlike0 iterations thin
                storechain n0 w (fun _ => False) Hready Hargs Hthin Hk Hch)
    as H2.
  apply wp_returns in H2. destruct H2 as (l2 & w2 & Hrun2 & Hp2).
  exists w1, l1, w2, l2.
  unfold returns in Hrun1, Hrun2.
  split; [exact Hrun1 |]. split; [exact Hrun2 |].
  split.
  { rewrite sample_upto_S in Hrun2 by exact Hk.
    unfold bind in Hrun2. rewrite Hrun1 in Hrun2. exact Hrun2. }
  split; [exact Hp1 |].
  pose proof Hp1 as (Hl1 & _ & Hr1 & Hwf1 & _ & _ & Hcs1).
  split; [rewrite Hl1; exact Hwf1 |]. split; [exact Hr1 |].
  intros Hrec. unfold records_at in Hrec.
  apply andb_true_iff in Hrec. destruct Hrec as [-> Hrec].
  apply Nat.eqb_eq in Hrec. destruct Hcs1 as [Hcs1 _].
  split; [exact Hcs1 |]. rewrite Hl1. cbn [l_isave].
  pose proof (thin_slot_free thin k iterations Hthin Hk Hrec). lia.
Qed.

Lemma sample_upto_totals k p0 lnprob0 lnlike0 iterations thin storechain n0 w :
  sampler_ready (self w) -> args_ok w p0 lnprob0 lnlike0 ->
  0 < thin -> k <= iterations ->
  (storechain = true -> chain_state (self w) n0) ->
  exists w' l evs,
    sample_upto k p0 lnprob0 lnlike0 iterations thin storechain w
    = (w', Ok l)
    /\ trace w' = trace w ++ evs
    /\ forall r, r < ntemps (self w) ->
         data (nswap (self w')) [r]
         = fadd (data (nswap (self w)) [r])
                (of_nat (k * (nwalkers (self w)
                              * boundaries_of (ntemps (self w)) r)))
         /\ data (nswap_accepted (self w')) [r]
            = fadd (data (nswap_accepted (self w)) [r])
                   (of_nat (count_events (accepted_at r) evs)).
Proof.
  intros Hready Hargs Hthin Hk Hch. induction k as [|k IH].
  - pose proof (sample_upto_wp 0 p0 lnprob0 lnlike0 iterations thin storechain
                  n0 w (fun _ => False) Hready Hargs Hthin Hk Hch) as H1.
    assert (H2 : wp (sample_upto 0 p0 lnprob0 lnlike0 iterations thin
                       storechain)
                   (fun _ w' =>
                      nswap (self w') = nswap (self w)
                      /\ nswap_accepted (self w') = nswap_accepted (self w)
                      /\ exists evs, trace w' = trace w ++ evs
                                     /\ Forall is_callback evs)
                   (fun _ => False) w).
    { unfold sample_upto. cbn [firstn for_fold].
      apply wp_bind. unfold sample_prologue. apply wp_bind.
      eapply wp_mono;
        [apply (sample_init_wp p0 lnprob0 lnlike0 w (fun _ => False));
         [apply Hready | exact Hargs]
        | | exact (fun _ H => H)].
      cbn beta. intros [lp ll] w1 (_ & S1 & _ & _ & _ & _ & _ & evs & T1 & F1).
      destruct storechain.
      - apply wp_bind.
        eapply wp_mono;
          [apply (sample_expand_wp iterations thin n0 w1 (fun _ => False)
                    Hthin)
          | | exact (fun _ H => H)].
        + rewrite S1. apply Hch. reflexivity.
        + cbn beta.
          intros isave w2 (_ & _ & T2 & _ & (_ & _ & Hn & Ha) & _).
          apply wp_ret, wp_ret. rewrite Hn, Ha, S1, T2.
          split; [reflexivity |]. split; [reflexivity |].
          exists evs. auto.
      - apply wp_bind, wp_ret, wp_ret, wp_ret. rewrite S1.
        split; [reflexivity |]. split; [reflexivity |].
        exists evs. auto. }
    pose proof (wp_conj _ _ _ _ _ _ H1 H2) as H. unfold wp in H.
    destruct (sample_upto 0 p0 lnprob0 lnlike0 iterations thin storechain w)
      as [w' [l|e]]; [| destruct H; contradiction].
    destruct H as (_ & Hn & Ha & evs & T & F).
    exists w', l, evs. split; [reflexivity |]. split; [exact T |].
    intros r Hr. rewrite Hn, Ha, (count_accepted_callbacks r evs F).
    cbn [Nat.mul of_nat INR]. rewrite !fadd_0_r. auto.
  - destruct (IH (Nat.lt_le_incl _ _ Hk))
      as (w1' & l1' & evs1 & Hrun1' & T1 & C1).
    destruct (sample_round k p0 lnprob0 lnlike0 iterations thin storechain n0
                w Hready Hargs Hthin Hk Hch)
      as (w1 & l1 & w2 & l2 & Hrun1 & Hrun2 & Hstep & Hp1 & Hwf1 & Hr1 & Hrec).
    rewrite Hrun1 in Hrun1'. injection Hrun1' as <- <-.
    pose proof (sample_step_totals thin storechain l1 k _ w1 (fun _ => False)
                  Hwf1 Hr1 Hthin Hrec) as Hs.
    unfold wp in Hs. rewrite Hstep in Hs.
    destruct Hs as (evs2 & T2 & C2).
    destruct Hp1 as (_ & (_ & _ & Ent & Enw & _) & _).
    exists w2, l2, (evs1 ++ evs2). split; [exact Hrun2 |].
    split; [rewrite T2, T1, <- app_assoc; reflexivity |].
    intros r Hr.
    destruct (C1 r Hr) as [N1 A1].
    destruct (C2 r) as [N2 A2]; [rewrite Ent; exact Hr |].
    rewrite N2, A2, N1, A1, Ent, Enw, !fadd_of_nat_add, count_events_app.
    split; do 2 f_equal. lia.
Qed.

(** X26.  Over a call of [sample] driven through [k] iterations, the
    attempted counter of every rung grows by [k * nwalkers] for each
    boundary the rung takes part in (once for the two end rungs, twice
    for the others), and its accepted counter by the number of accepted
    trials at these boundaries; nothing else in the call changes the
    counters. *)
Theorem sample_counts_attempts (k : nat) (p0 : loc)
    (lnprob0 lnlike0 : option loc) (iterations thin : nat)
    (storechain : bool) (n0 : nat) (w : world) :
  sampler_ready (self w) -> args_ok w p0 lnprob0 lnlike0 ->
  0 < thin -> k <= iterations ->
  (storechain = true -> chain_state (self w) n0) ->
  exists w' l evs,
    sample_upto k p0 lnprob0 lnlike0 iterations thin storechain w
    = (w', Ok l)
    /\ trace w' = trace w ++ evs
    /\ forall r, r < ntemps (self w) ->
         item (nswap (self w')) [r]
         = Ok (fadd (data (nswap (self w)) [r])
                    (of_nat (k * (nwalkers (self w)
                                  * boundaries_of (ntemps (self w)) r))))
         /\ item (nswap_accepted (self w')) [r]
            = Ok (fadd (data (nswap_accepted (self w)) [r])
                       (of_nat (count_events (accepted_at r) evs)))
         /\ count_events (accepted_at r) evs
            <= count_events (trial_at r) evs.
Proof.
  intros Hready Hargs Hthin Hk Hch.
  destruct (sample_upto_totals k p0 lnprob0 lnlike0 iterations thin
              storechain n0 w Hready Hargs Hthin Hk Hch)
    as (w' & l & evs & Hrun & Ht & Hc).
  pose proof (sample_upto_wp k p0 lnprob0 lnlike0 iterations thin storechain
                n0 w (fun _ => False) Hready Hargs Hthin Hk Hch) as H.
  unfold wp in H. rewrite Hrun in H.
  destruct H as (_ & (_ & _ & Ent & _ & _ & _ & Sn & Sa) & _).
  pose proof Hready as ((_ & Sn0 & Sa0) & _).
  exists w', l, evs. split; [exact Hrun |]. split; [exact Ht |].
  intros r Hr. destruct (Hc r Hr) as [N A].
  unfold item. rewrite Sn, Sa, Sn0, Sa0. cbn [in_bounds].
  rewrite (proj2 (Nat.ltb_lt _ _) Hr). cbn [andb]. rewrite N, A.
  split; [reflexivity |]. split; [reflexivity |].
  apply count_events_mono. intros [] He; try discriminate.
  cbn in *. apply andb_true_iff in He. apply He.
Qed.

Lemma sample_counts_attempts_witness :
  exists w' l,
    sample_upto 3 0 None None 3 1 false
      (set_heap [positions_swap] world_swap) = (w', Ok l)
    /\ item (nswap (self w')) [0] = Ok (fadd (Fin 0) (of_nat 3)).
Proof.
  destruct (sample_counts_attempts 3 0 None None 3 1 false 0
              (set_heap [positions_swap] world_swap))
    as (w' & l & evs & Hrun & _ & Hc).
  - apply sampler0_ready. reflexivity.
  - split.
    + exists positions_swap. split; reflexivity.
    + split; intros x; eexists; reflexivity.
  - lia.
  - lia.
  - discriminate.
  - exists w', l. split; [exact Hrun |]. apply (Hc 0). cbn. lia.
Defined.

(** ** The ladder in rounded arithmetic *)

Lemma u64_pos : (0 < u64)%R.
Proof. unfold u64. apply Rinv_0_lt_compat. lra. Qed.

Lemma u64_small : (u64 <= 12 / 10 ^ 17)%R.
Proof.
  unfold u64. apply (Rmult_le_reg_r (2 ^ 53)); [lra |].
  rewrite Rinv_l by lra. lra.
Qed.

Lemma normal_range (x : R) :
  (/ 8 <= Rabs x <= 2048)%R -> (normal_min <= Rabs x <= normal_max)%R.
Proof.
  intros [H1 H2]. unfold normal_min, normal_max. split.
  - apply Rle_trans with (/ 8)%R; [| exact H1].
    apply Rinv_le_contravar; [lra |].
    apply Rle_trans with (2 ^ 3)%R; [lra |]. apply Rle_pow; [lra | lia].
  - apply Rle_trans with 2048%R; [exact H2 |].
    apply Rle_trans with (2 ^ 11)%R; [lra |]. apply Rle_pow; [lra | lia].
Qed.

Lemma exp_double (x : R) : exp (2 * x) = (exp x * exp x)%R.
Proof. replace (2 * x)%R with (x + x)%R by lra. apply exp_plus. Qed.

Lemma exp_7_10 : (2 < exp (7 / 10))%R.
Proof.
  pose proof (exp_ineq1_le (7 / 10 / 128)) as H0.
  assert (H1 : (1010965 / 1000000 <= exp (7 / 10 / 64))%R).
  { replace (7 / 10 / 64)%R with (2 * (7 / 10 / 128))%R by lra.
    rewrite exp_double. nra. }
  assert (H2 : (1022050 / 1000000 <= exp (7 / 10 / 32))%R).
  { replace (7 / 10 / 32)%R with (2 * (7 / 10 / 64))%R by lra.
    rewrite exp_double. nra. }
  assert (H3 : (1044586 / 1000000 <= exp (7 / 10 / 16))%R).
  { replace (7 / 10 / 16)%R with (2 * (7 / 10 / 32))%R by lra.
    rewrite exp_double. nra. }
  assert (H4 : (1091159 / 1000000 <= exp (7 / 10 / 8))%R).
  { replace (7 / 10 / 8)%R with (2 * (7 / 10 / 16))%R by lra.
    rewrite exp_double. nra. }
  assert (H5 : (1190627 / 1000000 <= exp (7 / 10 / 4))%R).
  { replace (7 / 10 / 4)%R with (2 * (7 / 10 / 8))%R by lra.
    rewrite exp_double. nra. }
  assert (H6 : (1417592 / 1000000 <= exp (7 / 10 / 2))%R).
  { replace (7 / 10 / 2)%R with (2 * (7 / 10 / 4))%R by lra.
    rewrite exp_double. nra. }
  replace (7 / 10)%R with (2 * (7 / 10 / 2))%R by lra.
  rewrite exp_double. nra.
Qed.

Lemma ln_2_bounds : (/ 2 < ln 2 < 7 / 10)%R.
Proof.
  split; [apply ln_lt_2 |].
  rewrite <- (ln_exp (7 / 10)). apply ln_increasing; [lra | apply exp_7_10].
Qed.

(** [close m x t]: [x] is [t] up to a relative error of [m] unit
    roundoffs. *)
Lemma close_rnd fe (m m' x t : R) :
  (Rabs (x - t) <= m * u64 * Rabs t)%R ->
  (0 <= m <= 100)%R -> (m + 2 <= m')%R -> (/ 4 <= Rabs t <= 2000)%R ->
  (Rabs (rnd fe x - t) <= m' * u64 * Rabs t)%R.
Proof.
  intros Hx Hm Hm' Ht.
  pose proof u64_pos as U0. pose proof u64_small as U1.
  assert (Us : (u64 <= / 1000000)%R) by lra.
  assert (Hmu : (0 <= m * u64 <= / 1000)%R) by nra.
  assert (Hax : (Rabs x <= Rabs t + m * u64 * Rabs t)%R).
  { replace x with ((x - t) + t)%R by lra.
    eapply Rle_trans; [apply Rabs_triang |]. lra. }
  assert (Hax' : (Rabs t - m * u64 * Rabs t <= Rabs x)%R).
  { replace t with (x - (x - t))%R at 1 by lra.
    eapply Rle_trans;
      [apply Rplus_le_compat_r, (Rabs_triang x (- (x - t))) |].
    rewrite Rabs_Ropp. lra. }
  assert (Hr : (normal_min <= Rabs x <= normal_max)%R).
  { apply normal_range. split; nra. }
  pose proof (rnd_error fe x Hr) as He.
  replace (rnd fe x - t)%R with ((rnd fe x - x) + (x - t))%R by lra.
  eapply Rle_trans; [apply Rabs_triang |].
  pose proof (Rabs_pos t) as T0.
  assert (A : (Rabs x <= 2 * Rabs t)%R) by nra.
  assert (B : (u64 * Rabs x <= 2 * (u64 * Rabs t))%R) by nra.
  assert (C : (0 <= u64 * Rabs t)%R) by nra.
  assert (D : ((m + 2) * (u64 * Rabs t) <= m' * (u64 * Rabs t))%R)
    by (apply Rmult_le_compat_r; lra).
  lra.
Qed.

Lemma close_mul (m m' m'' x t y s : R) :
  (Rabs (x - t) <= m * u64 * Rabs t)%R ->
  (Rabs (y - s) <= m' * u64 * Rabs s)%R ->
  (0 <= m <= 100)%R -> (0 <= m' <= 100)%R -> (m + m' + 1 <= m'')%R ->
  (Rabs (x * y - t * s) <= m'' * u64 * Rabs (t * s))%R.
Proof.
  intros Hx Hy Hm Hm' Hm''.
  pose proof u64_pos as U0. pose proof u64_small as U1.
  assert (Us : (u64 <= / 1000000)%R) by lra.
  pose proof (Rabs_pos t) as T0. pose proof (Rabs_pos s) as S0.
  assert (Hay : (Rabs y <= Rabs s + m' * u64 * Rabs s)%R).
  { replace y with ((y - s) + s)%R by lra.
    eapply Rle_trans; [apply Rabs_triang |]. lra. }
  replace (x * y - t * s)%R with ((x - t) * y + t * (y - s))%R by ring.
  eapply Rle_trans; [apply Rabs_triang |].
  rewrite !Rabs_mult.
  pose proof (Rabs_pos (x - t)) as X0. pose proof (Rabs_pos (y - s)) as Y0.
  pose proof (Rabs_pos y) as Y1.
  assert (A : (Rabs (x - t) * Rabs y
               <= m * u64 * Rabs t * (Rabs s + m' * u64 * Rabs s))%R).
  { apply Rmult_le_compat; try assumption. }
  assert (B : (Rabs t * Rabs (y - s) <= Rabs t * (m' * u64 * Rabs s))%R).
  { apply Rmult_le_compat_l; assumption. }
  assert (C0 : (0 <= m * u64 <= / 10000)%R) by nra.
  assert (C : (m * u64 * m' <= 1)%R) by nra.
  assert (D : (0 <= Rabs t * Rabs s)%R) by nra.
  assert (E : (m * u64 * Rabs t * (m' * u64 * Rabs s)
               <= u64 * (Rabs t * Rabs s))%R).
  { replace (m * u64 * Rabs t * (m' * u64 * Rabs s))%R
      with ((m * u64 * m') * (u64 * (Rabs t * Rabs s)))%R by ring.
    assert (0 <= u64 * (Rabs t * Rabs s))%R by nra.
    assert (0 <= m * u64 * m')%R by nra. nra. }
  assert (F : (m * u64 * Rabs t * (Rabs s + m' * u64 * Rabs s)
               = m * (u64 * (Rabs t * Rabs s))
                 + m * u64 * Rabs t * (m' * u64 * Rabs s))%R) by ring.
  assert (G : (Rabs t * (m' * u64 * Rabs s)
               = m' * (u64 * (Rabs t * Rabs s)))%R) by ring.
  assert (H : (0 <= u64 * (Rabs t * Rabs s))%R) by nra.
  assert (I : ((m + m' + 1) * (u64 * (Rabs t * Rabs s))
               <= m'' * (u64 * (Rabs t * Rabs s)))%R)
    by (apply Rmult_le_compat_r; lra).
  lra.
Qed.

Lemma close_scale (m c x t : R) :
  (Rabs (x - t) <= m * u64 * Rabs t)%R ->
  (Rabs (c * x - c * t) <= m * u64 * Rabs (c * t))%R.
Proof.
  intros H. replace (c * x - c * t)%R with (c * (x - t))%R by ring.
  rewrite !Rabs_mult. pose proof (Rabs_pos c). nra.
Qed.

(** The target of the [k]-th point of the ladder's grid. *)
Lemma target_range (k : nat) :
  1 <= k <= 4000 -> (/ 4 <= Rabs (- INR k * ln 2 / 2) <= 2000)%R.
Proof.
  intros Hk. pose proof ln_2_bounds as [L1 L2].
  assert (H1 : (1 <= INR k)%R).
  { change 1%R with (INR 1). apply le_INR. lia. }
  assert (H2 : (INR k <= 4000)%R).
  { replace 4000%R with (INR 4000) by (rewrite INR_IZR_INZ; reflexivity).
    apply le_INR. lia. }
  rewrite Rabs_left by nra. split; nra.
Qed.

(** The grid of the ladder: point [k] of [np.linspace] is, up to 21 unit
    roundoffs, [-k ln(2) / 2]; the first point is [0]. *)
Lemma ladder_point fe (n k : nat) :
  2 <= n <= 4001 -> k < n ->
  exists y,
    item (exponential_beta_ladder fe n) [k] = Ok (Fin (libm_exp fe y))
    /\ (Rabs (y - - INR k * ln 2 / 2)
        <= 21 * u64 * Rabs (- INR k * ln 2 / 2))%R
    /\ (k = 0 -> y = 0%R).
Proof.
  intros Hn Hk.
  destruct n as [|[|N]]; [lia | lia |].
  pose proof ln_2_bounds as [L1 L2].
  pose proof u64_pos as U0.
  assert (HN : (INR (S N) <> 0)%R) by (apply not_0_INR; lia).
  assert (HN1 : (1 <= INR (S N))%R).
  { change 1%R with (INR 1). apply le_INR. lia. }
  (* the end point *)
  set (r1 := rnd fe (IZR (- (Z.of_nat (S (S N)) - 1)) * (1 / 2))%R).
  set (stop := rnd fe (r1 * libm_log fe 2)%R).
  assert (Hz : IZR (- (Z.of_nat (S (S N)) - 1)) = (- INR (S N))%R).
  { rewrite opp_IZR, minus_IZR, <- INR_IZR_INZ, (S_INR (S N)). simpl IZR. lra. }
  assert (TN : (/ 4 <= Rabs (- INR (S N) * ln 2 / 2) <= 2000)%R)
    by (apply target_range; lia).
  assert (C1 : (Rabs (r1 - - INR (S N) / 2) <= 2 * u64 * Rabs (- INR (S N) / 2))%R).
  { unfold r1. rewrite Hz.
    apply (close_rnd fe 0 2).
    - replace (- INR (S N) * (1 / 2) - - INR (S N) / 2)%R with 0%R by lra.
      rewrite Rabs_R0. lra.
    - lra.
    - lra.
    - rewrite Rabs_left by lra.
      assert (INR (S N) <= 4000)%R.
      { replace 4000%R with (INR 4000) by (rewrite INR_IZR_INZ; reflexivity).
        apply le_INR. lia. }
      lra. }
  assert (CL : (Rabs (libm_log fe 2 - ln 2) <= 8 * u64 * Rabs (ln 2))%R).
  { rewrite (Rabs_right (ln 2)) by lra. apply log_2. }
  assert (Cs : (Rabs (stop - - INR (S N) * ln 2 / 2)
                <= 13 * u64 * Rabs (- INR (S N) * ln 2 / 2))%R).
  { unfold stop.
    apply (close_rnd fe 11 13); [| lra | lra | exact TN].
    replace (- INR (S N) * ln 2 / 2)%R with (- INR (S N) / 2 * ln 2)%R by lra.
    apply (close_mul 2 8 11); [exact C1 | exact CL | lra | lra | lra]. }
  (* the step *)
  set (delta := rnd fe (stop + - 0)%R).
  set (step := rnd fe (delta / INR (S N))%R).
  assert (Cd : (Rabs (delta - - INR (S N) * ln 2 / 2)
                <= 15 * u64 * Rabs (- INR (S N) * ln 2 / 2))%R).
  { unfold delta. replace (stop + - 0)%R with stop by lra.
    apply (close_rnd fe 13 15); [exact Cs | lra | lra | exact TN]. }
  assert (T1 : (/ 4 <= Rabs (- ln 2 / 2) <= 2000)%R).
  { rewrite Rabs_left by lra. lra. }
  assert (Cst : (Rabs (step - - ln 2 / 2) <= 17 * u64 * Rabs (- ln 2 / 2))%R).
  { unfold step.
    apply (close_rnd fe 15 17); [| lra | lra | exact T1].
    replace (delta / INR (S N))%R with (/ INR (S N) * delta)%R by (field; exact HN).
    replace (- ln 2 / 2)%R
      with (/ INR (S N) * (- INR (S N) * ln 2 / 2))%R by (field; exact HN).
    apply close_scale, Cd. }
  (* the entry *)
  assert (Hitem : item (exponential_beta_ladder fe (S (S N))) [k]
    = Ok (Fin (libm_exp fe
                 (if k =? S N then stop
                  else rnd fe (rnd fe (INR k * step) + 0))))).
  { unfold exponential_beta_ladder, item.
    cbn [np_exp np_map np_linspace array1 shape data in_bounds].
    assert (Hb : (k <? S (S N)) = true) by (apply Nat.ltb_lt; lia).
    rewrite Hb. cbn [andb]. f_equal.
    replace (S (S N) - 1) with (S N) by lia.
    unfold flog. destruct (Rlt_dec 0 2) as [_|Hn2]; [| lra].
    unfold of_Z, rmul, rsub, rdiv, radd, fsub, of_nat.
    cbn [fmul round fneg fadd].
    fold r1. fold stop.
    destruct (Nat.eqb_spec k (S N)) as [->|Hne]; [reflexivity |].
    rewrite fdiv_fin by exact HN. cbn [round fmul fadd fexp].
    fold delta. fold step. reflexivity. }
  rewrite Hitem.
  destruct (Nat.eqb_spec k (S N)) as [->|Hne].
  - exists stop. split; [reflexivity |]. split; [| lia].
    eapply Rle_trans; [exact Cs |].
    pose proof (Rabs_pos (- INR (S N) * ln 2 / 2)). nra.
  - destruct (Nat.eq_dec k 0) as [->|Hk0].
    + exists 0%R. split.
      { do 3 f_equal. simpl INR. rewrite Rmult_0_l, rnd_0, Rplus_0_r.
        apply rnd_0. }
      split; [| reflexivity].
      simpl INR. replace (0 - - 0 * ln 2 / 2)%R with 0%R by lra.
      rewrite Rabs_R0. replace (- 0 * ln 2 / 2)%R with 0%R by lra.
      rewrite Rabs_R0. lra.
    + eexists. split; [reflexivity |]. split; [| lia].
      assert (Tk : (/ 4 <= Rabs (- INR k * ln 2 / 2) <= 2000)%R)
        by (apply target_range; lia).
      rewrite Rplus_0_r.
      apply (close_rnd fe 19 21); [| lra | lra | exact Tk].
      apply (close_rnd fe 17 19); [| lra | lra | exact Tk].
      replace (- INR k * ln 2 / 2)%R with (INR k * (- ln 2 / 2))%R by lra.
      apply close_scale, Cst.
Qed.

Lemma abs_bound (a b : R) : (Rabs a <= b)%R -> (- b <= a <= b)%R.
Proof. unfold Rabs. destruct (Rcase_abs a); lra. Qed.

(** The exponential of a perturbed argument. *)
Lemma exp_perturbed (y t d : R) :
  (Rabs (y - t) <= d)%R -> (d <= / 2)%R ->
  (Rabs (exp y - exp t) <= 2 * d * exp t)%R.
Proof.
  intros Hy Hd. pose proof (exp_pos t) as Et.
  assert (Hh : (- d <= y - t <= d)%R).
  { apply abs_bound in Hy. exact Hy. }
  replace y with (t + (y - t))%R at 1 by lra. rewrite exp_plus.
  set (h := (y - t)%R) in *.
  pose proof (exp_ineq1_le h) as H1.
  pose proof (exp_ineq1_le (- h)) as H2. rewrite exp_Ropp in H2.
  pose proof (exp_pos h) as Eh.
  assert (H3 : (exp h * (1 - h) <= 1)%R).
  { assert (0 < / exp h)%R by (apply Rinv_0_lt_compat; exact Eh).
    assert (exp h * / exp h = 1)%R by (apply Rinv_r; lra).
    nra. }
  assert (H4 : (exp h <= 1 + 2 * d)%R) by nra.
  assert (H5 : (1 - d <= exp h)%R) by lra.
  replace (exp t * exp h - exp t)%R with (exp t * (exp h - 1))%R by ring.
  rewrite Rabs_mult, (Rabs_right (exp t)) by lra.
  assert (Rabs (exp h - 1) <= 2 * d)%R.
  { apply Rabs_le. lra. }
  nra.
Qed.

(** An entry of the ladder is, up to the relative error [10^-11], the
    exponential of its target, as long as the target stays above
    [-700]. *)
Lemma ladder_entry fe (n k : nat) :
  2 <= n <= 2000 -> k < n ->
  exists b,
    item (exponential_beta_ladder fe n) [k] = Ok (Fin b)
    /\ (Rabs (b - exp (- INR k * ln 2 / 2))
        <= / 10 ^ 11 * exp (- INR k * ln 2 / 2))%R
    /\ (k = 0 -> b = 1%R).
Proof.
  intros Hn Hk.
  destruct (ladder_point fe n k ltac:(lia) Hk) as (y & Hitem & Hy & H0).
  exists (libm_exp fe y). split; [exact Hitem |].
  pose proof ln_2_bounds as [L1 L2].
  pose proof u64_pos as U0. pose proof u64_small as U1.
  assert (Hk1 : (0 <= INR k <= 1999)%R).
  { split; [apply pos_INR |].
    replace 1999%R with (INR 1999) by (rewrite INR_IZR_INZ; reflexivity).
    apply le_INR. lia. }
  set (t := (- INR k * ln 2 / 2)%R) in *.
  assert (Ht : (-700 <= t <= 0)%R) by (unfold t; nra).
  rewrite (Rabs_left1 t) in Hy by lra.
  assert (Hd : (Rabs (y - t) <= 2 / 10 ^ 12)%R).
  { eapply Rle_trans; [exact Hy |].
    apply Rle_trans with (21 * u64 * 700)%R.
    - apply Rmult_le_compat_l; lra.
    - lra. }
  assert (Hyr : (- (2 / 10 ^ 12) <= y - t <= 2 / 10 ^ 12)%R).
  { apply abs_bound in Hd. exact Hd. }
  split.
  - destruct (Nat.eq_dec k 0) as [->|Hk0].
    + rewrite (H0 eq_refl), exp_0. unfold t. simpl INR.
      replace (- 0 * ln 2 / 2)%R with 0%R by lra.
      rewrite Rtrigo_def.exp_0, Rminus_diag, Rabs_R0. lra.
    + assert (Hy0 : (y <= 0)%R).
      { assert (1 <= INR k)%R.
        { change 1%R with (INR 1). apply le_INR. lia. }
        assert (t <= - / 4)%R by (unfold t; nra).
        lra. }
      pose proof (exp_error fe y ltac:(lra)) as He.
      pose proof (exp_perturbed y t (2 / 10 ^ 12) Hd ltac:(lra)) as Hp.
      pose proof (exp_pos t) as Et. pose proof (exp_pos y) as Ey.
      assert (Hey : (exp y <= 2 * exp t)%R).
      { apply abs_bound in Hp. lra. }
      replace (libm_exp fe y - exp t)%R
        with ((libm_exp fe y - exp y) + (exp y - exp t))%R by lra.
      eapply Rle_trans; [apply Rabs_triang |].
      assert (A : (8 * u64 * exp y <= 8 * u64 * (2 * exp t))%R)
        by (apply Rmult_le_compat_l; lra).
      assert (B : (8 * u64 * (2 * exp t) <= 16 * (12 / 10 ^ 17) * exp t)%R).
      { replace (8 * u64 * (2 * exp t))%R with (16 * u64 * exp t)%R by ring.
        apply Rmult_le_compat_r; lra. }
      lra.
  - intros ->. rewrite (H0 eq_refl). apply exp_0.
Qed.
Lemma ladder_single fe :
  item (exponential_beta_ladder fe 1) [0] = Ok (Fin 1).
Proof.
  unfold exponential_beta_ladder, item.
  cbn [np_exp np_map np_linspace array1 shape data in_bounds Nat.ltb Nat.leb
       andb fexp].
  rewrite exp_0. reflexivity.
Qed.

Lemma exp_half_ln_2 : (exp (- (ln 2 / 2)) <= 4 / 5)%R.
Proof.
  pose proof ln_2_bounds as [L1 L2].
  rewrite exp_Ropp. pose proof (exp_ineq1_le (ln 2 / 2)) as H.
  apply (Rmult_le_reg_r (exp (ln 2 / 2))); [apply exp_pos |].
  rewrite Rinv_l by (pose proof (exp_pos (ln 2 / 2)); lra). lra.
Qed.

(** C7, as amended.  For [1 <= ntemps <= 2000] and every arithmetic
    that rounds as float64 does: the default ladder has [ntemps]
    entries; entry [0] is [1]; entry [k] is [exp(-k ln(2) / 2)] up to a
    relative error of [10^-11]; and the entries decrease strictly. *)
Theorem exponential_beta_ladder_spec (fe : fp_env) (ntemps : nat) :
  1 <= ntemps <= 2000 ->
  shape (exponential_beta_ladder fe ntemps) = [ntemps]
  /\ item (exponential_beta_ladder fe ntemps) [0] = Ok (Fin 1)
  /\ (forall k, k < ntemps ->
        exists b,
          item (exponential_beta_ladder fe ntemps) [k] = Ok (Fin b)
          /\ (Rabs (b - exp (- INR k * ln 2 / 2))
              <= / 10 ^ 11 * exp (- INR k * ln 2 / 2))%R)
  /\ (forall k bk bk1, S k < ntemps ->
        item (exponential_beta_ladder fe ntemps) [k] = Ok bk ->
        item (exponential_beta_ladder fe ntemps) [S k] = Ok bk1 ->
        flt bk1 bk = true).
Proof.
  intros Hn. split; [apply ladder_shape |].
  destruct (Nat.eq_dec ntemps 1) as [->|Hn1].
  - split; [apply ladder_single |]. split.
    + intros k Hk. assert (k = 0) as -> by lia. exists 1%R.
      split; [apply ladder_single |].
      simpl INR. replace (- 0 * ln 2 / 2)%R with 0%R by lra.
      rewrite Rtrigo_def.exp_0, Rminus_diag, Rabs_R0. lra.
    + intros k bk bk1 Hk. lia.
  - assert (Hn2 : 2 <= ntemps <= 2000) by lia. split; [| split].
    + destruct (ladder_entry fe ntemps 0 Hn2 ltac:(lia)) as (b & Hb & _ & H0).
      rewrite Hb, (H0 eq_refl). reflexivity.
    + intros k Hk.
      destruct (ladder_entry fe ntemps k Hn2 Hk) as (b & Hb & He & _).
      exists b. auto.
    + intros k bk bk1 Hk H0 H1.
      destruct (ladder_entry fe ntemps k Hn2 ltac:(lia)) as (b & Hb & He & _).
      destruct (ladder_entry fe ntemps (S k) Hn2 Hk) as (b1 & Hb1 & He1 & _).
      assert (E0 : bk = Fin b) by congruence.
      assert (E1 : bk1 = Fin b1) by congruence.
      subst bk bk1. apply flt_fin.
      pose proof (exp_pos (- INR k * ln 2 / 2)) as Ek.
      assert (Es : exp (- INR (S k) * ln 2 / 2)
                   = (exp (- INR k * ln 2 / 2) * exp (- (ln 2 / 2)))%R).
      { rewrite <- exp_plus. f_equal. rewrite S_INR. lra. }
      rewrite Es in He1. pose proof exp_half_ln_2 as Hh.
      pose proof (exp_pos (- (ln 2 / 2))) as Eh.
      apply abs_bound in He. apply abs_bound in He1.
      set (E := exp (- INR k * ln 2 / 2)) in *.
      set (h := exp (- (ln 2 / 2))) in *.
      assert (A : (E * h <= E * (4 / 5))%R)
        by (apply Rmult_le_compat_l; lra).
      lra.
Qed.

Lemma exponential_beta_ladder_spec_witness :
  1 <= 3 <= 2000
  /\ shape (exponential_beta_ladder fp_ideal 3) = [3]
  /\ item (exponential_beta_ladder fp_ideal 3) [0] = Ok (Fin 1)
  /\ (forall bk bk1,
        item (exponential_beta_ladder fp_ideal 3) [1] = Ok bk ->
        item (exponential_beta_ladder fp_ideal 3) [2] = Ok bk1 ->
        flt bk1 bk = true).
Proof.
  assert (H3 : 1 <= 3 <= 2000) by lia.
  split; [exact H3 |].
  destruct (exponential_beta_ladder_spec fp_ideal 3 H3) as (Hs & H0 & _ & Hd).
  split; [exact Hs |]. split; [exact H0 |].
  intros bk bk1. apply Hd. lia.
Defined.

(** C7, as stated, fails for long ladders.  With
    [ntemps = 3100], whatever the arithmetic, the arguments of the last
    two entries lie below [-750], where [np.exp] underflows: both
    entries are [0], not [exp(-k ln(2) / 2)], and the ladder does not
    decrease strictly. *)
Lemma long_ladder_counterexample :
  (forall fe,
     item (exponential_beta_ladder fe 3100) [3098] = Ok (Fin 0)
     /\ item (exponential_beta_ladder fe 3100) [3099] = Ok (Fin 0))
  /\ (forall fe,
        ~ (forall k bk bk1, S k < 3100 ->
             item (exponential_beta_ladder fe 3100) [k] = Ok bk ->
             item (exponential_beta_ladder fe 3100) [S k] = Ok bk1 ->
             flt bk1 bk = true)).
Proof.
  assert (Hz : forall fe k, 3098 <= k < 3100 ->
            item (exponential_beta_ladder fe 3100) [k] = Ok (Fin 0)).
  { intros fe k Hk.
    destruct (ladder_point fe 3100 k ltac:(lia) ltac:(lia))
      as (y & Hitem & Hy & _).
    rewrite Hitem. do 2 f_equal. apply exp_underflow.
    pose proof ln_2_bounds as [L1 L2].
    pose proof u64_pos as U0. pose proof u64_small as U1.
    assert (Hk1 : (3098 <= INR k <= 3100)%R).
    { split.
      - replace 3098%R with (INR 3098) by (rewrite INR_IZR_INZ; reflexivity).
        apply le_INR. lia.
      - replace 3100%R with (INR 3100) by (rewrite INR_IZR_INZ; reflexivity).
        apply le_INR. lia. }
    set (t := (- INR k * ln 2 / 2)%R) in *.
    assert (Ht : (-1100 <= t <= -774)%R) by (unfold t; nra).
    rewrite (Rabs_left1 t) in Hy by lra.
    apply abs_bound in Hy.
    assert (A : (21 * u64 * - t <= 21 * u64 * 1100)%R)
      by (apply Rmult_le_compat_l; lra).
    lra. }
  split.
  - intros fe. split; apply Hz; lia.
  - intros fe H.
    specialize (H 3098 (Fin 0) (Fin 0) ltac:(lia)
                  (Hz fe 3098 ltac:(lia)) (Hz fe 3099 ltac:(lia))).
    cbn in H. destruct (Rlt_dec 0 0) as [Hlt|_]; [lra | discriminate].
Qed.

(** ** The exchange, draw by draw *)

Lemma rng_state_eq (g g' : rng_state) :
  ints g' = ints g -> ipos g' = ipos g -> unifs g' = unifs g ->
  upos g' = upos g -> g' = g.
Proof.
  destruct g, g'. cbn. intros -> -> -> ->. reflexivity.
Qed.

(** One trial, with what it takes from the generator. *)
Lemma swap_trial_draws p lnprob logl i dbeta w L :
  state_wf w p lnprob logl ->
  heap w !! logl = Some L ->
  1 <= i < ntemps (self w) -> 0 < nwalkers (self w) ->
  exists w',
    swap_trial p lnprob logl i dbeta w = (w', Ok tt)
    /\ trace w' = trace w
                  ++ [EvTrial i (trial_ii w) (trial_jj w)
                        (trial_paccept i dbeta L w)
                        (trial_accepted i dbeta L w)]
    /\ rng w' = after_trial (trial_paccept i dbeta L w) (rng w)
    /\ state_wf w' p lnprob logl
    /\ same_but_counters (self w) (self w')
    /\ (trial_accepted i dbeta L w = false -> heap w' = heap w).
Proof.
  intros Hwf HL Hi Hnw.
  pose proof Hwf as (Hs & Hne & (P & HP & SP) & (Q & HQ & SQ)
                     & (L0 & HL0 & SL)).
  rewrite HL in HL0. injection HL0 as <-.
  pose proof (swap_trial_wp p lnprob logl i dbeta w P Q L (fun _ => False)
                Hs HP HQ HL SP SQ SL Hne Hi Hnw) as H1.
  pose proof (swap_trial_effect p lnprob logl i dbeta w P Q L
                (fun _ => False) Hs HP HQ HL SP SQ SL Hne Hi Hnw) as H2.
  pose proof (swap_trial_wf p lnprob logl i dbeta w (fun _ => False)
                Hwf Hi Hnw) as H3.
  unfold wp in H1, H2, H3.
  destruct (swap_trial p lnprob logl i dbeta w) as [w' [[]|e]];
    [| contradiction].
  destruct H1 as (Ht & Hin & Hun & Hip & _ & _ & _ & Hrej & _).
  destruct H2 as (Hup & _).
  destruct H3 as (Hsb & Hev & _).
  exists w'. split; [reflexivity |]. split; [exact Ht |].
  split.
  { apply rng_state_eq; cbn [after_trial ints ipos unifs upos];
      try assumption.
    rewrite Hup. destruct (flt (Fin 0) (trial_paccept i dbeta L w)); lia. }
  split; [eapply state_wf_transfer; eassumption |].
  split; [exact Hsb | exact Hrej].
Qed.

(** A sequence of trials. *)
Lemma trials_run p lnprob logl (d : nat -> float) (bl : list nat) :
  forall w,
    state_wf w p lnprob logl ->
    (bl <> [] -> 0 < nwalkers (self w)) ->
    Forall (fun i => 1 <= i < ntemps (self w)) bl ->
    exists w' trials,
      for_each bl (fun i => swap_trial p lnprob logl i (d i)) w = (w', Ok tt)
      /\ trace w' = trace w ++ trials
      /\ map event_boundary trials = map Some bl
      /\ draws_from (nwalkers (self w)) (rng w) trials
      /\ rng w' = rng_after (rng w) trials.
Proof.
  induction bl as [|i bl IH]; intros w Hwf Hnw Hbl.
  - exists w, []. cbn. rewrite app_nil_r. auto.
  - assert (Hnw' : 0 < nwalkers (self w)) by (apply Hnw; discriminate).
    inversion Hbl as [|? ? Hi Hbl']; subst.
    pose proof Hwf as (_ & _ & _ & _ & (L & HL & _)).
    destruct (swap_trial_draws p lnprob logl i (d i) w L Hwf HL Hi Hnw')
      as (w1 & Hrun & Ht & Hr & Hwf1 & Hsb & _).
    pose proof Hsb as (_ & _ & Ent & Enw & _).
    destruct (IH w1 Hwf1) as (w' & trials & Hrun' & Ht' & Hb' & Hd' & Hr').
    { intros _. rewrite Enw. exact Hnw'. }
    { rewrite Ent. exact Hbl'. }
    exists w'.
    exists (EvTrial i (trial_ii w) (trial_jj w) (trial_paccept i (d i) L w)
              (trial_accepted i (d i) L w) :: trials).
    split.
    { cbn [for_each]. unfold bind at 1. rewrite Hrun. exact Hrun'. }
    split.
    { rewrite Ht', Ht, <- app_assoc. reflexivity. }
    split.
    { cbn [map event_boundary]. rewrite Hb'. reflexivity. }
    split.
    { cbn [draws_from]. split; [reflexivity |]. split; [reflexivity |].
      split; [reflexivity |]. rewrite <- Hr, <- Enw. exact Hd'. }
    cbn [rng_after]. rewrite <- Hr. exact Hr'.
Qed.

Lemma schedule_no_walkers (nt : nat) : swap_schedule nt 0 = [].
Proof.
  unfold swap_schedule. induction (rev (seq 1 (nt - 1))) as [|i l IH];
    [reflexivity | exact IH].
Qed.

Lemma schedule_boundaries (nt nw : nat) :
  Forall (fun i => 1 <= i < nt) (swap_schedule nt nw).
Proof.
  unfold swap_schedule. apply List.Forall_forall. intros i Hi.
  apply in_flat_map in Hi. destruct Hi as (j & Hj & Hi).
  apply repeat_spec in Hi. subst i.
  apply in_rev, in_seq in Hj. lia.
Qed.

Lemma draws_from_ipos nw g t :
  draws_from nw g t -> ipos (rng_after g t) = ipos g + 2 * length t.
Proof.
  revert g. induction t as [|e t IH]; intros g Hd; cbn [rng_after length].
  - lia.
  - destruct e; cbn [draws_from] in Hd; try contradiction.
    destruct Hd as (_ & _ & _ & Hd). rewrite (IH _ Hd).
    cbn [after_trial ipos]. lia.
Qed.

(** C1.  One exchange call, for a joint state of the documented shapes.
    (1) The call is the sequence of its trials: the boundaries
    [i = ntemps-1, ..., 1] in this order, [nwalkers] trials at each, the
    trials of boundary [i] run with [dbeta = betas[i-1] - betas[i]].
    (2) It returns the three arrays it was given; its trace is the
    schedule's trials, one event each; and the trials take their draws
    from the generator one after the other ([draws_from]): each trial
    draws [ii] and then [jj] by two new calls of [randint(nwalkers)]
    and, unless [paccept > 0], one new value [u] of [rand()], so that
    the call advances the generator by two integers per trial and no
    trial sees a value an earlier trial has seen.  (3) A trial computes
    [paccept = dbeta * (lnlike[i, ii] - lnlike[i-1, jj])] from the
    log-likelihoods as they are when it starts, accepts exactly when
    [paccept > 0] or [log(u) < paccept], leaves the generator advanced
    by its draws, and leaves the arrays as they were when it rejects;
    both indices are below [nwalkers], the same walker may be drawn
    again.  (That [randint] and [rand] are uniform and independent is
    numpy's part; the generator is given here by the values it
    returns.) *)
Theorem temperature_swaps_spec (p lnprob logl : loc) (w : world) :
  state_wf w p lnprob logl ->
  _temperature_swaps p lnprob logl w
  = (log EvExchange ;;
     for_each (swap_schedule (ntemps (self w)) (nwalkers (self w)))
       (fun i => swap_trial p lnprob logl i (dbeta_at (self w) i)) ;;
     ret (p, lnprob, logl)) w
  /\ (exists w' trials,
        _temperature_swaps p lnprob logl w = (w', Ok (p, lnprob, logl))
        /\ trace w' = trace w ++ EvExchange :: trials
        /\ map event_boundary trials
           = map Some (swap_schedule (ntemps (self w)) (nwalkers (self w)))
        /\ draws_from (nwalkers (self w)) (rng w) trials
        /\ rng w' = rng_after (rng w) trials
        /\ ipos (rng w')
           = ipos (rng w)
             + 2 * (nwalkers (self w) * (ntemps (self w) - 1)))
  /\ (forall w1 i dbeta L,
        state_wf w1 p lnprob logl ->
        heap w1 !! logl = Some L ->
        1 <= i < ntemps (self w1) -> 0 < nwalkers (self w1) ->
        trial_ii w1 < nwalkers (self w1)
        /\ trial_jj w1 < nwalkers (self w1)
        /\ exists w2,
             swap_trial p lnprob logl i dbeta w1 = (w2, Ok tt)
             /\ trace w2 = trace w1
                  ++ [EvTrial i (trial_ii w1) (trial_jj w1)
                        (trial_paccept i dbeta L w1)
                        (trial_accepted i dbeta L w1)]
             /\ rng w2 = after_trial (trial_paccept i dbeta L w1) (rng w1)
             /\ state_wf w2 p lnprob logl
             /\ (trial_accepted i dbeta L w1 = false -> heap w2 = heap w1)).
Proof.
  intros Hwf. split; [apply temperature_swaps_run, Hwf |]. split.
  - pose proof Hwf as ((Sb & _) & _).
    pose proof (temperature_swaps_run p lnprob logl w Sb) as Hrun.
    set (w0 := set_trace (trace w ++ [EvExchange]) w).
    assert (Hwf0 : state_wf w0 p lnprob logl) by exact Hwf.
    destruct (trials_run p lnprob logl (dbeta_at (self w))
                (swap_schedule (ntemps (self w)) (nwalkers (self w)))
                w0 Hwf0)
      as (w' & trials & Hfor & Ht & Hb & Hd & Hr).
    { intros Hne. cbn [w0 self set_trace].
      destruct (nwalkers (self w)) as [|n]; [| lia].
      rewrite schedule_no_walkers in Hne. contradiction. }
    { apply schedule_boundaries. }
    exists w', trials.
    assert (Hcall : _temperature_swaps p lnprob logl w
                    = (w', Ok (p, lnprob, logl))).
    { rewrite Hrun. unfold bind at 1. unfold log. fold w0.
      unfold bind. rewrite Hfor. reflexivity. }
    split; [exact Hcall |]. split.
    { rewrite Ht. cbn [w0 trace set_trace]. rewrite <- app_assoc.
      reflexivity. }
    split; [exact Hb |]. split; [exact Hd |]. split; [exact Hr |].
    rewrite Hr. cbn [w0 rng set_trace] in *.
    rewrite (draws_from_ipos _ _ _ Hd).
    assert (Hlen : length trials
                   = length (swap_schedule (ntemps (self w))
                                           (nwalkers (self w)))).
    { rewrite <- (length_map event_boundary), Hb, length_map. reflexivity. }
    rewrite Hlen, schedule_length. reflexivity.
  - intros w1 i dbeta L Hwf1 HL Hi Hnw.
    split; [apply Nat.mod_upper_bound; lia |].
    split; [apply Nat.mod_upper_bound; lia |].
    destruct (swap_trial_draws p lnprob logl i dbeta w1 L Hwf1 HL Hi Hnw)
      as (w2 & Hrun & Ht & Hr & Hwf2 & _ & Hrej).
    exists w2. auto.
Qed.

Lemma world3_wf : state_wf world3 0 1 2.
Proof.
  unfold state_wf, sampler_wf, has_shape. cbn.
  repeat split; try lia; eauto.
Qed.

Lemma temperature_swaps_spec_witness :
  exists w' trials,
    _temperature_swaps 0 1 2 world3 = (w', Ok (0, 1, 2))
    /\ trace w' = EvExchange :: trials
    /\ map event_boundary trials = [Some 2; Some 2; Some 1; Some 1]
    /\ draws_from 2 rng3 trials
    /\ ipos (rng w') = 8.
Proof.
  destruct (temperature_swaps_spec 0 1 2 world3 world3_wf)
    as (_ & (w' & trials & Hrun & Ht & Hb & Hd & _ & Hi) & _).
  exists w', trials. auto.
Defined.

(** ** The counters after exchange calls *)

(** One exchange call and the attempted counters. *)
Lemma temperature_swaps_attempts p lnprob logl w :
  state_wf w p lnprob logl ->
  exists w',
    _temperature_swaps p lnprob logl w = (w', Ok (p, lnprob, logl))
    /\ state_wf w' p lnprob logl
    /\ ntemps (self w') = ntemps (self w)
    /\ nwalkers (self w') = nwalkers (self w)
    /\ forall r, r < ntemps (self w) ->
         data (nswap (self w')) [r]
         = fadd (data (nswap (self w)) [r])
                (of_nat (nwalkers (self w)
                         * boundaries_of (ntemps (self w)) r)).
Proof.
  intros Hwf.
  pose proof (wp_conj _ _ _ _ _ _
                (temperature_swaps_wp p lnprob logl w (fun _ => False) Hwf)
                (temperature_swaps_effect p lnprob logl w (fun _ => False)
                   Hwf)) as Hwp.
  unfold wp in Hwp.
  destruct (_temperature_swaps p lnprob logl w) as [w' [r|e]];
    [| destruct Hwp; contradiction].
  destruct Hwp as ((-> & Hsb & Hev & _)
                   & trials & Ht & Hb & _ & _ & _ & _ & Hn & _).
  exists w'. split; [reflexivity |].
  split; [eapply state_wf_transfer; eassumption |].
  pose proof Hsb as (_ & _ & Ent & Enw & _).
  split; [exact Ent |]. split; [exact Enw |].
  intros r Hr. rewrite Hn, (schedule_attempts _ _ r trials Hr Hb).
  reflexivity.
Qed.

Lemma of_nat_inj (a b : nat) : of_nat a = of_nat b -> a = b.
Proof. unfold of_nat. intros [= H]. apply INR_eq, H. Qed.

Lemma swap_counters_bounded_witness :
  exists w1 w2 F f,
    _temperature_swaps 0 1 2 world3 = (w1, Ok (0, 1, 2))
    /\ _temperature_swaps 0 1 2 w1 = (w2, Ok (0, 1, 2))
    /\ item (nswap (self w2)) [1] = Ok (of_nat 8)
    /\ tswap_acceptance_fraction w2 = (w2, Ok F)
    /\ item F [1] = Ok (Fin f) /\ (0 <= f <= 1)%R.
Proof.
  destruct (temperature_swaps_attempts 0 1 2 world3 world3_wf)
    as (w1 & Hrun1 & Hwf1 & Ent1 & Enw1 & Hn1).
  destruct (temperature_swaps_attempts 0 1 2 w1 Hwf1)
    as (w2 & Hrun2 & Hwf2 & Ent2 & Enw2 & Hn2).
  assert (Hex : exchanged (self w2)).
  { replace w2 with (fst (_temperature_swaps 0 1 2 w1))
      by (rewrite Hrun2; reflexivity).
    apply exchanged_swaps.
    replace w1 with (fst (_temperature_swaps 0 1 2 world3))
      by (rewrite Hrun1; reflexivity).
    apply exchanged_swaps.
    apply (exchanged_init fp_ideal 3 2 1
             (fun _ => Ok (Fin 0)) (fun _ => Ok (Fin 0))
             (Some ladder3) (fun _ _ _ => idle)).
    reflexivity. }
  assert (H8 : data (nswap (self w2)) [1] = of_nat 8).
  { rewrite Hn2 by (rewrite Ent1; cbn; lia).
    rewrite Hn1 by (cbn; lia).
    rewrite Ent1, Enw1. cbn [world3 self sampler3 ntemps nwalkers nswap].
    change (data (np_zeros [3]) [1]) with (of_nat 0).
    rewrite fadd_of_nat_add. unfold of_nat. cbn [fadd]. f_equal.
    change (INR 0) with 0%R. rewrite Rplus_0_l. reflexivity. }
  assert (Hi : 1 < ntemps (self w2)) by (rewrite Ent2, Ent1; cbn; lia).
  destruct (swap_counters_bounded (self w2) 1 Hex Hi)
    as (a & n & Ha & Hn & _ & Hle & Hfrac).
  assert (En : n = 8).
  { pose proof Hwf2 as ((_ & Sn & _) & _). pose proof Hn as Hn'.
    unfold item in Hn'. rewrite Sn in Hn'. cbn [in_bounds] in Hn'.
    rewrite (proj2 (Nat.ltb_lt _ _) Hi) in Hn'. cbn [andb] in Hn'.
    rewrite H8 in Hn'. injection Hn' as Hn'. symmetry.
    apply of_nat_inj. unfold of_nat. f_equal. exact Hn'. }
  subst n.
  destruct (Hfrac ltac:(lia) w2 eq_refl) as (F & f & HF & Hf & Hr).
  exists w1, w2, F, f.
  split; [exact Hrun1 |]. split; [exact Hrun2 |]. split; [exact Hn |].
  split; [exact HF |]. split; [exact Hf | exact Hr].
Defined.

(** ** What the chain holds after a call *)

Lemma step_holds_recorded s1 s2 isave m P Q L P' Q' L' :
  m <> isave ->
  recorded isave P' (_chain s1) (_chain s2) ->
  recorded isave Q' (_lnprob s1) (_lnprob s2) ->
  recorded isave L' (_lnlikelihood s1) (_lnlikelihood s2) ->
  step_holds s1 m P Q L -> step_holds s2 m P Q L.
Proof.
  intros Hm (a & a' & Ha & Ha' & _ & Da) (b & b' & Hb & Hb' & _ & Db)
         (c & c' & Hc & Hc' & _ & Dc)
         (C & CQ & CL & HC & HCQ & HCL & D1 & D2 & D3).
  rewrite HC in Ha. injection Ha as <-.
  rewrite HCQ in Hb. injection Hb as <-.
  rewrite HCL in Hc. injection Hc as <-.
  exists a', b', c'. repeat split; try assumption.
  - intros i j x. rewrite Da. cbn [lookup list_lookup].
    destruct (decide (Some m = Some isave)) as [[= E]|_];
      [contradiction | apply D1].
  - intros i j. rewrite Db. cbn [lookup list_lookup].
    destruct (decide (Some m = Some isave)) as [[= E]|_];
      [contradiction | apply D2].
  - intros i j. rewrite Dc. cbn [lookup list_lookup].
    destruct (decide (Some m = Some isave)) as [[= E]|_];
      [contradiction | apply D3].
Qed.

Lemma step_holds_new s1 s2 isave P Q L :
  recorded isave P (_chain s1) (_chain s2) ->
  recorded isave Q (_lnprob s1) (_lnprob s2) ->
  recorded isave L (_lnlikelihood s1) (_lnlikelihood s2) ->
  step_holds s2 isave P Q L.
Proof.
  intros (a & a' & _ & Ha' & _ & Da) (b & b' & _ & Hb' & _ & Db)
         (c & c' & _ & Hc' & _ & Dc).
  exists a', b', c'. repeat split; try assumption.
  - intros i j x. rewrite Da. cbn [lookup list_lookup].
    destruct (decide (Some isave = Some isave));
      [reflexivity | contradiction].
  - intros i j. rewrite Db. cbn [lookup list_lookup].
    destruct (decide (Some isave = Some isave));
      [reflexivity | contradiction].
  - intros i j. rewrite Dc. cbn [lookup list_lookup].
    destruct (decide (Some isave = Some isave));
      [reflexivity | contradiction].
Qed.

(** The generator driven through [k] yields, with storage: for every
    step [m] recorded so far, slot [n0 + m] of the chain holds what the
    three arrays held at the yield of iteration [thin * (m + 1)]. *)
Lemma sample_upto_slots k p0 lnprob0 lnlike0 iterations thin n0 w :
  sampler_ready (self w) -> args_ok w p0 lnprob0 lnlike0 ->
  0 < thin -> k <= iterations -> chain_state (self w) n0 ->
  exists w' l,
    sample_upto k p0 lnprob0 lnlike0 iterations thin true w = (w', Ok l)
    /\ forall m, m < k / thin ->
         exists wm lm P Q L,
           sample_upto (thin * (m + 1)) p0 lnprob0 lnlike0 iterations thin
             true w = (wm, Ok lm)
           /\ heap wm !! p0 = Some P /\ heap wm !! l_lnprob lm = Some Q
           /\ heap wm !! l_logl lm = Some L
           /\ step_holds (self w') (n0 + m) P Q L.
Proof.
  intros Hready Hargs Hthin Hk Hch.
  induction k as [|k IH].
  - pose proof (sample_upto_wp 0 p0 lnprob0 lnlike0 iterations thin true n0 w
                  (fun _ => False) Hready Hargs Hthin Hk (fun _ => Hch)) as H.
    apply wp_returns in H. destruct H as (l & w' & Hrun & _).
    exists w', l. split; [exact Hrun |].
    intros m Hm. rewrite Nat.Div0.div_0_l in Hm. lia.
  - destruct (IH ltac:(lia)) as (w1' & l1' & Hrun1' & Hslots).
    destruct (sample_next_round k p0 lnprob0 lnlike0 iterations thin n0 w
                Hready Hargs Hthin Hk Hch)
      as (w1 & l1 & w2 & l2 & Hrun1 & Hrun2 & Hp1 & Hp2 & Hafter).
    rewrite Hrun1 in Hrun1'. injection Hrun1' as <- <-.
    exists w2, l2. split; [exact Hrun2 |].
    destruct Hp1 as (Hl1 & _). destruct Hp2 as (Hl2 & _).
    assert (E0 : l_p l2 = p0) by (rewrite Hl2; reflexivity).
    assert (E1 : l_lnprob l2 = l_lnprob l1) by (rewrite Hl1, Hl2; reflexivity).
    assert (E2 : l_logl l2 = l_logl l1) by (rewrite Hl1, Hl2; reflexivity).
    unfold records_at in Hafter. cbn [andb] in Hafter.
    replace (S k) with (k + 1) by lia.
    destruct (Nat.eqb_spec ((k + 1) mod thin) 0) as [Hm0|Hm0].
    + destruct Hafter as (_ & P & Q & L & HP & HQ & HL & R1 & R2 & R3).
      destruct (thin_multiple thin k Hthin Hm0) as [Eq Ek].
      intros m Hm. rewrite Eq in Hm.
      destruct (Nat.eq_dec m (k / thin)) as [->|Hne].
      * exists w2, l2, P, Q, L.
        split; [rewrite <- Ek; replace (k + 1) with (S k) by lia;
                exact Hrun2 |].
        split; [exact HP |]. split; [rewrite E1; exact HQ |].
        split; [rewrite E2; exact HL |].
        eapply step_holds_new; eassumption.
      * destruct (Hslots m ltac:(lia))
          as (wm & lm & Pm & Qm & Lm & Hrm & HPm & HQm & HLm & Hst).
        exists wm, lm, Pm, Qm, Lm.
        split; [exact Hrm |]. split; [exact HPm |]. split; [exact HQm |].
        split; [exact HLm |].
        eapply (step_holds_recorded (self w1) (self w2) (n0 + k / thin));
          [lia | eassumption ..].
    + destruct Hafter as (C1 & C2 & C3).
      rewrite (thin_between thin k Hthin Hm0).
      intros m Hm.
      destruct (Hslots m Hm)
        as (wm & lm & Pm & Qm & Lm & Hrm & HPm & HQm & HLm & Hst).
      exists wm, lm, Pm, Qm, Lm.
      split; [exact Hrm |]. split; [exact HPm |]. split; [exact HQm |].
      split; [exact HLm |].
      destruct Hst as (C & CQ & CL & HC & HCQ & HCL & D).
      exists C, CQ, CL. rewrite C1, C2, C3. auto.
Qed.

(** C4.  With chain storage on, starting from a sampler that has stored
    nothing and making the calls [cs] one after the other, each run to
    exhaustion: (1) the chain buffers then have
    [sum (iterations_k / thin_k)] steps, the position chain being of
    shape [(ntemps, nwalkers, sum, dim)]; (2) a further call returns and
    records exactly [iterations / thin] steps, the steps
    [thin, 2 thin, ...] of that call, into the next free slots: slot
    [sum + m] of the three buffers holds what the three arrays of the
    joint state held when iteration [thin * (m + 1)] of the call
    yielded; and the call leaves every entry recorded before it as it
    was; (3) so do any further calls made after it. *)
Theorem chain_store_grows (w0 : world) (cs : list call) (w : world) :
  sampler_ready (self w0) -> chain_empty (self w0) ->
  after_calls w0 cs w ->
  (cs <> [] -> chain_shape (self w) (stored cs))
  /\ (forall c, call_ok w c ->
        exists w' l evs,
          run_call c w = (w', Ok l)
          /\ trace w' = trace w ++ evs
          /\ records evs
             = recorded_steps (c_thin c) (stored cs)
                 (c_iterations c / c_thin c)
          /\ chain_shape (self w')
               (stored cs + c_iterations c / c_thin c)
          /\ keeps_chain (stored cs) (self w) (self w')
          /\ forall m, m < c_iterations c / c_thin c ->
               exists wm lm P Q L,
                 sample_upto (c_thin c * (m + 1)) (c_p0 c) (c_lnprob0 c)
                   (c_lnlike0 c) (c_iterations c) (c_thin c) true w
                 = (wm, Ok lm)
                 /\ heap wm !! c_p0 c = Some P
                 /\ heap wm !! l_lnprob lm = Some Q
                 /\ heap wm !! l_logl lm = Some L
                 /\ step_holds (self w') (stored cs + m) P Q L)
  /\ (forall cs' w', after_calls w cs' w' ->
        keeps_chain (stored cs) (self w) (self w')).
Proof.
  intros Hready Hempty Hafter.
  assert (Hch0 : chain_state (self w0) 0) by (left; auto).
  destruct (after_calls_invariant w0 0 cs w Hready Hch0 Hafter)
    as (Hr & Hc & Hs & _).
  cbn [Nat.add] in Hc, Hs.
  split; [exact Hs |]. split.
  - intros c Hok.
    pose proof (run_call_wp c (stored cs) w (fun _ => False) Hr Hc Hok)
      as Hwp.
    apply wp_returns in Hwp.
    destruct Hwp as (l & w' & Hrun & _ & _ & _ & _ & _
                     & (evs & Ht & _ & Hrec) & Hcs' & Hk').
    exists w', l, evs.
    split; [exact Hrun |]. split; [exact Ht |]. split; [exact Hrec |].
    split; [exact Hcs' |]. split; [exact Hk' |].
    destruct Hok as [Hthin Hargs].
    destruct (sample_upto_slots (c_iterations c) (c_p0 c) (c_lnprob0 c)
                (c_lnlike0 c) (c_iterations c) (c_thin c) (stored cs) w
                Hr Hargs Hthin (Nat.le_refl _) Hc)
      as (w'' & l'' & Hrun'' & Hslots).
    unfold returns, run_call, sample in Hrun.
    rewrite Hrun in Hrun''. injection Hrun'' as <- <-.
    exact Hslots.
  - intros cs' w' Hafter'.
    apply (after_calls_invariant w (stored cs) cs' w' Hr Hc Hafter').
Qed.

(** After a call the caller's positions can be passed on to the next
    call. *)
Lemma call_keeps_args c n0 w :
  sampler_ready (self w) -> chain_state (self w) n0 -> call_ok w c ->
  callbacks_total (self w) ->
  args_ok (fst (run_call c w)) (c_p0 c) None None.
Proof.
  intros Hready Hch Hok Hcb.
  pose proof (run_call_wp c n0 w (fun _ => False) Hready Hch Hok) as Hwp.
  apply wp_returns in Hwp.
  destruct Hwp as (l & w' & Hrun & _ & Hst & _ & Hwf & _).
  unfold returns in Hrun. rewrite Hrun. cbn [fst].
  destruct Hwf as (_ & _ & HP & _).
  split; [exact HP |].
  destruct Hst as (El & Ep & _). unfold callbacks_total.
  rewrite El, Ep. exact Hcb.
Qed.

Lemma chain_store_grows_witness :
  exists w1 w2 l wm lm P Q L,
    after_calls world1 [call_5_2] w1
    /\ run_call call_3_1 w1 = (w2, Ok l)
    /\ chain_shape (self w2) 5
    /\ keeps_chain 2 (self w1) (self w2)
    /\ sample_upto 1 0 None None 3 1 true w1 = (wm, Ok lm)
    /\ heap wm !! 0 = Some P /\ heap wm !! l_lnprob lm = Some Q
    /\ heap wm !! l_logl lm = Some L
    /\ step_holds (self w2) 2 P Q L.
Proof.
  assert (Hok1 : call_ok world1 call_5_2).
  { split; [cbn; lia | exact world1_args_ok]. }
  assert (Hafter : after_calls world1 [call_5_2]
                     (fst (run_call call_5_2 world1))).
  { apply (after_call world1 []); [apply after_none | exact Hok1]. }
  assert (Hok2 : call_ok (fst (run_call call_5_2 world1)) call_3_1).
  { split; [cbn; lia |].
    apply (call_keeps_args call_5_2 0 world1).
    - exact sampler1_ready.
    - left. split; [repeat split | reflexivity].
    - exact Hok1.
    - split; intros x; eexists; reflexivity. }
  destruct (chain_store_grows world1 [call_5_2]
              (fst (run_call call_5_2 world1)))
    as (_ & H & _).
  - exact sampler1_ready.
  - repeat split.
  - exact Hafter.
  - destruct (H call_3_1 Hok2)
      as (w2 & l & evs & Hrun & _ & _ & Hcs & Hk & Hslots).
    destruct (Hslots 0 ltac:(cbn; lia))
      as (wm & lm & P & Q & L & Hrm & HP & HQ & HL & Hst).
    exists (fst (run_call call_5_2 world1)), w2, l, wm, lm, P, Q, L.
    split; [exact Hafter |]. split; [exact Hrun |].
    split; [exact Hcs |]. split; [exact Hk |].
    split; [exact Hrm |]. split; [exact HP |]. split; [exact HQ |].
    split; [exact HL | exact Hst].
Defined.

(** ** What the advance writes into the caller's arrays *)

Lemma bind_returns {A B} (m : M A) (k : A -> M B) w w1 a :
  m w = (w1, Ok a) -> bind m k w = k a w1.
Proof. intros H. unfold bind. rewrite H. reflexivity. Qed.

(** Rung [j] is advanced: the ensemble sampler is called on rung [j] of
    the three arrays, and what it returns is written over rung [j];
    the other rungs are left as they were. *)
Lemma advance_rung_data p lnprob logl j w s P Q L E :
  state_wf w p lnprob logl ->
  heap w !! p = Some P -> heap w !! lnprob = Some Q ->
  heap w !! logl = Some L ->
  j < ntemps (self w) ->
  samplers (self w) !! j = Some s ->
  advancer_ok (nwalkers (self w)) (dim (self w)) s ->
  wp (advance_rung p lnprob logl j)
     (fun _ w' =>
        exists ps qs ls P' Q' L',
          es_sample s (es_calls s)
            (mkarr (skipn 1 (shape P)) (fun k => data P (j :: k)))
            (mkarr (skipn 1 (shape Q)) (fun k => data Q (j :: k)))
            (mkarr (skipn 1 (shape L)) (fun k => data L (j :: k)))
          = Ok (ps, qs, ls)
          /\ heap w' !! p = Some P' /\ heap w' !! lnprob = Some Q'
          /\ heap w' !! logl = Some L'
          /\ shape P' = shape P /\ shape Q' = shape Q /\ shape L' = shape L
          /\ shape ps = skipn 1 (shape P) /\ shape qs = skipn 1 (shape Q)
          /\ shape ls = skipn 1 (shape L)
          /\ (forall j' k, data P' (j' :: k)
                           = if j' =? j then data ps k else data P (j' :: k))
          /\ (forall j' k, data Q' (j' :: k)
                           = if j' =? j then data qs k else data Q (j' :: k))
          /\ (forall j' k, data L' (j' :: k)
                           = if j' =? j then data ls k
                             else data L (j' :: k)))
     E w.
Proof.
  intros (Hs & Hne & (P0 & HP0 & SP) & (Q0 & HQ0 & SQ) & (L0 & HL0 & SL))
         HP HQ HL Hj Hsj Hadv.
  rewrite HP in HP0. injection HP0 as <-.
  rewrite HQ in HQ0. injection HQ0 as <-.
  rewrite HL in HL0. injection HL0 as <-.
  assert (Hp1 : p <> lnprob) by (intros ->; rewrite HP in HQ; congruence).
  assert (Hp2 : p <> logl) by (intros ->; rewrite HP in HL; congruence).
  unfold advance_rung. apply wp_bind, wp_attr. rewrite Hsj.
  apply wp_bind. eapply wp_getsub; [exact HP | rewrite SP; solve_bounds ..|].
  apply wp_bind. eapply wp_getsub; [exact HQ | rewrite SQ; solve_bounds ..|].
  apply wp_bind. eapply wp_getsub; [exact HL | rewrite SL; solve_bounds ..|].
  apply wp_bind, wp_log, wp_bind, wp_update_self.
  destruct (Hadv (es_calls s)
              (mkarr (skipn (length [j]) (shape P)) (fun k => data P ([j] ++ k)))
              (mkarr (skipn (length [j]) (shape Q)) (fun k => data Q ([j] ++ k)))
              (mkarr (skipn (length [j]) (shape L)) (fun k => data L ([j] ++ k))))
    as (ps & lps & lls & Hrun & S1 & S2 & S3);
    [cbn; rewrite SP; reflexivity | cbn; rewrite SQ; reflexivity
    | cbn; rewrite SL; reflexivity |].
  apply wp_bind. eapply wp_lift; [exact Hrun |]. cbn beta iota.
  apply wp_bind.
  eapply wp_setsub; [heap_lookup | rewrite SP; solve_bounds ..
                    | rewrite SP; exact S1 |].
  apply wp_bind.
  eapply wp_setsub; [heap_lookup | rewrite SQ; solve_bounds ..
                    | rewrite SQ; exact S2 |].
  eapply wp_setsub; [heap_lookup | rewrite SL; solve_bounds ..
                    | rewrite SL; exact S3 |].
  cbn [heap set_heap set_trace set_self set_rng self trace rng].
  eexists ps, lps, lls, _, _, _.
  split; [exact Hrun |].
  split; [heap_lookup |]. split; [heap_lookup |]. split; [heap_lookup |].
  cbn [shape data].
  split; [reflexivity |]. split; [reflexivity |]. split; [reflexivity |].
  split; [rewrite S1, SP; reflexivity |].
  split; [rewrite S2, SQ; reflexivity |].
  split; [rewrite S3, SL; reflexivity |].
  assert (Hsw : forall j' k, starts_with [j] (j' :: k) = (j' =? j)).
  { intros j' k. cbn [starts_with]. rewrite andb_true_r. apply Nat.eqb_sym. }
  repeat split; intros j' k; rewrite Hsw; reflexivity.
Qed.

(** Lines 198 to 202, the data: once every rung has been advanced, the
    three arrays hold, rung by rung, what the ensemble samplers
    returned. *)
Lemma advance_all_data p lnprob logl w P Q L E :
  state_wf w p lnprob logl ->
  sampler_ready (self w) ->
  heap w !! p = Some P -> heap w !! lnprob = Some Q ->
  heap w !! logl = Some L ->
  wp (for_each (range (length (samplers (self w))))
        (advance_rung p lnprob logl))
     (fun _ w' =>
        exists P' Q' L',
          heap w' !! p = Some P' /\ heap w' !! lnprob = Some Q'
          /\ heap w' !! logl = Some L'
          /\ advanced (samplers (self w)) P Q L P' Q' L')
     E w.
Proof.
  intros Hwf (Hs & Hlen & Hadv) HP HQ HL.
  set (ss := samplers (self w)) in *.
  pose (I := fun (j : nat) (w' : world) =>
    self w' = set_samplers (map called (firstn j ss) ++ skipn j ss) (self w)
    /\ heap_evolves [p; lnprob; logl] (heap w) (heap w')
    /\ exists Pj Qj Lj,
         heap w' !! p = Some Pj /\ heap w' !! lnprob = Some Qj
         /\ heap w' !! logl = Some Lj
         /\ shape Pj = shape P /\ shape Qj = shape Q /\ shape Lj = shape L
         /\ (forall j' k, j <= j' -> data Pj (j' :: k) = data P (j' :: k))
         /\ (forall j' k, j <= j' -> data Qj (j' :: k) = data Q (j' :: k))
         /\ (forall j' k, j <= j' -> data Lj (j' :: k) = data L (j' :: k))
         /\ forall j' s, j' < j -> ss !! j' = Some s ->
              exists pin qin lin ps qs ls,
                holds_rung pin P j' /\ holds_rung qin Q j'
                /\ holds_rung lin L j'
                /\ es_sample s (es_calls s) pin qin lin = Ok (ps, qs, ls)
                /\ holds_rung ps Pj j' /\ holds_rung qs Qj j'
                /\ holds_rung ls Lj j').
  eapply wp_mono; [apply (wp_for_range _ _ I E) | | exact (fun _ H => H)].
  - unfold I. cbn [firstn skipn map app].
    split; [destruct w as [h g t s]; destruct s; reflexivity |].
    split; [apply heap_evolves_refl |].
    exists P, Q, L. repeat split; try assumption; try reflexivity.
    intros j' s Hj'. lia.
  - intros j w1 Hj (S1 & H1 & Pj & Qj & Lj & HPj & HQj & HLj
                    & SPj & SQj & SLj & DP & DQ & DL & Hdone).
    assert (Hst : same_static (self w) (self w1))
      by (rewrite S1; repeat split; reflexivity).
    pose proof (state_wf_static _ _ _ _ _ _ Hwf Hst H1) as Hwf1.
    destruct (lookup_lt_is_Some_2 ss j Hj) as [s Hsj].
    assert (Hsj1 : samplers (self w1) !! j = Some s).
    { rewrite S1. cbn [samplers set_samplers].
      rewrite lookup_app_r by (rewrite length_map, length_take; lia).
      rewrite length_map, length_take, lookup_drop.
      replace (j `min` length ss) with j by lia.
      rewrite Nat.sub_diag, Nat.add_0_r. exact Hsj. }
    assert (Hj1 : j < ntemps (self w1))
      by (rewrite S1; cbn [ntemps set_samplers]; lia).
    assert (Hadv1 : advancer_ok (nwalkers (self w1)) (dim (self w1)) s).
    { rewrite S1. cbn [nwalkers dim set_samplers].
      rewrite Forall_forall in Hadv. apply Hadv.
      eapply list_elem_of_lookup_2. exact Hsj. }
    eapply wp_mono;
      [apply wp_conj;
       [apply (advance_rung_wp p lnprob logl j w1 s E Hwf1 Hj1 Hsj1 Hadv1)
       | apply (advance_rung_data p lnprob logl j w1 s Pj Qj Lj E
                  Hwf1 HPj HQj HLj Hj1 Hsj1 Hadv1)]
      | | exact (fun _ H => proj1 H)].
    cbn beta.
    intros u w2 ((S2 & H2 & _ & _)
                 & ps & qs & ls & P' & Q' & L' & Hrun & HP' & HQ' & HL'
                 & SP' & SQ' & SL' & Sps & Sqs & Sls & DP' & DQ' & DL').
    unfold I. split.
    { rewrite S2, S1. cbn [samplers set_samplers].
      rewrite (advance_next ss j s Hsj). reflexivity. }
    split; [eapply heap_evolves_trans; eassumption |].
    exists P', Q', L'.
    split; [exact HP' |]. split; [exact HQ' |]. split; [exact HL' |].
    split; [congruence |]. split; [congruence |]. split; [congruence |].
    split.
    { intros j' k Hle. rewrite DP'.
      destruct (Nat.eqb_spec j' j) as [->|_]; [lia |]. apply DP. lia. }
    split.
    { intros j' k Hle. rewrite DQ'.
      destruct (Nat.eqb_spec j' j) as [->|_]; [lia |]. apply DQ. lia. }
    split.
    { intros j' k Hle. rewrite DL'.
      destruct (Nat.eqb_spec j' j) as [->|_]; [lia |]. apply DL. lia. }
    intros j' s' Hj' Hs'.
    destruct (Nat.eq_dec j' j) as [->|Hne].
    + rewrite Hsj in Hs'. injection Hs' as <-.
      eexists _, _, _, ps, qs, ls.
      split; [| split; [| split; [| split; [exact Hrun |]]]].
      * split; [cbn [shape]; congruence |]. intros k. cbn [data].
        apply DP. lia.
      * split; [cbn [shape]; congruence |]. intros k. cbn [data].
        apply DQ. lia.
      * split; [cbn [shape]; congruence |]. intros k. cbn [data].
        apply DL. lia.
      * split; [| split]; (split; [congruence |]); intros k;
          [rewrite DP' | rewrite DQ' | rewrite DL'];
          rewrite Nat.eqb_refl; reflexivity.
    + destruct (Hdone j' s' ltac:(lia) Hs')
        as (pin & qin & lin & ps' & qs' & ls' & R1 & R2 & R3 & Hr
            & (A1 & A2) & (B1 & B2) & (C1 & C2)).
      exists pin, qin, lin, ps', qs', ls'.
      split; [exact R1 |]. split; [exact R2 |]. split; [exact R3 |].
      split; [exact Hr |].
      split; [| split]; (split; [congruence |]); intros k;
        [rewrite DP', A2 | rewrite DQ', B2 | rewrite DL', C2];
        destruct (Nat.eqb_spec j' j); [contradiction | reflexivity
                                      | contradiction | reflexivity
                                      | contradiction | reflexivity].
  - cbn beta.
    intros u w' (S1 & H1 & P' & Q' & L' & HP' & HQ' & HL'
                 & SP' & SQ' & SL' & _ & _ & _ & Hdone).
    exists P', Q', L'.
    split; [exact HP' |]. split; [exact HQ' |]. split; [exact HL' |].
    split; [exact SP' |]. split; [exact SQ' |]. split; [exact SL' |].
    intros j s Hsj. apply Hdone; [| exact Hsj].
    apply lookup_lt_Some in Hsj. exact Hsj.
Qed.

(** What follows the exchange in a round (the record, if any, and the
    yield) leaves the heap alone. *)
Lemma round_tail_heap thin storechain (l : locals) i p lnprob logl n w E :
  state_wf w p lnprob logl -> 0 < thin ->
  (records_at thin storechain i = true ->
   chain_shape (self w) n /\ l_isave l < n) ->
  wp ((if thin =? 0 then raise ZeroDivisionError else ret tt) ;;
      isave <- (if (i + 1) mod thin =? 0 then
                  if storechain then
                    log (EvRecord (i + 1) (l_isave l)) ;;
                    record p lnprob logl (l_isave l) ;;
                    ret (l_isave l + 1)
                  else ret (l_isave l)
                else ret (l_isave l)) ;;
      log (EvYield p lnprob logl) ;;
      ret {| l_p := p; l_lnprob := lnprob; l_logl := logl;
             l_isave := isave |})
     (fun _ w' => heap w' = heap w) E w.
Proof.
  intros Hwf Hthin Hrec.
  destruct (Nat.eqb_spec thin 0) as [|_]; [lia |].
  apply wp_bind, wp_ret. unfold records_at in Hrec.
  destruct ((i + 1) mod thin =? 0) eqn:Emod; [destruct storechain |];
    cbn [andb] in Hrec.
  - destruct (Hrec eq_refl) as [Hcs Hisave].
    apply wp_bind, wp_bind, wp_log, wp_bind.
    eapply wp_mono;
      [apply (record_wp p lnprob logl (l_isave l) n _ E);
       [exact Hwf | exact Hcs | exact Hisave]
      | | exact (fun _ H => H)].
    cbn beta. intros u w3 (H3 & _).
    apply wp_ret, wp_bind, wp_log, wp_ret. exact H3.
  - apply wp_bind, wp_ret, wp_bind, wp_log, wp_ret. reflexivity.
  - apply wp_bind, wp_ret, wp_bind, wp_log, wp_ret. reflexivity.
Qed.

(** One round, phase by phase. *)
Lemma sample_step_phases thin storechain l i n w P Q L :
  state_wf w (l_p l) (l_lnprob l) (l_logl l) ->
  sampler_ready (self w) -> 0 < thin ->
  (records_at thin storechain i = true ->
   chain_shape (self w) n /\ l_isave l < n) ->
  heap w !! l_p l = Some P -> heap w !! l_lnprob l = Some Q ->
  heap w !! l_logl l = Some L ->
  exists wa we w' l' Pa Qa La,
    for_each (range (length (samplers (self w))))
      (advance_rung (l_p l) (l_lnprob l) (l_logl l)) w = (wa, Ok tt)
    /\ heap wa !! l_p l = Some Pa /\ heap wa !! l_lnprob l = Some Qa
    /\ heap wa !! l_logl l = Some La
    /\ advanced (samplers (self w)) P Q L Pa Qa La
    /\ _temperature_swaps (l_p l) (l_lnprob l) (l_logl l) wa
       = (we, Ok (l_p l, l_lnprob l, l_logl l))
    /\ sample_step thin storechain l i w = (w', Ok l')
    /\ heap w' = heap we.
Proof.
  intros Hwf Hready Hthin Hrec HP HQ HL.
  set (p := l_p l) in *. set (lnprob := l_lnprob l) in *.
  set (logl := l_logl l) in *.
  pose proof (wp_conj _ _ _ _ _ _
                (advance_all_wp p lnprob logl w (fun _ => False) Hwf Hready)
                (advance_all_data p lnprob logl w P Q L (fun _ => False)
                   Hwf Hready HP HQ HL)) as Ha.
  unfold wp in Ha.
  destruct (for_each (range (length (samplers (self w))))
              (advance_rung p lnprob logl) w) as [wa [[]|e]] eqn:Erun;
    [| destruct Ha; contradiction].
  destruct Ha as ((S1 & H1 & _ & _) & Pa & Qa & La & HPa & HQa & HLa & Hadv).
  assert (St1 : same_static (self w) (self wa))
    by (rewrite S1; repeat split; reflexivity).
  pose proof (state_wf_static _ _ _ _ _ _ Hwf St1 H1) as Hwfa.
  pose proof (temperature_swaps_wp p lnprob logl wa (fun _ => False) Hwfa)
    as He.
  unfold wp in He.
  destruct (_temperature_swaps p lnprob logl wa) as [we [r|e]] eqn:Eex;
    [| contradiction].
  destruct He as (-> & SB2 & H2 & _).
  pose proof (same_but_counters_static _ _ SB2) as St2.
  pose proof (same_static_trans _ _ _ St1 St2) as St12.
  pose proof (heap_evolves_trans _ _ _ _ H1 H2) as H12.
  pose proof (state_wf_static _ _ _ _ _ _ Hwf St12 H12) as Hwfe.
  assert (Hrec' : records_at thin storechain i = true ->
                  chain_shape (self we) n /\ l_isave l < n).
  { intros Hr. destruct (Hrec Hr) as [Hcs Hi]. split; [| exact Hi].
    destruct Hcs as (c & lp & ll & Hc & Hlp & Hll & Sc & Slp & Sll).
    destruct SB2 as (_&_&_&_&_& C1 & C2 & C3 &_).
    destruct St12 as (_ & _ & Ent & Enw & Ed & _).
    exists c, lp, ll. rewrite C1, C2, C3, S1, Ent, Enw, Ed.
    repeat split; assumption. }
  pose proof (round_tail_heap thin storechain l i p lnprob logl n we
                (fun _ => False) Hwfe Hthin Hrec') as Ht.
  assert (Hstep : sample_step thin storechain l i w
                  = ((if thin =? 0 then raise ZeroDivisionError else ret tt) ;;
                     isave <- (if (i + 1) mod thin =? 0 then
                                 if storechain then
                                   log (EvRecord (i + 1) (l_isave l)) ;;
                                   record p lnprob logl (l_isave l) ;;
                                   ret (l_isave l + 1)
                                 else ret (l_isave l)
                               else ret (l_isave l)) ;;
                     log (EvYield p lnprob logl) ;;
                     ret {| l_p := p; l_lnprob := lnprob; l_logl := logl;
                            l_isave := isave |}) we).
  { unfold sample_step.
    rewrite (bind_returns (attr samplers) _ w w (samplers (self w)) eq_refl).
    fold p lnprob logl.
    rewrite (bind_returns _ _ w wa tt Erun).
    rewrite (bind_returns _ _ wa we (p, lnprob, logl) Eex).
    reflexivity. }
  unfold wp in Ht. rewrite <- Hstep in Ht.
  destruct (sample_step thin storechain l i w) as [w' [l'|e]];
    [| contradiction].
  exists wa, we, w', l', Pa, Qa, La.
  split; [reflexivity |]. split; [exact HPa |]. split; [exact HQa |].
  split; [exact HLa |]. split; [exact Hadv |].
  split; [exact Eex |]. split; [reflexivity | exact Ht].
Qed.
(** ** Aliasing of the caller's arrays *)

(** C10.  The generator driven through [k] yields.  (1) Every triple it
    yields names the same three arrays; the first is the caller's [p0]
    itself, the other two are the caller's [lnprob0] and [lnlike0] when
    both were given and two new arrays otherwise.  (2) All updates are
    made in place in these three arrays ([heap_evolves]), and every
    other array of the caller is untouched, among them an [lnprob0]
    given without [lnlike0].  (3) The arrays are written: in every round
    the state that each ensemble sampler returns for its rung is stored
    over that rung of [p0] and of the other two arrays ([advanced]), the
    exchange then works on these arrays in place, and the heap it leaves
    is the heap the caller finds after the yield; so what the caller
    reads through [p0] after a yield is the current state of the
    walkers. *)
Theorem sample_yields_callers_arrays
    (k : nat) (p0 : loc) (lnprob0 lnlike0 : option loc)
    (iterations thin : nat) (storechain : bool) (n0 : nat) (w : world) :
  sampler_ready (self w) ->
  args_ok w p0 lnprob0 lnlike0 ->
  0 < thin -> k <= iterations ->
  (storechain = true -> chain_state (self w) n0) ->
  exists w' l evs,
    sample_upto k p0 lnprob0 lnlike0 iterations thin storechain w
    = (w', Ok l)
    /\ l_p l = p0
    /\ trace w' = trace w ++ evs
    /\ yields evs = repeat (p0, l_lnprob l, l_logl l) k
    /\ (forall a b, lnprob0 = Some a -> lnlike0 = Some b ->
          l_lnprob l = a /\ l_logl l = b)
    /\ (lnprob0 = None \/ lnlike0 = None ->
          l_lnprob l = length (heap w) /\ l_logl l = S (length (heap w)))
    /\ heap_evolves [p0; l_lnprob l; l_logl l] (heap w) (heap w')
    /\ (forall a, lnprob0 = Some a -> lnlike0 = None ->
          a <> p0 -> a < length (heap w) -> heap w' !! a = heap w !! a)
    /\ (forall j, j < k ->
          exists w1 l1 wa we w2 l2 P Q L Pa Qa La,
            sample_upto j p0 lnprob0 lnlike0 iterations thin storechain w
            = (w1, Ok l1)
            /\ heap w1 !! p0 = Some P /\ heap w1 !! l_lnprob l = Some Q
            /\ heap w1 !! l_logl l = Some L
            /\ for_each (range (length (samplers (self w1))))
                 (advance_rung p0 (l_lnprob l) (l_logl l)) w1
               = (wa, Ok tt)
            /\ heap wa !! p0 = Some Pa /\ heap wa !! l_lnprob l = Some Qa
            /\ heap wa !! l_logl l = Some La
            /\ advanced (samplers (self w1)) P Q L Pa Qa La
            /\ _temperature_swaps p0 (l_lnprob l) (l_logl l) wa
               = (we, Ok (p0, l_lnprob l, l_logl l))
            /\ sample_upto (S j) p0 lnprob0 lnlike0 iterations thin
                 storechain w = (w2, Ok l2)
            /\ heap w2 = heap we).
Proof.
  intros Hready Hargs Hthin Hk Hch.
  pose proof (sample_upto_wp k p0 lnprob0 lnlike0 iterations thin storechain
                n0 w (fun _ => False) Hready Hargs Hthin Hk Hch) as Hwp.
  apply wp_returns in Hwp.
  destruct Hwp as (l & w' & Hrun & -> & _ & _ & _ & Hev
                   & (evs & Ht & Hy & _) & _).
  cbn [l_p l_lnprob l_logl].
  exists w'. eexists. exists evs.
  split; [exact Hrun |]. cbn [l_p l_lnprob l_logl].
  split; [reflexivity |]. split; [exact Ht |]. split; [exact Hy |].
  split.
  { intros a b -> ->. cbn. auto. }
  split.
  { intros [-> | ->]; [| destruct lnprob0]; cbn; auto. }
  split; [exact Hev |].
  split.
  { intros a -> -> Hne Ha. cbn [working_arrays fst snd] in Hev.
    destruct Hev as (_ & _ & Hfr). apply Hfr; [exact Ha |].
    cbn. intros [H | [H | [H | []]]]; lia. }
  intros j Hj.
  destruct (sample_round j p0 lnprob0 lnlike0 iterations thin storechain n0 w
              Hready Hargs Hthin ltac:(lia) Hch)
    as (w1 & l1 & w2 & l2 & Hrun1 & Hrun2 & Hstep & Hp1 & Hwf1 & Hr1 & Hrec1).
  destruct Hp1 as (Hl1 & _).
  assert (E0 : l_p l1 = p0) by (rewrite Hl1; reflexivity).
  assert (E1 : l_lnprob l1 = fst (working_arrays w lnprob0 lnlike0))
    by (rewrite Hl1; reflexivity).
  assert (E2 : l_logl l1 = snd (working_arrays w lnprob0 lnlike0))
    by (rewrite Hl1; reflexivity).
  pose proof Hwf1 as (_ & _ & (P & HP & _) & (Q & HQ & _) & (L & HL & _)).
  destruct (sample_step_phases thin storechain l1 j
              (n0 + iterations / thin) w1 P Q L Hwf1 Hr1 Hthin Hrec1
              HP HQ HL)
    as (wa & we & w2' & l2' & Pa & Qa & La
        & Hadv & HPa & HQa & HLa & Hdata & Hex & Hstep' & Hheap).
  rewrite Hstep in Hstep'. injection Hstep' as <- <-.
  rewrite E0, E1, E2 in *.
  exists w1, l1, wa, we, w2, l2, P, Q, L, Pa, Qa, La.
  split; [exact Hrun1 |]. split; [exact HP |]. split; [exact HQ |].
  split; [exact HL |]. split; [exact Hadv |]. split; [exact HPa |].
  split; [exact HQa |]. split; [exact HLa |]. split; [exact Hdata |].
  split; [exact Hex |]. split; [exact Hrun2 | exact Hheap].
Qed.

Lemma sample_yields_callers_arrays_witness :
  exists w' l evs wa Pa,
    sample_upto 2 0 None None 3 1 false world1 = (w', Ok l)
    /\ l_p l = 0
    /\ trace w' = trace world1 ++ evs
    /\ yields evs = [(0, 1, 2); (0, 1, 2)]
    /\ heap world1 !! 0 = Some (np_zeros [1; 1; 1])
    /\ heap wa !! 0 = Some Pa
    /\ data Pa [0; 0; 0] = Fin 7.
Proof.
  destruct (sample_yields_callers_arrays 2 0 None None 3 1 false 0 world1)
    as (w' & l & evs & Hrun & Hp & Ht & Hy & _ & Hnew & _ & _ & Hrounds).
  - exact sampler1_ready.
  - exact world1_args_ok.
  - lia.
  - lia.
  - discriminate.
  - destruct (Hnew (or_introl eq_refl)) as [E1 E2].
    rewrite E1, E2 in Hy.
    destruct (Hrounds 0 ltac:(lia))
      as (w1 & l1 & wa & we & w2 & l2 & P & Q & L & Pa & Qa & La
          & Hrun1 & HP & HQ & HL & _ & HPa & _ & _ & Hadv & _).
    vm_compute in Hrun1. injection Hrun1 as <- <-.
    destruct Hadv as (_ & _ & _ & Hadv).
    destruct (Hadv 0 mover eq_refl)
      as (pin & qin & lin & ps & qs & ls & _ & _ & _ & Hs & (_ & Hd) & _).
    cbn [mover es_sample] in Hs. injection Hs as <- _ _.
    exists w', l, evs, wa, Pa.
    split; [exact Hrun |]. split; [exact Hp |]. split; [exact Ht |].
    split; [exact Hy |]. split; [reflexivity |]. split; [exact HPa |].
    rewrite <- (Hd [0; 0]). reflexivity.
Defined.

(** ** Construction with the default ladder *)

(** X4.  Without a ladder from the caller, construction succeeds for every
    [ntemps]: the ladder, the counters and the list of ensemble samplers
    all have [ntemps] entries, and the sampler of rung [k] gets the
    posterior tempered by entry [k] of the default ladder. *)
Theorem PTSampler_init_default (fe : fp_env) (nt nw d : nat)
    (fl fp : callback) (mk : nat -> nat -> PTPost -> EnsembleSampler) :
  exists s,
    PTSampler_init fe nt nw d fl fp None mk = Ok s
    /\ _betas s = exponential_beta_ladder fe nt
    /\ sampler_wf s
    /\ length (samplers s) = nt
    /\ (forall k, k < nt ->
          samplers s !! k
          = Some (mk nw d {| _logl := fl; _logp := fp;
                             _beta := data (exponential_beta_ladder fe nt)
                                           [k] |}))
    /\ nswap s = np_zeros [nt] /\ nswap_accepted s = np_zeros [nt]
    /\ chain_empty s.
Proof.
  unfold PTSampler_init.
  rewrite (elements_ok _ nt (ladder_shape fe nt)). cbn [res_bind].
  eexists. split; [reflexivity |].
  cbn [_betas ntemps nwalkers dim samplers nswap nswap_accepted].
  split; [reflexivity |].
  split.
  { unfold sampler_wf. cbn [_betas ntemps nswap nswap_accepted np_zeros shape].
    rewrite ladder_shape. repeat split. }
  split. { rewrite !length_map. apply length_seq. }
  split.
  { intros k Hk. rewrite list_lookup_fmap, lookup_map_range by exact Hk.
    reflexivity. }
  repeat split.
Qed.

(** ** Swapping back *)

(** X11.  Swapping the same two walkers a second time puts the positions
    and the log-likelihoods back where they were, entry for entry and
    whatever the values.  The log-posteriors of the two walkers come
    back as [(q + dbeta * l) - dbeta * l] and [(q - dbeta * l) + dbeta * l]
    of what they were: the operations of the two swaps are applied one
    after the other, and floating-point addition does not undo
    itself.  Every other log-posterior is untouched. *)
Theorem swap_walkers_twice (p lnprob logl : loc) (i ii jj : nat)
    (dbeta : float) (w : world) (P Q L : ndarray) :
  state_wf w p lnprob logl ->
  heap w !! p = Some P -> heap w !! lnprob = Some Q ->
  heap w !! logl = Some L ->
  1 <= i < ntemps (self w) ->
  ii < nwalkers (self w) -> jj < nwalkers (self w) ->
  exists w1 w2 P2 Q2 L2,
    swap_walkers p lnprob logl i ii jj dbeta w = (w1, Ok tt)
    /\ swap_walkers p lnprob logl i ii jj dbeta w1 = (w2, Ok tt)
    /\ heap w2 !! p = Some P2 /\ heap w2 !! lnprob = Some Q2
    /\ heap w2 !! logl = Some L2
    /\ shape P2 = shape P /\ shape Q2 = shape Q /\ shape L2 = shape L
    /\ (forall k, data P2 k = data P k)
    /\ (forall k, data L2 k = data L k)
    /\ data Q2 [i; ii]
       = fsub (fadd (data Q [i; ii]) (fmul dbeta (data L [i; ii])))
              (fmul dbeta (data L [i; ii]))
    /\ data Q2 [i - 1; jj]
       = fadd (fsub (data Q [i - 1; jj]) (fmul dbeta (data L [i - 1; jj])))
              (fmul dbeta (data L [i - 1; jj]))
    /\ (forall k, k <> [i; ii] -> k <> [i - 1; jj] -> data Q2 k = data Q k).
Proof.
  intros Hwf HP HQ HL Hi Hii Hjj.
  destruct (swap_walkers_returns p lnprob logl i ii jj dbeta w P Q L
              Hwf HP HQ HL Hi Hii Hjj)
    as (w1 & P1 & Q1 & L1 & Hrun1 & Hwf1 & Hs1 & HP1 & HQ1 & HL1
        & SP1 & SQ1 & SL1 & DP1 & DL1 & DQ1).
  rewrite <- Hs1 in Hi, Hii, Hjj.
  destruct (swap_walkers_returns p lnprob logl i ii jj dbeta w1 P1 Q1 L1
              Hwf1 HP1 HQ1 HL1 Hi Hii Hjj)
    as (w2 & P2 & Q2 & L2 & Hrun2 & _ & _ & HP2 & HQ2 & HL2
        & SP2 & SQ2 & SL2 & DP2 & DL2 & DQ2).
  exists w1, w2, P2, Q2, L2.
  do 5 (split; [assumption |]).
  split; [congruence |]. split; [congruence |]. split; [congruence |].
  assert (Hne : [i - 1; jj] <> [i; ii]) by (intros [= H _]; lia).
  assert (Hne' : [i; ii] <> [i - 1; jj]) by congruence.
  assert (Hi' : (i - 1 =? i) = false) by (apply Nat.eqb_neq; lia).
  assert (Hi'' : (i =? i - 1) = false) by (apply Nat.eqb_neq; lia).
  split; [| split; [| split; [| split]]].
  - intros k. rewrite DP2.
    destruct (starts_with [i - 1; jj] k) eqn:E1.
    + rewrite DP1. cbn [app starts_with]. rewrite Hi', !Nat.eqb_refl.
      cbn [andb skipn]. apply (f_equal (data P)).
      apply (starts_with_split [i - 1; jj] k E1).
    + destruct (starts_with [i; ii] k) eqn:E2.
      * rewrite DP1. cbn [app starts_with]. rewrite !Nat.eqb_refl.
        cbn [andb skipn]. apply (f_equal (data P)).
        apply (starts_with_split [i; ii] k E2).
      * rewrite DP1, E1, E2. reflexivity.
  - intros k. rewrite DL2, !DL1.
    destruct (decide ([i; ii] = [i - 1; jj])); [contradiction |].
    destruct (decide ([i; ii] = [i; ii])); [| contradiction].
    destruct (decide ([i - 1; jj] = [i - 1; jj])); [| contradiction].
    destruct (decide (k = [i - 1; jj])) as [->|N1]; [reflexivity |].
    destruct (decide (k = [i; ii])) as [->|N2]; reflexivity.
  - rewrite DQ2, !DQ1, !DL1.
    destruct (decide ([i; ii] = [i - 1; jj])); [contradiction |].
    destruct (decide ([i; ii] = [i; ii])); [| contradiction].
    destruct (decide ([i - 1; jj] = [i - 1; jj])); [| contradiction].
    reflexivity.
  - rewrite DQ2, !DQ1, !DL1.
    destruct (decide ([i; ii] = [i - 1; jj])); [contradiction |].
    destruct (decide ([i; ii] = [i; ii])); [| contradiction].
    destruct (decide ([i - 1; jj] = [i - 1; jj])); [| contradiction].
    reflexivity.
  - intros k N1 N2. rewrite DQ2.
    destruct (decide (k = [i - 1; jj])); [contradiction |].
    destruct (decide (k = [i; ii])); [contradiction |].
    rewrite DQ1.
    destruct (decide (k = [i - 1; jj])); [contradiction |].
    destruct (decide (k = [i; ii])); [contradiction |]. reflexivity.
Qed.

Lemma swap_walkers_twice_witness :
  exists w1 w2 L2 Q2,
    swap_walkers 0 1 2 1 0 0 (Fin (1 / 2)) world_swap = (w1, Ok tt)
    /\ swap_walkers 0 1 2 1 0 0 (Fin (1 / 2)) w1 = (w2, Ok tt)
    /\ heap w2 !! 2 = Some L2 /\ heap w2 !! 1 = Some Q2
    /\ (forall k, data L2 k = data lnlike_swap k)
    /\ data Q2 [1; 0]
       = fsub (fadd (Fin 1) (fmul (Fin (1 / 2)) (Fin 2)))
              (fmul (Fin (1 / 2)) (Fin 2)).
Proof.
  destruct (swap_walkers_twice 0 1 2 1 0 0 (Fin (1 / 2)) world_swap
              positions_swap lnprob_swap lnlike_swap)
    as (w1 & w2 & P2 & Q2 & L2 & H1 & H2 & _ & HQ2 & HL2 & _ & _ & _ & _
        & HL & HQ & _).
  - apply world0_wf; reflexivity.
  - reflexivity.
  - reflexivity.
  - reflexivity.
  - cbn. lia.
  - cbn. lia.
  - cbn. lia.
  - exists w1, w2, L2, Q2.
    split; [exact H1 |]. split; [exact H2 |]. split; [exact HL2 |].
    split; [exact HQ2 |]. split; [exact HL | exact HQ].
Defined.

(** ** Sampling after a reset *)

(** X14.  A round trip.  Whatever the chain held, after [reset] a call of
    [sample] with storage starts a new chain: it returns and leaves a
    chain of exactly [iterations / thin] steps, of which step [m] holds
    what the three arrays of the joint state held when iteration
    [thin * (m + 1)] of the call yielded.  (The ensemble samplers are
    taken to meet their contract before and after their own reset.) *)
Theorem sample_after_reset (f : EnsembleSampler -> res EnsembleSampler)
    (w : world) (p0 : loc) (lnprob0 lnlike0 : option loc)
    (iterations thin : nat) :
  sampler_ready (self w) -> args_ok w p0 lnprob0 lnlike0 -> 0 < thin ->
  (forall s, advancer_ok (nwalkers (self w)) (dim (self w)) s ->
     exists s', f s = Ok s'
                /\ advancer_ok (nwalkers (self w)) (dim (self w)) s') ->
  exists w1 w2 l evs,
    reset f w = (w1, Ok tt)
    /\ sample p0 lnprob0 lnlike0 iterations thin true w1 = (w2, Ok l)
    /\ trace w2 = trace w ++ evs
    /\ records evs = recorded_steps thin 0 (iterations / thin)
    /\ chain_shape (self w2) (iterations / thin)
    /\ forall m, m < iterations / thin ->
         exists wm lm P Q L,
           sample_upto (thin * (m + 1)) p0 lnprob0 lnlike0 iterations thin
             true w1 = (wm, Ok lm)
           /\ heap wm !! p0 = Some P /\ heap wm !! l_lnprob lm = Some Q
           /\ heap wm !! l_logl lm = Some L
           /\ step_holds (self w2) m P Q L.
Proof.
  intros Hready Hargs Hthin Hf.
  pose proof Hready as ((Sb & Sn & Sa) & Hlen & Hadv).
  destruct (reset_runs f w)
    as (w1 & Hrun & Hempty & Hn & Ha & (Hlen1 & Hdone & _)
        & Hl & Hp & Hnt & Hnw & Hd & Hb & Hh & Hr & Ht).
  { intros s Hs. rewrite Forall_forall in Hadv.
    destruct (Hf s) as (s' & Hs' & _); [| eauto].
    apply Hadv. apply list_elem_of_In. exact Hs. }
  assert (Hready1 : sampler_ready (self w1)).
  { unfold sampler_ready, sampler_wf.
    rewrite Hb, Hn, Ha, Hnt, Hnw, Hd, Hlen1. cbn [np_zeros shape].
    repeat split; try assumption.
    apply Forall_lookup_2. intros k s' Hs'.
    assert (Hk : k < length (samplers (self w)))
      by (rewrite <- Hlen1; eapply lookup_lt_Some; exact Hs').
    destruct (lookup_lt_is_Some_2 _ _ Hk) as [s Hs].
    destruct (Hdone k s Hk Hs) as (s'' & F1 & L1).
    assert (s'' = s') by congruence. subst s''.
    destruct (Hf s) as (s2 & F2 & A2).
    { eapply Forall_lookup_1; [exact Hadv | exact Hs]. }
    assert (s2 = s') by congruence. subst s2. exact A2. }
  assert (Hargs1 : args_ok w1 p0 lnprob0 lnlike0).
  { unfold args_ok, callbacks_total in *.
    rewrite Hh, Hnt, Hnw, Hd, Hl, Hp. exact Hargs. }
  pose proof (sample_upto_wp iterations p0 lnprob0 lnlike0 iterations thin
                true 0 w1 (fun _ => False) Hready1 Hargs1 Hthin
                (Nat.le_refl _)) as Hwp.
  apply wp_returns in Hwp.
  2: { intros _. left. split; [exact Hempty | reflexivity]. }
  destruct Hwp as (l & w2 & Hrun2 & _ & _ & _ & _ & _
                   & (evs & T2 & _ & R2) & Hcs & _).
  exists w1, w2, l, evs. split; [exact Hrun |]. split; [exact Hrun2 |].
  split; [rewrite T2, Ht; reflexivity |].
  split; [exact R2 |]. split; [exact Hcs |].
  destruct (sample_upto_slots iterations p0 lnprob0 lnlike0 iterations thin
              0 w1 Hready1 Hargs1 Hthin (Nat.le_refl _))
    as (w2' & l' & Hrun' & Hslots).
  { left. split; [exact Hempty | reflexivity]. }
  unfold returns, sample in Hrun2. rewrite Hrun2 in Hrun'.
  injection Hrun' as <- <-. exact Hslots.
Qed.

Lemma sample_after_reset_witness :
  exists w1 w2 l wm lm P Q L,
    reset forget world_stored = (w1, Ok tt)
    /\ sample 0 None None 5 2 true w1 = (w2, Ok l)
    /\ chain_shape (self w2) 2
    /\ sample_upto 4 0 None None 5 2 true w1 = (wm, Ok lm)
    /\ heap wm !! 0 = Some P
    /\ step_holds (self w2) 1 P Q L.
Proof.
  destruct (sample_after_reset forget world_stored 0 None None 5 2)
    as (w1 & w2 & l & evs & H1 & H2 & _ & _ & Hc & Hslots).
  - exact sampler_stored_ready.
  - exact world_stored_args_ok.
  - lia.
  - intros s Hs. eexists. split; [reflexivity |]. exact Hs.
  - destruct (Hslots 1 ltac:(cbn; lia))
      as (wm & lm & P & Q & L & Hrm & HP & _ & _ & Hst).
    exists w1, w2, l, wm, lm, P, Q, L.
    split; [exact H1 |]. split; [exact H2 |]. split; [exact Hc |].
    split; [exact Hrm |]. split; [exact HP | exact Hst].
Defined.

(** ** A generator that is not run to its end *)

(** X19.  The chain is extended when the generator is started, before its
    first iteration; so a generator that is abandoned after [k >= 1] of
    its [iterations] yields leaves a chain of the full length
    [n0 + iterations / thin] in which only [k / thin] steps of this
    call are recorded: every later step holds zeros, in all three
    buffers. *)
Theorem sample_stopped_early (k : nat) (p0 : loc)
    (lnprob0 lnlike0 : option loc) (iterations thin n0 : nat) (w : world) :
  sampler_ready (self w) -> args_ok w p0 lnprob0 lnlike0 ->
  0 < thin -> 1 <= k <= iterations -> chain_state (self w) n0 ->
  exists w' l evs,
    sample_upto k p0 lnprob0 lnlike0 iterations thin true w = (w', Ok l)
    /\ trace w' = trace w ++ evs
    /\ records evs = recorded_steps thin n0 (k / thin)
    /\ chain_shape (self w') (n0 + iterations / thin)
    /\ chain_zero_from (n0 + k / thin) (self w').
Proof.
  intros Hready Hargs Hthin [Hk1 Hk] Hch.
  destruct (sample_upto_zero_tail k p0 lnprob0 lnlike0 iterations thin n0 w
              Hready Hargs Hthin Hk Hch) as (w' & l & Hrun & Hz).
  pose proof (sample_upto_wp k p0 lnprob0 lnlike0 iterations thin true n0 w
                (fun _ => False) Hready Hargs Hthin Hk (fun _ => Hch)) as H.
  unfold wp in H. rewrite Hrun in H.
  destruct H as (_ & _ & _ & _ & _ & (evs & Ht & _ & Hrec) & Hcs & _).
  exists w', l, evs. auto.
Qed.

Lemma sample_stopped_early_witness :
  exists w' l C,
    sample_upto 1 0 None None 4 1 true world1 = (w', Ok l)
    /\ chain_shape (self w') 4
    /\ _chain (self w') = Some C
    /\ data C [0; 0; 3; 0] = Fin 0.
Proof.
  destruct (sample_stopped_early 1 0 None None 4 1 0 world1)
    as (w' & l & evs & Hrun & _ & _ & Hcs & Hz & _).
  - exact sampler1_ready.
  - exact world1_args_ok.
  - lia.
  - lia.
  - left. split; [repeat split | reflexivity].
  - pose proof Hcs as (C & _ & _ & HC & _).
    exists w', l, C. split; [exact Hrun |]. split; [exact Hcs |].
    split; [exact HC |].
    apply (Hz C HC [0; 0; 3; 0] 3); [reflexivity | cbn; lia].
Defined.


(** ** The values of the initial log-posteriors *)

(** Lines 166 to 177 as the built-in [map] runs them: the values, and
    the calls in their order. *)
Lemma sample_init_run (p : loc) (lnprob0 lnlike0 : option loc)
    (w : world) (P : ndarray) (LP LL : ndarray -> float) :
  sampler_wf (self w) ->
  heap w !! p = Some P ->
  shape P = [ntemps (self w); nwalkers (self w); dim (self w)] ->
  (forall x, logp (self w) x = Ok (LP x)) ->
  (forall x, logl (self w) x = Ok (LL x)) ->
  lnprob0 = None \/ lnlike0 = None ->
  exists w' Q L,
    sample_init p lnprob0 lnlike0 w
    = (w', Ok (length (heap w), S (length (heap w))))
    /\ heap w' = heap w ++ [Q; L]
    /\ shape Q = [ntemps (self w); nwalkers (self w)]
    /\ shape L = [ntemps (self w); nwalkers (self w)]
    /\ (forall i k, i < ntemps (self w) -> k < nwalkers (self w) ->
          (data Q [i; k], data L [i; k])
          = tempered (data (_betas (self w)) [i])
              (LP (walker_position P i k)) (LL (walker_position P i k)))
    /\ trace w' = trace w
         ++ flat_map (fun i =>
              flat_map (fun k =>
                post_events (LP (walker_position P i k))
                            (walker_position P i k))
                (range (nwalkers (self w))))
              (range (ntemps (self w)))
    /\ self w' = self w /\ rng w' = rng w.
Proof.
  intros (Sb & _ & _) HP SP Hp Hl Hmiss.
  set (nt := ntemps (self w)) in *. set (nw := nwalkers (self w)) in *.
  set (n := length (heap w)).
  pose (val := fun i k =>
    tempered (data (_betas (self w)) [i])
      (LP (walker_position P i k)) (LL (walker_position P i k))).
  pose (evs := fun i =>
    flat_map (fun k => post_events (LP (walker_position P i k))
                                   (walker_position P i k)) (range nw)).
  pose (I := fun (i : nat) (w' : world) =>
    self w' = self w /\ rng w' = rng w
    /\ trace w' = trace w ++ flat_map evs (range i)
    /\ exists Q L,
         heap w' = heap w ++ [Q; L]
         /\ shape Q = [nt; nw] /\ shape L = [nt; nw]
         /\ forall r k, r < i -> k < nw ->
              data Q [r; k] = fst (val r k) /\ data L [r; k] = snd (val r k)).
  assert (Hwp : wp (sample_init p lnprob0 lnlike0)
                  (fun r w' => r = (n, S n) /\ I nt w') (fun _ => False) w).
  { assert (Fresh :
      wp (nt <- attr ntemps ;;
          nw <- attr nwalkers ;;
          lnprob0' <- new_array (np_zeros [nt; nw]) ;;
          lnlike0' <- new_array (np_zeros [nt; nw]) ;;
          for_each (range nt) (fun i =>
            fl <- attr logl ;;
            fp <- attr logp ;;
            b <- betas_item i ;;
            let fn := {| _logl := fl; _logp := fp; _beta := b |} in
            pi <- getsub p [i] 2 ;;
            xs <- lift (rows pi) ;;
            results <- for_map xs (PTPost_call fn) ;;
            setsub lnprob0' [i] 1 (array_of_list (map fst results)) ;;
            setsub lnlike0' [i] 1 (array_of_list (map snd results))) ;;
          ret (lnprob0', lnlike0'))
         (fun r w' => r = (n, S n) /\ I nt w') (fun _ => False) w).
    { apply wp_bind, wp_attr, wp_bind, wp_attr, wp_bind, wp_new_array,
        wp_bind, wp_new_array.
      cbn [heap set_heap]. rewrite length_app. cbn [length].
      rewrite Nat.add_1_r, <- app_assoc. cbn [app].
      fold nt nw n.
      apply wp_bind.
      eapply wp_mono;
        [apply (wp_for_range nt _ I (fun _ => False))
        | | exact (fun _ H => H)].
      - unfold I. cbn [self rng trace heap set_heap].
        split; [reflexivity |]. split; [reflexivity |].
        split; [cbn; rewrite app_nil_r; reflexivity |].
        eexists _, _. split; [reflexivity |].
        split; [reflexivity |]. split; [reflexivity |].
        intros r k Hr. lia.
      - intros i w1 Hi (S1 & R1 & T1 & Q & L & H1 & SQ & SL & V1).
        apply wp_bind, wp_attr, wp_bind, wp_attr. rewrite S1.
        apply wp_bind, betas_item_wp;
          [rewrite S1; exact Sb | rewrite S1; exact Hi |].
        rewrite S1.
        assert (HP1 : heap w1 !! p = Some P).
        { rewrite H1. rewrite lookup_app_l by (eapply lookup_lt_Some; exact HP).
          exact HP. }
        apply wp_bind.
        eapply wp_getsub; [exact HP1 | rewrite SP; solve_bounds ..|].
        apply wp_bind. eapply wp_lift.
        { unfold rows. cbn [shape]. rewrite SP. cbn [length skipn].
          reflexivity. }
        assert (Hxs : map (fun k =>
                        mkarr [dim (self w)]
                          (fun ix => data (mkarr [nw; dim (self w)]
                                             (fun k0 => data P ([i] ++ k0)))
                                       (k :: ix))) (range nw)
                      = map (walker_position P i) (range nw)).
        { apply map_ext. intros k. unfold walker_position. rewrite SP.
          reflexivity. }
        rewrite Hxs.
        apply wp_bind.
        eapply returns_wp.
        { apply (for_map_posts _ LP LL); [exact Hp | exact Hl]. }
        cbn [_beta].
        assert (HQ2 : heap w1 !! n = Some Q).
        { rewrite H1. rewrite lookup_app_r by (unfold n; lia).
          unfold n. rewrite Nat.sub_diag. reflexivity. }
        apply wp_bind.
        eapply wp_setsub;
          [cbn [heap set_trace]; exact HQ2
          | rewrite SQ; solve_bounds ..
          | rewrite SQ; cbn; rewrite !length_map; unfold range; rewrite length_seq; reflexivity |].
        assert (HL2 : forall Q', (<[n := Q']> (heap w1)) !! S n = Some L).
        { intros Q'. rewrite list_lookup_insert_ne by lia.
          rewrite H1. rewrite lookup_app_r by (unfold n; lia).
          unfold n. replace (S (length (heap w)) - length (heap w)) with 1
            by lia. reflexivity. }
        eapply wp_setsub;
          [cbn [heap set_heap set_trace]; apply HL2
          | rewrite SL; solve_bounds ..
          | rewrite SL; cbn; rewrite !length_map; unfold range; rewrite length_seq; reflexivity |].
        unfold I.
        cbn [heap set_heap self set_self rng set_rng trace set_trace].
        split; [exact S1 |]. split; [exact R1 |].
        split.
        { rewrite T1, flat_map_range_S, <- app_assoc. do 2 f_equal.
          unfold evs. rewrite flat_map_concat_map, map_map,
            <- flat_map_concat_map. reflexivity. }
        eexists _, _. split.
        { rewrite H1.
          rewrite insert_app_r_alt by (unfold n; lia).
          rewrite insert_app_r_alt by (unfold n; lia).
          unfold n. rewrite Nat.sub_diag.
          replace (S (length (heap w)) - length (heap w)) with 1 by lia.
          cbn [insert list_insert]. reflexivity. }
        split; [exact SQ |]. split; [exact SL |].
        intros r k Hr Hk. cbn [data starts_with length skipn].
        destruct (Nat.eqb_spec i r) as [<-|Hne].
        + cbn [andb]. rewrite !map_map.
          rewrite <- (map_map (walker_position P i)
                        (fun x => fst (tempered (data (_betas (self w)) [i])
                                         (LP x) (LL x)))).
          rewrite <- (map_map (walker_position P i)
                        (fun x => snd (tempered (data (_betas (self w)) [i])
                                         (LP x) (LL x)))).
          rewrite !array_of_list_entry by exact Hk. split; reflexivity.
        + cbn [andb]. apply V1; [lia | exact Hk].
      - cbn beta. intros u w1 HI. apply wp_ret. split; [reflexivity | exact HI]. }
    unfold sample_init.
    destruct Hmiss as [-> | ->]; [| destruct lnprob0]; exact Fresh. }
  apply wp_returns in Hwp.
  destruct Hwp as (r & w' & Hrun & -> & S1 & R1 & T1 & Q & L & H1 & SQ & SL & V1).
  exists w', Q, L. split; [exact Hrun |]. split; [exact H1 |].
  split; [exact SQ |]. split; [exact SL |].
  split.
  { intros i k Hi Hk. destruct (V1 i k Hi Hk) as [-> ->].
    fold (val i k). destruct (val i k). reflexivity. }
  auto.
Qed.

(** X20.  Lines 166 to 177.  When [lnprob0] or [lnlike0] is missing, both
    are computed anew, in two new arrays of shape [(ntemps, nwalkers)]
    (a single one that was given is not used): entry [(i, k)] of the two
    arrays is the pair the tempered posterior of rung [i] returns for
    walker [k] of rung [i], [(betas[i] * lnlike + lnprior, lnlike)], or
    [(-inf, -inf)] outside the support of the prior.  Nothing but the
    prior and the likelihood is called; the sampler object and the
    random generator are left as they were. *)
Theorem sample_init_values (p : loc) (lnprob0 lnlike0 : option loc)
    (w : world) (P : ndarray) (LP LL : ndarray -> float) :
  sampler_wf (self w) ->
  heap w !! p = Some P ->
  shape P = [ntemps (self w); nwalkers (self w); dim (self w)] ->
  (forall x, logp (self w) x = Ok (LP x)) ->
  (forall x, logl (self w) x = Ok (LL x)) ->
  lnprob0 = None \/ lnlike0 = None ->
  exists w' Q L evs,
    sample_init p lnprob0 lnlike0 w
    = (w', Ok (length (heap w), S (length (heap w))))
    /\ heap w' = heap w ++ [Q; L]
    /\ shape Q = [ntemps (self w); nwalkers (self w)]
    /\ shape L = [ntemps (self w); nwalkers (self w)]
    /\ (forall i k, i < ntemps (self w) -> k < nwalkers (self w) ->
          (data Q [i; k], data L [i; k])
          = tempered (data (_betas (self w)) [i])
              (LP (walker_position P i k)) (LL (walker_position P i k)))
    /\ trace w' = trace w ++ evs /\ Forall is_callback evs
    /\ self w' = self w /\ rng w' = rng w.
Proof.
  intros Hwf HP SP Hp Hl Hmiss.
  destruct (sample_init_run p lnprob0 lnlike0 w P LP LL Hwf HP SP Hp Hl Hmiss)
    as (w' & Q & L & Hrun & Hh & SQ & SL & Hv & Ht & Hs & Hr).
  exists w', Q, L. eexists.
  split; [exact Hrun |]. split; [exact Hh |]. split; [exact SQ |].
  split; [exact SL |]. split; [exact Hv |]. split; [exact Ht |].
  split; [| split; [exact Hs | exact Hr]].
  apply List.Forall_forall. intros e He.
  apply List.in_flat_map in He. destruct He as (i & _ & He).
  apply List.in_flat_map in He. destruct He as (k & _ & He).
  unfold post_events in He.
  destruct (feq _ _); cbn in He; intuition (subst; exact I).
Qed.

Lemma sample_init_values_witness :
  exists w' Q L,
    sample_init 0 None None world1 = (w', Ok (1, 2))
    /\ heap w' = heap world1 ++ [Q; L]
    /\ (data Q [0; 0], data L [0; 0])
       = tempered (Fin 1) (Fin 0) (Fin 0).
Proof.
  destruct (sample_init_values 0 None None world1 (np_zeros [1; 1; 1])
              (fun _ => Fin 0) (fun _ => Fin 0))
    as (w' & Q & L & evs & Hrun & Hh & _ & _ & Hv & _).
  - apply sampler1_ready.
  - reflexivity.
  - reflexivity.
  - reflexivity.
  - reflexivity.
  - left. reflexivity.
  - exists w', Q, L. split; [exact Hrun |]. split; [exact Hh |].
    apply (Hv 0 0); cbn; lia.
Defined.


(** ** Exceptions of the prior inside [sample] *)

(** The built-in [map] stops at the first walker whose prior raises. *)
Lemma sample_prior_raises_first (k : nat) (p0 : loc)
    (lnprob0 lnlike0 : option loc) (iterations thin : nat)
    (storechain : bool) (w : world) (P : ndarray) (e : exn) :
  sampler_wf (self w) ->
  heap w !! p0 = Some P ->
  shape P = [ntemps (self w); nwalkers (self w); dim (self w)] ->
  0 < ntemps (self w) -> 0 < nwalkers (self w) ->
  lnprob0 = None \/ lnlike0 = None ->
  logp (self w) (walker_position P 0 0) = Raise e ->
  exists w',
    sample_upto k p0 lnprob0 lnlike0 iterations thin storechain w
    = (w', Raise e)
    /\ trace w' = trace w ++ [EvLogp (walker_position P 0 0)]
    /\ self w' = self w /\ rng w' = rng w
    /\ heap w' = heap w ++ [np_zeros [ntemps (self w); nwalkers (self w)];
                            np_zeros [ntemps (self w); nwalkers (self w)]].
Proof.
  intros (Sb & _ & _) HP SP Hnt Hnw Hmiss He.
  assert (Hinit :
    sample_init p0 lnprob0 lnlike0 w
    = (set_trace (trace w ++ [EvLogp (walker_position P 0 0)])
         (set_heap (heap w ++ [np_zeros [ntemps (self w); nwalkers (self w)];
                               np_zeros [ntemps (self w); nwalkers (self w)]])
            w),
       Raise e)).
  { assert (Fresh :
      (nt <- attr ntemps ;;
       nw <- attr nwalkers ;;
       lnprob0' <- new_array (np_zeros [nt; nw]) ;;
       lnlike0' <- new_array (np_zeros [nt; nw]) ;;
       for_each (range nt) (fun i =>
         fl <- attr logl ;;
         fp <- attr logp ;;
         b <- betas_item i ;;
         let fn := {| _logl := fl; _logp := fp; _beta := b |} in
         pi <- getsub p0 [i] 2 ;;
         xs <- lift (rows pi) ;;
         results <- for_map xs (PTPost_call fn) ;;
         setsub lnprob0' [i] 1 (array_of_list (map fst results)) ;;
         setsub lnlike0' [i] 1 (array_of_list (map snd results))) ;;
       ret (lnprob0', lnlike0')) w
      = (set_trace (trace w ++ [EvLogp (walker_position P 0 0)])
           (set_heap
              (heap w ++ [np_zeros [ntemps (self w); nwalkers (self w)];
                          np_zeros [ntemps (self w); nwalkers (self w)]])
              w),
         Raise e)).
    { unfold bind at 1. unfold attr at 1. unfold bind at 1. unfold attr at 1.
      unfold bind at 1. unfold new_array at 1. unfold bind at 1.
      unfold new_array at 1. cbn [heap set_heap].
      rewrite <- app_assoc. cbn [app].
      set (w1 := set_heap _ (set_heap _ w)).
      assert (HP1 : heap w1 !! p0 = Some P).
      { unfold w1. cbn [heap set_heap].
        rewrite lookup_app_l by (eapply lookup_lt_Some; exact HP). exact HP. }
      unfold bind at 1.
      destruct (ntemps (self w)) as [|nt] eqn:Ent; [lia |].
      unfold range at 1. cbn [seq for_each].
      unfold bind at 1. unfold bind at 1. unfold attr at 1.
      unfold bind at 1. unfold attr at 1. unfold bind at 1.
      unfold betas_item at 1. unfold bind at 1. unfold attr at 1.
      unfold lift at 1. unfold item at 1.
      change (self w1) with (self w). rewrite Sb. cbn [in_bounds Nat.ltb Nat.leb andb].
      unfold bind at 1.
      rewrite (getsub_returns p0 [0] 2 w1 P HP1);
        [| rewrite SP; cbn; lia | rewrite SP; solve_bounds].
      unfold bind at 1. unfold lift at 1. unfold rows at 1.
      cbn [shape]. rewrite SP. cbn [length skipn].
      destruct (nwalkers (self w)) as [|nw] eqn:Enw; [lia |].
      unfold range at 1. cbn [seq map for_map].
      unfold bind at 1. unfold bind at 1.
      unfold PTPost_call at 1. unfold bind at 1. unfold log at 1.
      unfold bind at 1. unfold lift at 1. cbn [_logp].
      unfold walker_position in He. rewrite SP in He. cbn [skipn] in He.
      change (logp (self w)
                (mkarr [dim (self w)]
                   (fun ix => data (mkarr [S nw; dim (self w)]
                                      (fun k0 => data P ([0] ++ k0)))
                                (0 :: ix))))
        with (logp (self w)
                (mkarr [dim (self w)] (fun ix => data P (0 :: 0 :: ix)))).
      rewrite He. unfold walker_position. rewrite SP. reflexivity. }
    unfold sample_init.
    destruct Hmiss as [-> | ->]; [| destruct lnprob0]; exact Fresh. }
  eexists. split.
  { unfold sample_upto, sample_prologue. unfold bind at 1. unfold bind at 1.
    unfold bind at 1. rewrite Hinit. reflexivity. }
  cbn. auto.
Qed.

(** X24.  A prior that raises makes [sample] raise.  When the prior
    raises [e] wherever it is asked and [lnprob0] or [lnlike0] is
    missing, the first [next()] of the generator raises [e], whatever
    [iterations], [thin] and [storechain] are: by then only the prior
    has been called, no rung has been advanced, and the sampler object
    (no chain has been allocated) and the random generator are as they
    were. *)
Theorem sample_prior_failure (k : nat) (p0 : loc)
    (lnprob0 lnlike0 : option loc) (iterations thin : nat)
    (storechain : bool) (w : world) (P : ndarray) (e : exn) :
  sampler_wf (self w) ->
  heap w !! p0 = Some P ->
  shape P = [ntemps (self w); nwalkers (self w); dim (self w)] ->
  0 < ntemps (self w) -> 0 < nwalkers (self w) ->
  lnprob0 = None \/ lnlike0 = None ->
  (forall x, logp (self w) x = Raise e) ->
  1 <= k ->
  exists w' evs,
    sample_upto k p0 lnprob0 lnlike0 iterations thin storechain w
    = (w', Raise e)
    /\ trace w' = trace w ++ evs
    /\ Forall (fun ev => exists x, ev = EvLogp x) evs
    /\ self w' = self w /\ rng w' = rng w
    /\ heap w' = heap w ++ [np_zeros [ntemps (self w); nwalkers (self w)];
                            np_zeros [ntemps (self w); nwalkers (self w)]].
Proof.
  intros Hwf HP SP Hnt Hnw Hmiss He Hk.
  destruct (sample_prior_raises_first k p0 lnprob0 lnlike0 iterations thin
              storechain w P e Hwf HP SP Hnt Hnw Hmiss (He _))
    as (w' & Hrun & Ht & Hs & Hr & Hh).
  exists w', [EvLogp (walker_position P 0 0)].
  split; [exact Hrun |]. split; [exact Ht |].
  split; [repeat constructor; eexists; reflexivity |].
  split; [exact Hs |]. split; [exact Hr | exact Hh].
Qed.

Lemma sample_prior_failure_witness :
  exists w' evs,
    sample_upto 1 0 None None 4 2 true world_no_prior
    = (w', Raise (UserError 3))
    /\ trace w' = trace world_no_prior ++ evs
    /\ self w' = self world_no_prior.
Proof.
  destruct (sample_prior_failure 1 0 None None 4 2 true world_no_prior
              (np_zeros [1; 1; 1]) (UserError 3))
    as (w' & evs & Hrun & Ht & _ & Hs & _).
  - repeat split.
  - reflexivity.
  - reflexivity.
  - cbn. lia.
  - cbn. lia.
  - left. reflexivity.
  - intros x. reflexivity.
  - lia.
  - exists w', evs. split; [exact Hrun |]. split; [exact Ht | exact Hs].
Defined.


(** ** The acceptance test at its edges *)

(** X25.  The test of line 236 where [paccept] is not an ordinary number
    and where the uniform draw is [0].  For [paccept = +inf] (and for
    every [paccept > 0]) the trial is accepted and [rand()] is not
    called.  For [paccept = -inf] and for [paccept = nan] a uniform
    number is drawn and the trial is rejected whatever it is: no
    number is below [-inf], and every comparison with [nan] is false.
    For a finite [paccept <= 0] the draw [u = 0] is accepted, [log(0)]
    being [-inf]. *)
Theorem swap_acceptance_rule (p lnprob logl : loc) (i : nat) (dbeta : float)
    (w : world) (L : ndarray) :
  state_wf w p lnprob logl ->
  heap w !! logl = Some L ->
  1 <= i < ntemps (self w) -> 0 < nwalkers (self w) ->
  exists w' acc,
    swap_trial p lnprob logl i dbeta w = (w', Ok tt)
    /\ trace w' = trace w
         ++ [EvTrial i (trial_ii w) (trial_jj w)
               (trial_paccept i dbeta L w) acc]
    /\ (flt (Fin 0) (trial_paccept i dbeta L w) = true ->
        acc = true /\ upos (rng w') = upos (rng w))
    /\ (trial_paccept i dbeta L w = PInf ->
        acc = true /\ upos (rng w') = upos (rng w))
    /\ (trial_paccept i dbeta L w = NInf \/ trial_paccept i dbeta L w = NaN ->
        acc = false /\ upos (rng w') = S (upos (rng w)))
    /\ (forall a, trial_paccept i dbeta L w = Fin a -> (a <= 0)%R ->
        uval (unifs (rng w) (upos (rng w))) = 0%R ->
        acc = true /\ upos (rng w') = S (upos (rng w))).
Proof.
  intros Hwf HL Hi Hnw.
  destruct (swap_trial_draws p lnprob logl i dbeta w L Hwf HL Hi Hnw)
    as (w' & Hrun & Ht & Hr & _).
  exists w', (trial_accepted i dbeta L w).
  split; [exact Hrun |]. split; [exact Ht |].
  rewrite Hr. cbn [after_trial upos]. unfold trial_accepted.
  set (lu := np_log (Fin (uval (unifs (rng w) (upos (rng w)))))).
  split; [| split; [| split]].
  - intros ->. auto.
  - intros ->. cbn. auto.
  - intros [-> | ->]; destruct lu; cbn; auto.
  - intros a -> Ha Hu. subst lu. rewrite Hu. cbn [flt np_log].
    destruct (Rlt_dec 0 a) as [Hlt|_]; [lra |].
    destruct (Rlt_dec 0 0) as [Hlt|_]; [lra |].
    destruct (Req_dec_T 0 0) as [_|Hne]; [| contradiction].
    cbn. auto.
Qed.

Lemma swap_acceptance_rule_witness :
  exists w' acc,
    swap_trial 0 1 2 1 (Fin (1 / 2)) world_swap = (w', Ok tt)
    /\ trace w' = [EvTrial 1 0 0 (trial_paccept 1 (Fin (1 / 2)) lnlike_swap
                                    world_swap) acc].
Proof.
  destruct (swap_acceptance_rule 0 1 2 1 (Fin (1 / 2)) world_swap lnlike_swap)
    as (w' & acc & Hrun & Ht & _).
  - apply world0_wf; reflexivity.
  - reflexivity.
  - cbn. lia.
  - cbn. lia.
  - exists w', acc. split; [exact Hrun | exact Ht].
Defined.
